(** * IND.Math BLAS / LAPACK sample: a shallow embedding and its properties

    The C++ sources are templates over a scalar type [T_Scalar] and an
    addressing policy [Lyt].  The embedding follows that design:

    - the scalar type is an interface ([Scalar]), whose members are the
      operations the templates ask of [T_Scalar] (arithmetic, comparisons,
      [Abs], [Sqrt], [Hypot], [CopySign], [IsUndefined] and the
      [numeric_limits] constants).  It is instantiated with the real numbers
      (exact arithmetic) and with IEEE binary64 (the [Float64] of the
      sample program);
    - a pointer argument is the array it points into, indexed by the signed
      offset from the pointer ([Arr]); [p + k] is [shift p k];
    - a matrix block [(A_, A_ld)] read through [Lyt::MatRef] is the map from
      the logical index pair [(i, j)] to the element ([Mat]); the choice
      between row-major and column-major storage is not modelled;
    - [Size] and [Index] values are integers [Z]; the two places where the
      unsigned wrap-around of [Size] matters are written with [Size_wrap];
    - [throw BadArgument{...}] is the [Throw] outcome of the [result] monad;
      a [while] or [do ... while] loop whose trip count depends on scalar
      values takes fuel, and running out of it is the [OutOfFuel] outcome. *)

From Stdlib Require Import ZArith List Bool String Lia.
From Stdlib Require Import Reals Lra.
From Stdlib Require Import SpecFloat.
Import ListNotations.

Local Open Scope Z_scope.

(** ** Integers of the library: [Size] (unsigned) and [Index] (signed) *)

Definition Size_bits : Z := 64.

(** Reduction of an integer to the range of [Size = std::size_t]. *)
Definition Size_wrap (z : Z) : Z := z mod 2 ^ Size_bits.

(** The conversion [(Index)s] of a [Size] to [Index = std::ptrdiff_t]. *)
Definition to_Index (s : Z) : Z :=
  (s + 2 ^ (Size_bits - 1)) mod 2 ^ Size_bits - 2 ^ (Size_bits - 1).

(** ** Outcomes: return, [throw BadArgument], or fuel exhausted *)

Record BadArgument : Type := mkBadArgument { message : string; arg : Z }.

Inductive result (A : Type) : Type :=
| Ok (a : A)
| Throw (ex : BadArgument)
| OutOfFuel.

Arguments Ok {A} a.
Arguments Throw {A} ex.
Arguments OutOfFuel {A}.

Definition bind {A B : Type} (m : result A) (k : A -> result B) : result B :=
  match m with
  | Ok a => k a
  | Throw ex => Throw ex
  | OutOfFuel => OutOfFuel
  end.

Notation "x <- m ;; k" := (bind m (fun x => k))
  (at level 61, m at next level, right associativity).
Notation "' p <- m ;; k" := (bind m (fun x => match x with p => k end))
  (at level 61, p pattern, m at next level, right associativity).

(** ** Arrays and matrix blocks *)

Definition Arr (T : Type) : Type := Z -> T.
Definition Mat (T : Type) : Type := Z -> Z -> T.

Definition upd {T : Type} (a : Arr T) (i : Z) (v : T) : Arr T :=
  fun j => if Z.eqb j i then v else a j.

Definition mupd {T : Type} (A : Mat T) (i j : Z) (v : T) : Mat T :=
  fun i' j' => if (Z.eqb i' i && Z.eqb j' j)%bool then v else A i' j'.

(** [p + k] for a pointer [p]. *)
Definition shift {T : Type} (a : Arr T) (k : Z) : Arr T := fun i => a (i + k).

(** The array seen from [p] when [r] is what a callee left behind [p + k]. *)
Definition unshift {T : Type} (r : Arr T) (k : Z) : Arr T := fun i => r (i - k).

(** [Lyt::BlkPtr( A_, i0, j0, A_ld )]: the block whose origin is [(i0, j0)]. *)
Definition Blk {T : Type} (A : Mat T) (i0 j0 : Z) : Mat T :=
  fun i j => A (i + i0) (j + j0).

Definition unBlk {T : Type} (R : Mat T) (i0 j0 : Z) : Mat T :=
  fun i j => R (i - i0) (j - j0).

Definition of_list {T : Type} (dflt : T) (l : list T) : Arr T :=
  fun i => if Z.ltb i 0 then dflt else nth (Z.to_nat i) l dflt.

Definition to_list {T : Type} (n : nat) (a : Arr T) : list T :=
  map (fun i => a (Z.of_nat i)) (seq 0 n).

(** ** Counted loops *)

(** [for( i = lo; ...; ++i )] run [count] times. *)
Fixpoint for_up {S : Type} (count : nat) (i : Z) (body : Z -> S -> S) (s : S) : S :=
  match count with
  | O => s
  | S c => for_up c (i + 1) body (body i s)
  end.

(** [for( i = hi; ...; --i )] run [count] times. *)
Fixpoint for_down {S : Type} (count : nat) (i : Z) (body : Z -> S -> S) (s : S) : S :=
  match count with
  | O => s
  | S c => for_down c (i - 1) body (body i s)
  end.

Fixpoint forM_up {S : Type} (count : nat) (i : Z)
  (body : Z -> S -> result S) (s : S) : result S :=
  match count with
  | O => Ok s
  | S c => s' <- body i s ;; forM_up c (i + 1) body s'
  end.

Fixpoint forM_down {S : Type} (count : nat) (i : Z)
  (body : Z -> S -> result S) (s : S) : result S :=
  match count with
  | O => Ok s
  | S c => s' <- body i s ;; forM_down c (i - 1) body s'
  end.

(** ** The scalar interface *)

Class Scalar (T : Type) : Type := {
  of_int : Z -> T;
  add : T -> T -> T;
  sub : T -> T -> T;
  mul : T -> T -> T;
  div : T -> T -> T;
  neg : T -> T;
  eqb : T -> T -> bool;
  ltb : T -> T -> bool;
  leb : T -> T -> bool;
  Abs : T -> T;
  Sqrt : T -> T;
  Hypot : T -> T -> T;
  CopySign : T -> T -> T;
  IsUndefined : T -> bool;
  undefined : T;
  minValue : T;
  maxValue : T;
  epsilon : T
}.

Infix "[+]" := add (at level 50, left associativity).
Infix "[-]" := sub (at level 50, left associativity).
Infix "[*]" := mul (at level 40, left associativity).
Infix "[/]" := div (at level 40, left associativity).
Infix "[==]" := eqb (at level 70, no associativity).
Infix "[<]" := ltb (at level 70, no associativity).
Infix "[<=]" := leb (at level 70, no associativity).
Notation "x [>] y" := (ltb y x) (at level 70, no associativity, only parsing).
Notation "x [>=] y" := (leb y x) (at level 70, no associativity, only parsing).
Notation "x [!=] y" := (negb (eqb x y)) (at level 70, no associativity, only parsing).

Inductive Trnsp : Type := Trnsp_No | Trnsp_Yes | Trnsp_Conj.
Inductive Half : Type := Half_Upper | Half_Lower | Half_Both.
Inductive Diag : Type := Diag_IsUnit | Diag_NotUnit.
Inductive Side : Type := Side_Left | Side_Right.
Inductive NormType : Type := NormType_Max | NormType_One | NormType_Inf | NormType_Frob.
Inductive Pivot : Type := Pivot_Btm | Pivot_Top | Pivot_Var.
Inductive Direct : Type := Direct_Fwd | Direct_Bwd.

Definition Half_eqb (a b : Half) : bool :=
  match a, b with
  | Half_Upper, Half_Upper | Half_Lower, Half_Lower | Half_Both, Half_Both => true
  | _, _ => false
  end.

Section Common.
Context {T : Type} `{Scalar T}.

(** [T_Value( 0 )], also the value of [T_Value{}]. *)
Definition zero : T := of_int 0.
(** [unit< T_Value >]. *)
Definition unit : T := of_int 1.

Definition IsZero (x : T) : bool := of_int 0 [==] x.
Definition IsUnit (x : T) : bool := unit [==] x.

Definition IntSignOrZero (x : T) : Z :=
  if x [>] of_int 0 then 1 else if x [<] of_int 0 then -1 else 0.

Definition Sqr (x : T) : T := x [*] x.
Definition Inv (x : T) : T := of_int 1 [/] x.

Definition Clamp (value lo hi : T) : T :=
  if value [>] hi then hi else if value [<] lo then lo else value.

Definition Max (a b : T) : T := if a [>] b then a else b.

(** [_n_Impl::_oneHalf< T_Scalar >]. *)
Definition _oneHalf : T := Inv (of_int 2).

(** *** BLAS level 1 (IND.Math.BLAS.Vec_X.inl)

    A vector argument is a pointer [x] and a stride [x_s]; the loops bump the
    pointer by [x_s], so that pass [i] works on [x (i * x_s)]. *)

Definition Vec_Zero (n : Z) (x : Arr T) (x_s : Z) : Arr T :=
  for_up (Z.to_nat n) 0 (fun i x => upd x (i * x_s) zero) x.

Definition Vec_Scale (n : Z) (alpha : T) (x : Arr T) (x_s : Z) : Arr T :=
  let x := if IsZero alpha then Vec_Zero n x x_s else x in
  if negb (IsUnit alpha)
  then for_up (Z.to_nat n) 0 (fun i x => upd x (i * x_s) (x (i * x_s) [*] alpha)) x
  else x.

(** [y := alpha*x + y]. *)
Definition Vec_AXPlusY (n : Z) (alpha : T) (x : Arr T) (x_s : Z)
  (y : Arr T) (y_s : Z) : Arr T :=
  for_up (Z.to_nat n) 0
    (fun i y => upd y (i * y_s) (y (i * y_s) [+] alpha [*] x (i * x_s))) y.

(** The body of the scaled loop of [Vec_Norm2] ([isExact] is [false] for
    every scalar type of the library). *)
Definition Vec_Norm2_step (x : Arr T) (x_s : Z) (i : Z) (st : T * T * T) : T * T * T :=
  let '(scale, ssq, norm) := st in
  let xi := Abs (x (i * x_s)) in
  let '(scale, ssq) :=
    if negb (IsZero xi)
    then if scale [>=] xi
         then (scale, ssq [+] Sqr (xi [/] scale))
         else (xi, unit [+] ssq [*] Sqr (scale [/] xi))
    else (scale, ssq) in
  (scale, ssq, scale [*] Sqrt ssq).

Definition Vec_Norm2 (n : Z) (x : Arr T) (x_s : Z) : T :=
  if n =? 0 then zero
  else if n =? 1 then Abs (x 0)
  else
    let '(_, _, norm) :=
      for_up (Z.to_nat n) 0 (Vec_Norm2_step x x_s) (zero, unit, zero) in
    norm.

(** *** Vec_Rescl (IND.Math.LAPACK.Vec_Rescl.inl, after [dlascl]) *)

(** One pass of the [do ... while( ! done )] loop: the factor [alpha], the
    flag [done] and the new [cfromc], [ctoc]. *)
Definition Vec_Rescl_pass (cfromc ctoc : T) : T * bool * T * T :=
  let smlnum := minValue in
  let bignum := Inv smlnum in
  let cfrom1 := cfromc [*] smlnum in
  if cfrom1 [==] cfromc
  then (ctoc [/] cfromc, true, cfromc, ctoc)
  else
    let cto1 := ctoc [/] bignum in
    if cto1 [==] ctoc
    then (ctoc, true, unit, ctoc)
    else if (Abs cfrom1 [>] Abs ctoc) && negb (IsZero ctoc)
    then (smlnum, false, cfrom1, ctoc)
    else if Abs cto1 [>] Abs cfromc
    then (bignum, false, cfromc, cto1)
    else (ctoc [/] cfromc, true, cfromc, ctoc).

Fixpoint Vec_Rescl_loop (fuel : nat) (cfromc ctoc : T) (n : Z)
  (x : Arr T) (x_s : Z) : result (Arr T) :=
  match fuel with
  | O => OutOfFuel
  | S fuel' =>
      let '(alpha, done, cfromc', ctoc') := Vec_Rescl_pass cfromc ctoc in
      let x := Vec_Scale n alpha x x_s in
      if done then Ok x else Vec_Rescl_loop fuel' cfromc' ctoc' n x x_s
  end.

Definition Vec_Rescl (fuel : nat) (cfrom cto : T) (n : Z)
  (x : Arr T) (x_s : Z) : result (Arr T) :=
  if IsZero cfrom || IsUndefined cfrom
  then Throw (mkBadArgument "Vec_Rescl" 1)
  else if IsUndefined cto
  then Throw (mkBadArgument "Vec_Rescl" 2)
  else if n =? 0 then Ok x
  else if cfrom [==] cto then Ok x
  else Vec_Rescl_loop fuel cfrom cto n x x_s.

(** *** Vec_SmSqr (after [dlassq]) and Aux_CombSsq2 (after [dcombssq]) *)

Definition Vec_SmSqr (n : Z) (x : Arr T) (x_s : Z) (scale sumsq : T) : T * T :=
  if 0 =? n then (scale, sumsq)
  else
    for_up (Z.to_nat (to_Index n)) 0
      (fun i '(scale, sumsq) =>
         let absxi := Abs (x (i * x_s)) in
         if (0 <? IntSignOrZero absxi) || IsUndefined absxi
         then if scale [<] absxi
              then (absxi, unit [+] sumsq [*] Sqr (scale [/] absxi))
              else (scale, sumsq [+] Sqr (absxi [/] scale))
         else (scale, sumsq))
      (scale, sumsq).

(** [v1] and [v2] are the two-element arrays [(scale, sumsq)]; the result is
    the new [v1]. *)
Definition Aux_CombSsq2 (v1 v2 : T * T) : T * T :=
  let '(v1_0, v1_1) := v1 in
  let '(v2_0, v2_1) := v2 in
  if v1_0 [>=] v2_0
  then if of_int 0 [!=] v1_0
       then (v1_0, v2_1 [+] Sqr (v2_0 [/] v1_0) [*] v2_1)
       else (v1_0, v1_1 [+] v2_1)
  else (v2_0, v2_1 [+] Sqr (v1_0 [/] v2_0) [*] v1_1).

(** *** Syt_Norm (after [dlanst]) *)

Definition Syt_Norm (normType : NormType) (n : Z) (d e : Arr T) : T :=
  if n =? 0 then zero
  else
    match normType with
    | NormType_Max =>
        for_up (Z.to_nat (to_Index (n - 1))) 0
          (fun i anorm =>
             let sum := Abs (d i) in
             let anorm := if (anorm [<] sum) || IsUndefined sum then sum else anorm in
             let sum := Abs (e i) in
             if (anorm [<] sum) || IsUndefined sum then sum else anorm)
          (Abs (d (n - 1)))
    | NormType_One | NormType_Inf =>
        if n =? 1 then Abs (d 0)
        else
          let anorm := Abs (d 0) [+] Abs (e 0) in
          let sum := Abs (e (n - 2)) [+] Abs (d (n - 1)) in
          let anorm := if (anorm [<] sum) || IsUndefined sum then sum else anorm in
          for_up (Z.to_nat (to_Index (n - 1) - 1)) 1
            (fun i anorm =>
               let sum := Abs (d i) [+] Abs (e i) [+] Abs (e (i - 1)) in
               if (anorm [<] sum) || IsUndefined sum then sum else anorm)
            anorm
    | NormType_Frob =>
        let '(scale, sum) :=
          if 1 <? n
          then let '(scale, sum) := Vec_SmSqr (n - 1) e 1 zero zero in
               (scale, sum [*] of_int 2)
          else (zero, zero) in
        let '(scale, sum) := Vec_SmSqr n d 1 scale sum in
        scale [*] Sqrt sum
    end.

(** *** Aux_Eig2 (after [dlae2]) and Aux_EigVec2 (after [dlaev2])

    The callers pass [d[k]] both as [a] and as [rt1] (and [d[k+1]] as [c] and
    [rt2]).  Both routines read [a] and [c] only before the first write to
    [rt1]: [sm], [df], [acmx] and [acmn] are copies.  The functions below
    therefore take the values of [a], [b], [c] and return the outputs. *)

Definition Eig2_rt (adf ab : T) : T :=
  if adf [>] ab then adf [*] Hypot unit (ab [/] adf)
  else if adf [<] ab then ab [*] Hypot unit (adf [/] ab)
  else ab [*] Sqrt (of_int 2).

Definition Aux_Eig2 (a b c : T) : T * T :=
  let sm := a [+] c in
  let df := a [-] c in
  let adf := Abs df in
  let tb := b [+] b in
  let ab := Abs tb in
  let '(acmx, acmn) := if Abs a [>] Abs c then (a, c) else (c, a) in
  let rt := Eig2_rt adf ab in
  match IntSignOrZero sm with
  | -1 =>
      let rt1 := _oneHalf [*] (sm [-] rt) in
      (rt1, (acmx [/] rt1) [*] acmn [-] (b [/] rt1) [*] b)
  | 1 =>
      let rt1 := _oneHalf [*] (sm [+] rt) in
      (rt1, (acmx [/] rt1) [*] acmn [-] (b [/] rt1) [*] b)
  | _ => (_oneHalf [*] rt, neg _oneHalf [*] rt)
  end.

(** Returns [(rt1, rt2, cs1, sn1)]. *)
Definition Aux_EigVec2 (a b c : T) : T * T * T * T :=
  let sm := a [+] c in
  let df := a [-] c in
  let adf := Abs df in
  let tb := b [+] b in
  let ab := Abs tb in
  let '(acmx, acmn) := if Abs a [>] Abs c then (a, c) else (c, a) in
  let rt := Eig2_rt adf ab in
  let '(rt1, rt2, sgn1) :=
    match IntSignOrZero sm with
    | -1 =>
        let rt1 := _oneHalf [*] (sm [-] rt) in
        (rt1, (acmx [/] rt1) [*] acmn [-] (b [/] rt1) [*] b, -1)
    | 1 =>
        let rt1 := _oneHalf [*] (sm [+] rt) in
        (rt1, (acmx [/] rt1) [*] acmn [-] (b [/] rt1) [*] b, 1)
    | _ => (_oneHalf [*] rt, neg _oneHalf [*] rt, 1)
    end in
  let '(cs, sgn2) :=
    if 0 <=? IntSignOrZero df then (df [+] rt, 1) else (df [-] rt, -1) in
  let acs := Abs cs in
  let '(cs1, sn1) :=
    if acs [>] ab
    then let ct := neg tb [/] cs in
         let sn1 := Inv (Hypot unit ct) in
         (ct [*] sn1, sn1)
    else if IsZero ab
    then (unit, zero)
    else let tn := neg cs [/] tb in
         let cs1 := Inv (Hypot unit tn) in
         (cs1, tn [*] cs1) in
  let '(cs1, sn1) := if sgn1 =? sgn2 then (neg sn1, cs1) else (cs1, sn1) in
  (rt1, rt2, cs1, sn1).

(** *** Aux_PlnRot2 (after [dlartg]); returns [(cs, sn, r)] *)

(** [do { ++count; f1 *= m; g1 *= m; scale = Max( Abs(f1), Abs(g1) ); }
    while( again scale )]. *)
Fixpoint PlnRot2_rescale (fuel : nat) (m : T) (again : T -> bool)
  (count : nat) (f1 g1 : T) : result (nat * T * T) :=
  match fuel with
  | O => OutOfFuel
  | S fuel' =>
      let count := S count in
      let f1 := f1 [*] m in
      let g1 := g1 [*] m in
      let scale := Max (Abs f1) (Abs g1) in
      if again scale
      then PlnRot2_rescale fuel' m again count f1 g1
      else Ok (count, f1, g1)
  end.

(** [while( count-- ){ r *= m; }]. *)
Fixpoint PlnRot2_unscale (count : nat) (m r : T) : T :=
  match count with
  | O => r
  | S c => PlnRot2_unscale c m (r [*] m)
  end.

Definition Aux_PlnRot2 (fuel : nat) (f g : T) : result (T * T * T) :=
  if IsZero g then Ok (unit, zero, f)
  else if IsZero f then Ok (zero, unit, g)
  else
    let safmin := minValue in
    let safmax := maxValue in
    let scale := Max (Abs f) (Abs g) in
    '(cs, sn, r) <-
      (if scale [>=] safmax
       then
         '(count, f1, g1) <-
           PlnRot2_rescale fuel safmin (fun scale => safmax [>=] scale) O f g ;;
         let r := Hypot f1 g1 in
         Ok (f1 [/] r, g1 [/] r, PlnRot2_unscale count safmax r)
       else if scale [<=] safmin
       then
         '(count, f1, g1) <-
           PlnRot2_rescale fuel safmax (fun scale => scale [<=] safmin) O f g ;;
         let r := Hypot f1 g1 in
         Ok (f1 [/] r, g1 [/] r, PlnRot2_unscale count safmin r)
       else
         let r := Hypot f g in
         Ok (f [/] r, g [/] r, r)) ;;
    if (Abs f [>] Abs g) && (IntSignOrZero cs <? 0)
    then Ok (neg cs, neg sn, neg r)
    else Ok (cs, sn, r).

End Common.

(** ** BLAS level 2 *)

Section Level2.
Context {T : Type} `{Scalar T}.

(** [Conj] of a real scalar. *)
Definition Conj (x : T) : T := x.

(** [y := alpha*Conj(x) + y]. *)
Definition Vec_AConjXPlusY (n : Z) (alpha : T) (x : Arr T) (x_s : Z)
  (y : Arr T) (y_s : Z) : Arr T :=
  for_up (Z.to_nat n) 0
    (fun i y => upd y (i * y_s) (y (i * y_s) [+] alpha [*] Conj (x (i * x_s)))) y.

(** Column [j] and row [i] of a block, as the vectors that [Lyt::ColPtr] and
    [Lyt::RowPtr] give together with the strides [A_cs] and [A_rs]. *)
Definition Col (A : Mat T) (j : Z) : Arr T := fun i => A i j.
Definition Row (A : Mat T) (i : Z) : Arr T := fun j => A i j.

(** Mat_VecMul (after [dgemv]): [y := alpha*A*x + beta*y] or
    [y := alpha*(~A)*x + beta*y]; the result is the new [y]. *)
Definition Mat_VecMul (A_trnsp : Trnsp) (m n : Z) (alpha : T) (A : Mat T)
  (x : Arr T) (x_s : Z) (beta : T) (y : Arr T) (y_s : Z) : Arr T :=
  match A_trnsp with
  | Trnsp_No =>
      let y := Vec_Scale m beta y y_s in
      if IsZero alpha then y
      else for_up (Z.to_nat (to_Index n)) 0
             (fun j y =>
                let axj := alpha [*] x (j * x_s) in
                Vec_AXPlusY m axj (Col A j) 1 y y_s) y
  | Trnsp_Yes =>
      let y := Vec_Scale n beta y y_s in
      if IsZero alpha then y
      else for_up (Z.to_nat (to_Index m)) 0
             (fun i y =>
                let axi := alpha [*] x (i * x_s) in
                Vec_AXPlusY n axi (Row A i) 1 y y_s) y
  | Trnsp_Conj =>
      let y := Vec_Scale n beta y y_s in
      if IsZero alpha then y
      else for_up (Z.to_nat (to_Index m)) 0
             (fun i y =>
                let axi := alpha [*] x (i * x_s) in
                Vec_AConjXPlusY n axi (Row A i) 1 y y_s) y
  end.

(** Mat_Rank1Upd (after [dger]): [A := alpha*x*(~y) + A]. *)
Definition Mat_Rank1Upd (m n : Z) (alpha : T) (x : Arr T) (x_s : Z)
  (y : Arr T) (y_s : Z) (A : Mat T) : Mat T :=
  if IsZero alpha then A
  else for_up (Z.to_nat (to_Index n)) 0
         (fun j A =>
            let ayj := alpha [*] y (j * y_s) in
            for_up (Z.to_nat (to_Index m)) 0
              (fun i A => mupd A i j (A i j [+] x (i * x_s) [*] ayj)) A) A.

(** Sym_Rank2Upd (after [dsyr2]). *)
Definition Sym_Rank2Upd (half : Half) (n : Z) (alpha : T) (x : Arr T) (x_s : Z)
  (y : Arr T) (y_s : Z) (A : Mat T) : result (Mat T) :=
  if Half_eqb Half_Both half then Throw (mkBadArgument "Sym_Rank2Upd" 1)
  else if IsZero alpha then Ok A
  else
    match half with
    | Half_Upper =>
        Ok (for_up (Z.to_nat (to_Index n)) 0
              (fun j A =>
                 let u := y (j * y_s) in
                 let v := x (j * x_s) in
                 if negb (IsZero u) || negb (IsZero v)
                 then
                   let u := u [*] alpha in
                   let v := v [*] alpha in
                   for_up (Z.to_nat (j + 1)) 0
                     (fun i A =>
                        mupd A i j (A i j [+] (x (i * x_s) [*] u [+] y (i * y_s) [*] v))) A
                 else A) A)
    | Half_Lower =>
        Ok (for_up (Z.to_nat (to_Index n)) 0
              (fun j A =>
                 let u := y (j * y_s) in
                 let v := x (j * x_s) in
                 if negb (IsZero u) || negb (IsZero v)
                 then
                   let u := u [*] alpha in
                   let v := v [*] alpha in
                   for_up (Z.to_nat (to_Index n - j)) j
                     (fun i A =>
                        mupd A i j (A i j [+] (x (i * x_s) [*] u [+] y (i * y_s) [*] v))) A
                 else A) A)
    | Half_Both => Ok A
    end.

(** Tri_Solv_Vec (after [dtrsv]); the result is the new [x]. *)
Definition Tri_Solv_Vec (half : Half) (A_trnsp : Trnsp) (diag : Diag) (n : Z)
  (A : Mat T) (A_ld : Z) (x : Arr T) (x_s : Z) : result (Arr T) :=
  if Half_eqb Half_Both half then Throw (mkBadArgument "Tri_Solv_Vec" 1)
  else if A_ld <? to_Index (Z.max 1 n) then Throw (mkBadArgument "Tri_Solv_Vec" 6)
  else
    let X (x : Arr T) (i : Z) : T := x (i * x_s) in
    let setX (x : Arr T) (i : Z) (v : T) : Arr T := upd x (i * x_s) v in
    let n1 := to_Index (n - 1) in
    match A_trnsp, half with
    | _, Half_Both => Ok x
    | Trnsp_No, Half_Upper =>
        Ok (for_down (Z.to_nat (n1 + 1)) n1
              (fun j x =>
                 if IsZero (X x j) then x
                 else
                   let x := match diag with
                            | Diag_NotUnit => setX x j (X x j [/] A j j)
                            | Diag_IsUnit => x
                            end in
                   let xj := X x j in
                   for_down (Z.to_nat (j - 1 + 1)) (j - 1)
                     (fun i x => setX x i (X x i [-] xj [*] A i j)) x) x)
    | Trnsp_No, Half_Lower =>
        Ok (for_up (Z.to_nat (to_Index n)) 0
              (fun j x =>
                 if IsZero (X x j) then x
                 else
                   let x := match diag with
                            | Diag_NotUnit => setX x j (X x j [/] A j j)
                            | Diag_IsUnit => x
                            end in
                   let xj := X x j in
                   for_up (Z.to_nat (to_Index n - (j + 1))) (j + 1)
                     (fun i x => setX x i (X x i [-] xj [*] A i j)) x) x)
    | Trnsp_Yes, Half_Upper =>
        Ok (for_up (Z.to_nat (to_Index n)) 0
              (fun j x =>
                 let xj := for_up (Z.to_nat j) 0
                             (fun i xj => xj [-] A i j [*] X x i) (X x j) in
                 let xj := match diag with
                           | Diag_NotUnit => xj [/] A j j
                           | Diag_IsUnit => xj
                           end in
                 setX x j xj) x)
    | Trnsp_Yes, Half_Lower =>
        Ok (for_down (Z.to_nat (n1 + 1)) n1
              (fun j x =>
                 let xj := for_down (Z.to_nat (n1 - j)) n1
                             (fun i xj => xj [-] A i j [*] X x i) (X x j) in
                 let xj := match diag with
                           | Diag_NotUnit => xj [/] A j j
                           | Diag_IsUnit => xj
                           end in
                 setX x j xj) x)
    | Trnsp_Conj, Half_Upper =>
        Ok (for_up (Z.to_nat (to_Index n)) 0
              (fun j x =>
                 let xj := for_up (Z.to_nat j) 0
                             (fun i xj => xj [-] Conj (A i j) [*] X x i) (X x j) in
                 let xj := match diag with
                           | Diag_NotUnit => xj [/] Conj (A j j)
                           | Diag_IsUnit => xj
                           end in
                 setX x j xj) x)
    | Trnsp_Conj, Half_Lower =>
        Ok (for_down (Z.to_nat (n1 + 1)) n1
              (fun j x =>
                 let xj := for_down (Z.to_nat (n1 - j)) n1
                             (fun i xj => xj [-] Conj (A i j) [*] X x i) (X x j) in
                 let xj := match diag with
                           | Diag_NotUnit => xj [/] Conj (A j j)
                           | Diag_IsUnit => xj
                           end in
                 setX x j xj) x)
    end.

End Level2.

(** ** Elementary reflectors *)

Section Reflectors.
Context {T : Type} `{Scalar T}.

(** *** Idx_LastCol (after [iladlc]) and Idx_LastRow (after [iladlr]) *)

(** [for( i = 0; i < m; ++i ){ if( ! IsZero( A(i,j) ) ){ return j; } }]:
    whether the loop returns. *)
Fixpoint LastCol_hit (count : nat) (i : Z) (A : Mat T) (j : Z) : bool :=
  match count with
  | O => false
  | S c => if negb (IsZero (A i j)) then true else LastCol_hit c (i + 1) A j
  end.

Fixpoint LastCol_scan (count : nat) (j m : Z) (A : Mat T) : Z :=
  match count with
  | O => -1
  | S c =>
      if LastCol_hit (Z.to_nat (to_Index m)) 0 A j then j
      else LastCol_scan c (j - 1) m A
  end.

Definition Idx_LastCol (m n : Z) (A : Mat T) : Z :=
  if n =? 0 then to_Index (Size_wrap (n - 1))
  else if negb (IsZero (A 0 (n - 1))) || negb (IsZero (A (m - 1) (n - 1)))
  then to_Index (n - 1)
  else LastCol_scan (Z.to_nat (to_Index (n - 1) + 1)) (to_Index (n - 1)) m A.

(** [while( (0.0 == A(Max(i,0),j)) && (i >= 0) ){ --i; }]. *)
Fixpoint LastRow_up (count : nat) (i : Z) (A : Mat T) (j : Z) : Z :=
  match count with
  | O => i
  | S c =>
      if (of_int 0 [==] A (Z.max i 0) j) && (i >=? 0)
      then LastRow_up c (i - 1) A j
      else i
  end.

Definition Idx_LastRow (m n : Z) (A : Mat T) : Z :=
  if m =? 0 then to_Index (Size_wrap (m - 1))
  else if (of_int 0 [!=] A (m - 1) 0) || (of_int 0 [!=] A (m - 1) (n - 1))
  then to_Index (m - 1)
  else
    for_up (Z.to_nat (to_Index n)) 0
      (fun j row =>
         let i := LastRow_up (Z.to_nat (to_Index (m - 1) + 1)) (to_Index (m - 1)) A j in
         Z.max row i)
      (-1).

(** *** Rfl_VecGen (after [dlarfg]); returns the new [(alpha, x, tau)] *)

(** The [do ... while( ( Abs(beta) < safmin ) && ( knt < 20 ) )] loop;
    [left] is the number of passes that [knt < 20] still allows after this
    one. *)
Fixpoint VecGen_rescale (left : nat) (n : Z) (rsafmn safmin : T) (knt : Z)
  (alpha : T) (x : Arr T) (x_s : Z) (beta : T) : Z * T * Arr T * T :=
  let knt := knt + 1 in
  let x := Vec_Scale (n - 1) rsafmn x x_s in
  let beta := beta [*] rsafmn in
  let alpha := alpha [*] rsafmn in
  match left with
  | O => (knt, alpha, x, beta)
  | S l =>
      if (Abs beta [<] safmin) && (knt <? 20)
      then VecGen_rescale l n rsafmn safmin knt alpha x x_s beta
      else (knt, alpha, x, beta)
  end.

(** The general case up to the statement [tau = ( beta - alpha )/beta]: the
    count [knt] of rescalings and the values of [alpha], [x] and [beta] at that
    statement. *)
Definition Rfl_VecGen_beta (n : Z) (alpha : T) (x : Arr T) (x_s : Z) (xnorm : T)
  : Z * T * Arr T * T :=
  let beta := neg (CopySign (Hypot alpha xnorm) alpha) in
  let safmin := minValue in
  if Abs beta [<] safmin
  then
    let rsafmn := Inv safmin in
    let '(knt, alpha, x, beta) :=
      VecGen_rescale 19 n rsafmn safmin 0 alpha x x_s beta in
    let xnorm := Vec_Norm2 (n - 1) x x_s in
    (knt, alpha, x, neg (CopySign (Hypot alpha xnorm) alpha))
  else (0, alpha, x, beta).

Definition Rfl_VecGen (n : Z) (alpha : T) (x : Arr T) (x_s : Z) (tau : T)
  : T * Arr T * T :=
  if n =? 0 then (alpha, x, tau)
  else if n =? 1 then (alpha, x, zero)
  else
    let xnorm := Vec_Norm2 (n - 1) x x_s in
    if IsZero xnorm then (alpha, x, zero)
    else
      let safmin := minValue in
      let '(knt, alpha, x, beta) := Rfl_VecGen_beta n alpha x x_s xnorm in
      let tau := (beta [-] alpha) [/] beta in
      let x := Vec_Scale (n - 1) (Inv (alpha [-] beta)) x x_s in
      let beta := for_up (Z.to_nat knt) 0 (fun _ beta => beta [*] safmin) beta in
      (beta, x, tau).

(** *** Rfl_MatMul (after [dlarf]); returns the new [(C, work)] *)

Definition Rfl_MatMul_WorkSize (m n : Z) : Z := n.

(** [while( (lastv > 0) && IsZero( v[i] ) ){ --lastv; i -= V_cs; }]. *)
Fixpoint Rfl_lastv (count : nat) (lastv i : Z) (v : Arr T) (V_cs : Z) : Z :=
  match count with
  | O => lastv
  | S c =>
      if (lastv >? 0) && IsZero (v i)
      then Rfl_lastv c (lastv - 1) (i - V_cs) v V_cs
      else lastv
  end.

Definition Rfl_MatMul (side : Side) (m n : Z) (v : Arr T) (V_cs : Z) (tau : T)
  (C : Mat T) (work : Arr T) : Mat T * Arr T :=
  if IsZero tau then (C, work)
  else
    let lastv := match side with Side_Left => to_Index m | Side_Right => to_Index n end in
    let i := if V_cs >? 0 then (1 + (lastv - 1) * V_cs) - 1 else 0 in
    let lastv := Rfl_lastv (Z.to_nat lastv) lastv i v V_cs in
    let lastc :=
      match side with
      | Side_Left => Idx_LastCol lastv n C + 1
      | Side_Right => Idx_LastRow m lastv C + 1
      end in
    match side with
    | Side_Left =>
        if lastv >? 0
        then
          let work := Mat_VecMul Trnsp_Yes lastv lastc unit C v V_cs zero work 1 in
          (Mat_Rank1Upd lastv lastc (neg tau) v V_cs work 1 C, work)
        else (C, work)
    | Side_Right =>
        if lastv >? 0
        then
          let work := Mat_VecMul Trnsp_No lastc lastv unit C v V_cs zero work 1 in
          (Mat_Rank1Upd lastc lastv (neg tau) work 1 v V_cs C, work)
        else (C, work)
    end.

End Reflectors.

(** ** Sym_Norm (after [dlansy]); returns the norm and the new [work] *)

Section SymNorm.
Context {T : Type} `{Scalar T}.

(** [if( ( value < u ) || IsUndefined(u) ){ value = u; }]. *)
Definition norm_max (value u : T) : T :=
  if (value [<] u) || IsUndefined u then u else value.

Definition Sym_Norm (normType : NormType) (half : Half) (n : Z) (A : Mat T)
  (work : Arr T) : T * Arr T :=
  if n =? 0 then (zero, work)
  else
    let value := undefined in
    if Half_eqb Half_Both half then (value, work)
    else
      let nI := to_Index n in
      match normType with
      | NormType_Max =>
          let value := zero in
          match half with
          | Half_Upper =>
              (for_up (Z.to_nat nI) 0
                 (fun j value =>
                    for_up (Z.to_nat (j + 1)) 0
                      (fun i value => norm_max value (Abs (A i j))) value) value,
               work)
          | _ =>
              (for_up (Z.to_nat nI) 0
                 (fun j value =>
                    for_up (Z.to_nat (nI - j)) j
                      (fun i value => norm_max value (Abs (A i j))) value) value,
               work)
          end
      | NormType_Inf | NormType_One =>
          let value := zero in
          match half with
          | Half_Upper =>
              let work :=
                for_up (Z.to_nat n) 0
                  (fun j work =>
                     let '(sum, work) :=
                       for_up (Z.to_nat (j - 1 + 1)) 0
                         (fun i '(sum, work) =>
                            let aij := Abs (A i j) in
                            (sum [+] aij, upd work i (work i [+] aij)))
                         (zero, work) in
                     upd work j (sum [+] Abs (A j j))) work in
              (for_up (Z.to_nat nI) 0 (fun i value => norm_max value (work i)) value,
               work)
          | _ =>
              let work := for_up (Z.to_nat nI) 0 (fun i work => upd work i zero) work in
              let '(value, work) :=
                for_up (Z.to_nat nI) 0
                  (fun j '(value, work) =>
                     let sum := work j [+] Abs (A j j) in
                     let '(sum, work) :=
                       for_up (Z.to_nat (nI - (j + 1))) (j + 1)
                         (fun i '(sum, work) =>
                            let aij := Abs (A i j) in
                            (sum [+] aij, upd work i (work i [+] aij)))
                         (sum, work) in
                     (norm_max value sum, work))
                  (value, work) in
              (value, work)
          end
      | NormType_Frob =>
          let ssq := (zero, unit) in
          let ssq :=
            match half with
            | Half_Upper =>
                for_up (Z.to_nat (nI - 1)) 1
                  (fun j ssq =>
                     let colssq := Vec_SmSqr ((j - 1) + 1) (Col A j) 1 zero unit in
                     Aux_CombSsq2 ssq colssq) ssq
            | _ =>
                for_up (Z.to_nat (to_Index (n - 1))) 0
                  (fun j ssq =>
                     let colssq :=
                       Vec_SmSqr (n - (j + 1)) (shift (Col A j) (j + 1)) 1 zero unit in
                     Aux_CombSsq2 ssq colssq) ssq
            end in
          let ssq := (fst ssq, snd ssq [+] snd ssq) in
          let colssq := Vec_SmSqr n (fun i => A i i) 1 zero unit in
          let ssq := Aux_CombSsq2 ssq colssq in
          (fst ssq [*] Sqrt (snd ssq), work)
      end.

End SymNorm.

(** ** Ort_From_QL, Ort_From_QR and Ort_From_Syt (after [dorg2l], [dorg2r]
    and [dorgtr]); they return the new [(A, work)] *)

Definition Ort_From_Syt_WorkSize (n : Z) : Z := Size_wrap (n - 1).
Definition Ort_From_QL_WorkSize (m n k : Z) : Z := k.
Definition Ort_From_QR_WorkSize (m n k : Z) : Z := m.

Section OrtFrom.
Context {T : Type} `{Scalar T}.

(** [y := x]. *)
Definition Vec_Copy (n : Z) (x : Arr T) (x_s : Z) (y : Arr T) (y_s : Z) : Arr T :=
  for_up (Z.to_nat n) 0 (fun i y => upd y (i * y_s) (x (i * x_s))) y.

(** [Lyt::ColPtr( A_, i0, j, A_ld )] taken with the stride [A_cs] is the
    vector whose component [k] is [A(i0 + k, j)]; [set_Col] puts back what a
    callee left in it.  Likewise [Lyt::RowPtr] with [A_rs]. *)
Definition Col_from (A : Mat T) (i0 j : Z) : Arr T := fun k => A (i0 + k) j.
Definition set_Col (A : Mat T) (i0 j : Z) (x : Arr T) : Mat T :=
  fun i' j' => if j' =? j then x (i' - i0) else A i' j'.
Definition Row_from (A : Mat T) (i j0 : Z) : Arr T := fun k => A i (j0 + k).
Definition set_Row (A : Mat T) (i j0 : Z) (x : Arr T) : Mat T :=
  fun i' j' => if i' =? i then x (j' - j0) else A i' j'.

(** Pass [i] of the second loop of [Ort_From_QL]. *)
Definition Ort_From_QL_step (m n k : Z) (tau : Arr T) (i : Z)
  (st : Mat T * Arr T) : Mat T * Arr T :=
  let '(A, work) := st in
  let ii := n - k + i in
  let A := mupd A (m - n + ii) ii unit in
  let '(A, work) :=
    Rfl_MatMul Side_Left (i + 1) ii (Col_from A 0 ii) 1 (tau i) A work in
  let A := set_Col A 0 ii (Vec_Scale i (neg (tau i)) (Col_from A 0 ii) 1) in
  let A := mupd A i ii (unit [-] tau i) in
  let A :=
    if i <? to_Index (m - 1)
    then set_Col A (i + 1) ii (Vec_Zero (m - (i + 1)) (Col_from A (i + 1) ii) 1)
    else A in
  (A, work).

Definition Ort_From_QL (m n k : Z) (A : Mat T) (tau work : Arr T)
  : result (Mat T * Arr T) :=
  if n >? m then Throw (mkBadArgument "Ort_From_QL" 2)
  else if k >? n then Throw (mkBadArgument "Ort_From_QL" 3)
  else if n =? 0 then Ok (A, work)
  else
    let A :=
      for_up (Z.to_nat (to_Index (n - k))) 0
        (fun j A =>
           let A := for_up (Z.to_nat (to_Index m)) 0 (fun h A => mupd A h j zero) A in
           mupd A (m - n + j) j unit) A in
    Ok (for_up (Z.to_nat (to_Index k)) 0 (Ort_From_QL_step m n k tau) (A, work)).

(** Pass [i] of the second loop of [Ort_From_QR]. *)
Definition Ort_From_QR_step (m n : Z) (tau : Arr T) (i : Z)
  (st : Mat T * Arr T) : Mat T * Arr T :=
  let '(A, work) := st in
  let '(A, work) :=
    if i <? to_Index (n - 1)
    then
      let A := mupd A i i unit in
      let '(C, work) :=
        Rfl_MatMul Side_Left (m - i) (n - (i + 1)) (Col_from A i i) 1 (tau i)
          (Blk A i (i + 1)) work in
      (unBlk C i (i + 1), work)
    else (A, work) in
  let A :=
    if i <? to_Index (m - 1)
    then set_Col A (i + 1) i
           (Vec_Scale (m - (i + 1)) (neg (tau i)) (Col_from A (i + 1) i) 1)
    else A in
  let A := mupd A i i (unit [-] tau i) in
  (set_Col A 0 i (Vec_Zero i (Col_from A 0 i) 1), work).

Definition Ort_From_QR (m n k : Z) (A : Mat T) (tau work : Arr T)
  : result (Mat T * Arr T) :=
  if n >? m then Throw (mkBadArgument "Ort_From_QR" 2)
  else if k >? n then Throw (mkBadArgument "Ort_From_QR" 3)
  else if n =? 0 then Ok (A, work)
  else
    let A :=
      for_up (Z.to_nat (to_Index n - to_Index k)) (to_Index k)
        (fun j A =>
           let A := for_up (Z.to_nat (to_Index m)) 0 (fun h A => mupd A h j zero) A in
           mupd A j j unit) A in
    Ok (for_down (Z.to_nat (to_Index (k - 1) + 1)) (to_Index (k - 1))
          (Ort_From_QR_step m n tau) (A, work)).

Definition Ort_From_Syt (half : Half) (n : Z) (A : Mat T) (tau work : Arr T)
  : result (Mat T * Arr T) :=
  if n =? 0 then Ok (A, work)
  else
    match half with
    | Half_Upper =>
        let A :=
          for_up (Z.to_nat (to_Index (n - 1))) 0
            (fun j A =>
               set_Col A 0 j (Vec_Copy j (Col_from A 0 (j + 1)) 1 (Col_from A 0 j) 1))
            A in
        let A := set_Row A (n - 1) 0 (Vec_Zero (n - 1) (Row_from A (n - 1) 0) 1) in
        let A := set_Col A 0 (n - 1) (Vec_Zero (n - 1) (Col_from A 0 (n - 1)) 1) in
        let A := mupd A (n - 1) (n - 1) unit in
        Ort_From_QL (n - 1) (n - 1) (n - 1) A tau work
    | Half_Lower =>
        let A :=
          for_down (Z.to_nat (to_Index (n - 1))) (to_Index (n - 1))
            (fun j A =>
               let A := mupd A 0 j zero in
               for_up (Z.to_nat (to_Index n - (j + 1))) (j + 1)
                 (fun i A => mupd A i j (A i (j - 1))) A)
            A in
        let A := mupd A 0 0 unit in
        let A := set_Col A 1 0 (Vec_Zero (n - 1) (Col_from A 1 0) 1) in
        '(B, work) <- Ort_From_QR (n - 1) (n - 1) (n - 1) (Blk A 1 1) tau work ;;
        Ok (unBlk B 1 1, work)
    | Half_Both => Ok (A, work)
    end.

End OrtFrom.

(** ** Mat_RotSeq (IND.Math.LAPACK.Mat_RotSeq.inl, after [dlasr])

    The routine only reads and writes single elements [A(i,j)].  To speak
    about the elements it touches, the embedding threads the matrix together
    with the list of index pairs used so far (most recent first) through a
    state monad: [rd] is a read of [A(i,j)], [wr] a write.  The log does not
    influence the computed matrix. *)

Definition Traced (T X : Type) : Type :=
  Mat T * list (Z * Z) -> X * (Mat T * list (Z * Z)).

Definition tret {T X : Type} (x : X) : Traced T X := fun st => (x, st).

Definition tbind {T X Y : Type} (m : Traced T X) (k : X -> Traced T Y) : Traced T Y :=
  fun st => let '(x, st') := m st in k x st'.

Definition rd {T : Type} (i j : Z) : Traced T T :=
  fun st => (fst st i j, (fst st, (i, j) :: snd st)).

Definition wr {T : Type} (i j : Z) (v : T) : Traced T Datatypes.unit :=
  fun st => (tt, (mupd (fst st) i j v, (i, j) :: snd st)).

Notation "x <~ m ;; k" := (tbind m (fun x => k))
  (at level 61, m at next level, right associativity).
Notation "m ;;; k" := (tbind m (fun _ => k))
  (at level 61, right associativity).

Fixpoint forT_up {T : Type} (count : nat) (i : Z) (body : Z -> Traced T Datatypes.unit)
  : Traced T Datatypes.unit :=
  match count with
  | O => tret tt
  | S c => body i ;;; forT_up c (i + 1) body
  end.

Fixpoint forT_down {T : Type} (count : nat) (i : Z) (body : Z -> Traced T Datatypes.unit)
  : Traced T Datatypes.unit :=
  match count with
  | O => tret tt
  | S c => body i ;;; forT_down c (i - 1) body
  end.

(** The matrix a traced computation leaves, and the index pairs it used. *)
Definition run_Mat {T X : Type} (c : Traced T X) (A : Mat T) : Mat T :=
  fst (snd (c (A, []))).

Definition accesses {T X : Type} (c : Traced T X) (A : Mat T) : list (Z * Z) :=
  snd (snd (c (A, []))).

Section RotSeq.
Context {T : Type} `{Scalar T}.

(** [if( ! IsUnit( cj ) || ! IsUnit( sj ) ){ for( i = 0; i < count; ++i ) body }]. *)
Definition rotate_if (cj sj : T) (count : Z) (body : Z -> Traced T Datatypes.unit)
  : Traced T Datatypes.unit :=
  if negb (IsUnit cj) || negb (IsUnit sj)
  then forT_up (Z.to_nat (to_Index count)) 0 body
  else tret tt.

Definition Mat_RotSeq (side : Side) (pivot : Pivot) (direct : Direct)
  (m n : Z) (c s : Arr T) : Traced T Datatypes.unit :=
  if (m =? 0) || (n =? 0) then tret tt
  else
  match side, pivot, direct with
  | Side_Left, Pivot_Var, Direct_Fwd =>
      forT_up (Z.to_nat (to_Index (m - 1))) 0 (fun j =>
        let cj := c j in let sj := s j in
        rotate_if cj sj n (fun i =>
          aji <~ rd (j + 1) i ;;
          x <~ rd j i ;;
          wr (j + 1) i (cj [*] aji [-] sj [*] x) ;;;
          y <~ rd j i ;;
          wr j i (sj [*] aji [+] cj [*] y)))
  | Side_Left, Pivot_Var, Direct_Bwd =>
      forT_down (Z.to_nat (to_Index (m - 1) - 1 + 1)) (to_Index (m - 1) - 1) (fun j =>
        let cj := c j in let sj := s j in
        rotate_if cj sj n (fun i =>
          aji <~ rd (j + 1) i ;;
          x <~ rd j i ;;
          wr (j + 1) i (cj [*] aji [-] sj [*] x) ;;;
          y <~ rd j i ;;
          wr j i (sj [*] aji [+] cj [*] y)))
  | Side_Left, Pivot_Top, Direct_Fwd =>
      forT_up (Z.to_nat (to_Index m - 1)) 1 (fun j =>
        let cj := c (j - 1) in let sj := s (j - 1) in
        rotate_if cj sj n (fun i =>
          aji <~ rd j i ;;
          x <~ rd 0 i ;;
          wr j i (cj [*] aji [-] sj [*] x) ;;;
          y <~ rd 0 i ;;
          wr 0 i (sj [*] aji [+] cj [*] y)))
  | Side_Left, Pivot_Top, Direct_Bwd =>
      forT_down (Z.to_nat (to_Index (m - 1) - 1 + 1)) (to_Index (m - 1)) (fun j =>
        let cj := c (j - 1) in let sj := s (j - 1) in
        rotate_if cj sj n (fun i =>
          aji <~ rd j i ;;
          x <~ rd 0 i ;;
          wr j i (cj [*] aji [-] sj [*] x) ;;;
          y <~ rd 0 i ;;
          wr 0 i (sj [*] aji [+] cj [*] y)))
  | Side_Left, Pivot_Btm, Direct_Fwd =>
      forT_up (Z.to_nat (to_Index (m - 1))) 0 (fun j =>
        let cj := c j in let sj := s j in
        rotate_if cj sj n (fun i =>
          aji <~ rd j i ;;
          x <~ rd (m - 1) i ;;
          wr j i (sj [*] x [+] cj [*] aji) ;;;
          y <~ rd (m - 1) i ;;
          wr (m - 1) i (cj [*] y [-] sj [*] aji)))
  | Side_Left, Pivot_Btm, Direct_Bwd =>
      forT_down (Z.to_nat (to_Index ((m - 1) - 1) + 1)) (to_Index ((m - 1) - 1)) (fun j =>
        let cj := c j in let sj := s j in
        rotate_if cj sj n (fun i =>
          aji <~ rd j i ;;
          x <~ rd (m - 1) i ;;
          wr j i (sj [*] x [+] cj [*] aji) ;;;
          y <~ rd (m - 1) i ;;
          wr (m - 1) i (cj [*] y [-] sj [*] aji)))
  | Side_Right, Pivot_Var, Direct_Fwd =>
      forT_up (Z.to_nat (to_Index (n - 1))) 0 (fun j =>
        let cj := c j in let sj := s j in
        rotate_if cj sj m (fun i =>
          aij <~ rd i (j + 1) ;;
          x <~ rd i j ;;
          wr i (j + 1) (cj [*] aij [-] sj [*] x) ;;;
          y <~ rd i j ;;
          wr i j (sj [*] aij [+] cj [*] y)))
  | Side_Right, Pivot_Var, Direct_Bwd =>
      forT_down (Z.to_nat (to_Index ((n - 1) - 1) + 1)) (to_Index ((n - 1) - 1)) (fun j =>
        let cj := c j in let sj := s j in
        rotate_if cj sj m (fun i =>
          aij <~ rd i (j + 1) ;;
          x <~ rd i j ;;
          wr i (j + 1) (cj [*] aij [-] sj [*] x) ;;;
          y <~ rd i j ;;
          wr i j (sj [*] aij [+] cj [*] y)))
  | Side_Right, Pivot_Top, Direct_Fwd =>
      forT_up (Z.to_nat (to_Index n - 1)) 1 (fun j =>
        let cj := c (j - 1) in let sj := s (j - 1) in
        rotate_if cj sj m (fun i =>
          aij <~ rd i j ;;
          x <~ rd i 0 ;;
          wr i j (cj [*] aij [-] sj [*] x) ;;;
          y <~ rd i 0 ;;
          wr i 0 (sj [*] aij [+] cj [*] y)))
  | Side_Right, Pivot_Top, Direct_Bwd =>
      forT_down (Z.to_nat (to_Index (n - 1) - 1 + 1)) (to_Index (n - 1)) (fun j =>
        let cj := c (j - 1) in let sj := s (j - 1) in
        rotate_if cj sj m (fun i =>
          aij <~ rd i j ;;
          x <~ rd i 0 ;;
          wr i j (cj [*] aij [-] sj [*] x) ;;;
          y <~ rd i 0 ;;
          wr i 0 (sj [*] aij [+] cj [*] y)))
  | Side_Right, Pivot_Btm, Direct_Fwd =>
      forT_up (Z.to_nat (to_Index (n - 1))) 0 (fun j =>
        let cj := c j in let sj := s j in
        rotate_if cj sj m (fun i =>
          aij <~ rd i j ;;
          x <~ rd i (n - 1) ;;
          wr i j (sj [*] x [+] cj [*] aij) ;;;
          y <~ rd i n ;;
          wr i (n - 1) (cj [*] y [-] sj [*] aij)))
  | Side_Right, Pivot_Btm, Direct_Bwd =>
      forT_down (Z.to_nat (to_Index (n - 1) - 1 + 1)) (to_Index (n - 1) - 1) (fun j =>
        let cj := c j in let sj := s j in
        rotate_if cj sj m (fun i =>
          aij <~ rd i j ;;
          x <~ rd i (n - 1) ;;
          wr i j (sj [*] x [+] cj [*] aij) ;;;
          y <~ rd i (n - 1) ;;
          wr i (n - 1) (cj [*] y [-] sj [*] aij)))
  end.

End RotSeq.

(** ** The symmetric tridiagonal eigensolvers *)

(** How a loop of [Solve] is left: past its end, or through [return b].  In
    both cases the local state at that point is kept. *)
Inductive loop_exit (S : Type) : Type :=
| Done (s : S)
| Ret (b : bool) (s : S).

Arguments Done {S} s.
Arguments Ret {S} b s.

Section SolveCommon.
Context {T : Type} `{Scalar T}.

(** The scan of the outer loop for the end [k0] of the block that starts at
    [k1]; it may clear [e[k0]]. *)
Fixpoint split_scan (count : nat) (zeroTol : T) (k0 : Z) (d e : Arr T) : Z * Arr T :=
  match count with
  | O => (k0, e)
  | S c =>
      let ek0 := Abs (e k0) in
      if IsZero ek0 then (k0, e)
      else
        let errk0 := zeroTol [*] Sqrt (Abs (d k0)) [*] Sqrt (Abs (d (k0 + 1))) in
        if ek0 [<=] errk0 then (k0, upd e k0 zero)
        else split_scan c zeroTol (k0 + 1) d e
  end.

(** [for( k0 = k; k0 <= (kend-1); ++k0 )] of the QL iteration. *)
Fixpoint QL_find (count : nat) (eps2 safmin : T) (k0 : Z) (d e : Arr T) : Z :=
  match count with
  | O => k0
  | S c =>
      let ek02 := Sqr (e k0) in
      let errk02 := eps2 [*] Abs (d k0 [*] d (k0 + 1)) in
      if ek02 [<=] (errk02 [+] safmin) then k0
      else QL_find c eps2 safmin (k0 + 1) d e
  end.

(** [for( k0 = k; k0 >= (kend+1); --k0 )] of the QR iteration. *)
Fixpoint QR_find (count : nat) (eps2 safmin : T) (k0 : Z) (d e : Arr T) : Z :=
  match count with
  | O => k0
  | S c =>
      let ek02 := Sqr (e (k0 - 1)) in
      let errk02 := eps2 [*] Abs (d k0 [*] d (k0 - 1)) in
      if ek02 [<=] (errk02 [+] safmin) then k0
      else QR_find c eps2 safmin (k0 - 1) d e
  end.

End SolveCommon.

Module Syt_EigQR.
Section WithScalar.
Context {T : Type} `{Scalar T}.

Record Config : Type := mkConfig { maxIterationCount : Z; zeroTol : T }.

Definition default_Config : Config :=
  {| maxIterationCount := 64; zeroTol := epsilon |}.

(** The local variables that live across the loops of [Solve]. *)
Record state : Type := mkState {
  st_d : Arr T;
  st_e : Arr T;
  st_k : Z;
  st_count : Z
}.

(** Body of [for( Index i = k0-1; i >= k; --i )]; the loop carries
    [(d, e, g, c, s, p)]. *)
Definition QL_sweep_body (fuel : nat) (k0 i : Z)
  (st : Arr T * Arr T * T * T * T * T) : result (Arr T * Arr T * T * T * T * T) :=
  let '(d, e, g, c, s, p) := st in
  let f := s [*] e i in
  let b := c [*] e i in
  '(c, s, r) <- Aux_PlnRot2 fuel g f ;;
  let e := if negb (i =? k0 - 1) then upd e (i + 1) r else e in
  let g := d (i + 1) [-] p in
  let r := (d i [-] g) [*] s [+] of_int 2 [*] c [*] b in
  let p := s [*] r in
  let d := upd d (i + 1) (g [+] p) in
  let g := c [*] r [-] b in
  Ok (d, e, g, c, s, p).

(** Body of [for( Index i = k0; i <= (k-1); ++i )]. *)
Definition QR_sweep_body (fuel : nat) (k0 i : Z)
  (st : Arr T * Arr T * T * T * T * T) : result (Arr T * Arr T * T * T * T * T) :=
  let '(d, e, g, c, s, p) := st in
  let f := s [*] e i in
  let b := c [*] e i in
  '(c, s, r) <- Aux_PlnRot2 fuel g f ;;
  let e := if negb (i =? k0) then upd e (i - 1) r else e in
  let g := d i [-] p in
  let r := (d (i + 1) [-] g) [*] s [+] of_int 2 [*] c [*] b in
  let p := s [*] r in
  let d := upd d i (g [+] p) in
  let g := c [*] r [-] b in
  Ok (d, e, g, c, s, p).

(** [while( k <= kend )]: the QL iteration.  [fuel] bounds the passes of this
    loop, [fl] is handed to [Aux_PlnRot2]. *)
Fixpoint QL_loop (fuel fl : nat) (eps2 safmin : T) (maxCount kend : Z)
  (st : state) : result (loop_exit state) :=
  match fuel with
  | O => OutOfFuel
  | S fuel' =>
      let '(mkState d e k count) := st in
      if k <=? kend then
        let k0 :=
          if negb (k =? kend)
          then QL_find (Z.to_nat (kend - k)) eps2 safmin k d e
          else kend in
        let e := if k0 <? kend then upd e k0 zero else e in
        if k0 =? k
        then QL_loop fuel' fl eps2 safmin maxCount kend (mkState d e (k + 1) count)
        else if k0 =? k + 1
        then
          let '(rt1, rt2) := Aux_Eig2 (d k) (e k) (d (k + 1)) in
          let d := upd (upd d k rt1) (k + 1) rt2 in
          let e := upd e k zero in
          QL_loop fuel' fl eps2 safmin maxCount kend (mkState d e (k + 2) count)
        else if count =? maxCount
        then Ok (Ret false (mkState d e k count))
        else
          let count := count + 1 in
          let f := (d (k + 1) [-] d k) [/] (of_int 2 [*] e k) in
          let r := Hypot f unit in
          let g := d k0 [-] d k [+] (e k [/] (f [+] CopySign r f)) in
          '(d, e, g, _, _, p) <-
            forM_down (Z.to_nat (k0 - 1 - k + 1)) (k0 - 1) (QL_sweep_body fl k0)
              (d, e, g, unit, unit, zero) ;;
          let d := upd d k (d k [-] p) in
          let e := upd e k g in
          QL_loop fuel' fl eps2 safmin maxCount kend (mkState d e k count)
      else Ok (Done st)
  end.

(** [while( k >= kend )]: the QR iteration. *)
Fixpoint QR_loop (fuel fl : nat) (eps2 safmin : T) (maxCount kend : Z)
  (st : state) : result (loop_exit state) :=
  match fuel with
  | O => OutOfFuel
  | S fuel' =>
      let '(mkState d e k count) := st in
      if k >=? kend then
        let k0 :=
          if negb (k =? kend)
          then QR_find (Z.to_nat (k - (kend + 1) + 1)) eps2 safmin k d e
          else kend in
        let e := if k0 >? kend then upd e (k0 - 1) zero else e in
        if k0 =? k
        then QR_loop fuel' fl eps2 safmin maxCount kend (mkState d e (k - 1) count)
        else if k0 =? k - 1
        then
          let '(rt1, rt2) := Aux_Eig2 (d (k - 1)) (e (k - 1)) (d k) in
          let d := upd (upd d (k - 1) rt1) k rt2 in
          let e := upd e (k - 1) zero in
          QR_loop fuel' fl eps2 safmin maxCount kend (mkState d e (k - 2) count)
        else if count =? maxCount
        then Ok (Ret false (mkState d e k count))
        else
          let count := count + 1 in
          let f := (d (k - 1) [-] d k) [/] (of_int 2 [*] e (k - 1)) in
          let r := Hypot f unit in
          let g := d k0 [-] d k [+] (e (k - 1) [/] (f [+] CopySign r f)) in
          '(d, e, g, _, _, p) <-
            forM_up (Z.to_nat (k - 1 - k0 + 1)) k0 (QR_sweep_body fl k0)
              (d, e, g, unit, unit, zero) ;;
          let d := upd d k (d k [-] p) in
          let e := upd e (k - 1) g in
          QR_loop fuel' fl eps2 safmin maxCount kend (mkState d e k count)
      else Ok (Done st)
  end.

(** [while( count < maxCount )]: the split/deflate loop.  Here [st_k] of the
    state is the cursor [k1].  The loop is left by [break] or by its
    condition ([Done]: [Solve] then returns [true]) or by the
    [return false] of an iteration ([Ret]). *)
Fixpoint outer_loop (fuel fl : nat) (config : Config) (n : Z)
  (eps2 safmin ssfmin ssfmax : T) (maxCount : Z) (st : state)
  : result (loop_exit state) :=
  match fuel with
  | O => OutOfFuel
  | S fuel' =>
      let '(mkState d e k1 count) := st in
      if count <? maxCount then
        if k1 >? to_Index (n - 1) then Ok (Done st)
        else
          let e := if k1 >? 0 then upd e (k1 - 1) zero else e in
          let '(k0, e) :=
            split_scan (Z.to_nat (to_Index (n - 1) - k1)) (zeroTol config) k1 d e in
          let k := k1 in
          let k1_prev := k1 in
          let kend := k0 in
          let kend_prev := kend in
          let k1 := k0 + 1 in
          if kend =? k
          then outer_loop fuel' fl config n eps2 safmin ssfmin ssfmax maxCount
                 (mkState d e k1 count)
          else
            let anorm := Syt_Norm NormType_Max (kend - k + 1) (shift d k) (shift e k) in
            if IsZero anorm
            then outer_loop fuel' fl config n eps2 safmin ssfmin ssfmax maxCount
                   (mkState d e k1 count)
            else
              let scale := Clamp anorm ssfmin ssfmax in
              dk <- Vec_Rescl fl anorm scale (kend - k + 1) (shift d k) 1 ;;
              let d := unshift dk k in
              ek <- Vec_Rescl fl anorm scale (kend - k) (shift e k) 1 ;;
              let e := unshift ek k in
              let '(k, kend) :=
                if Abs (d kend) [<] Abs (d k) then (kend_prev, k1_prev) else (k, kend) in
              r <- (if kend >=? k
                    then QL_loop fl fl eps2 safmin maxCount kend (mkState d e k count)
                    else QR_loop fl fl eps2 safmin maxCount kend (mkState d e k count)) ;;
              match r with
              | Ret b (mkState d e _ count) => Ok (Ret b (mkState d e k1 count))
              | Done (mkState d e _ count) =>
                  dk <- Vec_Rescl fl scale anorm
                          ((kend_prev + 1) - (k1_prev + 1) + 1) (shift d k1_prev) 1 ;;
                  let d := unshift dk k1_prev in
                  outer_loop fuel' fl config n eps2 safmin ssfmin ssfmax maxCount
                    (mkState d e k1 count)
              end
      else Ok (Done st)
  end.

(** [Solve] with the final values of the locals [k1] and [count]. *)
Definition Solve_state (fuel : nat) (config : Config) (n : Z) (d e : Arr T)
  : result (bool * state) :=
  if n =? 0 then Ok (true, mkState d e 0 0)
  else
    let maxCount := Size_wrap (n * maxIterationCount config) in
    let eps2 := Sqr (zeroTol config) in
    let safmin := minValue in
    let safmax := Inv safmin in
    let ssfmin := Sqrt safmin [/] eps2 in
    let ssfmax := Sqrt safmax [/] of_int 3 in
    r <- outer_loop fuel fuel config n eps2 safmin ssfmin ssfmax maxCount
           (mkState d e 0 0) ;;
    match r with
    | Done st => Ok (true, st)
    | Ret b st => Ok (b, st)
    end.

(** [bool Solve( Size n, T_Arr_d d, T_Arr_e e )]: the returned flag and the
    contents of [d] and [e] on return. *)
Definition Solve (fuel : nat) (config : Config) (n : Z) (d e : Arr T)
  : result (bool * Arr T * Arr T) :=
  '(b, st) <- Solve_state fuel config n d e ;;
  Ok (b, st_d st, st_e st).

End WithScalar.
End Syt_EigQR.

Module Syt_EigVecQR.
Section WithScalar.
Context {T : Type} `{Scalar T}.

Record Config : Type := mkConfig { maxIterationCount : Z; zeroTol : T }.

Definition default_Config : Config :=
  {| maxIterationCount := 64; zeroTol := epsilon |}.

Definition Syt_EigVecQR_WorkSize (n : Z) : Z := Size_wrap (2 * n).

(** The local variables that live across the loops of [Solve], with the
    eigenvector matrix [Z_] and the work buffer ([C = work], [S = work + n]). *)
Record state : Type := mkState {
  st_d : Arr T;
  st_e : Arr T;
  st_k : Z;
  st_count : Z;
  st_Z : Mat T;
  st_work : Arr T
}.

(** Body of [for( Index i = k0-1; i >= k; --i )]; the loop carries
    [(d, e, g, c, s, p, work)]. *)
Definition QL_sweep_body (fuel : nat) (n k0 i : Z)
  (st : Arr T * Arr T * T * T * T * T * Arr T)
  : result (Arr T * Arr T * T * T * T * T * Arr T) :=
  let '(d, e, g, c, s, p, work) := st in
  let f := s [*] e i in
  let b := c [*] e i in
  '(c, s, r) <- Aux_PlnRot2 fuel g f ;;
  let e := if negb (i =? k0 - 1) then upd e (i + 1) r else e in
  let g := d (i + 1) [-] p in
  let r := (d i [-] g) [*] s [+] of_int 2 [*] c [*] b in
  let p := s [*] r in
  let d := upd d (i + 1) (g [+] p) in
  let g := c [*] r [-] b in
  let work := upd work i c in
  let work := upd work (n + i) (neg s) in
  Ok (d, e, g, c, s, p, work).

(** Body of [for( Index i = k0; i <= (k-1); ++i )]. *)
Definition QR_sweep_body (fuel : nat) (n k0 i : Z)
  (st : Arr T * Arr T * T * T * T * T * Arr T)
  : result (Arr T * Arr T * T * T * T * T * Arr T) :=
  let '(d, e, g, c, s, p, work) := st in
  let f := s [*] e i in
  let b := c [*] e i in
  '(c, s, r) <- Aux_PlnRot2 fuel g f ;;
  let e := if negb (i =? k0) then upd e (i - 1) r else e in
  let g := d i [-] p in
  let r := (d (i + 1) [-] g) [*] s [+] of_int 2 [*] c [*] b in
  let p := s [*] r in
  let d := upd d i (g [+] p) in
  let g := c [*] r [-] b in
  let work := upd work i c in
  let work := upd work (n + i) s in
  Ok (d, e, g, c, s, p, work).

(** [Mat_RotSeq< Lyt >( Side::Right, Pivot::Var, direct, n, nn, C+k, S+k,
    Z_Blk(0,k), Z_ld )]. *)
Definition rotate_Z (direct : Direct) (n nn k : Z) (work : Arr T) (Z_ : Mat T) : Mat T :=
  unBlk
    (run_Mat (Mat_RotSeq Side_Right Pivot_Var direct n nn
                (shift work k) (shift work (n + k)))
       (Blk Z_ 0 k))
    0 k.

(** [while( k <= kend )]: the QL iteration. *)
Fixpoint QL_loop (fuel fl : nat) (n : Z) (eps2 safmin : T) (maxCount kend : Z)
  (st : state) : result (loop_exit state) :=
  match fuel with
  | O => OutOfFuel
  | S fuel' =>
      let '(mkState d e k count Z_ work) := st in
      if k <=? kend then
        let k0 :=
          if negb (k =? kend)
          then QL_find (Z.to_nat (kend - k)) eps2 safmin k d e
          else kend in
        let e := if k0 <? kend then upd e k0 zero else e in
        if k0 =? k
        then QL_loop fuel' fl n eps2 safmin maxCount kend
               (mkState d e (k + 1) count Z_ work)
        else if k0 =? k + 1
        then
          let '(rt1, rt2, cs1, sn1) := Aux_EigVec2 (d k) (e k) (d (k + 1)) in
          let d := upd (upd d k rt1) (k + 1) rt2 in
          let work := upd (upd work k cs1) (n + k) sn1 in
          let Z_ := rotate_Z Direct_Bwd n 2 k work Z_ in
          let e := upd e k zero in
          QL_loop fuel' fl n eps2 safmin maxCount kend
            (mkState d e (k + 2) count Z_ work)
        else if count =? maxCount
        then Ok (Ret false (mkState d e k count Z_ work))
        else
          let count := count + 1 in
          let f := (d (k + 1) [-] d k) [/] (of_int 2 [*] e k) in
          let r := Hypot f unit in
          let g := d k0 [-] d k [+] (e k [/] (f [+] CopySign r f)) in
          '(d, e, g, _, _, p, work) <-
            forM_down (Z.to_nat (k0 - 1 - k + 1)) (k0 - 1) (QL_sweep_body fl n k0)
              (d, e, g, unit, unit, zero, work) ;;
          let d := upd d k (d k [-] p) in
          let e := upd e k g in
          let nn := Size_wrap (k0 - k) + 1 in
          let Z_ := rotate_Z Direct_Bwd n nn k work Z_ in
          QL_loop fuel' fl n eps2 safmin maxCount kend
            (mkState d e k count Z_ work)
      else Ok (Done st)
  end.

(** [while( k >= kend )]: the QR iteration. *)
Fixpoint QR_loop (fuel fl : nat) (n : Z) (eps2 safmin : T) (maxCount kend : Z)
  (st : state) : result (loop_exit state) :=
  match fuel with
  | O => OutOfFuel
  | S fuel' =>
      let '(mkState d e k count Z_ work) := st in
      if k >=? kend then
        let k0 :=
          if negb (k =? kend)
          then QR_find (Z.to_nat (k - (kend + 1) + 1)) eps2 safmin k d e
          else kend in
        let e := if k0 >? kend then upd e (k0 - 1) zero else e in
        if k0 =? k
        then QR_loop fuel' fl n eps2 safmin maxCount kend
               (mkState d e (k - 1) count Z_ work)
        else if k0 =? k - 1
        then
          let '(rt1, rt2, cs1, sn1) := Aux_EigVec2 (d (k - 1)) (e (k - 1)) (d k) in
          let d := upd (upd d (k - 1) rt1) k rt2 in
          let work := upd (upd work k cs1) (n + k) sn1 in
          let Z_ :=
            unBlk
              (run_Mat (Mat_RotSeq Side_Right Pivot_Var Direct_Fwd n 2
                          (shift work k) (shift work (n + k)))
                 (Blk Z_ 0 (k - 1)))
              0 (k - 1) in
          let e := upd e (k - 1) zero in
          QR_loop fuel' fl n eps2 safmin maxCount kend
            (mkState d e (k - 2) count Z_ work)
        else if count =? maxCount
        then Ok (Ret false (mkState d e k count Z_ work))
        else
          let count := count + 1 in
          let f := (d (k - 1) [-] d k) [/] (of_int 2 [*] e (k - 1)) in
          let r := Hypot f unit in
          let g := d k0 [-] d k [+] (e (k - 1) [/] (f [+] CopySign r f)) in
          '(d, e, g, _, _, p, work) <-
            forM_up (Z.to_nat (k - 1 - k0 + 1)) k0 (QR_sweep_body fl n k0)
              (d, e, g, unit, unit, zero, work) ;;
          let d := upd d k (d k [-] p) in
          let e := upd e (k - 1) g in
          let nn := Size_wrap (k - k0) + 1 in
          let Z_ := rotate_Z Direct_Fwd n nn k0 work Z_ in
          QR_loop fuel' fl n eps2 safmin maxCount kend
            (mkState d e k count Z_ work)
      else Ok (Done st)
  end.

(** [while( count < maxCount )]: the split/deflate loop; [st_k] is the
    cursor [k1]. *)
Fixpoint outer_loop (fuel fl : nat) (config : Config) (n : Z)
  (eps2 safmin ssfmin ssfmax : T) (maxCount : Z) (st : state)
  : result (loop_exit state) :=
  match fuel with
  | O => OutOfFuel
  | S fuel' =>
      let '(mkState d e k1 count Z_ work) := st in
      if count <? maxCount then
        if k1 >? to_Index (n - 1) then Ok (Done st)
        else
          let e := if k1 >? 0 then upd e (k1 - 1) zero else e in
          let '(k0, e) :=
            split_scan (Z.to_nat (to_Index (n - 1) - k1)) (zeroTol config) k1 d e in
          let k := k1 in
          let k1_prev := k1 in
          let kend := k0 in
          let kend_prev := kend in
          let k1 := k0 + 1 in
          if kend =? k
          then outer_loop fuel' fl config n eps2 safmin ssfmin ssfmax maxCount
                 (mkState d e k1 count Z_ work)
          else
            let anorm := Syt_Norm NormType_Max (kend - k + 1) (shift d k) (shift e k) in
            if IsZero anorm
            then outer_loop fuel' fl config n eps2 safmin ssfmin ssfmax maxCount
                   (mkState d e k1 count Z_ work)
            else
              let scale := Clamp anorm ssfmin ssfmax in
              dk <- Vec_Rescl fl anorm scale (kend - k + 1) (shift d k) 1 ;;
              let d := unshift dk k in
              ek <- Vec_Rescl fl anorm scale (kend - k) (shift e k) 1 ;;
              let e := unshift ek k in
              let '(k, kend) :=
                if Abs (d kend) [<] Abs (d k) then (kend_prev, k1_prev) else (k, kend) in
              r <- (if kend >=? k
                    then QL_loop fl fl n eps2 safmin maxCount kend
                           (mkState d e k count Z_ work)
                    else QR_loop fl fl n eps2 safmin maxCount kend
                           (mkState d e k count Z_ work)) ;;
              match r with
              | Ret b (mkState d e _ count Z_ work) =>
                  Ok (Ret b (mkState d e k1 count Z_ work))
              | Done (mkState d e _ count Z_ work) =>
                  dk <- Vec_Rescl fl scale anorm
                          ((kend_prev + 1) - (k1_prev + 1) + 1) (shift d k1_prev) 1 ;;
                  let d := unshift dk k1_prev in
                  outer_loop fuel' fl config n eps2 safmin ssfmin ssfmax maxCount
                    (mkState d e k1 count Z_ work)
              end
      else Ok (Done st)
  end.

(** [Solve] with the final values of the locals [k1] and [count]. *)
Definition Solve_state (fuel : nat) (config : Config) (n : Z) (d e : Arr T)
  (Z_ : Mat T) (work : Arr T) : result (bool * state) :=
  if n =? 0 then Ok (true, mkState d e 0 0 Z_ work)
  else
    let maxCount := Size_wrap (n * maxIterationCount config) in
    let eps2 := Sqr (zeroTol config) in
    let safmin := minValue in
    let safmax := Inv safmin in
    let ssfmin := Sqrt safmin [/] eps2 in
    let ssfmax := Sqrt safmax [/] of_int 3 in
    r <- outer_loop fuel fuel config n eps2 safmin ssfmin ssfmax maxCount
           (mkState d e 0 0 Z_ work) ;;
    match r with
    | Done st => Ok (true, st)
    | Ret b st => Ok (b, st)
    end.

(** [bool Solve( Size n, T_Arr_d d, T_Arr_e e, T_Blk_Z Z_, Stride Z_ld,
    T_Arr_work work )]: the returned flag and the contents of [d], [e] and
    [Z_] on return. *)
Definition Solve (fuel : nat) (config : Config) (n : Z) (d e : Arr T)
  (Z_ : Mat T) (work : Arr T) : result (bool * Arr T * Arr T * Mat T) :=
  '(b, st) <- Solve_state fuel config n d e Z_ work ;;
  Ok (b, st_d st, st_e st, st_Z st).

End WithScalar.
End Syt_EigVecQR.

(** ** The scalar type [Float64]: IEEE binary64

    The arithmetic is that of the reference implementation [SpecFloat] of the
    standard library at precision 53 and maximal exponent 1024.

    [Hypot] is [std::hypot], which computes the square root of the sum of
    the squares without intermediate rounding and without undue overflow or
    underflow: [b64_hypot] forms the sum of the two squares exactly and
    rounds its square root once, to nearest even.  It is infinite when an
    argument is infinite (also when the other one is a NaN) and a NaN when
    an argument is a NaN and none is infinite.  The C++ standard does not
    fix the last bit of [std::hypot]; the instance takes the correctly
    rounded value. *)
Module Binary64.

Definition prec : Z := 53.
Definition emax : Z := 1024.

Definition b64_of_int (z : Z) : spec_float := binary_normalize prec emax z 0 false.

Definition sign_of (x : spec_float) : bool :=
  match x with
  | S754_zero s | S754_infinity s | S754_finite s _ _ => s
  | S754_nan => false
  end.

Definition b64_copysign (x y : spec_float) : spec_float :=
  match x with
  | S754_zero _ => S754_zero (sign_of y)
  | S754_infinity _ => S754_infinity (sign_of y)
  | S754_nan => S754_nan
  | S754_finite _ m e => S754_finite (sign_of y) m e
  end.

Definition b64_hypot (x y : spec_float) : spec_float :=
  match x, y with
  | S754_infinity _, _ | _, S754_infinity _ => S754_infinity false
  | S754_nan, _ | _, S754_nan => S754_nan
  | S754_zero _, _ => SFabs y
  | _, S754_zero _ => SFabs x
  | S754_finite _ mx ex, S754_finite _ my ey =>
      let e := Z.min (2 * ex) (2 * ey) in
      SFsqrt prec emax
        (S754_finite false
           (Pos.shiftl (mx * mx) (Z.to_N (2 * ex - e))
            + Pos.shiftl (my * my) (Z.to_N (2 * ey - e)))%positive
           e)
  end.

Definition b64_is_nan (x : spec_float) : bool :=
  match x with S754_nan => true | _ => false end.

#[export] Instance b64_Scalar : Scalar spec_float := {|
  of_int := b64_of_int;
  add := SFadd prec emax;
  sub := SFsub prec emax;
  mul := SFmul prec emax;
  div := SFdiv prec emax;
  neg := SFopp;
  eqb := SFeqb;
  ltb := SFltb;
  leb := SFleb;
  Abs := SFabs;
  Sqrt := SFsqrt prec emax;
  Hypot := b64_hypot;
  CopySign := b64_copysign;
  IsUndefined := b64_is_nan;
  undefined := S754_nan;
  minValue := S754_finite false (2 ^ 52) (-1074);
  maxValue := SFmax_float prec emax;
  epsilon := S754_finite false (2 ^ 52) (-104)
|}.

End Binary64.

(** ** The scalar type of exact arithmetic: the real numbers

    Comparisons are the decidable ones of [R]; there is no undefined value,
    so [IsUndefined] is constantly [false] ([numeric_limits<T>::quiet_NaN()]
    of a type without one is [T()]).  [minValue], [maxValue] and [epsilon]
    are the values of the binary64 constants. *)
Module ExactReal.

Definition R_eqb (x y : R) : bool := if Req_dec_T x y then true else false.
Definition R_ltb (x y : R) : bool := if Rlt_dec x y then true else false.
Definition R_leb (x y : R) : bool := if Rle_dec x y then true else false.

Definition R_hypot (x y : R) : R := sqrt (x * x + y * y).

(** [std::copysign]: the magnitude of [x] with the sign of [y]. *)
Definition R_copysign (x y : R) : R := if Rlt_dec y 0 then (- Rabs x)%R else Rabs x.

Definition R_minValue : R := (/ 2 ^ 1022)%R.
Definition R_maxValue : R := ((2 - / 2 ^ 52) * 2 ^ 1023)%R.
Definition R_epsilon : R := (/ 2 ^ 52)%R.

#[export] Instance R_Scalar : Scalar R := {|
  of_int := IZR;
  add := Rplus;
  sub := Rminus;
  mul := Rmult;
  div := Rdiv;
  neg := Ropp;
  eqb := R_eqb;
  ltb := R_ltb;
  leb := R_leb;
  Abs := Rabs;
  Sqrt := sqrt;
  Hypot := R_hypot;
  CopySign := R_copysign;
  IsUndefined := fun _ => false;
  undefined := 0%R;
  minValue := R_minValue;
  maxValue := R_maxValue;
  epsilon := R_epsilon
|}.

End ExactReal.

(** ** The rank-1 updates of the specification

    [H*C = C - tau*v*(~v*C)] and [C*H = C - tau*(C*v)*~v] over the whole
    [m] by [n] block, for a vector [v] given by its components. *)
Module Rank1Spec.

Fixpoint Rsum (count : nat) (i : Z) (f : Z -> R) : R :=
  match count with
  | O => 0%R
  | S c => (f i + Rsum c (i + 1) f)%R
  end.

Definition in_block (m n i j : Z) : bool :=
  (0 <=? i) && (i <? m) && (0 <=? j) && (j <? n).

Definition rank1_left (m n : Z) (tau : R) (v : Z -> R) (C : Mat R) : Mat R :=
  fun i j =>
    if in_block m n i j
    then (C i j - tau * v i * Rsum (Z.to_nat m) 0 (fun k => v k * C k j))%R
    else C i j.

Definition rank1_right (m n : Z) (tau : R) (v : Z -> R) (C : Mat R) : Mat R :=
  fun i j =>
    if in_block m n i j
    then (C i j - tau * Rsum (Z.to_nat n) 0 (fun k => C i k * v k) * v j)%R
    else C i j.

End Rank1Spec.

(** * Notions used in the statements *)

(** ** Inputs used in the examples *)

Definition b64 (z : Z) : spec_float := Binary64.b64_of_int z.
Definition b64_arr (l : list Z) : Arr spec_float := of_list (b64 0) (map b64 l).

(** ** Element accesses *)

(** The index pair [p] names an element of an [m] by [n] block. *)
Definition within (m n : Z) (p : Z * Z) : Prop :=
  0 <= fst p < m /\ 0 <= snd p < n.

Section TraceNotions.
Context {T : Type}.

(** A traced computation that only logs index pairs satisfying [P]. *)
Definition logs_only (P : Z * Z -> Prop) {X : Type} (c : Traced T X) : Prop :=
  forall st, exists new,
    snd (snd (c st)) = new ++ snd st /\ Forall P new.

End TraceNotions.

(** ** Results and states of the two solvers *)

Definition map_result {A B : Type} (f : A -> B) (r : result A) : result B :=
  match r with
  | Ok a => Ok (f a)
  | Throw ex => Throw ex
  | OutOfFuel => OutOfFuel
  end.

Definition map_exit {A B : Type} (f : A -> B) (x : loop_exit A) : loop_exit B :=
  match x with
  | Done s => Done (f s)
  | Ret b s => Ret b (f s)
  end.

Section StateNotions.
Context {T : Type}.

(** The part of the state of [Syt_EigVecQR::Solve] that [Syt_EigQR::Solve]
    has too. *)
Definition values_only (st : @Syt_EigVecQR.state T) : @Syt_EigQR.state T :=
  Syt_EigQR.mkState (Syt_EigVecQR.st_d st) (Syt_EigVecQR.st_e st)
    (Syt_EigVecQR.st_k st) (Syt_EigVecQR.st_count st).

Definition drop_work (st : Arr T * Arr T * T * T * T * T * Arr T)
  : Arr T * Arr T * T * T * T * T :=
  let '(d, e, g, c, s, p, _) := st in (d, e, g, c, s, p).

End StateNotions.

(** ** Norms of a symmetric tridiagonal matrix *)

(** The sum of the absolute values in column [i] (equally: row [i]) of the
    symmetric tridiagonal matrix of order [n] with diagonal [d] and
    off-diagonal [e]. *)
Definition Syt_colsum (n : Z) (d e : Arr R) (i : Z) : R :=
  Rplus (Rplus (Rabs (d i)) (if 0 <? i then Rabs (e (i - 1)) else 0%R))
        (if i <? n - 1 then Rabs (e i) else 0%R).

(** ** The triangle of a symmetric matrix that a routine works on *)

Definition in_triangle (half : Half) (n i j : Z) : bool :=
  match half with
  | Half_Upper => (0 <=? i) && (i <=? j) && (j <? n)
  | Half_Lower => (0 <=? j) && (j <=? i) && (i <? n)
  | Half_Both => false
  end.

(** ** The triangular matrix of a triangular solve *)

(** Entry [(r, c)] of the triangular matrix that [half] and [diag] select
    from the block [A]: on the diagonal the element of [A], or one for
    [Diag::IsUnit]; in the named triangle the element of [A]; zero on the
    other side. *)
Definition tri_entry (half : Half) (diag : Diag) (A : Mat R) (r c : Z) : R :=
  if r =? c
  then match diag with Diag_NotUnit => A r r | Diag_IsUnit => 1%R end
  else if match half with
          | Half_Upper => r <? c
          | Half_Lower => c <? r
          | Half_Both => false
          end
       then A r c
       else 0%R.

(** Entry [(r, c)] of [op(A)]: that matrix, or its transpose. *)
Definition tri_op_entry (half : Half) (A_trnsp : Trnsp) (diag : Diag) (A : Mat R)
  (r c : Z) : R :=
  match A_trnsp with
  | Trnsp_No => tri_entry half diag A r c
  | Trnsp_Yes | Trnsp_Conj => tri_entry half diag A c r
  end.

(** ** The symmetric matrix that a triangle stands for *)

(** Entry [(i, j)] of the symmetric matrix of which [A] holds the triangle
    named by [half]. *)
Definition sym_entry (half : Half) (A : Mat R) (i j : Z) : R :=
  match half with
  | Half_Upper => if i <=? j then A i j else A j i
  | Half_Lower => if j <=? i then A i j else A j i
  | Half_Both => 0%R
  end.

(** The sum of the absolute values in row [i] (equally: column [i]) of that
    matrix of order [n]. *)
Definition Sym_rowsum (half : Half) (n : Z) (A : Mat R) (i : Z) : R :=
  Rank1Spec.Rsum (Z.to_nat n) 0 (fun j => Rabs (sym_entry half A i j)).

(** ** Binary64 values in the loop of Vec_Rescl *)

(** A finite value with at most 53 bits of mantissa and an exponent not
    under [emin = -1074]: what every value of the type [Float64] is. *)
Definition b64_wf (x : spec_float) : Prop :=
  match x with
  | S754_finite _ m e => Zpos (digits2_pos m) <= 53 /\ -1074 <= e
  | _ => True
  end.

(** The height of the exponent of a finite value above [emin - 1]. *)
Definition b64_rank (x : spec_float) : nat :=
  match x with
  | S754_finite _ _ e => Z.to_nat (e + 1075)
  | _ => O
  end.

(** What a rounded value is, next to a finite operand of exponent [e]: zero
    or infinite, or finite with a smaller exponent. *)
Definition b64_below (e : Z) (y : spec_float) : Prop :=
  match y with
  | S754_finite _ m' e' => Zpos (digits2_pos m') <= 53 /\ -1074 <= e' < e
  | S754_nan => False
  | _ => True
  end.

(** * Properties *)

Import Binary64 ExactReal.

(** ** Syt_EigQR::Solve and the iteration budget *)

Section ZeroBudget.
Context {T : Type} `{Scalar T}.

(** With a budget of zero sweeps the outer loop is not entered. *)
Lemma outer_loop_zero_budget fuel fl config n eps2 safmin ssfmin ssfmax st :
  Syt_EigQR.st_count st = 0 ->
  Syt_EigQR.outer_loop (S fuel) fl config n eps2 safmin ssfmin ssfmax 0 st = Ok (Done st).
Proof.
  intros Hc. destruct st as [d e k count]. simpl in Hc. subst count.
  reflexivity.
Qed.

Lemma Solve_state_zero_budget fuel config n d e :
  n <> 0 ->
  Size_wrap (n * Syt_EigQR.maxIterationCount config) = 0 ->
  Syt_EigQR.Solve_state (S fuel) config n d e
  = Ok (true, Syt_EigQR.mkState d e 0 0).
Proof.
  intros Hn Hb. unfold Syt_EigQR.Solve_state.
  apply Z.eqb_neq in Hn. rewrite Hn, Hb.
  rewrite outer_loop_zero_budget by reflexivity. reflexivity.
Qed.

End ZeroBudget.

(** C1.  [Solve] on the 2 by 2 matrix with diagonal [(1, 2)] and off-diagonal
    [1], configured with [maxIterationCount = 0]: the call returns [true]
    although nothing was deflated.  The cursor [k1] is still [0], which is not
    past the last index [n - 1 = 1]; the sweep counter is [0]; [d] and [e] are
    the arrays that were passed in, and the coupling [e[0]] is not zero. *)
Theorem Syt_EigQR_Solve_true_with_unprocessed_block :
  let config := {| Syt_EigQR.maxIterationCount := 0;
                   Syt_EigQR.zeroTol := epsilon |} in
  let d := b64_arr [1; 2] in
  let e := b64_arr [1] in
  (forall fuel, Syt_EigQR.Solve_state (S fuel) config 2 d e
                = Ok (true, Syt_EigQR.mkState d e 0 0))
  /\ (forall fuel, Syt_EigQR.Solve (S fuel) config 2 d e = Ok (true, d, e))
  /\ (0 <=? to_Index (2 - 1)) = true
  /\ IsZero (e 0) = false.
Proof.
  intros config d e. split; [| split; [| split]].
  - intros fuel. apply Solve_state_zero_budget; [discriminate | reflexivity].
  - intros fuel. unfold Syt_EigQR.Solve.
    rewrite Solve_state_zero_budget; [reflexivity | discriminate | reflexivity].
  - reflexivity.
  - vm_compute. reflexivity.
Qed.

(** The same happens with a positive budget.  For [n = 6] and
    [maxIterationCount = 1] the budget is six sweeps; the leading 4 by 4 block
    of the matrix below converges with its sixth sweep, the loop condition
    [count < maxCount] then ends the outer loop, and [Solve] returns [true]
    with the cursor at [4] and the trailing 2 by 2 block untouched
    ([e[4]] is still [1]). *)
Example Syt_EigQR_Solve_true_after_last_sweep :
  let config := {| Syt_EigQR.maxIterationCount := 1;
                   Syt_EigQR.zeroTol := epsilon |} in
  let d := b64_arr [1; 2; 3; 4; 1; 2] in
  let e := b64_arr [1; 1; 1; 0; 1] in
  match Syt_EigQR.Solve_state 100 config 6 d e with
  | Ok (b, st) =>
      b = true /\ Syt_EigQR.st_k st = 4 /\ Syt_EigQR.st_count st = 6
      /\ Syt_EigQR.st_e st 4 = b64 1
      /\ Syt_EigQR.st_d st 4 = b64 1 /\ Syt_EigQR.st_d st 5 = b64 2
  | _ => False
  end.
Proof. vm_compute. repeat split. Qed.

(** ** Rfl_MatMul with [tau = 0] *)

(** C3.  When [tau] tests as zero, [Rfl_MatMul] returns at once: the block
    [C] and the work buffer come back as they were passed, for every side,
    size, vector and stride. *)
Theorem Rfl_MatMul_tau_zero_is_noop
  {T : Type} `{Scalar T} (side : Side) (m n : Z) (v : Arr T) (V_cs : Z) (tau : T)
  (C : Mat T) (work : Arr T) :
  IsZero tau = true ->
  Rfl_MatMul side m n v V_cs tau C work = (C, work).
Proof.
  intros Htau. unfold Rfl_MatMul. rewrite Htau. reflexivity.
Qed.

Lemma Rfl_MatMul_tau_zero_is_noop_witness :
  IsZero (b64 0) = true
  /\ Rfl_MatMul Side_Left 2 2 (b64_arr [1; 3]) 1 (b64 0)
       (fun i j => b64 (i + 2 * j)) (b64_arr [7; 7])
     = (fun i j => b64 (i + 2 * j), b64_arr [7; 7]).
Proof.
  split.
  - reflexivity.
  - apply (Rfl_MatMul_tau_zero_is_noop Side_Left 2 2 (b64_arr [1; 3]) 1 (b64 0)
             (fun i j => b64 (i + 2 * j)) (b64_arr [7; 7])).
    reflexivity.
Defined.

(** ** [Half::Both] in the triangular routines *)

(** C9.  With [half = Half::Both], [Sym_Rank2Upd] and [Tri_Solv_Vec] throw
    [BadArgument] with argument index 1 on every input: whatever [n] and the
    other arguments are (the test of [half] comes before any test of [n]).
    [Sym_Norm] with [half = Half::Both] throws nothing: for [n >= 1] it
    returns the value [undefined< Scalar >] and leaves [work] alone. *)
Theorem Half_Both_is_handled_inconsistently
  {T : Type} `{Scalar T}
  (n : Z) (alpha : T) (x y : Arr T) (x_s y_s : Z) (A : Mat T) (A_ld : Z)
  (A_trnsp : Trnsp) (diag : Diag) (normType : NormType) (work : Arr T) :
  Sym_Rank2Upd Half_Both n alpha x x_s y y_s A
    = Throw (mkBadArgument "Sym_Rank2Upd" 1)
  /\ Tri_Solv_Vec Half_Both A_trnsp diag n A A_ld x x_s
    = Throw (mkBadArgument "Tri_Solv_Vec" 1)
  /\ (1 <= n -> Sym_Norm normType Half_Both n A work = (undefined, work)).
Proof.
  split; [reflexivity | split; [reflexivity | ]].
  intros Hn. unfold Sym_Norm. destruct (n =? 0) eqn:En.
  - apply Z.eqb_eq in En. lia.
  - reflexivity.
Qed.

Lemma Half_Both_is_handled_inconsistently_witness :
  Sym_Rank2Upd Half_Both 0 (b64 1) (b64_arr [1; 2]) 1 (b64_arr [3; 4]) 1
    (fun i j => b64 (i + j))
  = Throw (mkBadArgument "Sym_Rank2Upd" 1)
  /\ Tri_Solv_Vec Half_Both Trnsp_No Diag_NotUnit 0 (fun i j => b64 (i + j)) 2
       (b64_arr [1; 2]) 1
     = Throw (mkBadArgument "Tri_Solv_Vec" 1)
  /\ Sym_Norm NormType_Max Half_Both 2 (fun i j => b64 (i + j)) (b64_arr [0; 0])
     = (S754_nan, b64_arr [0; 0])
  /\ IsUndefined (fst (Sym_Norm NormType_Max Half_Both 2
                         (fun i j => b64 (i + j)) (b64_arr [0; 0]))) = true.
Proof.
  pose proof (Half_Both_is_handled_inconsistently 0 (b64 1) (b64_arr [1; 2])
                (b64_arr [3; 4]) 1 1 (fun i j => b64 (i + j)) 2
                Trnsp_No Diag_NotUnit NormType_Max (b64_arr [0; 0]))
    as [Hupd [Hsolv _]].
  pose proof (Half_Both_is_handled_inconsistently 2 (b64 1) (b64_arr [1; 2])
                (b64_arr [3; 4]) 1 1 (fun i j => b64 (i + j)) 2
                Trnsp_No Diag_NotUnit NormType_Max (b64_arr [0; 0]))
    as [_ [_ Hnorm]].
  specialize (Hnorm ltac:(lia)).
  split; [exact Hupd | split; [exact Hsolv | split]].
  - exact Hnorm.
  - rewrite Hnorm. reflexivity.
Defined.

(** ** Mat_RotSeq: the elements it touches *)

Lemma to_Index_small z :
  - 2 ^ (Size_bits - 1) <= z < 2 ^ (Size_bits - 1) -> to_Index z = z.
Proof.
  intros Hz. unfold to_Index.
  replace (2 ^ Size_bits) with (2 * 2 ^ (Size_bits - 1)) by reflexivity.
  rewrite Z.mod_small; lia.
Qed.

Section Traces.
Context {T : Type}.

Lemma logs_only_tret P {X : Type} (x : X) : logs_only (T:=T) P (tret x).
Proof. intros st. exists []. split; [reflexivity | constructor]. Qed.

Lemma logs_only_tbind P {X Y : Type} (c : Traced T X) (k : X -> Traced T Y) :
  logs_only P c -> (forall x, logs_only P (k x)) -> logs_only P (tbind c k).
Proof.
  intros Hc Hk st. unfold tbind.
  destruct (Hc st) as [new1 [E1 F1]].
  destruct (c st) as [x st1] eqn:Ec. simpl in E1.
  destruct (Hk x st1) as [new2 [E2 F2]].
  exists (new2 ++ new1). split.
  - rewrite E2, E1. apply app_assoc.
  - apply Forall_app. split; assumption.
Qed.

Lemma logs_only_rd (P : Z * Z -> Prop) i j : P (i, j) -> logs_only P (@rd T i j).
Proof.
  intros Hp st. exists [(i, j)]. split; [reflexivity | constructor; [assumption | constructor]].
Qed.

Lemma logs_only_wr (P : Z * Z -> Prop) i j v : P (i, j) -> logs_only P (@wr T i j v).
Proof.
  intros Hp st. exists [(i, j)]. split; [reflexivity | constructor; [assumption | constructor]].
Qed.

Lemma logs_only_forT_up P count : forall i body,
  (forall k, i <= k < i + Z.of_nat count -> logs_only P (body k)) ->
  logs_only P (@forT_up T count i body).
Proof.
  induction count as [| c IH]; intros i body Hb; simpl.
  - apply logs_only_tret.
  - apply logs_only_tbind.
    + apply Hb. lia.
    + intros _. apply IH. intros k Hk. apply Hb. lia.
Qed.

Lemma logs_only_forT_down P count : forall i body,
  (forall k, i - Z.of_nat count < k <= i -> logs_only P (body k)) ->
  logs_only P (@forT_down T count i body).
Proof.
  induction count as [| c IH]; intros i body Hb; simpl.
  - apply logs_only_tret.
  - apply logs_only_tbind.
    + apply Hb. lia.
    + intros _. apply IH. intros k Hk. apply Hb. lia.
Qed.

Lemma logs_only_accesses P {X : Type} (c : Traced T X) (A : Mat T) :
  logs_only P c -> Forall P (accesses c A).
Proof.
  intros Hc. destruct (Hc (A, [])) as [new [E F]].
  unfold accesses. rewrite E. simpl. rewrite app_nil_r. exact F.
Qed.

End Traces.

Section RotSeqSafety.
Context {T : Type} `{Scalar T}.

Lemma logs_only_rotate_if P (cj sj : T) (count : Z) body :
  0 <= count < 2 ^ (Size_bits - 1) ->
  (forall i, 0 <= i < count -> logs_only P (body i)) ->
  logs_only P (rotate_if cj sj count body).
Proof.
  intros Hc Hb. unfold rotate_if.
  destruct (negb (IsUnit cj) || negb (IsUnit sj)).
  - apply logs_only_forT_up. intros k Hk. apply Hb.
    rewrite to_Index_small in Hk by lia. lia.
  - apply logs_only_tret.
Qed.

Ltac rot_body :=
  repeat first
    [ apply logs_only_tbind; [| intro]
    | apply logs_only_rd
    | apply logs_only_wr ];
  unfold within; simpl; lia.

(** Every branch but [(Side::Right, Pivot::Btm, Direct::Fwd)] stays inside
    the block. *)
Lemma Mat_RotSeq_stays_within side pivot direct m n (c s : Arr T) (A : Mat T) :
  (side, pivot, direct) <> (Side_Right, Pivot_Btm, Direct_Fwd) ->
  0 <= m < 2 ^ (Size_bits - 1) ->
  0 <= n < 2 ^ (Size_bits - 1) ->
  Forall (within m n) (accesses (Mat_RotSeq side pivot direct m n c s) A).
Proof.
  intros Hbranch Hm Hn. apply logs_only_accesses.
  unfold Mat_RotSeq.
  destruct (m =? 0) eqn:Em; [apply logs_only_tret |].
  destruct (n =? 0) eqn:En; [apply logs_only_tret |].
  apply Z.eqb_neq in Em, En. simpl.
  assert (Hm1 : to_Index (m - 1) = m - 1) by (apply to_Index_small; lia).
  assert (Hn1 : to_Index (n - 1) = n - 1) by (apply to_Index_small; lia).
  assert (Hm2 : to_Index (m - 1 - 1) = m - 1 - 1) by (apply to_Index_small; lia).
  assert (Hn2 : to_Index (n - 1 - 1) = n - 1 - 1) by (apply to_Index_small; lia).
  assert (Hm0 : to_Index m = m) by (apply to_Index_small; lia).
  assert (Hn0 : to_Index n = n) by (apply to_Index_small; lia).
  destruct side, pivot, direct; try congruence;
    rewrite ?Hm1, ?Hn1, ?Hm2, ?Hn2, ?Hm0, ?Hn0;
    (apply logs_only_forT_up || apply logs_only_forT_down);
    intros j Hj; apply logs_only_rotate_if; try lia;
    intros i Hi; rot_body.
Qed.

(** What was logged stays logged. *)
Lemma logged_stays {X Y : Type} (p : Traced T X) (k : X -> Traced T Y) st q :
  In q (snd (snd (p st))) ->
  (forall x, logs_only (fun _ => True) (k x)) ->
  In q (snd (snd (tbind p k st))).
Proof.
  intros Hin Hk. unfold tbind. destruct (p st) as [x st'].
  destruct (Hk x st') as [new [E _]]. rewrite E.
  apply in_or_app. right. exact Hin.
Qed.

Ltac any_log :=
  repeat first
    [ apply logs_only_tret
    | apply logs_only_rd
    | apply logs_only_wr
    | apply logs_only_tbind; [| intro]
    | apply logs_only_forT_up; intros ? _
    | apply logs_only_forT_down; intros ? _
    | match goal with
      | |- logs_only _ (rotate_if ?cj ?sj _ _) =>
          unfold rotate_if; destruct (negb (IsUnit cj) || negb (IsUnit sj))
      end ];
  try exact I.

(** In the branch [(Side::Right, Pivot::Btm, Direct::Fwd)] the first rotation
    that is applied reads [A(0, n)]. *)
Lemma Mat_RotSeq_Right_Btm_Fwd_reads_column_n m n (c s : Arr T) (A : Mat T) :
  1 <= m < 2 ^ (Size_bits - 1) ->
  2 <= n < 2 ^ (Size_bits - 1) ->
  negb (IsUnit (c 0)) || negb (IsUnit (s 0)) = true ->
  In (0, n) (accesses (Mat_RotSeq Side_Right Pivot_Btm Direct_Fwd m n c s) A).
Proof.
  intros Hm Hn Hrot. unfold accesses, Mat_RotSeq.
  destruct (m =? 0) eqn:Em; [apply Z.eqb_eq in Em; lia |].
  destruct (n =? 0) eqn:En; [apply Z.eqb_eq in En; lia |].
  simpl orb. cbv iota. rewrite (to_Index_small (n - 1)) by lia.
  destruct (Z.to_nat (n - 1)) as [| cn] eqn:Ecn; [lia |].
  cbn [forT_up].
  apply logged_stays; [| intros _; any_log].
  unfold rotate_if. rewrite Hrot. rewrite (to_Index_small m) by lia.
  destruct (Z.to_nat m) as [| cm] eqn:Ecm; [lia |].
  cbn [forT_up].
  apply logged_stays; [| intros _; any_log].
  unfold tbind, rd, wr. simpl. right. left. reflexivity.
Qed.

End RotSeqSafety.

(** C10.  [Mat_RotSeq( Side::Right, Pivot::Btm, Direct::Fwd, 1, 2, c, s, A )]
    with the rotation [c[0] = 1], [s[0] = 0]: the element accesses are, in
    order, [A(0,0)], [A(0,1)], [A(0,0)], [A(0,2)], [A(0,1)] (the log is most
    recent first).  [A(0,2)] lies outside the 1 by 2 block, and its value
    ends up in [A(0,1)].  The same call with [Direct::Bwd] stays inside the
    block and leaves [A(0,1)] as it was. *)
Theorem Mat_RotSeq_Right_Btm_Fwd_reads_outside_block :
  let c := b64_arr [1] in
  let s := b64_arr [0] in
  let A : Mat spec_float := fun i j => b64 (10 * i + j + 5) in
  let fwd := Mat_RotSeq Side_Right Pivot_Btm Direct_Fwd 1 2 c s in
  let bwd := Mat_RotSeq Side_Right Pivot_Btm Direct_Bwd 1 2 c s in
  accesses fwd A = [(0, 1); (0, 2); (0, 0); (0, 1); (0, 0)]
  /\ ~ within 1 2 (0, 2)
  /\ run_Mat fwd A 0 1 = A 0 2
  /\ Forall (within 1 2) (accesses bwd A)
  /\ run_Mat bwd A 0 1 = A 0 1.
Proof.
  intros c s A fwd bwd. split; [| split; [| split; [| split]]].
  - vm_compute. reflexivity.
  - unfold within. simpl. lia.
  - vm_compute. reflexivity.
  - apply Mat_RotSeq_stays_within; [discriminate | | ]; unfold Size_bits; lia.
  - vm_compute. reflexivity.
Qed.

(** ** Syt_EigQR::Solve on trivial inputs *)

Lemma to_Index_le s : 0 <= s -> to_Index s <= s.
Proof.
  intros Hs. unfold to_Index.
  assert (Hmod : (s + 2 ^ (Size_bits - 1)) mod 2 ^ Size_bits <= s + 2 ^ (Size_bits - 1)).
  { apply Z.mod_le; unfold Size_bits; simpl; lia. }
  lia.
Qed.

Lemma Size_wrap_nonneg z : 0 <= Size_wrap z.
Proof. unfold Size_wrap. apply Z.mod_pos_bound. reflexivity. Qed.

Section Diagonal.
Context {T : Type} `{Scalar T}.

Lemma split_scan_stops_at_zero count zeroTol k0 (d e : Arr T) :
  (count = O \/ IsZero (Abs (e k0)) = true) ->
  split_scan count zeroTol k0 d e = (k0, e).
Proof.
  intros [-> | Hz]; [reflexivity |].
  destruct count; simpl; [reflexivity |]. rewrite Hz. reflexivity.
Qed.

(** On an input whose couplings all test as zero every pass of the outer
    loop finds a block of size one and moves the cursor by one. *)
Lemma outer_loop_on_diagonal fl config n eps2 safmin ssfmin ssfmax maxCount
  (d e0 : Arr T) : forall rem fuel k1 (e : Arr T),
  0 <= k1 ->
  rem = Z.to_nat (to_Index (n - 1) + 1 - k1) ->
  (rem < fuel)%nat ->
  (forall i, k1 <= i < to_Index (n - 1) -> IsZero (Abs (e i)) = true) ->
  (forall i, e i = e0 i \/ e i = zero) ->
  exists e' k1',
    Syt_EigQR.outer_loop fuel fl config n eps2 safmin ssfmin ssfmax maxCount
      (Syt_EigQR.mkState d e k1 0)
    = Ok (Done (Syt_EigQR.mkState d e' k1' 0))
    /\ (forall i, e' i = e0 i \/ e' i = zero).
Proof.
  induction rem as [| rem IH]; intros fuel k1 e Hk1 Hrem Hfuel Hz He;
    (destruct fuel as [| fuel]; [lia |]); simpl.
  - destruct (0 <? maxCount); [| exists e, k1; split; [reflexivity | exact He]].
    destruct (k1 >? to_Index (n - 1)) eqn:Ek; [exists e, k1; split; [reflexivity | exact He] |].
    rewrite Z.gtb_ltb in Ek. apply Z.ltb_ge in Ek. lia.
  - destruct (0 <? maxCount); [| exists e, k1; split; [reflexivity | exact He]].
    destruct (k1 >? to_Index (n - 1)) eqn:Ek; [exists e, k1; split; [reflexivity | exact He] |].
    rewrite Z.gtb_ltb in Ek. apply Z.ltb_ge in Ek.
    set (e1 := if k1 >? 0 then upd e (k1 - 1) zero else e).
    assert (He1 : forall i, e1 i = e0 i \/ e1 i = zero).
    { intros i. subst e1. destruct (k1 >? 0); [| apply He].
      unfold upd. destruct (i =? k1 - 1); [right; reflexivity | apply He]. }
    assert (Hsame : forall i, k1 <= i -> e1 i = e i).
    { intros i Hi. subst e1. destruct (k1 >? 0); [| reflexivity].
      unfold upd. destruct (i =? k1 - 1) eqn:Ei; [apply Z.eqb_eq in Ei; lia | reflexivity]. }
    rewrite split_scan_stops_at_zero.
    + rewrite Z.eqb_refl. apply IH; try lia.
      * intros i Hi. rewrite Hsame by lia. apply Hz. lia.
      * exact He1.
    + destruct (Z.to_nat (to_Index (n - 1) - k1)) eqn:Ec; [left; reflexivity | right].
      rewrite Hsame by lia. apply Hz. lia.
Qed.

End Diagonal.

(** C6.  [Solve] for [n = 0] returns [true] and touches nothing.  For
    [n >= 1] and an [e] whose first [n - 1] entries all pass the zero test of
    the split scan ([IsZero( Abs( e[i] ) )]), [Solve] returns [true], the
    sweep counter is still [0] on return, and [d] is the array that was
    passed in; an entry of [e] is either as it was or has been overwritten
    with zero.  The outer loop needs at most [n + 1] passes. *)
Theorem Syt_EigQR_Solve_on_diagonal_input
  {T : Type} `{Scalar T} (fuel : nat) (config : Syt_EigQR.Config) (n : Z)
  (d e : Arr T) :
  Syt_EigQR.Solve fuel config 0 d e = Ok (true, d, e)
  /\ (1 <= n ->
      (forall i, 0 <= i < n - 1 -> IsZero (Abs (e i)) = true) ->
      (Z.to_nat n < fuel)%nat ->
      exists e' k1,
        Syt_EigQR.Solve_state fuel config n d e
        = Ok (true, Syt_EigQR.mkState d e' k1 0)
        /\ Syt_EigQR.Solve fuel config n d e = Ok (true, d, e')
        /\ (forall i, e' i = e i \/ e' i = zero)).
Proof.
  split; [reflexivity |].
  intros Hn Hz Hfuel.
  pose proof (to_Index_le (n - 1) ltac:(lia)) as Hle.
  unfold Syt_EigQR.Solve, Syt_EigQR.Solve_state.
  destruct (n =? 0) eqn:En; [apply Z.eqb_eq in En; lia |].
  destruct (outer_loop_on_diagonal fuel config n (Sqr (Syt_EigQR.zeroTol config))
              minValue (Sqrt minValue [/] Sqr (Syt_EigQR.zeroTol config))
              (Sqrt (Inv minValue) [/] of_int 3)
              (Size_wrap (n * Syt_EigQR.maxIterationCount config)) d e
              (Z.to_nat (to_Index (n - 1) + 1 - 0)) fuel 0 e)
    as [e' [k1' [Hrun He']]]; try lia.
  - intros i Hi. apply Hz. lia.
  - intros i. left. reflexivity.
  - exists e', k1'. rewrite Hrun. simpl. repeat split. exact He'.
Qed.

Lemma Syt_EigQR_Solve_on_diagonal_input_witness :
  exists e',
    Syt_EigQR.Solve 4 Syt_EigQR.default_Config 3
      (b64_arr [5; -1; 7]) (of_list (b64 0) [S754_zero false; S754_zero true])
    = Ok (true, b64_arr [5; -1; 7], e').
Proof.
  destruct (proj2 (Syt_EigQR_Solve_on_diagonal_input 4 Syt_EigQR.default_Config 3
                     (b64_arr [5; -1; 7])
                     (of_list (b64 0) [S754_zero false; S754_zero true])))
    as [e' [k1 [_ [Hsolve _]]]].
  - lia.
  - intros i Hi.
    assert (Hcase : i = 0 \/ i = 1) by lia.
    destruct Hcase as [-> | ->]; reflexivity.
  - simpl. lia.
  - exists e'. exact Hsolve.
Defined.

(** ** Syt_EigVecQR::Solve against Syt_EigQR::Solve *)

Section Agreement.
Context {T : Type} `{Scalar T}.

Lemma Aux_EigVec2_eigenvalues (a b c : T) :
  (let '(rt1, rt2, _, _) := Aux_EigVec2 a b c in (rt1, rt2)) = Aux_Eig2 a b c.
Proof.
  unfold Aux_EigVec2, Aux_Eig2.
  destruct (if Abs a [>] Abs c then (a, c) else (c, a)) as [acmx acmn].
  destruct (IntSignOrZero (a [+] c)) as [| [p | p |] | [p | p |]];
    cbv beta iota zeta;
    repeat match goal with
           | |- context [let '(_, _) := (if ?b then _ else _) in _] => destruct b
           end;
    reflexivity.
Qed.

Lemma QL_sweep_agree fl n k0 count : forall i st,
  map_result drop_work (forM_down count i (Syt_EigVecQR.QL_sweep_body fl n k0) st)
  = forM_down count i (Syt_EigQR.QL_sweep_body fl k0) (drop_work st).
Proof.
  induction count as [| count IH]; intros i st.
  - reflexivity.
  - destruct st as [[[[[[d e] g] c] s] p] work]. simpl.
    destruct (Aux_PlnRot2 fl g (s [*] e i)) as [[[c' s'] r] | ex |]; simpl;
      try reflexivity.
    rewrite IH. reflexivity.
Qed.

Lemma QR_sweep_agree fl n k0 count : forall i st,
  map_result drop_work (forM_up count i (Syt_EigVecQR.QR_sweep_body fl n k0) st)
  = forM_up count i (Syt_EigQR.QR_sweep_body fl k0) (drop_work st).
Proof.
  induction count as [| count IH]; intros i st.
  - reflexivity.
  - destruct st as [[[[[[d e] g] c] s] p] work]. simpl.
    destruct (Aux_PlnRot2 fl g (s [*] e i)) as [[[c' s'] r] | ex |]; simpl;
      try reflexivity.
    rewrite IH. reflexivity.
Qed.

Lemma QL_loop_agree fl n eps2 safmin maxCount kend fuel : forall st,
  map_result (map_exit values_only)
    (Syt_EigVecQR.QL_loop fuel fl n eps2 safmin maxCount kend st)
  = Syt_EigQR.QL_loop fuel fl eps2 safmin maxCount kend (values_only st).
Proof.
  induction fuel as [| fuel IH]; intros [d e k count Z_ work]; [reflexivity |].
  unfold values_only in *. simpl in *.
  destruct (k <=? kend); [| reflexivity].
  set (k0 := if negb (k =? kend)
             then QL_find (Z.to_nat (kend - k)) eps2 safmin k d e else kend).
  set (e1 := if k0 <? kend then upd e k0 zero else e).
  destruct (k0 =? k); [rewrite IH; reflexivity |].
  destruct (k0 =? k + 1).
  { pose proof (Aux_EigVec2_eigenvalues (d k) (e1 k) (d (k + 1))) as Hv.
    destruct (Aux_EigVec2 (d k) (e1 k) (d (k + 1))) as [[[rt1 rt2] cs1] sn1].
    rewrite <- Hv. rewrite IH. reflexivity. }
  destruct (count =? maxCount); [reflexivity |].
  match goal with
  | |- context [forM_down ?c ?i (Syt_EigVecQR.QL_sweep_body fl n k0) ?st] =>
      pose proof (QL_sweep_agree fl n k0 c i st) as Hs;
      destruct (forM_down c i (Syt_EigVecQR.QL_sweep_body fl n k0) st)
        as [[[[[[[d' e'] g'] c'] s'] p'] work'] | ex |]
  end; simpl in Hs; rewrite <- Hs; simpl; try reflexivity.
  rewrite IH. reflexivity.
Qed.

Lemma QR_loop_agree fl n eps2 safmin maxCount kend fuel : forall st,
  map_result (map_exit values_only)
    (Syt_EigVecQR.QR_loop fuel fl n eps2 safmin maxCount kend st)
  = Syt_EigQR.QR_loop fuel fl eps2 safmin maxCount kend (values_only st).
Proof.
  induction fuel as [| fuel IH]; intros [d e k count Z_ work]; [reflexivity |].
  unfold values_only in *. simpl in *.
  destruct (k >=? kend); [| reflexivity].
  set (k0 := if negb (k =? kend)
             then QR_find (Z.to_nat (k - (kend + 1) + 1)) eps2 safmin k d e else kend).
  set (e1 := if k0 >? kend then upd e (k0 - 1) zero else e).
  destruct (k0 =? k); [rewrite IH; reflexivity |].
  destruct (k0 =? k - 1).
  { pose proof (Aux_EigVec2_eigenvalues (d (k - 1)) (e1 (k - 1)) (d k)) as Hv.
    destruct (Aux_EigVec2 (d (k - 1)) (e1 (k - 1)) (d k)) as [[[rt1 rt2] cs1] sn1].
    rewrite <- Hv. rewrite IH. reflexivity. }
  destruct (count =? maxCount); [reflexivity |].
  match goal with
  | |- context [forM_up ?c ?i (Syt_EigVecQR.QR_sweep_body fl n k0) ?st] =>
      pose proof (QR_sweep_agree fl n k0 c i st) as Hs;
      destruct (forM_up c i (Syt_EigVecQR.QR_sweep_body fl n k0) st)
        as [[[[[[[d' e'] g'] c'] s'] p'] work'] | ex |]
  end; simpl in Hs; rewrite <- Hs; simpl; try reflexivity.
  rewrite IH. reflexivity.
Qed.

Lemma outer_loop_agree fl mi tol n eps2 safmin ssfmin ssfmax maxCount fuel :
  forall st,
  map_result (map_exit values_only)
    (Syt_EigVecQR.outer_loop fuel fl (Syt_EigVecQR.mkConfig mi tol) n
       eps2 safmin ssfmin ssfmax maxCount st)
  = Syt_EigQR.outer_loop fuel fl (Syt_EigQR.mkConfig mi tol) n
      eps2 safmin ssfmin ssfmax maxCount (values_only st).
Proof.
  induction fuel as [| fuel IH]; intros [d e k1 count Z_ work]; [reflexivity |].
  unfold values_only in *. simpl in *.
  destruct (count <? maxCount); [| reflexivity].
  destruct (k1 >? to_Index (n - 1)); [reflexivity |].
  destruct (split_scan (Z.to_nat (to_Index (n - 1) - k1)) tol k1 d
              (if k1 >? 0 then upd e (k1 - 1) zero else e)) as [k0 e1].
  destruct (k0 =? k1); [rewrite IH; reflexivity |].
  set (anorm := Syt_Norm NormType_Max (k0 - k1 + 1) (shift d k1) (shift e1 k1)).
  destruct (IsZero anorm); [rewrite IH; reflexivity |].
  set (scale := Clamp anorm ssfmin ssfmax).
  destruct (Vec_Rescl fl anorm scale (k0 - k1 + 1) (shift d k1) 1)
    as [dk | ex |]; simpl; try reflexivity.
  destruct (Vec_Rescl fl anorm scale (k0 - k1) (shift e1 k1) 1)
    as [ek | ex |]; simpl; try reflexivity.
  destruct (if Abs (unshift dk k1 k0) [<] Abs (unshift dk k1 k1)
            then (k0, k1) else (k1, k0)) as [k kend].
  destruct (kend >=? k).
  - pose proof (QL_loop_agree fl n eps2 safmin maxCount kend fl
                  (Syt_EigVecQR.mkState (unshift dk k1) (unshift ek k1) k count Z_ work))
      as Hq.
    unfold values_only in Hq. simpl in Hq. rewrite <- Hq.
    destruct (Syt_EigVecQR.QL_loop fl fl n eps2 safmin maxCount kend
                (Syt_EigVecQR.mkState (unshift dk k1) (unshift ek k1) k count Z_ work))
      as [[[d' e' k' count' Z' work'] | b [d' e' k' count' Z' work']] | ex |];
      simpl; try reflexivity.
    destruct (Vec_Rescl fl scale anorm (k0 + 1 - (k1 + 1) + 1) (shift d' k1) 1)
      as [dk' | ex |]; simpl; try reflexivity.
    rewrite IH. reflexivity.
  - pose proof (QR_loop_agree fl n eps2 safmin maxCount kend fl
                  (Syt_EigVecQR.mkState (unshift dk k1) (unshift ek k1) k count Z_ work))
      as Hq.
    unfold values_only in Hq. simpl in Hq. rewrite <- Hq.
    destruct (Syt_EigVecQR.QR_loop fl fl n eps2 safmin maxCount kend
                (Syt_EigVecQR.mkState (unshift dk k1) (unshift ek k1) k count Z_ work))
      as [[[d' e' k' count' Z' work'] | b [d' e' k' count' Z' work']] | ex |];
      simpl; try reflexivity.
    destruct (Vec_Rescl fl scale anorm (k0 + 1 - (k1 + 1) + 1) (shift d' k1) 1)
      as [dk' | ex |]; simpl; try reflexivity.
    rewrite IH. reflexivity.
Qed.

Lemma Solve_state_agree fuel mi tol n (d e : Arr T) (Z_ : Mat T) (work : Arr T) :
  map_result (fun '(b, st) => (b, values_only st))
    (Syt_EigVecQR.Solve_state fuel (Syt_EigVecQR.mkConfig mi tol) n d e Z_ work)
  = Syt_EigQR.Solve_state fuel (Syt_EigQR.mkConfig mi tol) n d e.
Proof.
  unfold Syt_EigVecQR.Solve_state, Syt_EigQR.Solve_state.
  destruct (n =? 0); [reflexivity |]. simpl.
  match goal with
  | |- context [Syt_EigVecQR.outer_loop ?f ?fl ?c ?n ?a ?b ?x ?y ?z ?st] =>
      pose proof (outer_loop_agree fl mi tol n a b x y z f st) as Ho;
      destruct (Syt_EigVecQR.outer_loop f fl c n a b x y z st)
        as [[st' | b' st'] | ex |]
  end; simpl in Ho; change (values_only (Syt_EigVecQR.mkState d e 0 0 Z_ work))
                       with (Syt_EigQR.mkState d e 0 0) in Ho;
    rewrite <- Ho; reflexivity.
Qed.

End Agreement.

(** C5.  For every [n], tridiagonal pair [(d, e)], configuration, eigenvector
    matrix [Z_] and work buffer, and for every amount of fuel, the two solvers
    end in the same way: both return, with the same flag and the same contents
    of [d] (and of [e]), or both throw the same [BadArgument], or both are
    still running when the fuel is used up. *)
Theorem Syt_EigVecQR_and_Syt_EigQR_agree
  {T : Type} `{Scalar T} (fuel : nat) (maxIterationCount : Z) (zeroTol : T)
  (n : Z) (d e : Arr T) (Z_ : Mat T) (work : Arr T) :
  map_result (fun '(b, d', e', _) => (b, d', e'))
    (Syt_EigVecQR.Solve fuel
       (Syt_EigVecQR.mkConfig maxIterationCount zeroTol) n d e Z_ work)
  = Syt_EigQR.Solve fuel (Syt_EigQR.mkConfig maxIterationCount zeroTol) n d e.
Proof.
  unfold Syt_EigVecQR.Solve, Syt_EigQR.Solve.
  rewrite <- (Solve_state_agree fuel maxIterationCount zeroTol n d e Z_ work).
  destruct (Syt_EigVecQR.Solve_state fuel
              (Syt_EigVecQR.mkConfig maxIterationCount zeroTol) n d e Z_ work)
    as [[b st] | ex |]; reflexivity.
Qed.

(** ** Vec_Rescl: when it throws *)

Section ResclThrows.
Context {T : Type} `{Scalar T}.

Lemma Vec_Rescl_loop_never_throws fuel : forall cfromc ctoc n (x : Arr T) x_s ex,
  Vec_Rescl_loop fuel cfromc ctoc n x x_s <> Throw ex.
Proof.
  induction fuel as [| fuel IH]; intros cfromc ctoc n x x_s ex; simpl.
  - discriminate.
  - destruct (Vec_Rescl_pass cfromc ctoc) as [[[alpha done] cfromc'] ctoc'].
    destruct done; [discriminate | apply IH].
Qed.

(** [Vec_Rescl] throws for argument 1 exactly when [cfrom] is zero or
    undefined, for argument 2 exactly when [cfrom] is neither and [cto] is
    undefined, and it throws nothing else. *)
Lemma Vec_Rescl_throws_iff fuel (cfrom cto : T) n (x : Arr T) x_s :
  (Vec_Rescl fuel cfrom cto n x x_s = Throw (mkBadArgument "Vec_Rescl" 1)
   <-> IsZero cfrom || IsUndefined cfrom = true)
  /\ (Vec_Rescl fuel cfrom cto n x x_s = Throw (mkBadArgument "Vec_Rescl" 2)
      <-> IsZero cfrom || IsUndefined cfrom = false /\ IsUndefined cto = true)
  /\ (IsZero cfrom || IsUndefined cfrom = false -> IsUndefined cto = false ->
      forall ex, Vec_Rescl fuel cfrom cto n x x_s <> Throw ex).
Proof.
  unfold Vec_Rescl.
  destruct (IsZero cfrom || IsUndefined cfrom) eqn:E1.
  - repeat split; try discriminate; intros; try reflexivity.
    destruct H0. discriminate.
  - destruct (IsUndefined cto) eqn:E2.
    + repeat split; try discriminate; intros; auto.
    + assert (Hno : forall ex,
                 (if n =? 0 then Ok x
                  else if cfrom [==] cto then Ok x
                  else Vec_Rescl_loop fuel cfrom cto n x x_s) <> Throw ex).
      { intros ex. destruct (n =? 0); [discriminate |].
        destruct (cfrom [==] cto); [discriminate |].
        apply Vec_Rescl_loop_never_throws. }
      repeat split; try discriminate; intros; auto.
      * exfalso. eapply Hno. eassumption.
      * exfalso. eapply Hno. eassumption.
      * destruct H0. discriminate.
Qed.

End ResclThrows.

(** ** Facts about the exact-arithmetic instance *)

Section RealFacts.
Local Open Scope R_scope.

Lemma R_eqb_true x y : R_eqb x y = true <-> x = y.
Proof. unfold R_eqb. destruct (Req_dec_T x y); split; intros; congruence. Qed.

Lemma R_eqb_false x y : R_eqb x y = false <-> x <> y.
Proof. unfold R_eqb. destruct (Req_dec_T x y); split; intros; congruence. Qed.

Lemma R_ltb_true x y : R_ltb x y = true <-> x < y.
Proof. unfold R_ltb. destruct (Rlt_dec x y); split; intros; congruence. Qed.

Lemma R_ltb_false x y : R_ltb x y = false <-> y <= x.
Proof.
  unfold R_ltb. destruct (Rlt_dec x y); split; intros; try congruence; lra.
Qed.

Lemma R_leb_true x y : R_leb x y = true <-> x <= y.
Proof. unfold R_leb. destruct (Rle_dec x y); split; intros; congruence. Qed.

Lemma R_leb_false x y : R_leb x y = false <-> y < x.
Proof.
  unfold R_leb. destruct (Rle_dec x y); split; intros; try congruence; lra.
Qed.

Lemma IsZero_R_true (x : R) : IsZero x = true <-> x = 0.
Proof.
  unfold IsZero. simpl. rewrite R_eqb_true. split; intros; congruence.
Qed.

Lemma IsZero_R_false (x : R) : IsZero x = false <-> x <> 0.
Proof.
  unfold IsZero. simpl. rewrite R_eqb_false. split; intros Hx E; apply Hx; congruence.
Qed.

Lemma IsUnit_R_true (x : R) : IsUnit x = true <-> x = 1.
Proof.
  unfold IsUnit, unit. simpl. rewrite R_eqb_true. split; intros; congruence.
Qed.

Lemma R_minValue_pos : 0 < R_minValue.
Proof. unfold R_minValue. apply Rinv_0_lt_compat. apply pow_lt. lra. Qed.

Lemma R_minValue_lt_1 : R_minValue < 1.
Proof.
  unfold R_minValue. rewrite <- Rinv_1 at 1.
  apply Rinv_lt_contravar.
  - rewrite Rmult_1_l. apply pow_lt. lra.
  - change 1022%nat with (S 1021). rewrite <- tech_pow_Rmult.
    assert (Hp : 1 <= 2 ^ 1021) by (apply pow_R1_Rle; lra).
    lra.
Qed.

End RealFacts.

(** ** Vec_Rescl in exact arithmetic: the rescaling loop ends *)

Section ResclTerminates.
Local Open Scope R_scope.

Let s : R := R_minValue.

Lemma Rabs_mult_s x : Rabs (x * s) = Rabs x * s.
Proof.
  rewrite Rabs_mult. f_equal. apply Rabs_pos_eq.
  left. apply R_minValue_pos.
Qed.

Lemma div_bignum x : x / (1 / s) = x * s.
Proof.
  pose proof R_minValue_pos as Hs. fold s in Hs. field. lra.
Qed.

(** The three ways a pass of the loop can go: it is the last one; or
    [cfromc] is scaled down because it is still too large for [ctoc]; or
    [ctoc] is scaled down because it is still too large for [cfromc]. *)
Lemma Vec_Rescl_pass_R (cf ct : R) :
  let '(_, done, cf', ct') := Vec_Rescl_pass cf ct in
  done = true
  \/ (done = false /\ cf' = cf * s /\ ct' = ct
      /\ Rabs ct < Rabs cf * s /\ ct <> 0)
  \/ (done = false /\ cf' = cf /\ ct' = ct * s
      /\ (Rabs cf * s <= Rabs ct \/ ct = 0) /\ Rabs cf < Rabs ct * s).
Proof.
  unfold Vec_Rescl_pass. simpl. change R_minValue with s.
  unfold Inv. simpl. change (IZR 1) with 1. rewrite div_bignum.
  destruct (R_eqb (cf * s) cf); [left; reflexivity |].
  destruct (R_eqb (ct * s) ct); [left; reflexivity |].
  rewrite !Rabs_mult_s.
  unfold R_ltb, R_eqb.
  destruct (Rlt_dec (Rabs ct) (Rabs cf * s)) as [E1 | E1];
    destruct (Req_dec_T 0 ct) as [E2 | E2];
    destruct (Rlt_dec (Rabs cf) (Rabs ct * s)) as [E3 | E3];
    cbn [negb andb];
    try (left; reflexivity).
  - right. right. repeat split; auto.
  - right. left. repeat split; auto.
  - right. left. repeat split; auto.
  - right. right. repeat split; auto.
  - right. right. repeat split; auto. left. lra.
Qed.

Lemma pow_s_le_1 k : 0 < s ^ k <= 1.
Proof.
  pose proof R_minValue_pos as Hs. pose proof R_minValue_lt_1 as Hs1.
  fold s in Hs, Hs1. split.
  - apply pow_lt. exact Hs.
  - induction k as [| k IH]; simpl; [lra |].
    assert (0 < s ^ k) by (apply pow_lt; exact Hs). nra.
Qed.

(** Once [ctoc] is the one being scaled down, it stays that way. *)
Lemma Vec_Rescl_loop_ends_D (n : Z) (x_s : Z) : forall M fuel cf ct (x : Arr R),
  (M < fuel)%nat ->
  (Rabs cf * s <= Rabs ct \/ ct = 0) ->
  Rabs ct * s ^ S M <= Rabs cf ->
  exists x', Vec_Rescl_loop fuel cf ct n x x_s = Ok x'.
Proof.
  pose proof R_minValue_pos as Hs. pose proof R_minValue_lt_1 as Hs1.
  fold s in Hs, Hs1.
  induction M as [| M IH]; intros fuel cf ct x Hfuel HnC Hbound;
    (destruct fuel as [| fuel]; [lia |]); simpl;
    pose proof (Vec_Rescl_pass_R cf ct) as Hp;
    destruct (Vec_Rescl_pass cf ct) as [[[alpha done] cf'] ct'];
    destruct Hp as [-> | [[-> [-> [-> [Hlt Hnz]]]] | [-> [-> [-> [_ Hgt]]]]]];
    try (eexists; reflexivity); try (exfalso; lra).
  apply IH.
  - lia.
  - left. rewrite Rabs_mult_s. pose proof (Rabs_pos cf). nra.
  - rewrite Rabs_mult_s. rewrite <- tech_pow_Rmult in Hbound. lra.
Qed.

Lemma Vec_Rescl_loop_ends (n : Z) (x_s : Z) M : forall N fuel cf ct (x : Arr R),
  (N + M < fuel)%nat ->
  (ct = 0 \/ Rabs cf * s ^ S N <= Rabs ct) ->
  Rabs ct * s ^ S M <= Rabs cf ->
  exists x', Vec_Rescl_loop fuel cf ct n x x_s = Ok x'.
Proof.
  pose proof R_minValue_pos as Hs. pose proof R_minValue_lt_1 as Hs1.
  fold s in Hs, Hs1.
  induction N as [| N IH]; intros fuel cf ct x Hfuel HC HD;
    pose proof (Vec_Rescl_pass_R cf ct) as Hp;
    destruct (Vec_Rescl_pass cf ct) as [[[alpha done] cf'] ct'] eqn:Epass;
    destruct Hp as [-> | [[-> [-> [-> [Hlt Hnz]]]] | [-> [-> [-> [HnC Hgt]]]]]];
    try (apply (Vec_Rescl_loop_ends_D n x_s M); [lia | assumption | assumption]);
    (destruct fuel as [| fuel]; [lia |]); simpl; rewrite Epass;
    try (eexists; reflexivity).
  - exfalso. simpl in HC. destruct HC as [HC | HC]; [congruence | lra].
  - apply IH.
    + lia.
    + right. rewrite Rabs_mult_s. destruct HC as [HC | HC]; [congruence |].
      simpl in HC |- *. lra.
    + rewrite Rabs_mult_s. pose proof (pow_s_le_1 (S M)) as Hpw.
      pose proof (Rabs_pos ct). nra.
Qed.

(** Powers of [minValue] get below every positive ratio. *)
Lemma pow_s_small a b : 0 <= a -> 0 < b -> exists K, a * s ^ S K <= b.
Proof.
  intros Ha Hb.
  pose proof R_minValue_pos as Hs. pose proof R_minValue_lt_1 as Hs1.
  fold s in Hs, Hs1.
  destruct (Req_dec_T a 0) as [-> | Hna].
  - exists O. lra.
  - assert (Hapos : 0 < a) by lra.
    destruct (pow_lt_1_zero s) with (y := b / a) as [K HK].
    + rewrite Rabs_pos_eq; lra.
    + apply Rdiv_lt_0_compat; assumption.
    + exists K. specialize (HK (S K) ltac:(lia)).
      rewrite Rabs_pos_eq in HK by (left; apply pow_lt; exact Hs).
      apply Rmult_lt_compat_l with (r := a) in HK; [| exact Hapos].
      replace (a * (b / a)) with b in HK by (field; lra). lra.
Qed.

Lemma Vec_Rescl_R_returns (cfrom cto : R) (n : Z) (x : Arr R) (x_s : Z) :
  cfrom <> 0 ->
  exists fuel0, forall fuel, (fuel0 <= fuel)%nat ->
    exists x', Vec_Rescl fuel cfrom cto n x x_s = Ok x'.
Proof.
  intros Hcf.
  assert (Hacf : 0 < Rabs cfrom) by (apply Rabs_pos_lt; exact Hcf).
  destruct (pow_s_small (Rabs cto) (Rabs cfrom) (Rabs_pos cto) Hacf) as [M HM].
  assert (HN : exists N, cto = 0 \/ Rabs cfrom * s ^ S N <= Rabs cto).
  { destruct (Req_dec_T cto 0) as [-> | Hct].
    - exists O. left. reflexivity.
    - destruct (pow_s_small (Rabs cfrom) (Rabs cto) (Rabs_pos cfrom)
                  (Rabs_pos_lt cto Hct)) as [N HN].
      exists N. right. exact HN. }
  destruct HN as [N HN].
  exists (S (N + M)). intros fuel Hfuel. unfold Vec_Rescl.
  apply IsZero_R_false in Hcf. rewrite Hcf. simpl.
  destruct (n =? 0)%Z; [eexists; reflexivity |].
  destruct (R_eqb cfrom cto); [eexists; reflexivity |].
  apply (Vec_Rescl_loop_ends n x_s M N); [lia | exact HN | exact HM].
Qed.

End ResclTerminates.

(** ** Vec_Rescl on binary64: the rescaling loop ends

    The rounding of the standard library's [SpecFloat], followed through
    [shr_fexp] and [binary_round_aux] as far as the loop needs it: a product
    with [smlnum = 2^-1022] and a quotient by [bignum = 2^1022] of a finite
    value are zero, infinite, or finite with a smaller exponent. *)

Section Binary64Rounding.

Lemma digits2_pos_size p : digits2_pos p = Pos.size p.
Proof. induction p; simpl; congruence. Qed.

Lemma Zdigits2_lt z : 0 <= z -> z < 2 ^ Zdigits2 z.
Proof.
  intros Hz. destruct z as [| p | p]; [reflexivity | | lia].
  simpl Zdigits2. rewrite digits2_pos_size.
  pose proof (Pos.size_gt p) as Hs.
  apply Pos2Z.pos_lt_pos in Hs. rewrite Pos2Z.inj_pow in Hs. exact Hs.
Qed.

Lemma Zdigits2_nonneg z : 0 <= Zdigits2 z.
Proof. destruct z; simpl; lia. Qed.

Lemma Zdigits2_bound z N : 0 <= z < 2 ^ N -> 0 <= N -> Zdigits2 z <= N.
Proof.
  intros [Hz Hlt] HN. destruct z as [| p | p]; [simpl; lia | | lia].
  simpl Zdigits2. rewrite digits2_pos_size.
  pose proof (Pos.size_le p) as Hs.
  apply Pos2Z.pos_le_pos in Hs. rewrite Pos2Z.inj_pow in Hs.
  change (Zpos p~0) with (2 * Zpos p) in Hs.
  destruct (Z_le_gt_dec (Zpos (Pos.size p)) N) as [Hle | Hgt]; [exact Hle |].
  assert (Hp : 2 ^ (N + 1) <= 2 ^ Zpos (Pos.size p))
    by (apply Z.pow_le_mono_r; lia).
  rewrite Z.pow_add_r in Hp by lia. change (2 ^ 1) with 2 in Hp. lia.
Qed.

Lemma shr_record_of_loc_m m l : shr_m (shr_record_of_loc m l) = m.
Proof. destruct l as [| []]; reflexivity. Qed.

Lemma shr_1_m r : 0 <= shr_m r -> shr_m (shr_1 r) = shr_m r / 2.
Proof.
  destruct r as [m rb sb]. simpl. intros Hm.
  rewrite <- Z.div2_div.
  destruct m as [| [p | p |] | p]; try reflexivity; lia.
Qed.

Lemma shr_1_r r : 0 <= shr_m r -> shr_r (shr_1 r) = Z.testbit (shr_m r) 0.
Proof.
  destruct r as [m rb sb]. simpl. intros Hm.
  destruct m as [| [p | p |] | p]; try reflexivity; lia.
Qed.

Lemma iter_shr_m p : forall r,
  0 <= shr_m r -> shr_m (iter_pos shr_1 p r) = shr_m r / 2 ^ Zpos p.
Proof.
  induction p as [p IH | p IH |]; intros r Hr; simpl iter_pos.
  - assert (H1 : 0 <= shr_m (shr_1 r))
      by (rewrite shr_1_m by exact Hr; apply Z.div_pos; lia).
    assert (H2 : 0 <= shr_m (iter_pos shr_1 p (shr_1 r)))
      by (rewrite IH by exact H1; apply Z.div_pos; lia).
    rewrite IH by exact H2. rewrite IH by exact H1. rewrite shr_1_m by exact Hr.
    rewrite !Z.div_div by lia. f_equal.
    replace (Zpos p~1) with (Zpos p + Zpos p + 1) by lia.
    rewrite !Z.pow_add_r by lia. change (2 ^ 1) with 2. ring.
  - assert (H1 : 0 <= shr_m (iter_pos shr_1 p r))
      by (rewrite IH by exact Hr; apply Z.div_pos; lia).
    rewrite IH by exact H1. rewrite IH by exact Hr.
    rewrite Z.div_div by lia. f_equal.
    replace (Zpos p~0) with (Zpos p + Zpos p) by lia.
    rewrite Z.pow_add_r by lia. reflexivity.
  - rewrite shr_1_m by exact Hr. reflexivity.
Qed.

Lemma iter_shr_r p : forall r,
  0 <= shr_m r -> shr_r (iter_pos shr_1 p r) = Z.testbit (shr_m r) (Zpos p - 1).
Proof.
  induction p as [p IH | p IH |]; intros r Hr; simpl iter_pos.
  - assert (H1 : 0 <= shr_m (shr_1 r))
      by (rewrite shr_1_m by exact Hr; apply Z.div_pos; lia).
    assert (H2 : 0 <= shr_m (iter_pos shr_1 p (shr_1 r)))
      by (rewrite iter_shr_m by exact H1; apply Z.div_pos; lia).
    rewrite IH by exact H2. rewrite iter_shr_m by exact H1.
    rewrite shr_1_m by exact Hr.
    rewrite Z.div_div by lia.
    replace (2 * 2 ^ Zpos p) with (2 ^ (Zpos p + 1)) by (rewrite Z.pow_add_r by lia; lia).
    rewrite Z.div_pow2_bits by lia. f_equal. lia.
  - assert (H1 : 0 <= shr_m (iter_pos shr_1 p r))
      by (rewrite iter_shr_m by exact Hr; apply Z.div_pos; lia).
    rewrite IH by exact H1. rewrite iter_shr_m by exact Hr.
    rewrite Z.div_pow2_bits by lia. f_equal. lia.
  - rewrite shr_1_r by exact Hr. reflexivity.
Qed.

Lemma testbit_above m N j : 0 <= m < 2 ^ N -> 0 <= N <= j -> Z.testbit m j = false.
Proof.
  intros Hm Hj. apply Z.testbit_false; [lia |].
  rewrite Z.div_small; [reflexivity |].
  split; [lia |]. apply Z.lt_le_trans with (2 ^ N); [lia |].
  apply Z.pow_le_mono_r; lia.
Qed.

Lemma fexp_ge d : -1074 <= fexp prec emax d /\ d - 53 <= fexp prec emax d.
Proof. unfold fexp, emin, prec, emax. lia. Qed.

Lemma fexp_le d b : d - 53 <= b -> -1074 <= b -> fexp prec emax d <= b.
Proof. unfold fexp, emin, prec, emax. lia. Qed.

(** [shr_fexp] on a mantissa that is not negative. *)
Lemma shr_fexp_spec mx ex lx :
  0 <= mx ->
  let e' := Z.max ex (fexp prec emax (Zdigits2 mx + ex)) in
  snd (shr_fexp prec emax mx ex lx) = e'
  /\ shr_m (fst (shr_fexp prec emax mx ex lx)) = mx / 2 ^ (e' - ex)
  /\ (ex < e' ->
      shr_r (fst (shr_fexp prec emax mx ex lx)) = Z.testbit mx (e' - ex - 1)).
Proof.
  intros Hmx e'. subst e'. unfold shr_fexp, shr.
  set (f := fexp prec emax (Zdigits2 mx + ex)).
  destruct (f - ex) as [| p | p] eqn:Ed; cbn [fst snd].
  - replace (Z.max ex f) with ex by lia.
    rewrite shr_record_of_loc_m. rewrite Z.sub_diag. change (2 ^ 0) with 1.
    rewrite Z.div_1_r. repeat split; lia.
  - replace (Z.max ex f) with (ex + Zpos p) by lia.
    replace (ex + Zpos p - ex) with (Zpos p) by lia.
    rewrite iter_shr_m by (rewrite shr_record_of_loc_m; exact Hmx).
    rewrite iter_shr_r by (rewrite shr_record_of_loc_m; exact Hmx).
    rewrite shr_record_of_loc_m. repeat split; reflexivity.
  - replace (Z.max ex f) with ex by lia.
    rewrite shr_record_of_loc_m. rewrite Z.sub_diag. change (2 ^ 0) with 1.
    rewrite Z.div_1_r. repeat split; lia.
Qed.

Lemma round_nearest_even_bounds m l :
  m <= round_nearest_even m l <= m + 1.
Proof. destruct l as [| []]; simpl; try lia. destruct (Z.even m); lia. Qed.

(** A mantissa shifted to the exponent [fexp] asks for has at most 53 bits. *)
Lemma shifted_below m k :
  0 <= m -> 0 <= k -> Zdigits2 m <= k + 53 -> 0 <= m / 2 ^ k < 2 ^ 53.
Proof.
  intros Hm Hk Hd. split; [apply Z.div_pos; lia |].
  apply Z.div_lt_upper_bound; [lia |].
  rewrite <- Z.pow_add_r by lia.
  apply Z.lt_le_trans with (2 ^ Zdigits2 m); [apply Zdigits2_lt; exact Hm |].
  apply Z.pow_le_mono_r; lia.
Qed.

(** The outcome of [binary_round_aux] on a mantissa that is not negative: never
    a NaN, and a finite outcome has at most 53 bits and an exponent between
    [emin] and one more than the exponent the first shift arrives at. *)
Lemma binary_round_aux_spec s mx ex lx :
  0 <= mx ->
  match binary_round_aux prec emax s mx ex lx with
  | S754_finite _ m e =>
      Zpos (digits2_pos m) <= 53
      /\ -1074 <= e <= Z.max ex (fexp prec emax (Zdigits2 mx + ex)) + 1
  | S754_nan => False
  | _ => True
  end.
Proof.
  intros Hmx. unfold binary_round_aux.
  pose proof (shr_fexp_spec mx ex lx Hmx) as S1. cbv zeta in S1.
  destruct (shr_fexp prec emax mx ex lx) as [mrs' e'].
  cbn [fst snd] in S1. destruct S1 as [He' [Hm' _]].
  set (f1 := fexp prec emax (Zdigits2 mx + ex)) in *.
  pose proof (fexp_ge (Zdigits2 mx + ex)) as [Hf1a Hf1b]. fold f1 in Hf1a, Hf1b.
  assert (Hm1 : 0 <= shr_m mrs' < 2 ^ 53).
  { rewrite Hm'. apply shifted_below; lia. }
  pose proof (round_nearest_even_bounds (shr_m mrs') (loc_of_shr_record mrs')) as Hr.
  set (m1 := round_nearest_even (shr_m mrs') (loc_of_shr_record mrs')) in *.
  assert (Hd1 : Zdigits2 m1 <= 54).
  { apply Zdigits2_bound; [| lia]. change (2 ^ 54) with (2 * 2 ^ 53). lia. }
  pose proof (shr_fexp_spec m1 e' loc_Exact ltac:(lia)) as S2. cbv zeta in S2.
  destruct (shr_fexp prec emax m1 e' loc_Exact) as [mrs'' e''].
  cbn [fst snd] in S2. destruct S2 as [He'' [Hm'' _]].
  set (f2 := fexp prec emax (Zdigits2 m1 + e')) in *.
  pose proof (fexp_ge (Zdigits2 m1 + e')) as [Hf2a Hf2b]. fold f2 in Hf2a, Hf2b.
  assert (Hf2c : f2 <= e' + 1).
  { subst f2. apply fexp_le; lia. }
  assert (Hm2 : 0 <= shr_m mrs'' < 2 ^ 53).
  { rewrite Hm''. apply shifted_below; lia. }
  destruct (shr_m mrs'') as [| m | m] eqn:Em; [exact I | | lia].
  destruct (e'' <=? emax - prec); [| exact I].
  split.
  - apply (Zdigits2_bound (Zpos m) 53); lia.
  - lia.
Qed.

(** A mantissa that lies wholly b64_below the last place is rounded to zero. *)
Lemma binary_round_aux_tiny s mx ex lx N :
  0 <= mx < 2 ^ N -> 0 <= N ->
  N + 1 <= fexp prec emax (Zdigits2 mx + ex) - ex ->
  binary_round_aux prec emax s mx ex lx = S754_zero s.
Proof.
  intros Hmx HN Hsh. unfold binary_round_aux.
  pose proof (shr_fexp_spec mx ex lx ltac:(lia)) as S1. cbv zeta in S1.
  destruct (shr_fexp prec emax mx ex lx) as [mrs' e'].
  cbn [fst snd] in S1. destruct S1 as [He' [Hm' Hr']].
  set (f1 := fexp prec emax (Zdigits2 mx + ex)) in *.
  pose proof (fexp_ge (Zdigits2 mx + ex)) as [Hf1a _]. fold f1 in Hf1a.
  assert (Hm0 : shr_m mrs' = 0).
  { rewrite Hm'. apply Z.div_small. split; [lia |].
    apply Z.lt_le_trans with (2 ^ N); [lia |]. apply Z.pow_le_mono_r; lia. }
  assert (Hr0 : shr_r mrs' = false).
  { rewrite Hr' by lia. apply (testbit_above mx N); lia. }
  assert (Hrne : round_nearest_even (shr_m mrs') (loc_of_shr_record mrs') = 0).
  { destruct mrs' as [m r sb]. cbn [shr_m shr_r] in Hm0, Hr0. subst m r.
    destruct sb; reflexivity. }
  rewrite Hrne.
  pose proof (shr_fexp_spec 0 e' loc_Exact ltac:(lia)) as S2. cbv zeta in S2.
  destruct (shr_fexp prec emax 0 e' loc_Exact) as [mrs'' e''].
  cbn [fst snd] in S2. destruct S2 as [_ [Hm'' _]].
  rewrite Hm''. rewrite Z.div_0_l; [reflexivity |].
  apply Z.pow_nonzero; lia.
Qed.


Lemma b64_wf_lt (s : bool) (m : positive) (e : Z) :
  b64_wf (S754_finite s m e) -> 0 <= Zpos m < 2 ^ 53.
Proof.
  intros [Hd _]. split; [lia |].
  apply Z.lt_le_trans with (2 ^ Zdigits2 (Zpos m)); [apply Zdigits2_lt; lia |].
  apply Z.pow_le_mono_r; [lia | exact Hd].
Qed.

Lemma below_round s mx ex lx e :
  0 <= mx ->
  Z.max ex (fexp prec emax (Zdigits2 mx + ex)) + 1 < e ->
  b64_below e (binary_round_aux prec emax s mx ex lx).
Proof.
  intros Hmx Hb. pose proof (binary_round_aux_spec s mx ex lx Hmx) as Hs.
  unfold b64_below. destruct (binary_round_aux prec emax s mx ex lx); try exact Hs.
  destruct Hs as [Hd He]. split; [exact Hd | lia].
Qed.

(** Multiplying by [smlnum = 2^-1022]. *)
Lemma mul_smlnum_below s m e :
  b64_wf (S754_finite s m e) ->
  b64_below e (SFmul prec emax (S754_finite s m e) (S754_finite false (2 ^ 52) (-1074))).
Proof.
  intros Hwf. pose proof (b64_wf_lt s m e Hwf) as Hm. destruct Hwf as [_ He].
  unfold SFmul. rewrite Pos2Z.inj_mul.
  change (Zpos (2 ^ 52)) with (2 ^ 52).
  set (mx := Zpos m * 2 ^ 52).
  assert (Hmx : 0 <= mx < 2 ^ 105).
  { subst mx. change (2 ^ 105) with (2 ^ 53 * 2 ^ 52). nia. }
  assert (Hdx : 0 <= Zdigits2 mx <= 105).
  { split; [apply Zdigits2_nonneg | apply Zdigits2_bound; lia]. }
  destruct (Z_le_gt_dec e (-1073)) as [Hlow | Hhigh].
  - rewrite (binary_round_aux_tiny _ mx _ _ 105); [exact I | exact Hmx | lia |].
    pose proof (fexp_ge (Zdigits2 mx + (e + -1074))). lia.
  - apply below_round; [lia |].
    assert (fexp prec emax (Zdigits2 mx + (e + -1074)) <= Z.max (e - 1022) (-1074))
      by (apply fexp_le; lia).
    lia.
Qed.

Lemma shift_or_keep (m s : Z) :
  0 <= s ->
  match s with Zpos _ => Z.shiftl m s | Z0 => m | Zneg _ => 0 end = m * 2 ^ s.
Proof.
  intros Hs. destruct s as [| p | p]; [change (2 ^ 0) with 1; lia | | lia].
  apply Z.shiftl_mul_pow2. lia.
Qed.

(** Dividing by [bignum = 2^1022]. *)
Lemma div_bignum_below s m e :
  b64_wf (S754_finite s m e) ->
  b64_below e (SFdiv prec emax (S754_finite s m e) (S754_finite false (2 ^ 52) 970)).
Proof.
  intros Hwf. pose proof (b64_wf_lt s m e Hwf) as Hm. destruct Hwf as [Hd He].
  unfold SFdiv, SFdiv_core_binary.
  change (Zdigits2 (Zpos (2 ^ 52))) with 53.
  change (Zpos (2 ^ 52)) with (2 ^ 52).
  set (d1 := Zdigits2 (Zpos m)).
  assert (Hd1 : 1 <= d1 <= 53) by (subst d1; simpl; lia).
  set (e' := Z.min (fexp prec emax (d1 + e - (53 + 970))) (e - 970)).
  pose proof (fexp_ge (d1 + e - (53 + 970))) as [Hfa Hfb].
  assert (He' : e' <= e - 970) by (subst e'; lia).
  rewrite (shift_or_keep (Zpos m) (e - 970 - e')) by lia.
  set (sh := e - 970 - e').
  destruct (Z.div_eucl (Zpos m * 2 ^ sh) (2 ^ 52)) as [q r] eqn:Ediv.
  assert (Hq : q = Zpos m * 2 ^ sh / 2 ^ 52)
    by (unfold Z.div; rewrite Ediv; reflexivity).
  assert (Hsh : 0 <= sh) by (subst sh; lia).
  assert (Hpow : 0 < 2 ^ sh) by (apply Z.pow_pos_nonneg; lia).
  assert (Hq0 : 0 <= q) by (rewrite Hq; apply Z.div_pos; nia).
  destruct (Z_le_gt_dec e (-1073)) as [Hlow | Hhigh].
  - assert (Ee' : e' = e - 970) by (subst e'; lia).
    assert (Esh : sh = 0) by (subst sh; lia).
    rewrite Esh in Hq. change (2 ^ 0) with 1 in Hq. rewrite Z.mul_1_r in Hq.
    assert (Hq2 : q < 2 ^ 1).
    { rewrite Hq. apply Z.div_lt_upper_bound; [lia |].
      change (2 ^ 52 * 2 ^ 1) with (2 ^ 53). lia. }
    rewrite (binary_round_aux_tiny _ q _ _ 1); [exact I | lia | lia |].
    pose proof (fexp_ge (Zdigits2 q + e')). lia.
  - apply below_round; [exact Hq0 |].
    assert (Hdq : Zdigits2 q + e' - 53 <= e - 1022).
    { destruct (Z_le_gt_dec 52 (d1 + sh)) as [Hbig | Hsmall].
      - assert (Zdigits2 q <= d1 + sh - 52).
        { apply Zdigits2_bound; [| lia]. split; [exact Hq0 |].
          rewrite Hq. apply Z.div_lt_upper_bound; [lia |].
          rewrite <- Z.pow_add_r by lia.
          replace (52 + (d1 + sh - 52)) with (d1 + sh) by lia.
          rewrite Z.pow_add_r by lia.
          assert (Zpos m < 2 ^ d1) by (subst d1; apply Zdigits2_lt; lia).
          nia. }
        subst sh. lia.
      - assert (Zdigits2 q <= 0).
        { apply Zdigits2_bound; [| lia]. split; [exact Hq0 |].
          rewrite Hq. apply Z.div_lt_upper_bound; [lia |].
          change (2 ^ 52 * 2 ^ 0) with (2 ^ 52).
          apply Z.lt_le_trans with (2 ^ (d1 + sh)).
          + rewrite Z.pow_add_r by lia.
            assert (Zpos m < 2 ^ d1) by (subst d1; apply Zdigits2_lt; lia).
            nia.
          + apply Z.pow_le_mono_r; lia. }
        lia. }
    assert (fexp prec emax (Zdigits2 q + e') <= Z.max (e - 1022) (-1074))
      by (apply fexp_le; lia).
    lia.
Qed.

Lemma below_wf e y : b64_below e y -> b64_wf y.
Proof. destruct y; simpl; try exact (fun _ => I). intros [Hd He]. split; [exact Hd | lia]. Qed.

Lemma below_rank s m e y :
  b64_wf (S754_finite s m e) -> b64_below e y ->
  (b64_rank y < b64_rank (S754_finite s m e))%nat.
Proof.
  intros [_ He] Hy. destruct y; simpl in *; lia.
Qed.

(** One pass of the loop of [Vec_Rescl] on binary64: it is the last one, or
    it goes on with a smaller exponent in [cfromc] or in [ctoc]. *)
Lemma Vec_Rescl_pass_b64 (cfromc ctoc : spec_float) :
  b64_wf cfromc -> b64_wf ctoc ->
  let '(alpha, done, cfromc', ctoc') := Vec_Rescl_pass cfromc ctoc in
  done = true
  \/ (b64_wf cfromc' /\ b64_wf ctoc'
      /\ (b64_rank cfromc' + b64_rank ctoc' < b64_rank cfromc + b64_rank ctoc)%nat).
Proof.
  intros Hc Ht. unfold Vec_Rescl_pass.
  change (Inv (@minValue spec_float b64_Scalar)) with (S754_finite false (2 ^ 52) 970).
  change (@minValue spec_float b64_Scalar) with (S754_finite false (2 ^ 52) (-1074)).
  change (@mul spec_float b64_Scalar) with (SFmul prec emax).
  change (@div spec_float b64_Scalar) with (SFdiv prec emax).
  change (@eqb spec_float b64_Scalar) with SFeqb.
  change (@ltb spec_float b64_Scalar) with SFltb.
  change (@Abs spec_float b64_Scalar) with SFabs.
  cbv zeta.
  destruct cfromc as [sc | sc | | sc mc ec].
  - destruct sc; left; reflexivity.
  - destruct sc; left; reflexivity.
  - destruct ctoc as [st | st | | st mt et].
    + destruct st; left; reflexivity.
    + destruct st; left; reflexivity.
    + left; reflexivity.
    + set (cto1 := SFdiv prec emax (S754_finite st mt et) (S754_finite false (2 ^ 52) 970)).
      destruct (SFeqb cto1 (S754_finite st mt et)); left; reflexivity.
  - pose proof (mul_smlnum_below sc mc ec Hc) as Hmul.
    set (cfrom1 := SFmul prec emax (S754_finite sc mc ec) (S754_finite false (2 ^ 52) (-1074))) in *.
    destruct (SFeqb cfrom1 (S754_finite sc mc ec)); [left; reflexivity |].
    destruct ctoc as [st | st | | st mt et].
    + destruct st, sc; left; reflexivity.
    + destruct st; left; reflexivity.
    + destruct cfrom1; left; reflexivity.
    + pose proof (div_bignum_below st mt et Ht) as Hdiv.
      set (cto1 := SFdiv prec emax (S754_finite st mt et) (S754_finite false (2 ^ 52) 970)) in *.
      destruct (SFeqb cto1 (S754_finite st mt et)); [left; reflexivity |].
      destruct (SFltb (SFabs (S754_finite st mt et)) (SFabs cfrom1)
                && negb (IsZero (S754_finite st mt et))).
      * right. split; [exact (below_wf _ _ Hmul) |]. split; [exact Ht |].
        pose proof (below_rank sc mc ec cfrom1 Hc Hmul). lia.
      * destruct (SFltb (SFabs (S754_finite sc mc ec)) (SFabs cto1)).
        -- right. split; [exact Hc |]. split; [exact (below_wf _ _ Hdiv) |].
           pose proof (below_rank st mt et cto1 Ht Hdiv). lia.
        -- left. reflexivity.
Qed.

Lemma Vec_Rescl_loop_b64 (fuel : nat) :
  forall (cfromc ctoc : spec_float) (n : Z) (x : Arr spec_float) (x_s : Z),
    b64_wf cfromc -> b64_wf ctoc ->
    (b64_rank cfromc + b64_rank ctoc < fuel)%nat ->
    exists x', Vec_Rescl_loop fuel cfromc ctoc n x x_s = Ok x'.
Proof.
  induction fuel as [| fuel IH]; intros cfromc ctoc n x x_s Hc Ht Hr; [lia |].
  cbn [Vec_Rescl_loop].
  pose proof (Vec_Rescl_pass_b64 cfromc ctoc Hc Ht) as Hp.
  destruct (Vec_Rescl_pass cfromc ctoc) as [[[alpha done] c'] t'].
  destruct Hp as [Hdone | [Hc' [Ht' Hr']]].
  - subst done. eexists. reflexivity.
  - destruct done; [eexists; reflexivity |].
    apply IH; [exact Hc' | exact Ht' | lia].
Qed.

Lemma valid_binary_wf (x : spec_float) :
  valid_binary prec emax x = true ->
  b64_wf x /\ (b64_rank x <= 2046)%nat.
Proof.
  destruct x as [s | s | | s m e]; simpl; try (intros _; split; [exact I | lia]).
  unfold bounded, canonical_mantissa. intros H.
  apply andb_true_iff in H. destruct H as [Hc Hb].
  apply Z.eqb_eq in Hc. apply Z.leb_le in Hb.
  unfold fexp, emin, prec, emax in *. split; [split |]; lia.
Qed.

Lemma Vec_Rescl_b64_returns (fuel : nat) (cfrom cto : spec_float) (n : Z)
  (x : Arr spec_float) (x_s : Z) :
  valid_binary prec emax cfrom = true ->
  valid_binary prec emax cto = true ->
  IsZero cfrom || IsUndefined cfrom = false ->
  IsUndefined cto = false ->
  (4093 <= fuel)%nat ->
  exists x', Vec_Rescl fuel cfrom cto n x x_s = Ok x'.
Proof.
  intros Hvc Hvt Hc Ht Hfuel. unfold Vec_Rescl. rewrite Hc, Ht.
  destruct (n =? 0); [eexists; reflexivity |].
  destruct (cfrom [==] cto); [eexists; reflexivity |].
  destruct (valid_binary_wf cfrom Hvc) as [Hwc Hrc].
  destruct (valid_binary_wf cto Hvt) as [Hwt Hrt].
  apply Vec_Rescl_loop_b64; [exact Hwc | exact Hwt | lia].
Qed.

End Binary64Rounding.

(** C8.  For every scalar type, [Vec_Rescl] throws [BadArgument] with
    argument index 1 exactly when [cfrom] is zero or undefined, with argument
    index 2 exactly when [cfrom] is neither and [cto] is undefined, and it
    throws nothing when both arguments are valid; the fuel plays no part in
    this.  When both arguments are valid the call completes: on binary64,
    the [Float64] of the program, for all values of the type (infinities
    included) it returns within 4093 passes of the rescaling loop, so with
    any fuel from there on; in exact arithmetic, where no value is
    undefined, a call with [cfrom <> 0] returns as well. *)
Theorem Vec_Rescl_throws_iff_precondition_violated :
  (forall (T : Type) (H : Scalar T) (fuel : nat) (cfrom cto : T) (n : Z)
          (x : Arr T) (x_s : Z),
      (Vec_Rescl fuel cfrom cto n x x_s = Throw (mkBadArgument "Vec_Rescl" 1)
       <-> IsZero cfrom || IsUndefined cfrom = true)
      /\ (Vec_Rescl fuel cfrom cto n x x_s = Throw (mkBadArgument "Vec_Rescl" 2)
          <-> IsZero cfrom || IsUndefined cfrom = false /\ IsUndefined cto = true)
      /\ (IsZero cfrom || IsUndefined cfrom = false -> IsUndefined cto = false ->
          forall ex, Vec_Rescl fuel cfrom cto n x x_s <> Throw ex))
  /\ (forall (cfrom cto : spec_float) (n : Z) (x : Arr spec_float) (x_s : Z),
      valid_binary prec emax cfrom = true ->
      valid_binary prec emax cto = true ->
      IsZero cfrom || IsUndefined cfrom = false ->
      IsUndefined cto = false ->
      forall fuel, (4093 <= fuel)%nat ->
        exists x', Vec_Rescl fuel cfrom cto n x x_s = Ok x')
  /\ (forall (cfrom cto : R) (n : Z) (x : Arr R) (x_s : Z),
      cfrom <> 0%R ->
      exists fuel0, forall fuel, (fuel0 <= fuel)%nat ->
        exists x', Vec_Rescl fuel cfrom cto n x x_s = Ok x').
Proof.
  split; [| split].
  - intros T H fuel cfrom cto n x x_s. apply Vec_Rescl_throws_iff.
  - intros cfrom cto n x x_s Hvc Hvt Hc Ht fuel Hfuel.
    apply Vec_Rescl_b64_returns; assumption.
  - apply Vec_Rescl_R_returns.
Qed.

(** On binary64 values: a zero [cfrom] is refused with argument index 1, a
    NaN [cto] with argument index 2, and the call that rescales from the
    smallest subnormal number to the largest finite one returns. *)
Lemma Vec_Rescl_throws_iff_precondition_violated_witness :
  Vec_Rescl 5 (b64 0) (b64 1) 2 (b64_arr [1; 2]) 1
    = Throw (mkBadArgument "Vec_Rescl" 1)
  /\ Vec_Rescl 5 (b64 2) undefined 2 (b64_arr [1; 2]) 1
    = Throw (mkBadArgument "Vec_Rescl" 2)
  /\ exists x',
       Vec_Rescl 4093 (S754_finite false 1 (-1074)) (SFmax_float prec emax) 2
         (b64_arr [1; 2]) 1 = Ok x'.
Proof.
  destruct Vec_Rescl_throws_iff_precondition_violated as [Hthrow [Hreturns _]].
  split; [| split].
  - destruct (Hthrow spec_float _ 5%nat (b64 0) (b64 1) 2 (b64_arr [1; 2]) 1)
      as [[_ H1] _].
    apply H1. reflexivity.
  - destruct (Hthrow spec_float _ 5%nat (b64 2) undefined 2 (b64_arr [1; 2]) 1)
      as [_ [[_ H2] _]].
    apply H2. split; reflexivity.
  - apply (Hreturns (S754_finite false 1 (-1074)) (SFmax_float prec emax) 2
             (b64_arr [1; 2]) 1);
      [reflexivity | reflexivity | reflexivity | reflexivity | apply le_n].
Defined.

(** ** Rfl_VecGen in exact arithmetic: the range of [tau] *)

Lemma for_up_ind {St : Type} (P : Z -> St -> Prop) (body : Z -> St -> St) :
  forall count i s,
  P i s ->
  (forall k st, i <= k < i + Z.of_nat count -> P k st -> P (k + 1) (body k st)) ->
  P (i + Z.of_nat count) (for_up count i body s).
Proof.
  induction count as [| c IH]; intros i s H0 Hstep; simpl for_up.
  - replace (i + Z.of_nat 0) with i by lia. exact H0.
  - replace (i + Z.of_nat (S c)) with (i + 1 + Z.of_nat c) by lia.
    apply IH.
    + apply Hstep; [lia | exact H0].
    + intros k st Hk. apply Hstep. lia.
Qed.

Section ReflectorRange.
Local Open Scope R_scope.

(** The scaled accumulation of [Vec_Norm2] gives zero exactly on a zero
    vector. *)
Lemma Vec_Norm2_loop_R (x : Arr R) (x_s : Z) (count : nat) :
  let '(scale, ssq, norm) :=
    for_up count 0%Z (Vec_Norm2_step x x_s) (zero, unit, zero) in
  0 <= scale /\ 1 <= ssq
  /\ (scale = 0 <-> forall i, (0 <= i < Z.of_nat count)%Z -> x (i * x_s)%Z = 0)
  /\ ((0 < count)%nat -> norm = scale * sqrt ssq).
Proof.
  pose proof (for_up_ind
    (fun k (st : R * R * R) =>
       let '(scale, ssq, norm) := st in
       0 <= scale /\ 1 <= ssq
       /\ (scale = 0 <-> forall i, (0 <= i < k)%Z -> x (i * x_s)%Z = 0)
       /\ ((0 < k)%Z -> norm = scale * sqrt ssq))
    (Vec_Norm2_step x x_s) count 0%Z (zero, unit, zero)) as Hind.
  simpl in Hind.
  match type of Hind with
  | ?A -> ?B -> _ => assert (H0 : A); [| assert (Hstep : B)]
  end.
  - unfold zero, unit. simpl. repeat split; try lra; intros; try lia.
  - intros k [[scale ssq] norm] Hk [Hsc [Hssq [Hz _]]].
    unfold Vec_Norm2_step.
    destruct (negb (IsZero (Abs (x (k * x_s)%Z)))) eqn:Ez.
    + apply negb_true_iff in Ez. apply IsZero_R_false in Ez. simpl in Ez.
      assert (Hxk : x (k * x_s)%Z <> 0).
      { intros E. apply Ez. rewrite E. apply Rabs_R0. }
      assert (Hpos : 0 < Rabs (x (k * x_s)%Z)) by (apply Rabs_pos_lt; exact Hxk).
      simpl. destruct (R_leb (Rabs (x (k * x_s)%Z)) scale) eqn:El.
      * apply R_leb_true in El. repeat split; try lra.
        -- unfold Sqr. simpl.
           assert (0 <= Rabs (x (k * x_s)%Z) / scale * (Rabs (x (k * x_s)%Z) / scale))
             by apply Rle_0_sqr.
           lra.
        -- intros Hall. exfalso. apply Hxk. apply Hall. lia.
      * apply R_leb_false in El. repeat split; try lra.
        -- unfold Sqr, unit. simpl.
           assert (0 <= scale / Rabs (x (k * x_s)%Z) * (scale / Rabs (x (k * x_s)%Z)))
             by apply Rle_0_sqr.
           nra.
        -- intros Hall. exfalso. apply Hxk. apply Hall. lia.
    + apply negb_false_iff in Ez. apply IsZero_R_true in Ez. simpl in Ez.
      assert (Hxk : x (k * x_s)%Z = 0).
      { destruct (Req_dec_T (x (k * x_s)%Z) 0) as [E | E]; [exact E |].
        apply Rabs_pos_lt in E. lra. }
      repeat split; try lra.
      * intros E i Hi. destruct (Z.eq_dec i k) as [-> | Hne]; [exact Hxk |].
        apply Hz; [exact E | lia].
      * intros Hall. apply Hz. intros i Hi. apply Hall. lia.
  - specialize (Hind H0 Hstep).
    change (@zero R R_Scalar) with 0. change (@unit R R_Scalar) with 1.
    destruct (for_up count 0%Z (Vec_Norm2_step x x_s) (0, 1, 0))
      as [[scale ssq] norm].
    destruct Hind as [Hsc [Hssq [Hz Hn]]]. repeat split; try assumption.
    + apply Hz.
    + apply Hz.
    + intros Hc. apply Hn. lia.
Qed.

Lemma Vec_Norm2_R_zero_iff (n : Z) (x : Arr R) (x_s : Z) :
  Vec_Norm2 n x x_s = 0 <-> forall i, (0 <= i < n)%Z -> x (i * x_s)%Z = 0.
Proof.
  unfold Vec_Norm2.
  destruct (n =? 0)%Z eqn:E0.
  { apply Z.eqb_eq in E0. subst n. split; [intros _ i Hi; lia | reflexivity]. }
  destruct (n =? 1)%Z eqn:E1.
  { apply Z.eqb_eq in E1. subst n. simpl. split.
    - intros Ha i Hi. replace i with 0%Z by lia. simpl.
      destruct (Req_dec_T (x 0%Z) 0) as [E | E]; [exact E |].
      apply Rabs_pos_lt in E. lra.
    - intros Hall. specialize (Hall 0%Z ltac:(lia)). simpl in Hall.
      rewrite Hall. apply Rabs_R0. }
  apply Z.eqb_neq in E0, E1.
  destruct (Z_lt_le_dec n 0) as [Hneg | Hpos].
  { replace (Z.to_nat n) with O by lia. simpl.
    split; [intros _ i Hi; lia | reflexivity]. }
  pose proof (Vec_Norm2_loop_R x x_s (Z.to_nat n)) as Hl.
  destruct (for_up (Z.to_nat n) 0%Z (Vec_Norm2_step x x_s) (zero, unit, zero))
    as [[scale ssq] norm].
  destruct Hl as [Hsc [Hssq [Hz Hn]]].
  assert (Hnorm : norm = scale * sqrt ssq) by (apply Hn; lia).
  assert (Hsq : 1 <= sqrt ssq).
  { rewrite <- sqrt_1. apply sqrt_le_1_alt. exact Hssq. }
  rewrite Z2Nat.id in Hz by lia.
  rewrite Hnorm. split.
  - intros E. apply Hz. nra.
  - intros Hall. apply Hz in Hall. rewrite Hall. lra.
Qed.

(** Scaling by a non-zero factor keeps the zero entries zero and the
    others non-zero, whatever the stride. *)
Lemma Vec_Scale_R_zero_iff (n : Z) (a : R) (x : Arr R) (x_s : Z) :
  a <> 0 -> forall j, Vec_Scale n a x x_s j = 0 <-> x j = 0.
Proof.
  intros Ha. unfold Vec_Scale.
  apply IsZero_R_false in Ha as Hz. rewrite Hz.
  destruct (negb (IsUnit a)); [| intros j; reflexivity].
  apply (for_up_ind (fun _ (x' : Arr R) => forall j, x' j = 0 <-> x j = 0)).
  - intros j. reflexivity.
  - intros k x' _ Hx' j. unfold upd. simpl.
    destruct (j =? k * x_s)%Z eqn:Ej; [| apply Hx'].
    apply Z.eqb_eq in Ej. subst j. rewrite <- Hx'. split.
    + intros E. apply Rmult_integral in E. destruct E as [E | E]; [exact E | contradiction].
    + intros E. rewrite E. ring.
Qed.

Lemma VecGen_rescale_R_zero_iff (n : Z) (rsafmn safmin : R) (x_s : Z) :
  rsafmn <> 0 ->
  forall left knt alpha (x : Arr R) beta,
  let '(_, _, x', _) := VecGen_rescale left n rsafmn safmin knt alpha x x_s beta in
  forall j, x' j = 0 <-> x j = 0.
Proof.
  intros Hr. induction left as [| left IH]; intros knt alpha x beta; simpl.
  - apply Vec_Scale_R_zero_iff. exact Hr.
  - destruct (R_ltb (Rabs (beta * rsafmn)) safmin && (knt + 1 <? 20)%Z).
    + specialize (IH (knt + 1)%Z (alpha * rsafmn)
                    (Vec_Scale (n - 1) rsafmn x x_s) (beta * rsafmn)).
      destruct (VecGen_rescale left n rsafmn safmin (knt + 1) (alpha * rsafmn)
                  (Vec_Scale (n - 1) rsafmn x x_s) x_s (beta * rsafmn))
        as [[[knt' alpha'] x'] beta'].
      intros j. rewrite IH. apply Vec_Scale_R_zero_iff. exact Hr.
    + apply Vec_Scale_R_zero_iff. exact Hr.
Qed.

(** [beta = -CopySign( Hypot( alpha, xnorm ), alpha )] is not zero when
    [xnorm] is not, and [( beta - alpha )/beta] lies between 1 and 2. *)
Lemma reflector_tau_range (alpha xnorm : R) :
  xnorm <> 0 ->
  let beta := - R_copysign (R_hypot alpha xnorm) alpha in
  beta <> 0 /\ 1 <= (beta - alpha) / beta <= 2.
Proof.
  intros Hx beta.
  assert (Hsum : 0 < alpha * alpha + xnorm * xnorm) by nra.
  assert (Hh : 0 < R_hypot alpha xnorm) by (apply sqrt_lt_R0; exact Hsum).
  assert (Hge : Rabs alpha <= R_hypot alpha xnorm).
  { unfold R_hypot. rewrite <- sqrt_Rsqr_abs. apply sqrt_le_1_alt.
    unfold Rsqr. nra. }
  assert (Habs : Rabs (R_hypot alpha xnorm) = R_hypot alpha xnorm)
    by (apply Rabs_pos_eq; lra).
  subst beta. unfold R_copysign. rewrite Habs.
  set (h := R_hypot alpha xnorm) in *.
  destruct (Rlt_dec alpha 0) as [Hneg | Hnn].
  - rewrite Ropp_involutive. rewrite Rabs_left in Hge by exact Hneg.
    split; [lra |].
    replace ((h - alpha) / h) with (1 + - alpha / h) by (field; lra).
    assert (0 <= - alpha / h) by (apply Rmult_le_pos; [lra | left; apply Rinv_0_lt_compat; exact Hh]).
    assert (- alpha / h <= 1).
    { apply Rmult_le_reg_r with (r := h); [exact Hh |].
      replace (- alpha / h * h) with (- alpha) by (field; lra). lra. }
    lra.
  - rewrite Rabs_right in Hge by lra.
    split; [lra |].
    replace ((- h - alpha) / - h) with (1 + alpha / h) by (field; lra).
    assert (0 <= alpha / h) by (apply Rmult_le_pos; [lra | left; apply Rinv_0_lt_compat; exact Hh]).
    assert (alpha / h <= 1).
    { apply Rmult_le_reg_r with (r := h); [exact Hh |].
      replace (alpha / h * h) with alpha by (field; lra). lra. }
    lra.
Qed.

(** In the general case the values that enter [tau = ( beta - alpha )/beta]
    give a quotient between 1 and 2. *)
Lemma Rfl_VecGen_beta_R (n : Z) (alpha : R) (x : Arr R) (x_s : Z) :
  Vec_Norm2 (n - 1) x x_s <> 0 ->
  let '(_, alpha', _, beta) :=
    Rfl_VecGen_beta n alpha x x_s (Vec_Norm2 (n - 1) x x_s) in
  beta <> 0 /\ 1 <= (beta - alpha') / beta <= 2.
Proof.
  intros Hnorm. unfold Rfl_VecGen_beta.
  destruct (Abs (neg (CopySign (Hypot alpha (Vec_Norm2 (n - 1) x x_s)) alpha))
            [<] minValue).
  - assert (Hr : Inv (@minValue R R_Scalar) <> 0).
    { unfold Inv. simpl. pose proof R_minValue_pos.
      unfold Rdiv. rewrite Rmult_1_l. apply Rinv_neq_0_compat. lra. }
    match goal with
    | |- context [VecGen_rescale ?l n ?r ?sm ?k alpha x x_s ?b] =>
        pose proof (VecGen_rescale_R_zero_iff n r sm x_s Hr l k alpha x b) as Hx;
        destruct (VecGen_rescale l n r sm k alpha x x_s b)
          as [[[knt alpha'] x'] beta']
    end.
    apply (reflector_tau_range alpha' (Vec_Norm2 (n - 1) x' x_s)).
    intros E. apply Hnorm.
    apply Vec_Norm2_R_zero_iff. intros i Hi. apply Hx.
    exact (proj1 (Vec_Norm2_R_zero_iff (n - 1) x' x_s) E i Hi).
  - apply (reflector_tau_range alpha (Vec_Norm2 (n - 1) x x_s)). exact Hnorm.
Qed.

End ReflectorRange.

(** C2.  [Rfl_VecGen] over the reals.  For [n = 0] the call changes nothing
    ([tau] is left as it was).  For every other [n] the [tau] it produces
    lies in [[0, 2]], and it is zero exactly in the identity cases: [n = 1],
    or all of the [n - 1] components [x[i*x_s]] are zero.  In the remaining,
    general case [tau] is [( beta - alpha )/beta] for the values [beta <> 0]
    and [alpha] that the code has at that statement, and it lies in
    [[1, 2]]. *)
Theorem Rfl_VecGen_tau_range (n : Z) (alpha : R) (x : Arr R) (x_s : Z) (tau : R) :
  let '(alpha', x', tau') := Rfl_VecGen n alpha x x_s tau in
  (n = 0 -> (alpha', x', tau') = (alpha, x, tau))
  /\ (n <> 0 ->
      (0 <= tau' <= 2)%R
      /\ (tau' = 0%R <->
          n = 1 \/ forall i, 0 <= i < n - 1 -> x (i * x_s) = 0%R)
      /\ (n <> 1 -> (exists i, 0 <= i < n - 1 /\ x (i * x_s) <> 0%R) ->
          let '(_, a, _, b) :=
            Rfl_VecGen_beta n alpha x x_s (Vec_Norm2 (n - 1) x x_s) in
          b <> 0%R /\ tau' = ((b - a) / b)%R /\ (1 <= tau' <= 2)%R)).
Proof.
  unfold Rfl_VecGen.
  destruct (n =? 0) eqn:E0.
  { apply Z.eqb_eq in E0. split; [reflexivity | intros Hn; contradiction]. }
  apply Z.eqb_neq in E0.
  destruct (n =? 1) eqn:E1.
  { apply Z.eqb_eq in E1. split; [intros; contradiction |].
    intros _. unfold zero. simpl. split; [lra |]. split.
    - split; [intros _; left; exact E1 | reflexivity].
    - intros Hn1. contradiction. }
  apply Z.eqb_neq in E1.
  destruct (IsZero (Vec_Norm2 (n - 1) x x_s)) eqn:Ez.
  { apply IsZero_R_true in Ez.
    pose proof (proj1 (Vec_Norm2_R_zero_iff (n - 1) x x_s) Ez) as Hall.
    split; [intros; contradiction |].
    intros _. unfold zero. simpl. split; [lra |]. split.
    - split; [intros _; right; exact Hall | reflexivity].
    - intros _ [i [Hi Hxi]]. exfalso. apply Hxi. apply Hall. exact Hi. }
  apply IsZero_R_false in Ez.
  pose proof (Rfl_VecGen_beta_R n alpha x x_s Ez) as Hb.
  destruct (Rfl_VecGen_beta n alpha x x_s (Vec_Norm2 (n - 1) x x_s))
    as [[[knt a] x1] b].
  destruct Hb as [Hb0 Hrange]. simpl.
  split; [intros; contradiction |].
  intros _. split; [lra |]. split.
  - split.
    + intros Et. exfalso. lra.
    + intros [Hn1 | Hall]; [contradiction |].
      exfalso. apply Ez. apply Vec_Norm2_R_zero_iff. exact Hall.
  - intros _ _. split; [exact Hb0 |]. split; [reflexivity | exact Hrange].
Qed.

Lemma Rfl_VecGen_tau_range_witness :
  let '(_, _, tau') := Rfl_VecGen 2 3%R (fun _ => 4%R) 1 0%R in
  (1 <= tau' <= 2)%R.
Proof.
  pose proof (Rfl_VecGen_tau_range 2 3%R (fun _ => 4%R) 1 0%R) as Hr.
  destruct (Rfl_VecGen 2 3%R (fun _ => 4%R) 1 0%R) as [[alpha' x'] tau'].
  destruct Hr as [_ Hr].
  destruct (Hr ltac:(lia)) as [_ [_ Hgen]].
  assert (Hx : exists i, 0 <= i < 2 - 1 /\ (fun _ : Z => 4%R) (i * 1) <> 0%R).
  { exists 0. split; [lia | lra]. }
  specialize (Hgen ltac:(lia) Hx).
  destruct (Rfl_VecGen_beta 2 3%R (fun _ => 4%R) 1 (Vec_Norm2 (2 - 1) (fun _ => 4%R) 1))
    as [[[knt a] x1] b].
  destruct Hgen as [_ [_ Hrange]]. exact Hrange.
Defined.

(** ** Rfl_MatMul in exact arithmetic: the trimmed update is the full one *)

Ltac zbool :=
  repeat match goal with
    | H : (_ <=? _) = true |- _ => apply Z.leb_le in H
    | H : (_ <=? _) = false |- _ => apply Z.leb_gt in H
    | H : (_ <? _) = true |- _ => apply Z.ltb_lt in H
    | H : (_ <? _) = false |- _ => apply Z.ltb_ge in H
    | H : (_ =? _) = true |- _ => apply Z.eqb_eq in H
    | H : (_ =? _) = false |- _ => apply Z.eqb_neq in H
    | H : (_ >? _) = _ |- _ => rewrite Z.gtb_ltb in H
    | H : (_ >=? _) = _ |- _ => rewrite Z.geb_leb in H
    end.

Section LoopFacts.
Context {T : Type}.

Lemma for_up_ext {St : Type} (f g : Z -> St -> St) count : forall i s,
  (forall k st, f k st = g k st) -> for_up count i f s = for_up count i g s.
Proof.
  induction count as [| c IH]; intros i s Hfg; simpl; [reflexivity |].
  rewrite Hfg. apply IH. exact Hfg.
Qed.

(** A loop that rewrites entry [i] from its old value, for [i] from [i0] on. *)
Lemma for_up_upd_pointwise (f : Z -> T -> T) count : forall i0 (y : Arr T) j,
  for_up count i0 (fun i y => upd y i (f i (y i))) y j
  = if (i0 <=? j) && (j <? i0 + Z.of_nat count) then f j (y j) else y j.
Proof.
  induction count as [| c IH]; intros i0 y j; simpl for_up.
  - destruct (i0 <=? j) eqn:E1; destruct (j <? i0 + Z.of_nat 0) eqn:E2; simpl;
      try reflexivity. zbool. lia.
  - rewrite IH. unfold upd.
    destruct (j =? i0) eqn:Ej;
      destruct (i0 + 1 <=? j) eqn:E1; destruct (j <? i0 + 1 + Z.of_nat c) eqn:E2;
      destruct (i0 <=? j) eqn:E3; destruct (j <? i0 + Z.of_nat (S c)) eqn:E4;
      simpl; try rewrite Ej; try reflexivity; zbool; try lia.
    all: subst j; reflexivity.
Qed.

(** The same for column [j] of a block. *)
Lemma for_up_mupd_pointwise (f : Z -> T -> T) (j : Z) count :
  forall i0 (A : Mat T) i' j',
  for_up count i0 (fun i A => mupd A i j (f i (A i j))) A i' j'
  = if (j' =? j) && (i0 <=? i') && (i' <? i0 + Z.of_nat count)
    then f i' (A i' j') else A i' j'.
Proof.
  induction count as [| c IH]; intros i0 A i' j'; simpl for_up.
  - destruct (j' =? j); destruct (i0 <=? i') eqn:E1;
      destruct (i' <? i0 + Z.of_nat 0) eqn:E2; simpl; try reflexivity.
    zbool. lia.
  - rewrite IH. unfold mupd.
    destruct (j' =? j) eqn:Ej; destruct (i' =? i0) eqn:Ei;
      destruct (i0 + 1 <=? i') eqn:E1; destruct (i' <? i0 + 1 + Z.of_nat c) eqn:E2;
      destruct (i0 <=? i') eqn:E3; destruct (i' <? i0 + Z.of_nat (S c)) eqn:E4;
      simpl; try rewrite Ej; try rewrite Ei; simpl; try reflexivity; zbool; try lia.
    all: subst; try rewrite Z.eqb_refl; simpl; try reflexivity.
Qed.

End LoopFacts.

Section TrimmedUpdate.
Import Rank1Spec.
Local Open Scope R_scope.

Lemma Rsum_snoc f count : forall i,
  Rsum (S count) i f = Rsum count i f + f (i + Z.of_nat count)%Z.
Proof.
  induction count as [| c IH]; intros i.
  - simpl. replace (i + 0)%Z with i by lia. ring.
  - change (Rsum (S (S c)) i f) with (f i + Rsum (S c) (i + 1) f).
    rewrite IH. simpl Rsum.
    replace (i + 1 + Z.of_nat c)%Z with (i + Z.of_nat (S c))%Z by lia. ring.
Qed.

Lemma Rsum_ext f g count : forall i,
  (forall k, (i <= k < i + Z.of_nat count)%Z -> f k = g k) ->
  Rsum count i f = Rsum count i g.
Proof.
  induction count as [| c IH]; intros i Hfg; simpl; [reflexivity |].
  rewrite Hfg by lia. rewrite (IH (i + 1)%Z); [reflexivity |].
  intros k Hk. apply Hfg. lia.
Qed.

Lemma Rsum_zero f count : forall i,
  (forall k, (i <= k < i + Z.of_nat count)%Z -> f k = 0) -> Rsum count i f = 0.
Proof.
  induction count as [| c IH]; intros i Hf; simpl; [reflexivity |].
  rewrite Hf by lia. rewrite IH; [ring |]. intros k Hk. apply Hf. lia.
Qed.

(** Terms that vanish at the end of a sum can be left out. *)
Lemma Rsum_trim f short : forall long i,
  (short <= long)%nat ->
  (forall k, (i + Z.of_nat short <= k < i + Z.of_nat long)%Z -> f k = 0) ->
  Rsum long i f = Rsum short i f.
Proof.
  induction short as [| c IH]; intros long i Hle Hf.
  - simpl. apply Rsum_zero. intros k Hk. apply Hf. lia.
  - destruct long as [| long]; [lia |]. simpl. f_equal.
    apply IH; [lia |]. intros k Hk. apply Hf. lia.
Qed.

Lemma Vec_AXPlusY_R (len : Z) (a : R) (x y : Arr R) t :
  Vec_AXPlusY len a x 1 y 1 t
  = if ((0 <=? t) && (t <? len))%Z then y t + a * x t else y t.
Proof.
  unfold Vec_AXPlusY.
  rewrite (for_up_ext _ (fun i y => upd y i ((fun i yv => yv + a * x i) i (y i)))).
  - rewrite (for_up_upd_pointwise (fun i yv => yv + a * x i)).
    destruct (0 <=? t)%Z eqn:E1; simpl; [| reflexivity].
    destruct (t <? len)%Z eqn:E2; destruct (t <? Z.of_nat (Z.to_nat len))%Z eqn:E3;
      try reflexivity; zbool; lia.
  - intros k st. simpl. rewrite !Z.mul_1_r. reflexivity.
Qed.

(** Adding [g k] times the vector [h k] for [k = 0 .. count-1]. *)
Lemma accumulate_R (len : Z) (g : Z -> R) (h : Z -> Arr R) (y0 : Arr R) count t :
  for_up count 0%Z (fun k y => Vec_AXPlusY len (g k) (h k) 1 y 1) y0 t
  = if ((0 <=? t) && (t <? len))%Z
    then y0 t + Rsum count 0%Z (fun k => g k * h k t)
    else y0 t.
Proof.
  pose proof (for_up_ind
    (fun k (y : Arr R) =>
       y t = if ((0 <=? t) && (t <? len))%Z
             then y0 t + Rsum (Z.to_nat k) 0%Z (fun k => g k * h k t)
             else y0 t)
    (fun k y => Vec_AXPlusY len (g k) (h k) 1 y 1) count 0%Z y0) as Hind.
  simpl in Hind. rewrite Nat2Z.id in Hind. apply Hind.
  - destruct ((0 <=? t) && (t <? len))%Z; simpl; ring.
  - intros k y Hk Hy. rewrite Vec_AXPlusY_R. rewrite Hy.
    destruct ((0 <=? t) && (t <? len))%Z; [| reflexivity].
    replace (Z.to_nat (k + 1)) with (S (Z.to_nat k)) by lia.
    rewrite Rsum_snoc. simpl. rewrite Z2Nat.id by lia. ring.
Qed.

Lemma Vec_Scale_zero_R (n : Z) (y : Arr R) t :
  (0 <= t < n)%Z -> Vec_Scale n zero y 1 t = 0.
Proof.
  intros Ht. unfold Vec_Scale.
  assert (Hz : IsZero (@zero R R_Scalar) = true) by (apply IsZero_R_true; reflexivity).
  assert (Hu : IsUnit (@zero R R_Scalar) = false).
  { unfold IsUnit, unit, zero. simpl. apply R_eqb_false. lra. }
  rewrite Hz, Hu. change (negb false) with true. cbv iota.
  rewrite (for_up_ext _ (fun i y => upd y i (y i * 0))).
  - rewrite (for_up_upd_pointwise (fun _ yv => yv * 0)).
    replace ((0 <=? t) && (t <? 0 + Z.of_nat (Z.to_nat n)))%Z with true.
    + ring.
    + symmetry. apply andb_true_iff. split; [apply Z.leb_le | apply Z.ltb_lt]; lia.
  - intros k st. rewrite Z.mul_1_r. reflexivity.
Qed.

Lemma Mat_VecMul_Yes_R (m n : Z) (A : Mat R) (x : Arr R) (x_s : Z) (y : Arr R) t :
  (0 <= m < 2 ^ (Size_bits - 1))%Z ->
  (0 <= t < n)%Z ->
  Mat_VecMul Trnsp_Yes m n unit A x x_s zero y 1 t
  = Rsum (Z.to_nat m) 0%Z (fun i => x (i * x_s)%Z * A i t).
Proof.
  intros Hm Ht. unfold Mat_VecMul.
  assert (Hu : IsZero (@unit R R_Scalar) = false).
  { apply IsZero_R_false. unfold unit. simpl. lra. }
  rewrite Hu. rewrite to_Index_small by lia.
  rewrite (accumulate_R n (fun i => unit [*] x (i * x_s)%Z) (fun i => Row A i)).
  replace ((0 <=? t) && (t <? n))%Z with true
    by (symmetry; apply andb_true_iff; split; [apply Z.leb_le | apply Z.ltb_lt]; lia).
  rewrite Vec_Scale_zero_R by exact Ht.
  rewrite Rplus_0_l. apply Rsum_ext. intros k _. unfold Row, unit. simpl. ring.
Qed.

Lemma Mat_VecMul_No_R (m n : Z) (A : Mat R) (x : Arr R) (x_s : Z) (y : Arr R) t :
  (0 <= n < 2 ^ (Size_bits - 1))%Z ->
  (0 <= t < m)%Z ->
  Mat_VecMul Trnsp_No m n unit A x x_s zero y 1 t
  = Rsum (Z.to_nat n) 0%Z (fun j => A t j * x (j * x_s)%Z).
Proof.
  intros Hn Ht. unfold Mat_VecMul.
  assert (Hu : IsZero (@unit R R_Scalar) = false).
  { apply IsZero_R_false. unfold unit. simpl. lra. }
  rewrite Hu. rewrite to_Index_small by lia.
  rewrite (accumulate_R m (fun j => unit [*] x (j * x_s)%Z) (fun j => Col A j)).
  replace ((0 <=? t) && (t <? m))%Z with true
    by (symmetry; apply andb_true_iff; split; [apply Z.leb_le | apply Z.ltb_lt]; lia).
  rewrite Vec_Scale_zero_R by exact Ht.
  rewrite Rplus_0_l. apply Rsum_ext. intros k _. unfold Col, unit. simpl. ring.
Qed.

Lemma Mat_Rank1Upd_R (m n : Z) (alpha : R) (x : Arr R) (x_s : Z) (y : Arr R)
  (y_s : Z) (A : Mat R) i j :
  (0 <= m < 2 ^ (Size_bits - 1))%Z ->
  (0 <= n < 2 ^ (Size_bits - 1))%Z ->
  Mat_Rank1Upd m n alpha x x_s y y_s A i j
  = if in_block m n i j
    then A i j + x (i * x_s)%Z * (alpha * y (j * y_s)%Z)
    else A i j.
Proof.
  intros Hm Hn. unfold Mat_Rank1Upd.
  destruct (IsZero alpha) eqn:Ea.
  { apply IsZero_R_true in Ea. subst alpha.
    destruct (in_block m n i j); ring. }
  rewrite !to_Index_small by lia.
  pose proof (for_up_ind
    (fun k (A' : Mat R) =>
       forall i j, A' i j = if in_block m k i j
                            then A i j + x (i * x_s)%Z * (alpha * y (j * y_s)%Z)
                            else A i j)
    (fun j A' =>
       let ayj := alpha [*] y (j * y_s)%Z in
       for_up (Z.to_nat m) 0%Z
         (fun i A' => mupd A' i j (A' i j [+] x (i * x_s)%Z [*] ayj)) A')
    (Z.to_nat n) 0%Z A) as Hind.
  simpl in Hind. rewrite Z2Nat.id in Hind by lia. apply Hind.
  - intros i' j'. unfold in_block.
    destruct (0 <=? i')%Z; destruct (i' <? m)%Z; destruct (0 <=? j')%Z eqn:E1;
      destruct (j' <? 0)%Z eqn:E2; simpl; try reflexivity. zbool. lia.
  - intros k A' Hk HA' i' j'.
    rewrite (for_up_mupd_pointwise
               (fun i a => a + x (i * x_s)%Z * (alpha * y (k * y_s)%Z)) k).
    rewrite !HA'. unfold in_block.
    destruct (j' =? k)%Z eqn:Ej; destruct (0 <=? i')%Z eqn:E1;
      destruct (i' <? 0 + Z.of_nat (Z.to_nat m))%Z eqn:E2;
      destruct (i' <? m)%Z eqn:E3; destruct (0 <=? j')%Z eqn:E4;
      destruct (j' <? k)%Z eqn:E5; destruct (j' <? k + 1)%Z eqn:E6;
      simpl; try reflexivity; zbool; try lia.
    subst j'. reflexivity.
Qed.

End TrimmedUpdate.

(** *** What the three scans of [Rfl_MatMul] find *)

Section TrimScans.
Local Open Scope Z_scope.

Lemma Rfl_lastv_spec (v : Arr R) (V_cs : Z) : forall count lastv i,
  0 <= lastv ->
  0 <= Rfl_lastv count lastv i v V_cs <= lastv /\
  (forall k, Rfl_lastv count lastv i v V_cs <= k < lastv ->
             v (i - (lastv - 1 - k) * V_cs) = 0%R).
Proof.
  induction count as [| c IH]; intros lastv i Hl; simpl.
  - split; [lia |]. intros k Hk. lia.
  - destruct (lastv >? 0) eqn:E1; simpl.
    + destruct (R_eqb 0 (v i)) eqn:E2.
      * zbool. apply R_eqb_true in E2.
        destruct (IH (lastv - 1) (i - V_cs)) as [Hr Hz]; [lia |].
        split; [lia |]. intros k Hk.
        destruct (Z.eq_dec k (lastv - 1)) as [-> | Hne].
        -- replace (i - (lastv - 1 - (lastv - 1)) * V_cs) with i by lia.
           symmetry. exact E2.
        -- replace (i - (lastv - 1 - k) * V_cs)
             with (i - V_cs - (lastv - 1 - 1 - k) * V_cs) by ring.
           apply Hz. lia.
      * split; [lia |]. intros; lia.
    + split; [lia |]. intros; lia.
Qed.

Lemma LastCol_hit_false (A : Mat R) (j : Z) : forall count i,
  LastCol_hit count i A j = false ->
  forall i', i <= i' < i + Z.of_nat count -> A i' j = 0%R.
Proof.
  induction count as [| c IH]; intros i Hf i' Hi; [lia |].
  simpl in Hf. destruct (R_eqb 0 (A i j)) eqn:E; simpl in Hf; [| discriminate].
  destruct (Z.eq_dec i' i) as [-> | Hne].
  - apply R_eqb_true in E. symmetry. exact E.
  - apply (IH (i + 1) Hf). lia.
Qed.

Lemma LastCol_scan_spec (A : Mat R) (m : Z) : forall count j,
  0 <= m < 2 ^ (Size_bits - 1) ->
  Z.of_nat count = j + 1 ->
  -1 <= LastCol_scan count j m A <= j /\
  (forall i j', 0 <= i < m -> LastCol_scan count j m A < j' <= j -> A i j' = 0%R).
Proof.
  induction count as [| c IH]; intros j Hm Hc; simpl.
  - split; [lia |]. intros; lia.
  - rewrite to_Index_small by lia.
    destruct (LastCol_hit (Z.to_nat m) 0 A j) eqn:E.
    + split; [lia |]. intros; lia.
    + destruct (IH (j - 1) Hm) as [Hr Hz]; [lia |].
      split; [lia |]. intros i j' Hi Hj.
      destruct (Z.eq_dec j' j) as [-> | Hne].
      * apply (LastCol_hit_false A j _ _ E). lia.
      * apply Hz; lia.
Qed.

(** Right of the column that [Idx_LastCol] returns the first [m] rows hold
    zeros only. *)
Lemma Idx_LastCol_spec (A : Mat R) (m n : Z) :
  0 <= m < 2 ^ (Size_bits - 1) ->
  0 <= n < 2 ^ (Size_bits - 1) ->
  0 <= Idx_LastCol m n A + 1 <= n /\
  (forall i j, 0 <= i < m -> Idx_LastCol m n A + 1 <= j < n -> A i j = 0%R).
Proof.
  intros Hm Hn. unfold Idx_LastCol.
  destruct (n =? 0) eqn:En.
  - zbool. subst n. change (to_Index (Size_wrap (0 - 1))) with (-1).
    split; [lia |]. intros; lia.
  - zbool.
    destruct (negb (IsZero (A 0 (n - 1))) || negb (IsZero (A (m - 1) (n - 1)))).
    + rewrite to_Index_small by lia. split; [lia |]. intros; lia.
    + rewrite to_Index_small by lia.
      destruct (LastCol_scan_spec A m (Z.to_nat (n - 1 + 1)) (n - 1) Hm) as [Hr Hz];
        [lia |].
      split; [lia |]. intros i j Hi Hj. apply Hz; lia.
Qed.

Lemma LastRow_up_spec (A : Mat R) (j : Z) : forall count i,
  Z.of_nat count = i + 1 ->
  -1 <= LastRow_up count i A j <= i /\
  (forall i', LastRow_up count i A j < i' <= i -> A i' j = 0%R).
Proof.
  induction count as [| c IH]; intros i Hc; simpl.
  - split; [lia |]. intros; lia.
  - destruct (R_eqb 0 (A (Z.max i 0) j) && (i >=? 0)) eqn:E.
    + apply andb_true_iff in E. destruct E as [E1 E2].
      apply R_eqb_true in E1. rewrite Z.max_l in E1 by lia.
      destruct (IH (i - 1)) as [Hr Hz]; [lia |].
      split; [lia |]. intros i' Hi'.
      destruct (Z.eq_dec i' i) as [-> | Hne]; [symmetry; exact E1 | apply Hz; lia].
    + split; [lia |]. intros; lia.
Qed.

(** Below the row that [Idx_LastRow] returns the first [n] columns hold zeros
    only. *)
Lemma Idx_LastRow_spec (A : Mat R) (m n : Z) :
  0 <= m < 2 ^ (Size_bits - 1) ->
  0 <= n < 2 ^ (Size_bits - 1) ->
  0 <= Idx_LastRow m n A + 1 <= m /\
  (forall i j, Idx_LastRow m n A + 1 <= i < m -> 0 <= j < n -> A i j = 0%R).
Proof.
  intros Hm Hn. unfold Idx_LastRow.
  destruct (m =? 0) eqn:Em.
  - zbool. subst m. change (to_Index (Size_wrap (0 - 1))) with (-1).
    split; [lia |]. intros; lia.
  - zbool.
    destruct ((of_int 0 [!=] A (m - 1) 0) || (of_int 0 [!=] A (m - 1) (n - 1))).
    + rewrite to_Index_small by lia. split; [lia |]. intros; lia.
    + rewrite !to_Index_small by lia.
      pose proof (for_up_ind
        (fun k row =>
           -1 <= row <= m - 1 /\
           forall i j, row < i < m -> 0 <= j < k -> A i j = 0%R)
        (fun j row =>
           Z.max row (LastRow_up (Z.to_nat (m - 1 + 1)) (m - 1) A j))
        (Z.to_nat n) 0 (-1)) as Hind.
      simpl in Hind. rewrite Z2Nat.id in Hind by lia.
      destruct Hind as [Hr Hz].
      * split; [lia |]. intros; lia.
      * intros k row Hk [Hrow Hzero].
        destruct (LastRow_up_spec A k (Z.to_nat (m - 1 + 1)) (m - 1)) as [Hu Hv];
          [lia |].
        split; [lia |]. intros i j Hi Hj.
        destruct (Z.eq_dec j k) as [-> | Hne].
        -- apply Hv. lia.
        -- apply Hzero; lia.
      * split; [lia |]. intros i j Hi Hj. apply Hz; lia.
Qed.

End TrimScans.

(** *** The trimmed update against the update over the whole block *)

Section ReflectorApplied.
Import Rank1Spec.
Local Open Scope R_scope.

Variables (m n V_cs : Z) (v : Arr R) (tau : R) (C : Mat R) (work : Arr R).
Hypothesis Hm : (0 <= m < 2 ^ (Size_bits - 1))%Z.
Hypothesis Hn : (0 <= n < 2 ^ (Size_bits - 1))%Z.
Hypothesis Hs : (0 <= V_cs)%Z.

Lemma Rfl_scan_start (len : Z) :
  (if (V_cs >? 0)%Z then (1 + (len - 1) * V_cs - 1)%Z else 0%Z)
  = ((len - 1) * V_cs)%Z.
Proof.
  destruct (V_cs >? 0)%Z eqn:E; [lia |]. zbool.
  assert (V_cs = 0)%Z by lia. subst V_cs. lia.
Qed.

Lemma Rfl_lastv_zero_tail (len : Z) :
  (0 <= len)%Z ->
  let lv := Rfl_lastv (Z.to_nat len) len ((len - 1) * V_cs)%Z v V_cs in
  (0 <= lv <= len)%Z /\ (forall k, (lv <= k < len)%Z -> v (k * V_cs)%Z = 0).
Proof.
  intros Hl lv.
  destruct (Rfl_lastv_spec v V_cs (Z.to_nat len) len ((len - 1) * V_cs)%Z Hl)
    as [Hr Hz].
  split; [exact Hr |]. intros k Hk.
  replace (k * V_cs)%Z with ((len - 1) * V_cs - (len - 1 - k) * V_cs)%Z by ring.
  apply Hz. exact Hk.
Qed.

Lemma Rfl_MatMul_Left_R i j :
  fst (Rfl_MatMul Side_Left m n v V_cs tau C work) i j
  = rank1_left m n tau (fun k => v (k * V_cs)%Z) C i j.
Proof.
  unfold Rfl_MatMul.
  destruct (IsZero tau) eqn:Et.
  { apply IsZero_R_true in Et. subst tau. simpl fst. unfold rank1_left.
    destruct (in_block m n i j); ring. }
  cbv zeta. rewrite (to_Index_small m) by lia. rewrite Rfl_scan_start.
  destruct (Rfl_lastv_zero_tail m) as [Hlv Hvz]; [lia |].
  set (lv := Rfl_lastv (Z.to_nat m) m ((m - 1) * V_cs)%Z v V_cs) in *.
  destruct (Idx_LastCol_spec C lv n) as [Hlc Hcz]; [lia | lia |].
  set (lc := (Idx_LastCol lv n C + 1)%Z) in *.
  unfold rank1_left.
  destruct (lv >? 0)%Z eqn:Elv; cbn [fst].
  - rewrite Mat_Rank1Upd_R by lia. change (neg tau) with (- tau).
    destruct (in_block lv lc i j) eqn:E1.
    + assert (E2 : in_block m n i j = true).
      { unfold in_block in *. repeat (apply andb_true_iff in E1; destruct E1 as [E1 ?]).
        zbool. repeat (apply andb_true_iff; split);
          first [apply Z.leb_le | apply Z.ltb_lt]; lia. }
      rewrite E2. rewrite Z.mul_1_r.
      unfold in_block in E1.
      repeat (apply andb_true_iff in E1; destruct E1 as [E1 ?]). zbool.
      rewrite Mat_VecMul_Yes_R by lia.
      rewrite (Rsum_trim (fun k => v (k * V_cs)%Z * C k j) (Z.to_nat lv) (Z.to_nat m) 0%Z).
      * ring.
      * lia.
      * intros k Hk. rewrite Hvz by lia. ring.
    + destruct (in_block m n i j) eqn:E2; [| reflexivity].
      unfold in_block in E2.
      repeat (apply andb_true_iff in E2; destruct E2 as [E2 ?]). zbool.
      destruct (Z_lt_dec i lv) as [Hi | Hi].
      * assert (Hj : (lc <= j)%Z).
        { destruct (Z_lt_dec j lc) as [Hj | Hj]; [| lia]. exfalso.
          unfold in_block in E1. apply Bool.not_true_iff_false in E1. apply E1.
          repeat (apply andb_true_iff; split);
            first [apply Z.leb_le | apply Z.ltb_lt]; lia. }
        rewrite (Rsum_zero (fun k => v (k * V_cs)%Z * C k j)); [ring |].
        intros k Hk. destruct (Z_lt_dec k lv) as [Hklt | Hkge].
        -- rewrite Hcz by lia. ring.
        -- rewrite Hvz by lia. ring.
      * rewrite (Hvz i) by lia. ring.
  - zbool. destruct (in_block m n i j) eqn:E2; [| reflexivity].
    unfold in_block in E2.
    repeat (apply andb_true_iff in E2; destruct E2 as [E2 ?]). zbool.
    rewrite (Hvz i) by lia. ring.
Qed.

Lemma Rfl_MatMul_Right_R i j :
  fst (Rfl_MatMul Side_Right m n v V_cs tau C work) i j
  = rank1_right m n tau (fun k => v (k * V_cs)%Z) C i j.
Proof.
  unfold Rfl_MatMul.
  destruct (IsZero tau) eqn:Et.
  { apply IsZero_R_true in Et. subst tau. simpl fst. unfold rank1_right.
    destruct (in_block m n i j); ring. }
  cbv zeta. rewrite (to_Index_small n) by lia. rewrite Rfl_scan_start.
  destruct (Rfl_lastv_zero_tail n) as [Hlv Hvz]; [lia |].
  set (lv := Rfl_lastv (Z.to_nat n) n ((n - 1) * V_cs)%Z v V_cs) in *.
  destruct (Idx_LastRow_spec C m lv) as [Hlc Hcz]; [lia | lia |].
  set (lc := (Idx_LastRow m lv C + 1)%Z) in *.
  unfold rank1_right.
  destruct (lv >? 0)%Z eqn:Elv; cbn [fst].
  - rewrite Mat_Rank1Upd_R by lia. change (neg tau) with (- tau).
    destruct (in_block lc lv i j) eqn:E1.
    + assert (E2 : in_block m n i j = true).
      { unfold in_block in *. repeat (apply andb_true_iff in E1; destruct E1 as [E1 ?]).
        zbool. repeat (apply andb_true_iff; split);
          first [apply Z.leb_le | apply Z.ltb_lt]; lia. }
      rewrite E2. rewrite Z.mul_1_r.
      unfold in_block in E1.
      repeat (apply andb_true_iff in E1; destruct E1 as [E1 ?]). zbool.
      rewrite Mat_VecMul_No_R by lia.
      rewrite (Rsum_trim (fun k => C i k * v (k * V_cs)%Z) (Z.to_nat lv) (Z.to_nat n) 0%Z).
      * ring.
      * lia.
      * intros k Hk. rewrite Hvz by lia. ring.
    + destruct (in_block m n i j) eqn:E2; [| reflexivity].
      unfold in_block in E2.
      repeat (apply andb_true_iff in E2; destruct E2 as [E2 ?]). zbool.
      destruct (Z_lt_dec j lv) as [Hj | Hj].
      * assert (Hi : (lc <= i)%Z).
        { destruct (Z_lt_dec i lc) as [Hi | Hi]; [| lia]. exfalso.
          unfold in_block in E1. apply Bool.not_true_iff_false in E1. apply E1.
          repeat (apply andb_true_iff; split);
            first [apply Z.leb_le | apply Z.ltb_lt]; lia. }
        rewrite (Rsum_zero (fun k => C i k * v (k * V_cs)%Z)); [ring |].
        intros k Hk. destruct (Z_lt_dec k lv) as [Hklt | Hkge].
        -- rewrite Hcz by lia. ring.
        -- rewrite Hvz by lia. ring.
      * rewrite (Hvz j) by lia. ring.
  - zbool. destruct (in_block m n i j) eqn:E2; [| reflexivity].
    unfold in_block in E2.
    repeat (apply andb_true_iff in E2; destruct E2 as [E2 ?]). zbool.
    rewrite (Hvz j) by lia. ring.
Qed.

End ReflectorApplied.

(** For a stride of [v] that is not negative the trimming is sound.  In
    exact arithmetic, for [m] and [n] in the range of [Index], the matrix that
    [Rfl_MatMul] leaves, computed on the part that the scans for [lastv] and
    [lastc] keep, is at every position the rank-1 update over the whole [m] by
    [n] block: [C - tau*v*(~v*C)] from the left, [C - tau*(C*v)*~v] from the
    right (and [C] itself outside the block). *)
Theorem Rfl_MatMul_trimming_sound_for_forward_stride (side : Side) (m n : Z)
  (v : Arr R) (V_cs : Z) (tau : R) (C : Mat R) (work : Arr R) (i j : Z) :
  0 <= m < 2 ^ (Size_bits - 1) ->
  0 <= n < 2 ^ (Size_bits - 1) ->
  0 <= V_cs ->
  fst (Rfl_MatMul side m n v V_cs tau C work) i j
  = match side with
    | Side_Left => Rank1Spec.rank1_left m n tau (fun k => v (k * V_cs)) C i j
    | Side_Right => Rank1Spec.rank1_right m n tau (fun k => v (k * V_cs)) C i j
    end.
Proof.
  intros Hm Hn Hs. destruct side.
  - apply Rfl_MatMul_Left_R; assumption.
  - apply Rfl_MatMul_Right_R; assumption.
Qed.

Example Rfl_MatMul_trimming_sound_at_3_by_2 :
  fst (Rfl_MatMul Side_Left 3 2 (fun k => if k =? 0 then 1%R else 0%R) 1 2%R
         (fun i j => if (i =? 0) && (j =? 0) then 1%R else 0%R) (fun _ => 0%R)) 0 0
  = Rank1Spec.rank1_left 3 2 2%R (fun k => if k * 1 =? 0 then 1%R else 0%R)
      (fun i j => if (i =? 0) && (j =? 0) then 1%R else 0%R) 0 0.
Proof.
  apply (Rfl_MatMul_trimming_sound_for_forward_stride Side_Left 3 2
           (fun k => if k =? 0 then 1%R else 0%R) 1 2%R
           (fun i j => if (i =? 0) && (j =? 0) then 1%R else 0%R) (fun _ => 0%R) 0 0).
  - vm_compute. split; [discriminate | reflexivity].
  - vm_compute. split; [discriminate | reflexivity].
  - lia.
Qed.

(** C4.  The trimming changes the result when the stride of [v] is negative.
    With the stride [-1] the components of the vector are [v[0], v[-1]], as
    [Mat_VecMul] and [Mat_Rank1Upd] read them, while the scan for the last
    non-zero component starts at [v[0]] and steps by [i -= V_cs] to [v[1]].
    For [v[0] = 0], [v[1] = 0], [v[-1] = 1], [tau = 1] and the 2 by 1 block
    [C] of ones, the scan ends with [lastv = 0] and [C(1,0)] stays [1]; the
    update [C - tau*v*(~v*C)] over the whole block makes it [0]. *)
Theorem Rfl_MatMul_backward_stride_trims_too_much :
  fst (Rfl_MatMul Side_Left 2 1 (fun i => if (i =? -1)%Z then 1%R else 0%R) (-1) 1%R
         (fun _ _ => 1%R) (fun _ => 0%R)) 1 0 = 1%R
  /\ Rank1Spec.rank1_left 2 1 1%R (fun k => if (k * -1 =? -1)%Z then 1%R else 0%R)
       (fun _ _ => 1%R) 1 0 = 0%R.
Proof.
  split.
  - unfold Rfl_MatMul.
    rewrite (proj2 (IsZero_R_false 1%R)) by lra.
    cbv zeta. change (to_Index 2) with 2. change (-1 >? 0) with false. cbv iota.
    change (Z.to_nat 2) with 2%nat.
    assert (Hl : Rfl_lastv 2 2 0 (fun i : Z => if i =? -1 then 1%R else 0%R) (-1) = 0).
    { simpl. rewrite (proj2 (R_eqb_true 0 0) eq_refl). reflexivity. }
    rewrite Hl. reflexivity.
  - unfold Rank1Spec.rank1_left, Rank1Spec.in_block. simpl. lra.
Qed.

(** ** Runs on binary64 values *)

(** Both solvers on the matrix with diagonal [(2, 2, 2)] and off-diagonal
    [(1, 1)], whose eigenvalues are [2 - sqrt 2], [2] and [2 + sqrt 2]: both
    return [true] with the same three values in [d]. *)
Example Syt_EigVecQR_and_Syt_EigQR_on_3_by_3 :
  let d := b64_arr [2; 2; 2] in
  let e := b64_arr [1; 1] in
  let Z_ : Mat spec_float := fun i j => if i =? j then b64 1 else b64 0 in
  match Syt_EigVecQR.Solve 100 Syt_EigVecQR.default_Config 3 d e Z_ (b64_arr []),
        Syt_EigQR.Solve 100 Syt_EigQR.default_Config 3 d e with
  | Ok (b, d', _, _), Ok (b1, d1, _) =>
      b = true /\ b1 = true /\ to_list 3 d' = to_list 3 d1
      /\ SFltb (d' 0) (b64 1) = true /\ SFltb (b64 3) (d' 1) = true
  | _, _ => False
  end.
Proof. vm_compute. repeat split. Qed.

(** [Vec_Rescl] with [cfrom = 2] and [cto = 6] multiplies by three. *)
Example Vec_Rescl_returns_on_binary64 :
  match Vec_Rescl 5 (b64 2) (b64 6) 2 (b64_arr [1; 2]) 1 with
  | Ok x' => to_list 2 x' = [b64 3; b64 6]
  | _ => False
  end.
Proof. vm_compute. reflexivity. Qed.

(** From the smallest subnormal number to the largest finite one the loop
    of [Vec_Rescl] makes three passes: two passes do not end it. *)
Example Vec_Rescl_three_passes_on_binary64 :
  Vec_Rescl 2 (S754_finite false 1 (-1074)) (SFmax_float prec emax) 2
    (b64_arr [1; 2]) 1 = OutOfFuel
  /\ match Vec_Rescl 3 (S754_finite false 1 (-1074)) (SFmax_float prec emax) 2
            (b64_arr [1; 2]) 1 with
     | Ok x' => to_list 2 x' = [S754_infinity false; S754_infinity false]
     | _ => False
     end.
Proof. vm_compute. split; reflexivity. Qed.

(** [Hypot] on binary64: [hypot(3, 4) = 5]; no overflow where the squares
    would overflow, no underflow where they would underflow; infinite as
    soon as an argument is, a NaN otherwise when an argument is. *)
Example b64_hypot_on_binary64 :
  b64_hypot (b64 3) (b64 4) = b64 5
  /\ b64_hypot (S754_finite false (2 ^ 52) 600) (S754_finite true (2 ^ 52) 600)
     = S754_finite false 6369051672525773 600
  /\ b64_hypot (S754_finite false 1 (-1074)) (S754_finite true 1 (-1074))
     = S754_finite false 1 (-1074)
  /\ b64_hypot S754_nan (S754_infinity true) = S754_infinity false
  /\ b64_hypot S754_nan (b64 0) = S754_nan.
Proof. vm_compute. repeat split. Qed.

(** ** The work buffer of Ort_From_Syt *)

Section WorkFrame.
Context {T : Type} `{Scalar T}.

Lemma for_up_keeps {St : Type} (P : St -> Prop) (body : Z -> St -> St) count :
  forall i s,
  P s ->
  (forall k st, i <= k < i + Z.of_nat count -> P st -> P (body k st)) ->
  P (for_up count i body s).
Proof.
  intros i s Hs Hstep.
  apply (for_up_ind (fun _ st => P st) body count i s Hs).
  intros k st Hk Hst. apply Hstep; assumption.
Qed.

Lemma for_down_keeps {St : Type} (P : St -> Prop) (body : Z -> St -> St) count :
  forall i s,
  P s ->
  (forall k st, i - Z.of_nat count < k <= i -> P st -> P (body k st)) ->
  P (for_down count i body s).
Proof.
  induction count as [| c IH]; intros i s Hs Hstep; simpl for_down; [exact Hs |].
  apply IH.
  - apply Hstep; [lia | exact Hs].
  - intros k st Hk. apply Hstep. lia.
Qed.

(** The level-1 routines write [x[0 .. n-1]] and nothing else. *)
Lemma Vec_Zero_frame n (x : Arr T) t :
  ~ (0 <= t < n) -> Vec_Zero n x 1 t = x t.
Proof.
  intros Ht. unfold Vec_Zero.
  apply (for_up_keeps (fun y : Arr T => y t = x t)); [reflexivity |].
  intros k st Hk Hst. unfold upd.
  destruct (t =? k * 1) eqn:E; [zbool; lia | exact Hst].
Qed.

Lemma Vec_Scale_frame n alpha (x : Arr T) t :
  ~ (0 <= t < n) -> Vec_Scale n alpha x 1 t = x t.
Proof.
  intros Ht. unfold Vec_Scale.
  assert (Hz : (if IsZero alpha then Vec_Zero n x 1 else x) t = x t).
  { destruct (IsZero alpha); [apply Vec_Zero_frame; exact Ht | reflexivity]. }
  destruct (negb (IsUnit alpha)); [| exact Hz].
  apply (for_up_keeps (fun y : Arr T => y t = x t)); [exact Hz |].
  intros k st Hk Hst. unfold upd.
  destruct (t =? k * 1) eqn:E; [zbool; lia | exact Hst].
Qed.

Lemma Vec_AXPlusY_frame n alpha (x : Arr T) x_s (y : Arr T) t :
  ~ (0 <= t < n) -> Vec_AXPlusY n alpha x x_s y 1 t = y t.
Proof.
  intros Ht. unfold Vec_AXPlusY.
  apply (for_up_keeps (fun y' : Arr T => y' t = y t)); [reflexivity |].
  intros k st Hk Hst. unfold upd.
  destruct (t =? k * 1) eqn:E; [zbool; lia | exact Hst].
Qed.

Lemma Vec_AConjXPlusY_frame n alpha (x : Arr T) x_s (y : Arr T) t :
  ~ (0 <= t < n) -> Vec_AConjXPlusY n alpha x x_s y 1 t = y t.
Proof.
  intros Ht. unfold Vec_AConjXPlusY.
  apply (for_up_keeps (fun y' : Arr T => y' t = y t)); [reflexivity |].
  intros k st Hk Hst. unfold upd.
  destruct (t =? k * 1) eqn:E; [zbool; lia | exact Hst].
Qed.

(** [Mat_VecMul] writes the [m] (not transposed) or [n] (transposed) leading
    elements of [y]. *)
Lemma Mat_VecMul_frame trnsp m n alpha (A : Mat T) x x_s beta (y : Arr T) t :
  ~ (0 <= t < match trnsp with Trnsp_No => m | _ => n end) ->
  Mat_VecMul trnsp m n alpha A x x_s beta y 1 t = y t.
Proof.
  intros Ht. unfold Mat_VecMul. destruct trnsp.
  - destruct (IsZero alpha); [apply Vec_Scale_frame; exact Ht |].
    apply (for_up_keeps (fun y' : Arr T => y' t = y t));
      [apply Vec_Scale_frame; exact Ht |].
    intros k st Hk Hst. cbv zeta. rewrite Vec_AXPlusY_frame by exact Ht. exact Hst.
  - destruct (IsZero alpha); [apply Vec_Scale_frame; exact Ht |].
    apply (for_up_keeps (fun y' : Arr T => y' t = y t));
      [apply Vec_Scale_frame; exact Ht |].
    intros k st Hk Hst. cbv zeta. rewrite Vec_AXPlusY_frame by exact Ht. exact Hst.
  - destruct (IsZero alpha); [apply Vec_Scale_frame; exact Ht |].
    apply (for_up_keeps (fun y' : Arr T => y' t = y t));
      [apply Vec_Scale_frame; exact Ht |].
    intros k st Hk Hst. cbv zeta. rewrite Vec_AConjXPlusY_frame by exact Ht. exact Hst.
Qed.

Lemma LastCol_scan_le (A : Mat T) (m : Z) : forall count j,
  Z.of_nat count = j + 1 -> -1 <= LastCol_scan count j m A <= j.
Proof.
  induction count as [| c IH]; intros j Hc; simpl; [lia |].
  destruct (LastCol_hit (Z.to_nat (to_Index m)) 0 A j); [lia |].
  specialize (IH (j - 1)). lia.
Qed.

Lemma Idx_LastCol_range (A : Mat T) (m n : Z) :
  0 <= n < 2 ^ (Size_bits - 1) -> 0 <= Idx_LastCol m n A + 1 <= n.
Proof.
  intros Hn. unfold Idx_LastCol.
  destruct (n =? 0) eqn:En.
  - zbool. subst n. change (to_Index (Size_wrap (0 - 1))) with (-1). lia.
  - zbool.
    destruct (negb (IsZero (A 0 (n - 1))) || negb (IsZero (A (m - 1) (n - 1)))).
    + rewrite to_Index_small by lia. lia.
    + rewrite to_Index_small by lia.
      pose proof (LastCol_scan_le A m (Z.to_nat (n - 1 + 1)) (n - 1)). lia.
Qed.

Lemma LastRow_up_le (A : Mat T) (j : Z) : forall count i,
  Z.of_nat count = i + 1 -> -1 <= LastRow_up count i A j <= i.
Proof.
  induction count as [| c IH]; intros i Hc; simpl; [lia |].
  destruct ((of_int 0 [==] A (Z.max i 0) j) && (i >=? 0)); [| lia].
  specialize (IH (i - 1)). lia.
Qed.

Lemma Idx_LastRow_range (A : Mat T) (m n : Z) :
  0 <= m < 2 ^ (Size_bits - 1) -> 0 <= Idx_LastRow m n A + 1 <= m.
Proof.
  intros Hm. unfold Idx_LastRow.
  destruct (m =? 0) eqn:Em.
  - zbool. subst m. change (to_Index (Size_wrap (0 - 1))) with (-1). lia.
  - zbool.
    destruct ((of_int 0 [!=] A (m - 1) 0) || (of_int 0 [!=] A (m - 1) (n - 1))).
    + rewrite to_Index_small by lia. lia.
    + rewrite (to_Index_small (m - 1)) by lia.
      match goal with |- 0 <= ?r + 1 <= m => assert (Hrow : -1 <= r <= m - 1) end;
        [| lia].
      apply (for_up_keeps (fun row => -1 <= row <= m - 1)); [lia |].
      intros k row _ Hrow. cbv zeta.
      pose proof (LastRow_up_le A k (Z.to_nat (m - 1 + 1)) (m - 1)). lia.
Qed.

(** [Rfl_MatMul] writes the [n] (from the left) or [m] (from the right)
    leading elements of [work], the size that the comment on [work] and
    [Rfl_MatMul_WorkSize] ask for from the left. *)
Lemma Rfl_MatMul_work_frame side m n (v : Arr T) V_cs tau (C : Mat T) work t :
  0 <= m < 2 ^ (Size_bits - 1) ->
  0 <= n < 2 ^ (Size_bits - 1) ->
  ~ (0 <= t < match side with Side_Left => n | Side_Right => m end) ->
  snd (Rfl_MatMul side m n v V_cs tau C work) t = work t.
Proof.
  intros Hm Hn Ht. unfold Rfl_MatMul.
  destruct (IsZero tau); [reflexivity |].
  cbv zeta. destruct side.
  - match goal with |- context [Idx_LastCol ?lv n C] =>
      pose proof (Idx_LastCol_range C lv n Hn) as Hlc;
      destruct (lv >? 0); [| reflexivity]
    end.
    cbn [snd]. apply Mat_VecMul_frame. lia.
  - match goal with |- context [Idx_LastRow m ?lv C] =>
      pose proof (Idx_LastRow_range C m lv Hm) as Hlc;
      destruct (lv >? 0); [| reflexivity]
    end.
    cbn [snd]. apply Mat_VecMul_frame. lia.
Qed.

End WorkFrame.

Section OrtFromWork.
Context {T : Type} `{Scalar T}.

Lemma Ort_From_QL_step_work_frame m n k tau i (st : Mat T * Arr T) t :
  0 <= i < 2 ^ (Size_bits - 1) - 1 ->
  0 <= n - k + i < 2 ^ (Size_bits - 1) ->
  ~ (0 <= t < n - k + i) ->
  snd (Ort_From_QL_step m n k tau i st) t = snd st t.
Proof.
  intros Hi Hii Ht. unfold Ort_From_QL_step. destruct st as [A work]. cbv zeta.
  match goal with |- context [Rfl_MatMul ?s ?a ?b ?v ?c ?tu ?C ?w] =>
    pose proof (Rfl_MatMul_work_frame s a b v c tu C w t ltac:(lia) Hii Ht) as Hf;
    destruct (Rfl_MatMul s a b v c tu C w) as [A1 work1]
  end.
  exact Hf.
Qed.

Lemma Ort_From_QR_step_work_frame m n tau i (st : Mat T * Arr T) t :
  0 <= i < n -> n <= m < 2 ^ (Size_bits - 1) ->
  ~ (0 <= t < n - 1) ->
  snd (Ort_From_QR_step m n tau i st) t = snd st t.
Proof.
  intros Hi Hm Ht. unfold Ort_From_QR_step. destruct st as [A work].
  destruct (i <? to_Index (n - 1)); [| reflexivity].
  cbv zeta.
  match goal with |- context [Rfl_MatMul ?s ?a ?b ?v ?c ?tu ?C ?w] =>
    pose proof (Rfl_MatMul_work_frame s a b v c tu C w t ltac:(lia) ltac:(lia)
                  ltac:(simpl; lia)) as Hf;
    destruct (Rfl_MatMul s a b v c tu C w) as [A1 work1]
  end.
  exact Hf.
Qed.

(** For [k <= n <= m] the two routines return, and outside its first [n - 1]
    elements [work] is as it was. *)
Lemma Ort_From_QL_work_frame m n k (A : Mat T) tau work :
  0 <= k <= n -> n <= m < 2 ^ (Size_bits - 1) ->
  exists A' work',
    Ort_From_QL m n k A tau work = Ok (A', work')
    /\ forall t, ~ (0 <= t < n - 1) -> work' t = work t.
Proof.
  intros Hk Hm. unfold Ort_From_QL.
  destruct (n >? m) eqn:E1; [zbool; lia |].
  destruct (k >? n) eqn:E2; [zbool; lia |].
  destruct (n =? 0); [exists A, work; split; [reflexivity | reflexivity] |].
  cbv zeta.
  match goal with |- context [Ok ?r] =>
    exists (fst r), (snd r); split; [destruct r; reflexivity |]
  end.
  intros t Ht. revert t Ht.
  apply (for_up_keeps
           (fun st : Mat T * Arr T =>
              forall t, ~ (0 <= t < n - 1) -> snd st t = work t)).
  - intros t Ht. reflexivity.
  - intros i st Hi Hst t Ht. rewrite to_Index_small in Hi by lia.
    rewrite Ort_From_QL_step_work_frame by lia. apply Hst. exact Ht.
Qed.

Lemma Ort_From_QR_work_frame m n k (A : Mat T) tau work :
  0 <= k <= n -> n <= m < 2 ^ (Size_bits - 1) ->
  exists A' work',
    Ort_From_QR m n k A tau work = Ok (A', work')
    /\ forall t, ~ (0 <= t < n - 1) -> work' t = work t.
Proof.
  intros Hk Hm. unfold Ort_From_QR.
  destruct (n >? m) eqn:E1; [zbool; lia |].
  destruct (k >? n) eqn:E2; [zbool; lia |].
  destruct (n =? 0); [exists A, work; split; [reflexivity | reflexivity] |].
  cbv zeta.
  match goal with |- context [Ok ?r] =>
    exists (fst r), (snd r); split; [destruct r; reflexivity |]
  end.
  intros t Ht. revert t Ht.
  apply (for_down_keeps
           (fun st : Mat T * Arr T =>
              forall t, ~ (0 <= t < n - 1) -> snd st t = work t)).
  - intros t Ht. reflexivity.
  - intros i st Hi Hst t Ht. rewrite to_Index_small in Hi by lia.
    rewrite Ort_From_QR_step_work_frame by lia. apply Hst. exact Ht.
Qed.

End OrtFromWork.

(** C7 as stated fails: for [n = 1] the formula gives [0]. *)
Lemma Ort_From_Syt_WorkSize_below_n :
  ~ (1 <= Ort_From_Syt_WorkSize 1).
Proof. vm_compute. intros Hle. apply Hle. reflexivity. Qed.

(** C7, amended.  For every [n >= 1] in the range of [Index], the formula
    returns [n - 1], one less than [n].  That is the work size that the
    routines [Ort_From_Syt] hands over to, called with [(n-1, n-1, n-1)],
    ask for, and it is enough: for every scalar type, matrix, [tau] and
    [half], [Ort_From_Syt] returns, and every element of [work] outside the
    first [Ort_From_Syt_WorkSize( n )] is as it was passed in. *)
Theorem Ort_From_Syt_WorkSize_is_n_minus_1 {T : Type} `{Scalar T}
  (half : Half) (n : Z) (A : Mat T) (tau work : Arr T) :
  1 <= n < 2 ^ (Size_bits - 1) ->
  Ort_From_Syt_WorkSize n = n - 1
  /\ Ort_From_Syt_WorkSize n < n
  /\ Ort_From_Syt_WorkSize n = Ort_From_QL_WorkSize (n - 1) (n - 1) (n - 1)
  /\ Ort_From_Syt_WorkSize n = Ort_From_QR_WorkSize (n - 1) (n - 1) (n - 1)
  /\ exists A' work',
       Ort_From_Syt half n A tau work = Ok (A', work')
       /\ forall t, ~ (0 <= t < Ort_From_Syt_WorkSize n) -> work' t = work t.
Proof.
  intros Hn.
  assert (Hw : Ort_From_Syt_WorkSize n = n - 1).
  { unfold Ort_From_Syt_WorkSize, Size_wrap. apply Z.mod_small.
    unfold Size_bits in *. lia. }
  rewrite Hw. unfold Ort_From_QL_WorkSize, Ort_From_QR_WorkSize.
  repeat (split; [lia |]).
  unfold Ort_From_Syt.
  destruct (n =? 0) eqn:En; [zbool; lia |].
  destruct half.
  - cbv zeta.
    match goal with |- context [Ort_From_QL ?m ?n' ?k ?B tau work] =>
      destruct (Ort_From_QL_work_frame m n' k B tau work) as [A' [work' [Hrun Hf]]];
        [lia | lia |]
    end.
    exists A', work'. split; [exact Hrun |]. intros t Ht. apply Hf. lia.
  - cbv zeta.
    match goal with |- context [Ort_From_QR ?m ?n' ?k ?B tau work] =>
      destruct (Ort_From_QR_work_frame m n' k B tau work) as [A' [work' [Hrun Hf]]];
        [lia | lia |]
    end.
    rewrite Hrun. exists (unBlk A' 1 1), work'. split; [reflexivity |].
    intros t Ht. apply Hf. lia.
  - exists A, work. split; reflexivity.
Qed.

Lemma Ort_From_Syt_WorkSize_is_n_minus_1_witness :
  Ort_From_Syt_WorkSize 200 = 199.
Proof.
  refine (proj1 (Ort_From_Syt_WorkSize_is_n_minus_1 Half_Upper 200
                   (fun _ _ => b64 0) (fun _ => b64 0) (fun _ => b64 0) _)).
  unfold Size_bits. lia.
Defined.

(** With every [tau[i] = 0] the reflectors are the unit matrix, and so is the
    matrix that [Ort_From_Syt] generates (up to the sign of its zeros);
    [work] is not touched. *)
Example Ort_From_Syt_of_unit_reflectors :
  let A : Mat spec_float := fun i j => b64 (3 * i + j + 1) in
  forall half, half = Half_Upper \/ half = Half_Lower ->
  match Ort_From_Syt half 3 A (b64_arr [0; 0]) (b64_arr [7; 7]) with
  | Ok (Q, work') =>
      forallb (fun i =>
                 forallb (fun j => SFeqb (Q i j) (if i =? j then b64 1 else b64 0))
                   [0; 1; 2]) [0; 1; 2] = true
      /\ to_list 2 work' = [b64 7; b64 7]
  | _ => False
  end.
Proof.
  intros A half [-> | ->]; vm_compute; split; reflexivity.
Qed.

(** A reflector that is not the unit matrix: [v = (1, 1)] with [tau = 1],
    stored as [DSYTRD] leaves it for [Half::Lower], gives the reflection that
    swaps and negates the last two coordinates; one element of [work] is
    used. *)
Example Ort_From_Syt_of_one_reflector :
  let A : Mat spec_float := fun i j => if (i =? 2) && (j =? 0) then b64 1 else b64 9 in
  match Ort_From_Syt Half_Lower 3 A (b64_arr [1; 0]) (b64_arr [7; 7]) with
  | Ok (Q, work') =>
      map (fun i => to_list 3 (Row Q i)) [0; 1; 2]
      = [[b64 1; b64 0; b64 0]; [b64 0; b64 0; b64 (-1)]; [b64 0; b64 (-1); b64 0]]
      /\ to_list 2 work' = [b64 1; b64 7]
  | _ => False
  end.
Proof. vm_compute. split; reflexivity. Qed.

(** * Further properties of the modelled routines *)

(** ** Mat_RotSeq: eleven branches stay inside the block *)

(** X1.  Apart from the branch [(Side::Right, Pivot::Btm, Direct::Fwd)], every
    element that [Mat_RotSeq] reads or writes lies inside the [m] by [n]
    block, for every scalar type, every [c], [s] and [A], and all sizes in
    the range of [Index]. *)
Theorem Mat_RotSeq_other_branches_in_bounds {T : Type} `{Scalar T}
  (side : Side) (pivot : Pivot) (direct : Direct) (m n : Z) (c s : Arr T) (A : Mat T) :
  (side, pivot, direct) <> (Side_Right, Pivot_Btm, Direct_Fwd) ->
  0 <= m < 2 ^ (Size_bits - 1) ->
  0 <= n < 2 ^ (Size_bits - 1) ->
  Forall (within m n) (accesses (Mat_RotSeq side pivot direct m n c s) A).
Proof.
  intros Hbranch Hm Hn. apply Mat_RotSeq_stays_within; assumption.
Qed.

Lemma Mat_RotSeq_other_branches_in_bounds_witness :
  Forall (within 3 2)
    (accesses (Mat_RotSeq Side_Left Pivot_Var Direct_Bwd 3 2
                 (b64_arr [0; 1]) (b64_arr [1; 0]))
       (fun i j => b64 (i + j))).
Proof.
  apply (Mat_RotSeq_other_branches_in_bounds Side_Left Pivot_Var Direct_Bwd 3 2
           (b64_arr [0; 1]) (b64_arr [1; 0]) (fun i j => b64 (i + j))).
  - discriminate.
  - unfold Size_bits. lia.
  - unfold Size_bits. lia.
Defined.

(** ** Rfl_MatMul: what it writes *)

Section ReflectorFrame.
Context {T : Type} `{Scalar T}.

Lemma Rfl_lastv_range (v : Arr T) (V_cs : Z) : forall count lastv i,
  0 <= lastv -> 0 <= Rfl_lastv count lastv i v V_cs <= lastv.
Proof.
  induction count as [| c IH]; intros lastv i Hl; simpl; [lia |].
  destruct (lastv >? 0) eqn:E; simpl; [| lia].
  destruct (IsZero (v i)); [| lia].
  zbool. specialize (IH (lastv - 1) (i - V_cs)). lia.
Qed.

Lemma Mat_Rank1Upd_frame m n alpha (x : Arr T) x_s (y : Arr T) y_s (A : Mat T) i j :
  0 <= m < 2 ^ (Size_bits - 1) ->
  0 <= n < 2 ^ (Size_bits - 1) ->
  ~ within m n (i, j) ->
  Mat_Rank1Upd m n alpha x x_s y y_s A i j = A i j.
Proof.
  intros Hm Hn Hout. unfold Mat_Rank1Upd.
  destruct (IsZero alpha); [reflexivity |].
  rewrite !to_Index_small by lia.
  apply (for_up_keeps (fun A' : Mat T => A' i j = A i j)); [reflexivity |].
  intros k A1 Hk HA1. cbv zeta.
  apply (for_up_keeps (fun A' : Mat T => A' i j = A i j)); [exact HA1 |].
  intros h A2 Hh HA2. unfold mupd.
  destruct ((i =? h) && (j =? k)) eqn:E; [| exact HA2].
  apply andb_true_iff in E. destruct E as [E1 E2]. zbool. subst.
  exfalso. apply Hout. unfold within. simpl. lia.
Qed.

End ReflectorFrame.

(** X2.  For every scalar type and all sizes in the range of [Index],
    [Rfl_MatMul] changes no element of [C] outside the [m] by [n] block, and
    no element of [work] outside its first [n] (from the left) or first [m]
    (from the right) elements. *)
Theorem Rfl_MatMul_writes_block_and_scratch_only {T : Type} `{Scalar T}
  (side : Side) (m n : Z) (v : Arr T) (V_cs : Z) (tau : T) (C : Mat T) (work : Arr T) :
  0 <= m < 2 ^ (Size_bits - 1) ->
  0 <= n < 2 ^ (Size_bits - 1) ->
  (forall i j, ~ within m n (i, j) ->
     fst (Rfl_MatMul side m n v V_cs tau C work) i j = C i j)
  /\ (forall t, ~ (0 <= t < match side with Side_Left => n | Side_Right => m end) ->
        snd (Rfl_MatMul side m n v V_cs tau C work) t = work t).
Proof.
  intros Hm Hn. split.
  - intros i j Hout. unfold Rfl_MatMul.
    destruct (IsZero tau); [reflexivity |].
    cbv zeta. destruct side.
    + rewrite (to_Index_small m) by lia.
      match goal with |- context [Rfl_lastv ?c m ?i0 v V_cs] =>
        pose proof (Rfl_lastv_range v V_cs c m i0 ltac:(lia)) as Hlv;
        set (lv := Rfl_lastv c m i0 v V_cs) in *
      end.
      pose proof (Idx_LastCol_range C lv n Hn) as Hlc.
      destruct (lv >? 0); [| reflexivity].
      cbn [fst]. apply Mat_Rank1Upd_frame; try lia.
      unfold within in *. simpl in *. lia.
    + rewrite (to_Index_small n) by lia.
      match goal with |- context [Rfl_lastv ?c n ?i0 v V_cs] =>
        pose proof (Rfl_lastv_range v V_cs c n i0 ltac:(lia)) as Hlv;
        set (lv := Rfl_lastv c n i0 v V_cs) in *
      end.
      pose proof (Idx_LastRow_range C m lv Hm) as Hlc.
      destruct (lv >? 0); [| reflexivity].
      cbn [fst]. apply Mat_Rank1Upd_frame; try lia.
      unfold within in *. simpl in *. lia.
  - intros t Ht. apply Rfl_MatMul_work_frame; assumption.
Qed.

Lemma Rfl_MatMul_writes_block_and_scratch_only_witness :
  snd (Rfl_MatMul Side_Left 2 2 (b64_arr [1; 1]) 1 (b64 1)
         (fun i j => b64 (i + 2 * j)) (b64_arr [7; 7; 7])) 2 = b64 7.
Proof.
  refine (proj2 (Rfl_MatMul_writes_block_and_scratch_only Side_Left 2 2
                   (b64_arr [1; 1]) 1 (b64 1) (fun i j => b64 (i + 2 * j))
                   (b64_arr [7; 7; 7]) _ _) 2 _);
    unfold Size_bits; lia.
Defined.

(** ** Ort_From_QL and Ort_From_QR: arguments and scratch *)

(** X3.  [Ort_From_QL] throws [BadArgument] with argument index 2 exactly when
    [n > m] and with argument index 3 exactly when [n <= m] and [k > n].
    For [0 <= k <= n <= m] in the range of [Index] it returns, and [work] is
    changed in its first [n - 1] elements at most. *)
Theorem Ort_From_QL_arguments_and_scratch {T : Type} `{Scalar T}
  (m n k : Z) (A : Mat T) (tau work : Arr T) :
  (Ort_From_QL m n k A tau work = Throw (mkBadArgument "Ort_From_QL" 2) <-> m < n)
  /\ (Ort_From_QL m n k A tau work = Throw (mkBadArgument "Ort_From_QL" 3)
      <-> n <= m /\ n < k)
  /\ (0 <= k <= n -> n <= m < 2 ^ (Size_bits - 1) ->
      exists A' work',
        Ort_From_QL m n k A tau work = Ok (A', work')
        /\ forall t, ~ (0 <= t < n - 1) -> work' t = work t).
Proof.
  split; [| split].
  - unfold Ort_From_QL.
    destruct (n >? m) eqn:E1; zbool; [split; [intros _; lia | reflexivity] |].
    destruct (k >? n) eqn:E2; zbool;
      [split; [discriminate | lia] |].
    destruct (n =? 0); split; try discriminate; lia.
  - unfold Ort_From_QL.
    destruct (n >? m) eqn:E1; zbool; [split; [discriminate | lia] |].
    destruct (k >? n) eqn:E2; zbool;
      [split; [intros _; lia | reflexivity] |].
    destruct (n =? 0); split; try discriminate; lia.
  - apply Ort_From_QL_work_frame.
Qed.

Lemma Ort_From_QL_arguments_and_scratch_witness :
  exists A' work',
    Ort_From_QL 3 2 1 (fun i j => b64 (i + j)) (b64_arr [1]) (b64_arr [7; 7])
    = Ok (A', work')
    /\ work' 1 = b64 7.
Proof.
  destruct (proj2 (proj2 (Ort_From_QL_arguments_and_scratch 3 2 1
              (fun i j => b64 (i + j)) (b64_arr [1]) (b64_arr [7; 7]))))
    as [A' [work' [Hrun Hf]]].
  - lia.
  - unfold Size_bits. lia.
  - exists A', work'. split; [exact Hrun |]. apply Hf. lia.
Defined.

(** X4.  [Ort_From_QR] throws [BadArgument] with argument index 2 exactly when
    [n > m] and with argument index 3 exactly when [n <= m] and [k > n].
    For [0 <= k <= n <= m] in the range of [Index] it returns, and [work] is
    changed in its first [n - 1] elements at most. *)
Theorem Ort_From_QR_arguments_and_scratch {T : Type} `{Scalar T}
  (m n k : Z) (A : Mat T) (tau work : Arr T) :
  (Ort_From_QR m n k A tau work = Throw (mkBadArgument "Ort_From_QR" 2) <-> m < n)
  /\ (Ort_From_QR m n k A tau work = Throw (mkBadArgument "Ort_From_QR" 3)
      <-> n <= m /\ n < k)
  /\ (0 <= k <= n -> n <= m < 2 ^ (Size_bits - 1) ->
      exists A' work',
        Ort_From_QR m n k A tau work = Ok (A', work')
        /\ forall t, ~ (0 <= t < n - 1) -> work' t = work t).
Proof.
  split; [| split].
  - unfold Ort_From_QR.
    destruct (n >? m) eqn:E1; zbool; [split; [intros _; lia | reflexivity] |].
    destruct (k >? n) eqn:E2; zbool;
      [split; [discriminate | lia] |].
    destruct (n =? 0); split; try discriminate; lia.
  - unfold Ort_From_QR.
    destruct (n >? m) eqn:E1; zbool; [split; [discriminate | lia] |].
    destruct (k >? n) eqn:E2; zbool;
      [split; [intros _; lia | reflexivity] |].
    destruct (n =? 0); split; try discriminate; lia.
  - apply Ort_From_QR_work_frame.
Qed.

Lemma Ort_From_QR_arguments_and_scratch_witness :
  exists A' work',
    Ort_From_QR 3 2 2 (fun i j => b64 (i + j)) (b64_arr [1; 1]) (b64_arr [7; 7])
    = Ok (A', work')
    /\ work' 1 = b64 7.
Proof.
  destruct (proj2 (proj2 (Ort_From_QR_arguments_and_scratch 3 2 2
              (fun i j => b64 (i + j)) (b64_arr [1; 1]) (b64_arr [7; 7]))))
    as [A' [work' [Hrun Hf]]].
  - lia.
  - unfold Size_bits. lia.
  - exists A', work'. split; [exact Hrun |]. apply Hf. lia.
Defined.

(** ** BLAS in exact arithmetic *)

Section StridedLoops.
Context {T : Type}.

(** A loop that rewrites the entries [i * s] of a vector with stride
    [s <> 0]. *)
Lemma for_up_upd_strided (f : Z -> T -> T) (s : Z) count :
  s <> 0 ->
  forall i0 (y : Arr T) j,
  for_up count i0 (fun i y => upd y (i * s) (f i (y (i * s)))) y (j * s)
  = if (i0 <=? j) && (j <? i0 + Z.of_nat count) then f j (y (j * s)) else y (j * s).
Proof.
  intros Hs. induction count as [| c IH]; intros i0 y j; simpl for_up.
  - destruct (i0 <=? j) eqn:E1; destruct (j <? i0 + Z.of_nat 0) eqn:E2; simpl;
      try reflexivity. zbool. lia.
  - rewrite IH. unfold upd.
    assert (Hinj : (j * s =? i0 * s) = (j =? i0)).
    { destruct (j =? i0) eqn:Ej; zbool.
      - subst j. apply Z.eqb_refl.
      - apply Z.eqb_neq. intros Heq. apply Ej.
        apply (Z.mul_cancel_r j i0 s Hs). exact Heq. }
    rewrite Hinj.
    destruct (j =? i0) eqn:Ej;
      destruct (i0 + 1 <=? j) eqn:E1; destruct (j <? i0 + 1 + Z.of_nat c) eqn:E2;
      destruct (i0 <=? j) eqn:E3; destruct (j <? i0 + Z.of_nat (S c)) eqn:E4;
      simpl; try reflexivity; zbool; try lia.
    all: subst j; rewrite ?Z.eqb_refl; reflexivity.
Qed.

(** Positions that are no [i * s] with [i] in the range of the loop keep
    their value. *)
Lemma for_up_upd_elsewhere (g : Z -> Arr T -> T) (s : Z) count :
  forall i0 (y : Arr T) p,
  (forall i, i0 <= i < i0 + Z.of_nat count -> p <> i * s) ->
  for_up count i0 (fun i y => upd y (i * s) (g i y)) y p = y p.
Proof.
  induction count as [| c IH]; intros i0 y p Hp; simpl for_up; [reflexivity |].
  rewrite IH by (intros i Hi; apply Hp; lia).
  unfold upd. destruct (p =? i0 * s) eqn:E; [| reflexivity].
  zbool. exfalso. apply (Hp i0); [lia | exact E].
Qed.

End StridedLoops.

Section Level1Exact.
Import Rank1Spec.
Local Open Scope R_scope.

Lemma Rsum_scal (c : R) f count : forall i,
  Rsum count i (fun k => c * f k) = c * Rsum count i f.
Proof.
  induction count as [| n IH]; intros i; simpl; [ring |]. rewrite IH. ring.
Qed.

Lemma Rsum_plus f g count : forall i,
  Rsum count i (fun k => f k + g k) = Rsum count i f + Rsum count i g.
Proof.
  induction count as [| n IH]; intros i; simpl; [ring |]. rewrite IH. ring.
Qed.

Lemma in_range_nat (n t : Z) :
  ((0 <=? t) && (t <? 0 + Z.of_nat (Z.to_nat n)))%Z = ((0 <=? t) && (t <? n))%Z.
Proof.
  destruct (0 <=? t)%Z eqn:E1; cbn [andb]; [| reflexivity].
  destruct (t <? 0 + Z.of_nat (Z.to_nat n))%Z eqn:E2; destruct (t <? n)%Z eqn:E3;
    try reflexivity; zbool; lia.
Qed.

Lemma Vec_Zero_strided (n : Z) (x : Arr R) (s : Z) t :
  s <> 0%Z ->
  Vec_Zero n x s (t * s)%Z = if ((0 <=? t) && (t <? n))%Z then 0 else x (t * s)%Z.
Proof.
  intros Hs. unfold Vec_Zero.
  rewrite (for_up_upd_strided (fun _ _ => zero) s _ Hs). rewrite in_range_nat.
  reflexivity.
Qed.

Lemma Vec_Scale_strided (n : Z) (a : R) (x : Arr R) (s : Z) t :
  s <> 0%Z ->
  Vec_Scale n a x s (t * s)%Z
  = if ((0 <=? t) && (t <? n))%Z then x (t * s)%Z * a else x (t * s)%Z.
Proof.
  intros Hs. unfold Vec_Scale.
  destruct (IsZero a) eqn:Ez.
  - apply IsZero_R_true in Ez. subst a.
    assert (Hu : IsUnit (0 : R) = false).
    { unfold IsUnit, unit. simpl. apply R_eqb_false. lra. }
    rewrite Hu. change (negb false) with true. cbv iota.
    rewrite (for_up_upd_strided (fun _ v => v * 0) s _ Hs). rewrite in_range_nat.
    rewrite Vec_Zero_strided by exact Hs.
    destruct ((0 <=? t) && (t <? n))%Z; ring.
  - destruct (IsUnit a) eqn:Eu.
    + apply IsUnit_R_true in Eu. subst a. change (negb true) with false. cbv iota.
      destruct ((0 <=? t) && (t <? n))%Z; ring.
    + change (negb false) with true. cbv iota.
      rewrite (for_up_upd_strided (fun _ v => v * a) s _ Hs). rewrite in_range_nat.
      reflexivity.
Qed.

Lemma Vec_AXPlusY_strided (n : Z) (a : R) (x : Arr R) (x_s : Z) (y : Arr R) (s : Z) t :
  s <> 0%Z ->
  Vec_AXPlusY n a x x_s y s (t * s)%Z
  = if ((0 <=? t) && (t <? n))%Z
    then y (t * s)%Z + a * x (t * x_s)%Z else y (t * s)%Z.
Proof.
  intros Hs. unfold Vec_AXPlusY.
  rewrite (for_up_upd_strided (fun i v => v + a * x (i * x_s)%Z) s _ Hs).
  rewrite in_range_nat. reflexivity.
Qed.

Lemma Vec_Scale_elsewhere (n : Z) (a : R) (x : Arr R) (s : Z) p :
  (forall i, (0 <= i < n)%Z -> p <> (i * s)%Z) -> Vec_Scale n a x s p = x p.
Proof.
  intros Hp. unfold Vec_Scale.
  assert (Hz : (if IsZero a then Vec_Zero n x s else x) p = x p).
  { destruct (IsZero a); [| reflexivity]. unfold Vec_Zero.
    apply (for_up_upd_elsewhere (fun _ _ => zero)). intros i Hi. apply Hp. lia. }
  destruct (negb (IsUnit a)); [| exact Hz].
  rewrite (for_up_upd_elsewhere (fun i (v : Arr R) => v (i * s)%Z * a));
    [exact Hz |]. intros i Hi. apply Hp. lia.
Qed.

Lemma Vec_AXPlusY_elsewhere (n : Z) (a : R) (x : Arr R) (x_s : Z) (y : Arr R) (s : Z) p :
  (forall i, (0 <= i < n)%Z -> p <> (i * s)%Z) -> Vec_AXPlusY n a x x_s y s p = y p.
Proof.
  intros Hp. unfold Vec_AXPlusY.
  apply (for_up_upd_elsewhere (fun i (v : Arr R) => v (i * s)%Z + a * x (i * x_s)%Z)).
  intros i Hi. apply Hp. lia.
Qed.

(** Adding [g k] times the vector [h k], for [k = 0 .. count-1], to a vector
    of [len] elements and stride [s]. *)
Lemma accumulate_strided (len : Z) (g : Z -> R) (h : Z -> Arr R) (h_s s : Z)
  (y0 : Arr R) count t :
  s <> 0%Z ->
  for_up count 0%Z (fun k y => Vec_AXPlusY len (g k) (h k) h_s y s) y0 (t * s)%Z
  = if ((0 <=? t) && (t <? len))%Z
    then y0 (t * s)%Z + Rsum count 0%Z (fun k => g k * h k (t * h_s)%Z)
    else y0 (t * s)%Z.
Proof.
  intros Hs.
  pose proof (for_up_ind
    (fun k (y : Arr R) =>
       y (t * s)%Z = if ((0 <=? t) && (t <? len))%Z
             then y0 (t * s)%Z + Rsum (Z.to_nat k) 0%Z (fun k => g k * h k (t * h_s)%Z)
             else y0 (t * s)%Z)
    (fun k y => Vec_AXPlusY len (g k) (h k) h_s y s) count 0%Z y0) as Hind.
  simpl in Hind. rewrite Nat2Z.id in Hind. apply Hind.
  - destruct ((0 <=? t) && (t <? len))%Z; simpl; ring.
  - intros k y Hk Hy. rewrite Vec_AXPlusY_strided by exact Hs. rewrite Hy.
    destruct ((0 <=? t) && (t <? len))%Z; [| reflexivity].
    replace (Z.to_nat (k + 1)) with (S (Z.to_nat k)) by lia.
    rewrite Rsum_snoc. simpl. rewrite Z2Nat.id by lia. ring.
Qed.

Lemma accumulate_elsewhere (len : Z) (g : Z -> R) (h : Z -> Arr R) (h_s s : Z)
  (y0 : Arr R) count p :
  (forall i, (0 <= i < len)%Z -> p <> (i * s)%Z) ->
  for_up count 0%Z (fun k y => Vec_AXPlusY len (g k) (h k) h_s y s) y0 p = y0 p.
Proof.
  intros Hp.
  apply (for_up_keeps (fun y : Arr R => y p = y0 p)); [reflexivity |].
  intros k y _ Hy. rewrite Vec_AXPlusY_elsewhere by exact Hp. exact Hy.
Qed.

End Level1Exact.

(** X5.  [Mat_VecMul] in exact arithmetic, for a matrix of [m] by [n]
    elements in the range of [Index], a vector [x] of any stride and a
    vector [y] of any stride but zero: element [t] of [y] becomes
    [alpha * sum_j A(t,j)*x[j] + beta * y[t]] (not transposed, [t < m]) or
    [alpha * sum_i A(i,t)*x[i] + beta * y[t]] (transposed or conjugate
    transposed, [t < n]); every other position of [y] keeps its value. *)
Theorem Mat_VecMul_computes_the_product (trnsp : Trnsp) (m n : Z) (alpha : R)
  (A : Mat R) (x : Arr R) (x_s : Z) (beta : R) (y : Arr R) (y_s : Z) :
  0 <= m < 2 ^ (Size_bits - 1) ->
  0 <= n < 2 ^ (Size_bits - 1) ->
  y_s <> 0 ->
  let len := match trnsp with Trnsp_No => m | _ => n end in
  let dot t :=
    match trnsp with
    | Trnsp_No => Rank1Spec.Rsum (Z.to_nat n) 0 (fun j => (A t j * x (j * x_s)%Z)%R)
    | _ => Rank1Spec.Rsum (Z.to_nat m) 0 (fun i => (A i t * x (i * x_s)%Z)%R)
    end in
  (forall t, 0 <= t < len ->
     Mat_VecMul trnsp m n alpha A x x_s beta y y_s (t * y_s)
     = (alpha * dot t + beta * y (t * y_s)%Z)%R)
  /\ (forall p, (forall t, 0 <= t < len -> p <> t * y_s) ->
        Mat_VecMul trnsp m n alpha A x x_s beta y y_s p = y p).
Proof.
  intros Hm Hn Hs len dot. split.
  - intros t Ht.
    assert (Hin : forall l, l = len -> ((0 <=? t) && (t <? l)) = true).
    { intros l ->. apply andb_true_iff. split; [apply Z.leb_le | apply Z.ltb_lt]; lia. }
    unfold Mat_VecMul. destruct trnsp; subst len dot; cbv beta iota zeta.
    + destruct (IsZero alpha) eqn:Ea.
      * apply IsZero_R_true in Ea. subst alpha.
        rewrite Vec_Scale_strided by exact Hs. rewrite Hin by reflexivity.
        change (@zero R R_Scalar) with 0%R. ring.
      * rewrite to_Index_small by lia.
        rewrite (accumulate_strided m (fun j => (alpha * x (j * x_s)%Z)%R)
                   (fun j => Col A j) 1 y_s) by exact Hs.
        rewrite Hin by reflexivity.
        rewrite Vec_Scale_strided by exact Hs. rewrite Hin by reflexivity.
        rewrite <- (Rsum_scal alpha). unfold Col.
        rewrite (Rsum_ext (fun k => (alpha * x (k * x_s)%Z * A (t * 1)%Z k)%R)
                   (fun k => (alpha * (A t k * x (k * x_s)%Z))%R)).
        -- change mul with Rmult. ring.
        -- intros k _. rewrite Z.mul_1_r. ring.
    + destruct (IsZero alpha) eqn:Ea.
      * apply IsZero_R_true in Ea. subst alpha.
        rewrite Vec_Scale_strided by exact Hs. rewrite Hin by reflexivity.
        change (@zero R R_Scalar) with 0%R. ring.
      * rewrite to_Index_small by lia.
        rewrite (accumulate_strided n (fun i => (alpha * x (i * x_s)%Z)%R)
                   (fun i => Row A i) 1 y_s) by exact Hs.
        rewrite Hin by reflexivity.
        rewrite Vec_Scale_strided by exact Hs. rewrite Hin by reflexivity.
        rewrite <- (Rsum_scal alpha). unfold Row.
        rewrite (Rsum_ext (fun k => (alpha * x (k * x_s)%Z * A k (t * 1)%Z)%R)
                   (fun k => (alpha * (A k t * x (k * x_s)%Z))%R)).
        -- change mul with Rmult. ring.
        -- intros k _. rewrite Z.mul_1_r. ring.
    + destruct (IsZero alpha) eqn:Ea.
      * apply IsZero_R_true in Ea. subst alpha.
        rewrite Vec_Scale_strided by exact Hs. rewrite Hin by reflexivity.
        change (@zero R R_Scalar) with 0%R. ring.
      * rewrite to_Index_small by lia.
        rewrite (accumulate_strided n (fun i => (alpha * x (i * x_s)%Z)%R)
                   (fun i => Row A i) 1 y_s) by exact Hs.
        rewrite Hin by reflexivity.
        rewrite Vec_Scale_strided by exact Hs. rewrite Hin by reflexivity.
        rewrite <- (Rsum_scal alpha). unfold Row.
        rewrite (Rsum_ext (fun k => (alpha * x (k * x_s)%Z * A k (t * 1)%Z)%R)
                   (fun k => (alpha * (A k t * x (k * x_s)%Z))%R)).
        -- change mul with Rmult. ring.
        -- intros k _. rewrite Z.mul_1_r. ring.
  - intros p Hp. unfold Mat_VecMul. destruct trnsp; subst len; cbv beta iota zeta.
    + destruct (IsZero alpha); [apply Vec_Scale_elsewhere; exact Hp |].
      rewrite accumulate_elsewhere by exact Hp. apply Vec_Scale_elsewhere. exact Hp.
    + destruct (IsZero alpha); [apply Vec_Scale_elsewhere; exact Hp |].
      rewrite accumulate_elsewhere by exact Hp. apply Vec_Scale_elsewhere. exact Hp.
    + destruct (IsZero alpha); [apply Vec_Scale_elsewhere; exact Hp |].
      unfold Vec_AConjXPlusY, Conj.
      change (for_up (Z.to_nat (to_Index m)) 0
                (fun i y0 => Vec_AXPlusY n (alpha [*] x (i * x_s)) (Row A i) 1 y0 y_s)
                (Vec_Scale n beta y y_s) p = y p).
      rewrite accumulate_elsewhere by exact Hp. apply Vec_Scale_elsewhere. exact Hp.
Qed.

Lemma Mat_VecMul_computes_the_product_witness :
  Mat_VecMul Trnsp_No 1 1 2%R (fun _ _ => 3%R) (fun _ => 5%R) 1 7%R (fun _ => 11%R) 1
    (0 * 1)
  = (2 * Rank1Spec.Rsum (Z.to_nat 1) 0 (fun j => 3 * 5) + 7 * 11)%R.
Proof.
  refine (proj1 (Mat_VecMul_computes_the_product Trnsp_No 1 1 2%R (fun _ _ => 3%R)
                   (fun _ => 5%R) 1 7%R (fun _ => 11%R) 1 _ _ _) 0 _);
    unfold Size_bits; lia.
Defined.

(** X6.  [Mat_Rank1Upd] in exact arithmetic, for [m] and [n] in the range of
    [Index] and vectors of any stride: inside the [m] by [n] block
    [A(i,j)] becomes [A(i,j) + alpha*x[i]*y[j]], outside the block nothing
    changes. *)
Theorem Mat_Rank1Upd_adds_the_outer_product (m n : Z) (alpha : R) (x : Arr R)
  (x_s : Z) (y : Arr R) (y_s : Z) (A : Mat R) (i j : Z) :
  0 <= m < 2 ^ (Size_bits - 1) ->
  0 <= n < 2 ^ (Size_bits - 1) ->
  Mat_Rank1Upd m n alpha x x_s y y_s A i j
  = if Rank1Spec.in_block m n i j
    then (A i j + alpha * x (i * x_s)%Z * y (j * y_s)%Z)%R
    else A i j.
Proof.
  intros Hm Hn. rewrite Mat_Rank1Upd_R by assumption.
  destruct (Rank1Spec.in_block m n i j); [ring | reflexivity].
Qed.

Lemma Mat_Rank1Upd_adds_the_outer_product_witness :
  Mat_Rank1Upd 2 2 2%R (fun _ => 3%R) 1 (fun _ => 5%R) 1 (fun _ _ => 1%R) 1 1
  = (if Rank1Spec.in_block 2 2 1 1 then 1 + 2 * 3 * 5 else 1)%R.
Proof.
  apply (Mat_Rank1Upd_adds_the_outer_product 2 2 2%R (fun _ => 3%R) 1 (fun _ => 5%R) 1
           (fun _ _ => 1%R) 1 1); unfold Size_bits; lia.
Defined.

(** ** Idx_LastCol and Idx_LastRow *)

Section LastNonZero.

Lemma LastCol_hit_true (A : Mat R) (j : Z) : forall count i,
  LastCol_hit count i A j = true ->
  exists i', i <= i' < i + Z.of_nat count /\ A i' j <> 0%R.
Proof.
  induction count as [| c IH]; intros i Hf; [discriminate |].
  simpl in Hf. destruct (R_eqb 0 (A i j)) eqn:E; simpl in Hf.
  - destruct (IH (i + 1) Hf) as [i' [Hi' Hne]]. exists i'. split; [lia | exact Hne].
  - exists i. split; [lia |]. apply R_eqb_false in E. intros E0. apply E. congruence.
Qed.

Lemma LastCol_scan_found (A : Mat R) (m : Z) : forall count j,
  0 <= m < 2 ^ (Size_bits - 1) ->
  0 <= LastCol_scan count j m A ->
  exists i, 0 <= i < m /\ A i (LastCol_scan count j m A) <> 0%R.
Proof.
  induction count as [| c IH]; intros j Hm Hr; cbn [LastCol_scan] in *; [lia |].
  rewrite to_Index_small in Hr by lia. rewrite to_Index_small by lia.
  destruct (LastCol_hit (Z.to_nat m) 0 A j) eqn:E.
  - destruct (LastCol_hit_true A j _ _ E) as [i [Hi Hne]]. exists i. split; [lia | exact Hne].
  - apply IH; assumption.
Qed.

Lemma LastRow_up_found (A : Mat R) (j : Z) : forall count i,
  Z.of_nat count = i + 1 ->
  0 <= LastRow_up count i A j ->
  A (LastRow_up count i A j) j <> 0%R.
Proof.
  induction count as [| c IH]; intros i Hc Hr; cbn [LastRow_up] in *; [lia |].
  change (of_int 0 [==] A (Z.max i 0) j) with (R_eqb 0 (A (Z.max i 0) j)) in *.
  destruct (R_eqb 0 (A (Z.max i 0) j) && (i >=? 0)) eqn:E.
  - apply IH; [lia | exact Hr].
  - apply andb_false_iff in E. destruct E as [E | E].
    + apply R_eqb_false in E. rewrite Z.max_l in E by lia. congruence.
    + zbool. lia.
Qed.

End LastNonZero.

(** X7.  [Idx_LastCol] on a block of [m >= 1] rows and [n] columns (sizes in
    the range of [Index], exact arithmetic) returns the index of the last
    column that holds a non-zero element, or [-1] when there is none: every
    column after the returned one is zero, and the returned column, if any,
    is not. *)
Theorem Idx_LastCol_is_the_last_nonzero_column (A : Mat R) (m n : Z) :
  1 <= m < 2 ^ (Size_bits - 1) ->
  0 <= n < 2 ^ (Size_bits - 1) ->
  -1 <= Idx_LastCol m n A < n
  /\ (forall i j, 0 <= i < m -> Idx_LastCol m n A < j < n -> A i j = 0%R)
  /\ (0 <= Idx_LastCol m n A ->
      exists i, 0 <= i < m /\ A i (Idx_LastCol m n A) <> 0%R).
Proof.
  intros Hm Hn.
  destruct (Idx_LastCol_spec A m n ltac:(lia) Hn) as [Hr Hz].
  split; [lia |]. split; [intros i j Hi Hj; apply Hz; lia |].
  unfold Idx_LastCol in *.
  destruct (n =? 0) eqn:En.
  { zbool. subst n. change (to_Index (Size_wrap (0 - 1))) with (-1). lia. }
  zbool.
  destruct (negb (IsZero (A 0 (n - 1))) || negb (IsZero (A (m - 1) (n - 1)))) eqn:Eq.
  - rewrite to_Index_small by lia. intros _.
    apply orb_true_iff in Eq. destruct Eq as [Eq | Eq];
      apply negb_true_iff in Eq; apply IsZero_R_false in Eq.
    + exists 0. split; [lia | exact Eq].
    + exists (m - 1). split; [lia | exact Eq].
  - rewrite to_Index_small by lia. intros Hpos.
    apply LastCol_scan_found; [lia | exact Hpos].
Qed.

Lemma Idx_LastCol_is_the_last_nonzero_column_witness :
  -1 <= Idx_LastCol 2 3 (fun i j => if j =? 1 then 1%R else 0%R) < 3.
Proof.
  refine (proj1 (Idx_LastCol_is_the_last_nonzero_column
                   (fun i j => if j =? 1 then 1%R else 0%R) 2 3 _ _));
    unfold Size_bits; lia.
Defined.

(** X8.  [Idx_LastRow] on a block of [m] rows and [n >= 1] columns (sizes in
    the range of [Index], exact arithmetic) returns the index of the last
    row that holds a non-zero element, or [-1] when there is none. *)
Theorem Idx_LastRow_is_the_last_nonzero_row (A : Mat R) (m n : Z) :
  0 <= m < 2 ^ (Size_bits - 1) ->
  1 <= n < 2 ^ (Size_bits - 1) ->
  -1 <= Idx_LastRow m n A < m
  /\ (forall i j, Idx_LastRow m n A < i < m -> 0 <= j < n -> A i j = 0%R)
  /\ (0 <= Idx_LastRow m n A ->
      exists j, 0 <= j < n /\ A (Idx_LastRow m n A) j <> 0%R).
Proof.
  intros Hm Hn.
  destruct (Idx_LastRow_spec A m n Hm ltac:(lia)) as [Hr Hz].
  split; [lia |]. split; [intros i j Hi Hj; apply Hz; lia |].
  unfold Idx_LastRow in *.
  destruct (m =? 0) eqn:Em.
  { zbool. subst m. change (to_Index (Size_wrap (0 - 1))) with (-1). lia. }
  zbool.
  destruct ((of_int 0 [!=] A (m - 1) 0) || (of_int 0 [!=] A (m - 1) (n - 1))) eqn:Eq.
  - rewrite to_Index_small by lia. intros _.
    apply orb_true_iff in Eq. destruct Eq as [Eq | Eq];
      apply negb_true_iff in Eq; apply R_eqb_false in Eq.
    + exists 0. split; [lia |]. intros E0. apply Eq. simpl. congruence.
    + exists (n - 1). split; [lia |]. intros E0. apply Eq. simpl. congruence.
  - rewrite !to_Index_small by lia. clear Hr Hz.
    apply (for_up_ind
      (fun k row =>
         0 <= row -> exists j, 0 <= j < n /\ A row j <> 0%R)
      (fun j row =>
         Z.max row (LastRow_up (Z.to_nat (m - 1 + 1)) (m - 1) A j))
      (Z.to_nat n) 0 (-1)).
    + lia.
    + intros k row Hk Hrow Hpos.
      destruct (Z_le_gt_dec (LastRow_up (Z.to_nat (m - 1 + 1)) (m - 1) A k) row)
        as [Hle | Hgt].
      * rewrite Z.max_l in * by lia.
        destruct (Hrow Hpos) as [j [Hj Hne]]. exists j. split; [lia | exact Hne].
      * rewrite Z.max_r in * by lia. exists k. split; [lia |].
        apply LastRow_up_found; [lia | exact Hpos].
Qed.

Lemma Idx_LastRow_is_the_last_nonzero_row_witness :
  -1 <= Idx_LastRow 3 2 (fun i j => if i =? 1 then 1%R else 0%R) < 3.
Proof.
  refine (proj1 (Idx_LastRow_is_the_last_nonzero_row
                   (fun i j => if i =? 1 then 1%R else 0%R) 3 2 _ _));
    unfold Size_bits; lia.
Defined.

(** ** Norms and sums of squares in exact arithmetic *)

Section SumsOfSquares.
Import Rank1Spec.
Local Open Scope R_scope.

Lemma Rabs_sq (a : R) : Rabs a * Rabs a = a * a.
Proof.
  unfold Rabs. destruct (Rcase_abs a); ring.
Qed.

Lemma Rsum_nonneg f count : forall i,
  (forall k, 0 <= f k) -> 0 <= Rsum count i f.
Proof.
  induction count as [| c IH]; intros i Hf; simpl; [lra |].
  specialize (IH (i + 1)%Z Hf). specialize (Hf i). lra.
Qed.

Lemma sqrt_scaled (scale ssq : R) :
  0 <= scale -> 0 <= ssq -> scale * sqrt ssq = sqrt (scale * scale * ssq).
Proof.
  intros Hs Hq. rewrite sqrt_mult by nra.
  replace (scale * scale) with (Rsqr scale) by reflexivity.
  rewrite sqrt_Rsqr by exact Hs. reflexivity.
Qed.

Lemma Rsum_stride_1 (x : Arr R) count : forall i0,
  Rsum count i0 (fun i => x (i * 1)%Z * x (i * 1)%Z)
  = Rsum count i0 (fun i => x i * x i).
Proof.
  intros i0. apply Rsum_ext. intros k _. rewrite Z.mul_1_r. reflexivity.
Qed.

(** The scaled accumulation of [Vec_Norm2]: [scale^2 * ssq] is the sum of the
    squares seen so far. *)
Lemma Vec_Norm2_loop_sum (x : Arr R) (x_s : Z) (count : nat) :
  let '(scale, ssq, norm) :=
    for_up count 0%Z (Vec_Norm2_step x x_s) (zero, unit, zero) in
  0 <= scale /\ 1 <= ssq
  /\ scale * scale * ssq = Rsum count 0%Z (fun i => x (i * x_s)%Z * x (i * x_s)%Z)
  /\ ((0 < count)%nat -> norm = scale * sqrt ssq).
Proof.
  pose proof (for_up_ind
    (fun k (st : R * R * R) =>
       let '(scale, ssq, norm) := st in
       0 <= scale /\ 1 <= ssq
       /\ scale * scale * ssq
          = Rsum (Z.to_nat k) 0%Z (fun i => x (i * x_s)%Z * x (i * x_s)%Z)
       /\ ((0 < k)%Z -> norm = scale * sqrt ssq))
    (Vec_Norm2_step x x_s) count 0%Z (zero, unit, zero)) as Hind.
  simpl in Hind.
  match type of Hind with
  | ?A -> ?B -> _ => assert (H0 : A); [| assert (Hstep : B)]
  end.
  - unfold zero, unit. simpl. repeat split; try lra; intros; lia.
  - intros k [[scale ssq] norm] Hk [Hsc [Hssq [Hsum _]]].
    replace (Z.to_nat (k + 1)) with (S (Z.to_nat k)) by lia.
    rewrite Rsum_snoc. rewrite <- Hsum. simpl Z.add. rewrite Z2Nat.id by lia.
    unfold Vec_Norm2_step.
    pose proof (Rabs_sq (x (k * x_s)%Z)) as Hsq.
    destruct (negb (IsZero (Abs (x (k * x_s)%Z)))) eqn:Ez.
    + apply negb_true_iff in Ez. apply IsZero_R_false in Ez. simpl in Ez.
      assert (Hpos : 0 < Rabs (x (k * x_s)%Z)).
      { pose proof (Rabs_pos (x (k * x_s)%Z)). lra. }
      simpl. destruct (R_leb (Rabs (x (k * x_s)%Z)) scale) eqn:El.
      * apply R_leb_true in El. unfold Sqr. simpl.
        assert (Hq : 0 <= Rabs (x (k * x_s)%Z) / scale * (Rabs (x (k * x_s)%Z) / scale))
          by apply Rle_0_sqr.
        repeat split; try lra.
        rewrite <- Hsq. field. lra.
      * apply R_leb_false in El. unfold Sqr, unit. simpl.
        assert (Hq : 0 <= scale / Rabs (x (k * x_s)%Z) * (scale / Rabs (x (k * x_s)%Z)))
          by apply Rle_0_sqr.
        repeat split; try lra; try nra.
        rewrite <- Hsq. field. lra.
    + apply negb_false_iff in Ez. apply IsZero_R_true in Ez. simpl in Ez.
      rewrite Ez in Hsq. repeat split; try lra.
  - specialize (Hind H0 Hstep).
    change (@zero R R_Scalar) with 0. change (@unit R R_Scalar) with 1.
    destruct (for_up count 0%Z (Vec_Norm2_step x x_s) (0, 1, 0))
      as [[scale ssq] norm].
    rewrite Nat2Z.id in Hind.
    destruct Hind as [Hsc [Hssq [Hsum Hn]]]. repeat split; try assumption.
    intros Hc. apply Hn. lia.
Qed.

(** Up to the largest [Index], [Vec_SmSqr] makes [n] passes; beyond it the
    loop bound [(Index)n] is negative and no pass is made. *)
Lemma Vec_SmSqr_in_range {T : Type} `{Scalar T}
  (n : Z) (x : Arr T) (x_s : Z) (scale sumsq : T) :
  (0 <= n < 2 ^ (Size_bits - 1))%Z ->
  Vec_SmSqr n x x_s scale sumsq
  = for_up (Z.to_nat n) 0%Z
      (fun i '(scale, sumsq) =>
         let absxi := Abs (x (i * x_s)%Z) in
         if (0 <? IntSignOrZero absxi)%Z || IsUndefined absxi
         then if scale [<] absxi
              then (absxi, unit [+] sumsq [*] Sqr (scale [/] absxi))
              else (scale, sumsq [+] Sqr (absxi [/] scale))
         else (scale, sumsq))
      (scale, sumsq).
Proof.
  intros Hn. unfold Vec_SmSqr. rewrite to_Index_small by lia.
  destruct (0 =? n)%Z eqn:E0; [| reflexivity].
  apply Z.eqb_eq in E0. subst n. reflexivity.
Qed.

Lemma Vec_SmSqr_beyond_Index {T : Type} `{Scalar T}
  (n : Z) (x : Arr T) (x_s : Z) (scale sumsq : T) :
  (2 ^ (Size_bits - 1) <= n < 2 ^ Size_bits)%Z ->
  Vec_SmSqr n x x_s scale sumsq = (scale, sumsq).
Proof.
  intros Hn. unfold Vec_SmSqr.
  destruct (0 =? n)%Z; [reflexivity |].
  assert (Hneg : (to_Index n < 0)%Z).
  { unfold to_Index.
    replace (n + 2 ^ (Size_bits - 1))%Z
      with (n - 2 ^ (Size_bits - 1) + 1 * 2 ^ Size_bits)%Z
      by (replace (2 ^ Size_bits)%Z with (2 * 2 ^ (Size_bits - 1))%Z by reflexivity; lia).
    rewrite Z.mod_add by (unfold Size_bits; lia).
    rewrite Z.mod_small
      by (replace (2 ^ Size_bits)%Z with (2 * 2 ^ (Size_bits - 1))%Z in * by reflexivity; lia).
    replace (2 ^ Size_bits)%Z with (2 * 2 ^ (Size_bits - 1))%Z in Hn by reflexivity.
    lia. }
  replace (Z.to_nat (to_Index n)) with O by lia. reflexivity.
Qed.

(** The loop of [Vec_SmSqr]. *)
Lemma Vec_SmSqr_loop (x : Arr R) (x_s : Z) (scale sumsq : R) (count : nat) :
  0 <= scale ->
  let '(scl, smsq) :=
    for_up count 0%Z
      (fun i '(scale, sumsq) =>
         let absxi := Abs (x (i * x_s)%Z) in
         if (0 <? IntSignOrZero absxi)%Z || IsUndefined absxi
         then if scale [<] absxi
              then (absxi, unit [+] sumsq [*] Sqr (scale [/] absxi))
              else (scale, sumsq [+] Sqr (absxi [/] scale))
         else (scale, sumsq))
      (scale, sumsq) in
  scl * scl * smsq
  = scale * scale * sumsq + Rsum count 0%Z (fun i => x (i * x_s)%Z * x (i * x_s)%Z)
  /\ scale <= scl
  /\ (forall i, (0 <= i < Z.of_nat count)%Z -> Rabs (x (i * x_s)%Z) <= scl)
  /\ (scl = scale \/ exists i, (0 <= i < Z.of_nat count)%Z /\ scl = Rabs (x (i * x_s)%Z))
  /\ (0 <= sumsq -> 0 <= smsq).
Proof.
  intros Hscale.
  match goal with |- context [for_up count 0%Z ?body _] => set (step := body) end.
  pose proof (for_up_ind
    (fun k (st : R * R) =>
       let '(scl, smsq) := st in
       scl * scl * smsq
       = scale * scale * sumsq
         + Rsum (Z.to_nat k) 0%Z (fun i => x (i * x_s)%Z * x (i * x_s)%Z)
       /\ scale <= scl
       /\ (forall i, (0 <= i < k)%Z -> Rabs (x (i * x_s)%Z) <= scl)
       /\ (scl = scale \/ exists i, (0 <= i < k)%Z /\ scl = Rabs (x (i * x_s)%Z))
       /\ (0 <= sumsq -> 0 <= smsq))
    step count 0%Z (scale, sumsq)) as Hind.
  simpl in Hind.
  match type of Hind with
  | ?A -> ?B -> _ => assert (H0 : A); [| assert (Hstep : B)]
  end.
  - repeat split; try lra; try (intros; lia).
  - intros k [scl smsq] Hk [Hsum [Hle [Hmax [Hwho Hq]]]].
    replace (Z.to_nat (k + 1)) with (S (Z.to_nat k)) by lia.
    rewrite Rsum_snoc. simpl Z.add. rewrite Z2Nat.id by lia.
    unfold step. cbv zeta.
    pose proof (Rabs_sq (x (k * x_s)%Z)) as Hsq.
    pose proof (Rabs_pos (x (k * x_s)%Z)) as Hnn.
    rewrite <- Hsq.
    assert (Hwho' : forall r, (r = scl \/ r = Rabs (x (k * x_s)%Z)) ->
              r = scale \/ exists i, (0 <= i < k + 1)%Z /\ r = Rabs (x (i * x_s)%Z)).
    { intros r [-> | ->].
      - destruct Hwho as [E | [i [Hi E]]]; [left; exact E |].
        right. exists i. split; [lia | exact E].
      - right. exists k. split; [lia | reflexivity]. }
    assert (Hmax' : forall r, scl <= r -> Rabs (x (k * x_s)%Z) <= r ->
              forall i, (0 <= i < k + 1)%Z -> Rabs (x (i * x_s)%Z) <= r).
    { intros r H1 H2 i Hi. destruct (Z.eq_dec i k) as [-> | Hne]; [exact H2 |].
      specialize (Hmax i ltac:(lia)). lra. }
    change (Abs (x (k * x_s)%Z)) with (Rabs (x (k * x_s)%Z)).
    set (a := Rabs (x (k * x_s)%Z)) in *.
    change (@IsUndefined R R_Scalar a) with false.
    rewrite orb_false_r. unfold IntSignOrZero.
    change (a [>] of_int 0) with (R_ltb 0 a). change (a [<] of_int 0) with (R_ltb a 0).
    destruct (R_ltb 0 a) eqn:Epos.
    + apply R_ltb_true in Epos. change (0 <? 1)%Z with true. cbv iota.
      change (scl [<] a) with (R_ltb scl a).
      destruct (R_ltb scl a) eqn:Elt.
      * apply R_ltb_true in Elt. unfold Sqr, unit. simpl.
        split; [| split; [| split; [| split]]].
        -- rewrite <- Rplus_assoc, <- Hsum. field. lra.
        -- lra.
        -- apply Hmax'; lra.
        -- apply Hwho'. right. reflexivity.
        -- intros Hs. specialize (Hq Hs).
           assert (0 <= scl / a * (scl / a)) by apply Rle_0_sqr.
           nra.
      * apply R_ltb_false in Elt. unfold Sqr. simpl.
        split; [| split; [| split; [| split]]].
        -- rewrite <- Rplus_assoc, <- Hsum. field. lra.
        -- lra.
        -- apply Hmax'; lra.
        -- apply Hwho'. left. reflexivity.
        -- intros Hs. specialize (Hq Hs).
           assert (0 <= a / scl * (a / scl)) by apply Rle_0_sqr.
           lra.
    + apply R_ltb_false in Epos.
      assert (Hz : a = 0) by lra.
      replace (if R_ltb a 0 then (-1)%Z else 0%Z) with 0%Z
        by (destruct (R_ltb a 0) eqn:E; [apply R_ltb_true in E; lra | reflexivity]).
      change (0 <? 0)%Z with false. cbv iota.
      split; [| split; [| split; [| split]]].
      * rewrite Hz. lra.
      * lra.
      * apply Hmax'; lra.
      * apply Hwho'. left. reflexivity.
      * exact Hq.
  - specialize (Hind H0 Hstep). rewrite Nat2Z.id in Hind. exact Hind.
Qed.

End SumsOfSquares.

Lemma Vec_Norm2_R_euclid (n : Z) (x : Arr R) (x_s : Z) :
  Vec_Norm2 n x x_s
  = sqrt (Rank1Spec.Rsum (Z.to_nat n) 0 (fun i => (x (i * x_s)%Z * x (i * x_s)%Z)%R)).
Proof.
  unfold Vec_Norm2.
  destruct (n =? 0) eqn:E0.
  { zbool. subst n. simpl. symmetry. apply sqrt_0. }
  destruct (n =? 1) eqn:E1.
  { zbool. subst n. simpl. rewrite Rplus_0_r. rewrite <- Rabs_sq.
    symmetry. apply sqrt_Rsqr. apply Rabs_pos. }
  zbool.
  pose proof (Vec_Norm2_loop_sum x x_s (Z.to_nat n)) as Hl.
  destruct (Z_lt_le_dec n 0) as [Hneg | Hpos].
  { replace (Z.to_nat n) with O by lia. simpl. symmetry. apply sqrt_0. }
  destruct (for_up (Z.to_nat n) 0 (Vec_Norm2_step x x_s) (zero, unit, zero))
    as [[scale ssq] norm].
  destruct Hl as [Hsc [Hssq [Hsum Hn]]].
  rewrite Hn by lia. rewrite <- Hsum. apply sqrt_scaled; lra.
Qed.


(** X9.  [Vec_Norm2] in exact arithmetic is the Euclidean norm: the square
    root of the sum of the squares of the [n] components [x[i*x_s]], for
    every [n] and every stride. *)
Theorem Vec_Norm2_is_the_euclidean_norm (n : Z) (x : Arr R) (x_s : Z) :
  Vec_Norm2 n x x_s
  = sqrt (Rank1Spec.Rsum (Z.to_nat n) 0 (fun i => (x (i * x_s)%Z * x (i * x_s)%Z)%R)).
Proof.
  apply Vec_Norm2_R_euclid.
Qed.

(** X10.  [Vec_SmSqr] in exact arithmetic, for [n] within the range of
    [Index] (the loop runs up to [(Index)n]) and started with a scale that is
    not negative: the returned pair [(scl, smsq)] satisfies
    [scl^2 * smsq = scale^2 * sumsq + x[0]^2 + ... + x[n-1]^2], and [scl] is
    the largest of [scale] and the [|x[i]|]. *)
Theorem Vec_SmSqr_keeps_the_scaled_sum (n : Z) (x : Arr R) (x_s : Z) (scale sumsq : R) :
  0 <= n < 2 ^ (Size_bits - 1) ->
  (0 <= scale)%R ->
  let '(scl, smsq) := Vec_SmSqr n x x_s scale sumsq in
  (scl * scl * smsq
   = scale * scale * sumsq
     + Rank1Spec.Rsum (Z.to_nat n) 0 (fun i => x (i * x_s)%Z * x (i * x_s)%Z))%R
  /\ (scale <= scl)%R
  /\ (forall i, 0 <= i < n -> (Rabs (x (i * x_s)%Z) <= scl)%R)
  /\ (scl = scale \/ exists i, 0 <= i < n /\ scl = Rabs (x (i * x_s))).
Proof.
  intros Hn Hscale. rewrite Vec_SmSqr_in_range by exact Hn.
  pose proof (Vec_SmSqr_loop x x_s scale sumsq (Z.to_nat n) Hscale) as Hl.
  match goal with |- context [for_up ?c ?i ?b ?s] => destruct (for_up c i b s) as [scl smsq] end.
  destruct Hl as [Hsum [Hle [Hmax [Hwho _]]]].
  split; [exact Hsum |]. split; [exact Hle |]. split.
  - intros i Hi. apply Hmax. lia.
  - destruct Hwho as [E | [i [Hi E]]]; [left; exact E |].
    right. exists i. split; [lia | exact E].
Qed.

Lemma Vec_SmSqr_keeps_the_scaled_sum_witness :
  let '(scl, smsq) := Vec_SmSqr 2 (fun i => if i =? 0 then 3%R else 4%R) 1 0%R 1%R in
  (0 <= scl)%R.
Proof.
  pose proof (Vec_SmSqr_keeps_the_scaled_sum 2 (fun i => if i =? 0 then 3%R else 4%R)
                1 0%R 1%R ltac:(unfold Size_bits; lia) ltac:(lra)) as Hs.
  destruct (Vec_SmSqr 2 (fun i => if i =? 0 then 3%R else 4%R) 1 0%R 1%R) as [scl smsq].
  destruct Hs as [_ [Hle _]]. exact Hle.
Defined.

Section TridiagonalNorm.
Local Open Scope R_scope.

Lemma norm_update_R (anorm sum : R) :
  (if (anorm [<] sum) || IsUndefined sum then sum else anorm) = Rmax anorm sum.
Proof.
  change (IsUndefined sum) with false. rewrite orb_false_r.
  change (anorm [<] sum) with (R_ltb anorm sum).
  destruct (R_ltb anorm sum) eqn:E.
  - apply R_ltb_true in E. rewrite Rmax_right by lra. reflexivity.
  - apply R_ltb_false in E. rewrite Rmax_left by lra. reflexivity.
Qed.

Lemma Syt_Norm_Max_R (n : Z) (d e : Arr R) :
  (1 <= n < 2 ^ (Size_bits - 1))%Z ->
  let r := Syt_Norm NormType_Max n d e in
  (forall i, (0 <= i < n)%Z -> Rabs (d i) <= r)
  /\ (forall i, (0 <= i < n - 1)%Z -> Rabs (e i) <= r)
  /\ ((exists i, (0 <= i < n)%Z /\ r = Rabs (d i))
      \/ (exists i, (0 <= i < n - 1)%Z /\ r = Rabs (e i))).
Proof.
  intros Hn r. subst r. unfold Syt_Norm.
  destruct (n =? 0)%Z eqn:E0; [zbool; lia |].
  rewrite to_Index_small by lia.
  pose proof (for_up_ind
    (fun k (a : R) =>
       Rabs (d (n - 1)%Z) <= a
       /\ (forall i, (0 <= i < k)%Z -> Rabs (d i) <= a /\ Rabs (e i) <= a)
       /\ (a = Rabs (d (n - 1)%Z)
           \/ exists i, (0 <= i < k)%Z /\ (a = Rabs (d i) \/ a = Rabs (e i))))
    (fun i anorm =>
       let sum := Abs (d i) in
       let anorm := if (anorm [<] sum) || IsUndefined sum then sum else anorm in
       let sum := Abs (e i) in
       if (anorm [<] sum) || IsUndefined sum then sum else anorm)
    (Z.to_nat (n - 1)) 0%Z (Abs (d (n - 1)%Z))) as Hind.
  simpl in Hind. rewrite Z2Nat.id in Hind by lia.
  destruct Hind as [Hlast [Hall Hwho]].
  - split; [lra |]. split; [intros; lia | left; reflexivity].
  - intros k a Hk [Hlast [Hall Hwho]].
    rewrite !norm_update_R.
    set (a1 := Rmax a (Rabs (d k))). set (a2 := Rmax a1 (Rabs (e k))).
    pose proof (Rmax_l a (Rabs (d k))). pose proof (Rmax_r a (Rabs (d k))).
    pose proof (Rmax_l a1 (Rabs (e k))). pose proof (Rmax_r a1 (Rabs (e k))).
    fold a1 in H, H0. fold a2 in H1, H2.
    split; [lra |]. split.
    + intros i Hi. destruct (Z.eq_dec i k) as [-> | Hne]; [lra |].
      specialize (Hall i ltac:(lia)). lra.
    + assert (Hc : a2 = a \/ a2 = Rabs (d k) \/ a2 = Rabs (e k)).
      { unfold a2, a1. unfold Rmax. 
        destruct (Rle_dec _ _); destruct (Rle_dec _ _); auto. }
      destruct Hc as [-> | Hc].
      * destruct Hwho as [E | [i [Hi E]]]; [left; exact E |].
        right. exists i. split; [lia | exact E].
      * right. exists k. split; [lia | exact Hc].
  - split; [| split].
    + intros i Hi. destruct (Z.eq_dec i (n - 1)) as [-> | Hne]; [exact Hlast |].
      apply Hall. lia.
    + intros i Hi. apply Hall. lia.
    + destruct Hwho as [E | [i [Hi [E | E]]]].
      * left. exists (n - 1)%Z. split; [lia | exact E].
      * left. exists i. split; [lia | exact E].
      * right. exists i. split; [lia | exact E].
Qed.

Lemma Syt_Norm_Frob_R (n : Z) (d e : Arr R) :
  (1 <= n < 2 ^ (Size_bits - 1))%Z ->
  Syt_Norm NormType_Frob n d e
  = sqrt (Rank1Spec.Rsum (Z.to_nat n) 0 (fun i => d i * d i)
          + 2 * Rank1Spec.Rsum (Z.to_nat (n - 1)) 0 (fun i => e i * e i)).
Proof.
  intros Hn. unfold Syt_Norm.
  destruct (n =? 0)%Z eqn:E0; [zbool; lia |].
  assert (Hfirst : forall s q,
            (if (1 <? n)%Z
             then let '(scale, sum) := Vec_SmSqr (n - 1) e 1 zero zero in
                  (scale, sum [*] of_int 2)
             else (zero, zero)) = (s, q) ->
            0 <= s /\ 0 <= q
            /\ s * s * q = 2 * Rank1Spec.Rsum (Z.to_nat (n - 1)) 0 (fun i => e i * e i)).
  { intros s q. destruct (1 <? n)%Z eqn:E1.
    - rewrite Vec_SmSqr_in_range by (zbool; lia).
      pose proof (Vec_SmSqr_loop e 1 0 0 (Z.to_nat (n - 1)) ltac:(lra)) as Hl.
      change (@zero R R_Scalar) with 0.
      match goal with |- context [for_up ?c ?i ?b ?st] =>
        destruct (for_up c i b st) as [scl smsq] end.
      destruct Hl as [Hsum [Hle [_ [_ Hq]]]].
      intros Heq. injection Heq as <- <-. simpl.
      split; [lra |]. split; [specialize (Hq ltac:(lra)); lra |].
      rewrite (Rsum_stride_1 e) in Hsum. lra.
    - intros Heq. injection Heq as <- <-. zbool.
      replace (Z.to_nat (n - 1)) with O by lia. simpl.
      change (@zero R R_Scalar) with 0. repeat split; lra. }
  destruct (if (1 <? n)%Z
            then let '(scale, sum) := Vec_SmSqr (n - 1) e 1 zero zero in
                 (scale, sum [*] of_int 2)
            else (zero, zero)) as [s q] eqn:Efirst.
  destruct (Hfirst s q eq_refl) as [Hs [Hq Hsq]].
  rewrite Vec_SmSqr_in_range by lia.
  pose proof (Vec_SmSqr_loop d 1 s q (Z.to_nat n) Hs) as Hl.
  match goal with |- context [for_up ?c ?i ?b ?st] =>
    destruct (for_up c i b st) as [scl smsq] end.
  destruct Hl as [Hsum [Hle [_ [_ Hq']]]].
  change (scl [*] Sqrt smsq) with (scl * sqrt smsq).
  rewrite sqrt_scaled; [| lra | apply Hq'; exact Hq].
  f_equal. rewrite <- Hsq.
  rewrite (Rsum_stride_1 d) in Hsum. rewrite Hsum. lra.
Qed.

End TridiagonalNorm.

Section TridiagonalNormOne.
Local Open Scope R_scope.

Lemma Syt_Norm_One_R (n : Z) (d e : Arr R) :
  (1 <= n < 2 ^ (Size_bits - 1))%Z ->
  let r := Syt_Norm NormType_One n d e in
  (forall i, (0 <= i < n)%Z -> Syt_colsum n d e i <= r)
  /\ (exists i, (0 <= i < n)%Z /\ r = Syt_colsum n d e i).
Proof.
  intros Hn r. subst r. unfold Syt_Norm.
  destruct (n =? 0)%Z eqn:E0; [zbool; lia |].
  destruct (n =? 1)%Z eqn:E1.
  { zbool. subst n. split.
    - intros i Hi. replace i with 0%Z by lia. unfold Syt_colsum. simpl. lra.
    - exists 0%Z. split; [lia |]. unfold Syt_colsum. simpl. lra. }
  zbool. cbv zeta. rewrite norm_update_R. rewrite to_Index_small by lia.
  assert (Hc0 : Syt_colsum n d e 0 = Rabs (d 0%Z) + Rabs (e 0%Z)).
  { unfold Syt_colsum. change (0 <? 0)%Z with false.
    replace (0 <? n - 1)%Z with true by (symmetry; apply Z.ltb_lt; lia). lra. }
  assert (Hcl : Syt_colsum n d e (n - 1) = Rabs (e (n - 2)%Z) + Rabs (d (n - 1)%Z)).
  { unfold Syt_colsum.
    replace (0 <? n - 1)%Z with true by (symmetry; apply Z.ltb_lt; lia).
    rewrite Z.ltb_irrefl. replace (n - 1 - 1)%Z with (n - 2)%Z by lia. lra. }
  assert (Hci : forall i, (1 <= i < n - 1)%Z ->
            Syt_colsum n d e i = Rabs (d i) + Rabs (e i) + Rabs (e (i - 1)%Z)).
  { intros i Hi. unfold Syt_colsum.
    replace (0 <? i)%Z with true by (symmetry; apply Z.ltb_lt; lia).
    replace (i <? n - 1)%Z with true by (symmetry; apply Z.ltb_lt; lia). lra. }
  change (Abs (d 0%Z) [+] Abs (e 0%Z)) with (Rabs (d 0%Z) + Rabs (e 0%Z)).
  change (Abs (e (n - 2)%Z) [+] Abs (d (n - 1)%Z))
    with (Rabs (e (n - 2)%Z) + Rabs (d (n - 1)%Z)).
  rewrite <- Hc0, <- Hcl.
  set (a0 := Rmax (Syt_colsum n d e 0) (Syt_colsum n d e (n - 1))).
  pose proof (for_up_ind
    (fun k (a : R) =>
       Syt_colsum n d e 0 <= a /\ Syt_colsum n d e (n - 1) <= a
       /\ (forall i, (1 <= i < k)%Z -> Syt_colsum n d e i <= a)
       /\ (a = Syt_colsum n d e 0 \/ a = Syt_colsum n d e (n - 1)
           \/ exists i, (1 <= i < k)%Z /\ a = Syt_colsum n d e i))
    (fun i anorm =>
       let sum := Abs (d i) [+] Abs (e i) [+] Abs (e (i - 1)%Z) in
       if (anorm [<] sum) || IsUndefined sum then sum else anorm)
    (Z.to_nat (n - 1 - 1)) 1%Z a0) as Hind.
  cbv beta in Hind. rewrite Z2Nat.id in Hind by lia.
  replace (1 + (n - 1 - 1))%Z with (n - 1)%Z in Hind by lia.
  destruct Hind as [H0 [Hl [Hall Hwho]]].
  - unfold a0. split; [apply Rmax_l |]. split; [apply Rmax_r |].
    split; [intros; lia |].
    unfold Rmax. destruct (Rle_dec _ _); auto.
  - intros k a Hk [H0 [Hl [Hall Hwho]]].
    rewrite norm_update_R.
    change (Abs (d k) [+] Abs (e k) [+] Abs (e (k - 1)%Z))
      with (Rabs (d k) + Rabs (e k) + Rabs (e (k - 1)%Z)).
    rewrite <- Hci by lia.
    pose proof (Rmax_l a (Syt_colsum n d e k)) as Hm1.
    pose proof (Rmax_r a (Syt_colsum n d e k)) as Hm2.
    split; [lra |]. split; [lra |]. split.
    + intros i Hi. destruct (Z.eq_dec i k) as [-> | Hne]; [lra |].
      specialize (Hall i ltac:(lia)). lra.
    + assert (Hc : Rmax a (Syt_colsum n d e k) = a
                   \/ Rmax a (Syt_colsum n d e k) = Syt_colsum n d e k).
      { unfold Rmax. destruct (Rle_dec _ _); auto. }
      destruct Hc as [-> | ->].
      * destruct Hwho as [E | [E | [i [Hi E]]]]; auto.
        right. right. exists i. split; [lia | exact E].
      * right. right. exists k. split; [lia | reflexivity].
  - split.
    + intros i Hi.
      destruct (Z.eq_dec i 0) as [-> | Hne0]; [exact H0 |].
      destruct (Z.eq_dec i (n - 1)) as [-> | Hne1]; [exact Hl |].
      apply Hall. lia.
    + destruct Hwho as [E | [E | [i [Hi E]]]].
      * exists 0%Z. split; [lia | exact E].
      * exists (n - 1)%Z. split; [lia | exact E].
      * exists i. split; [lia | exact E].
Qed.

End TridiagonalNormOne.

(** X11.  [Syt_Norm] in exact arithmetic, for [1 <= n] in the range of
    [Index]: [NormType::Max] gives the largest [|d[i]|], [|e[i]|];
    [NormType::One] and [NormType::Inf] give the largest column sum
    [|e[i-1]| + |d[i]| + |e[i]|]; [NormType::Frob] gives the square root of
    [sum d[i]^2 + 2 * sum e[i]^2].  For [n = 0] every norm is zero. *)
Theorem Syt_Norm_computes_the_norms (normType : NormType) (n : Z) (d e : Arr R) :
  Syt_Norm normType 0 d e = 0%R
  /\ (1 <= n < 2 ^ (Size_bits - 1) ->
      let r := Syt_Norm normType n d e in
      match normType with
      | NormType_Max =>
          (forall i, 0 <= i < n -> (Rabs (d i) <= r)%R)
          /\ (forall i, 0 <= i < n - 1 -> (Rabs (e i) <= r)%R)
          /\ ((exists i, 0 <= i < n /\ r = Rabs (d i))
              \/ (exists i, 0 <= i < n - 1 /\ r = Rabs (e i)))
      | NormType_One | NormType_Inf =>
          (forall i, 0 <= i < n -> (Syt_colsum n d e i <= r)%R)
          /\ (exists i, 0 <= i < n /\ r = Syt_colsum n d e i)
      | NormType_Frob =>
          r = sqrt (Rank1Spec.Rsum (Z.to_nat n) 0 (fun i => d i * d i)
                    + 2 * Rank1Spec.Rsum (Z.to_nat (n - 1)) 0 (fun i => e i * e i))%R
      end).
Proof.
  split; [reflexivity |].
  intros Hn r. subst r. destruct normType.
  - apply Syt_Norm_Max_R. exact Hn.
  - apply Syt_Norm_One_R. exact Hn.
  - apply (Syt_Norm_One_R n d e Hn).
  - apply Syt_Norm_Frob_R. exact Hn.
Qed.

Lemma Syt_Norm_computes_the_norms_witness :
  Syt_Norm NormType_Frob 2 (fun _ => 1%R) (fun _ => 2%R)
  = sqrt (Rank1Spec.Rsum (Z.to_nat 2) 0 (fun i => 1 * 1)
          + 2 * Rank1Spec.Rsum (Z.to_nat (2 - 1)) 0 (fun i => 2 * 2))%R.
Proof.
  refine (proj2 (Syt_Norm_computes_the_norms NormType_Frob 2
                   (fun _ => 1%R) (fun _ => 2%R)) _).
  unfold Size_bits. lia.
Defined.

(** X12.  [Aux_CombSsq2] in exact arithmetic, on two scaled sums with scales
    that are not negative.  When the scale of [v2] is the larger one, the
    result stands for [v1_scale^2*v1_sumsq + v2_scale^2*v2_sumsq], as the
    routine's comment says.  When the scale of [v1] is at least that of
    [v2] and not zero, the new sum is formed from [v2[1]] alone and the
    result stands for [(v1_scale^2 + v2_scale^2)*v2_sumsq]: the sum of
    squares that [v1] held is not in it. *)
Theorem Aux_CombSsq2_combines (s1 q1 s2 q2 : R) :
  (0 <= s1)%R -> (0 <= s2)%R ->
  let '(s, q) := Aux_CombSsq2 (s1, q1) (s2, q2) in
  (s1 < s2 -> s = s2 /\ s * s * q = s1 * s1 * q1 + s2 * s2 * q2)%R
  /\ (s2 <= s1 -> s1 <> 0 -> s = s1 /\ s * s * q = (s1 * s1 + s2 * s2) * q2)%R
  /\ (s1 = 0 -> s2 = 0 -> s = 0 /\ q = q1 + q2)%R.
Proof.
  intros H1 H2. unfold Aux_CombSsq2.
  change (s1 [>=] s2) with (R_leb s2 s1).
  change (of_int 0 [!=] s1) with (negb (R_eqb 0 s1)).
  destruct (R_leb s2 s1) eqn:El.
  - apply R_leb_true in El. destruct (R_eqb 0 s1) eqn:Ez; simpl negb; cbv iota.
    + apply R_eqb_true in Ez. subst s1.
      split; [intros; lra |]. split; [intros _ Hne; exfalso; apply Hne; reflexivity |].
      intros _ _. split; [reflexivity |]. simpl. reflexivity.
    + apply R_eqb_false in Ez.
      split; [intros; lra |]. split; [| intros E; exfalso; apply Ez; congruence].
      intros _ _. split; [reflexivity |]. unfold Sqr. simpl. field. congruence.
  - apply R_leb_false in El.
    split; [| split; [intros; lra | intros; lra]].
    intros _. split; [reflexivity |]. unfold Sqr. simpl. field. lra.
Qed.

Lemma Aux_CombSsq2_combines_witness :
  let '(s, q) := Aux_CombSsq2 (2%R, 3%R) (1%R, 5%R) in
  (s = 2 /\ s * s * q = (2 * 2 + 1 * 1) * 5)%R.
Proof.
  pose proof (Aux_CombSsq2_combines 2 3 1 5 ltac:(lra) ltac:(lra)) as Hc.
  destruct (Aux_CombSsq2 (2%R, 3%R) (1%R, 5%R)) as [s q].
  destruct Hc as [_ [Hc _]]. apply Hc; lra.
Defined.

(** ** The 2 by 2 symmetric eigenproblem in exact arithmetic *)

Section Eig2Exact.
Local Open Scope R_scope.

Lemma Eig2_rt_R (adf ab : R) :
  0 <= adf -> 0 <= ab ->
  0 <= Eig2_rt adf ab /\ Eig2_rt adf ab * Eig2_rt adf ab = adf * adf + ab * ab.
Proof.
  intros Ha Hb. unfold Eig2_rt.
  change (adf [>] ab) with (R_ltb ab adf). change (adf [<] ab) with (R_ltb adf ab).
  assert (Hh : forall big small, 0 < big -> 
            0 <= big * R_hypot 1 (small / big)
            /\ big * R_hypot 1 (small / big) * (big * R_hypot 1 (small / big))
               = big * big + small * small).
  { intros big small Hbig. unfold R_hypot.
    assert (Hq : 0 <= 1 * 1 + small / big * (small / big)).
    { assert (0 <= small / big * (small / big)) by apply Rle_0_sqr. lra. }
    pose proof (sqrt_pos (1 * 1 + small / big * (small / big))) as Hp.
    split; [nra |].
    replace (big * sqrt (1 * 1 + small / big * (small / big))
             * (big * sqrt (1 * 1 + small / big * (small / big))))
      with (big * big * (sqrt (1 * 1 + small / big * (small / big))
                         * sqrt (1 * 1 + small / big * (small / big)))) by ring.
    rewrite sqrt_sqrt by exact Hq. field. lra. }
  destruct (R_ltb ab adf) eqn:E1.
  - apply R_ltb_true in E1. destruct (Hh adf ab ltac:(lra)) as [Hp Hs].
    split; [exact Hp |]. exact Hs.
  - apply R_ltb_false in E1. destruct (R_ltb adf ab) eqn:E2.
    + apply R_ltb_true in E2. destruct (Hh ab adf ltac:(lra)) as [Hp Hs].
      split; [exact Hp |]. etransitivity; [exact Hs | ring].
    + apply R_ltb_false in E2. assert (adf = ab) by lra. subst adf.
      change (Sqrt (of_int 2)) with (sqrt 2). change mul with Rmult.
      pose proof (sqrt_pos 2) as Hp.
      split; [nra |].
      replace (ab * sqrt 2 * (ab * sqrt 2)) with (ab * ab * (sqrt 2 * sqrt 2)) by ring.
      rewrite sqrt_sqrt by lra. ring.
Qed.

Lemma IntSignOrZero_R (x : R) :
  (IntSignOrZero x = 1%Z /\ 0 < x) \/ (IntSignOrZero x = (-1)%Z /\ x < 0)
  \/ (IntSignOrZero x = 0%Z /\ x = 0).
Proof.
  unfold IntSignOrZero.
  change (x [>] of_int 0) with (R_ltb 0 x). change (x [<] of_int 0) with (R_ltb x 0).
  destruct (R_ltb 0 x) eqn:E1.
  - apply R_ltb_true in E1. left. split; [reflexivity | exact E1].
  - apply R_ltb_false in E1. destruct (R_ltb x 0) eqn:E2.
    + apply R_ltb_true in E2. right. left. split; [reflexivity | exact E2].
    + apply R_ltb_false in E2. right. right. split; [reflexivity | lra].
Qed.

Lemma acmx_acmn_R (a c : R) :
  let '(acmx, acmn) := if Abs a [>] Abs c then (a, c) else (c, a) in
  acmx * acmn = a * c.
Proof.
  destruct (Abs a [>] Abs c); ring.
Qed.

Lemma Aux_Eig2_R (a b c : R) :
  let '(rt1, rt2) := Aux_Eig2 a b c in
  rt1 + rt2 = a + c /\ rt1 * rt2 = a * c - b * b /\ Rabs rt2 <= Rabs rt1.
Proof.
  unfold Aux_Eig2. cbv zeta.
  pose proof (acmx_acmn_R a c) as Hac.
  destruct (if Abs a [>] Abs c then (a, c) else (c, a)) as [acmx acmn].
  change (Abs (a [-] c)) with (Rabs (a - c)).
  change (Abs (b [+] b)) with (Rabs (b + b)).
  destruct (Eig2_rt_R (Rabs (a - c)) (Rabs (b + b)) (Rabs_pos _) (Rabs_pos _))
    as [Hrt0 Hrt2].
  rewrite !Rabs_sq in Hrt2.
  set (rt := Eig2_rt (Rabs (a - c)) (Rabs (b + b))) in *.
  change (a [+] c) with (a + c).
  change (@_oneHalf R R_Scalar) with (1 / 2).
  destruct (IntSignOrZero_R (a + c)) as [[-> Hs] | [[-> Hs] | [-> Hs]]].
  - change (1 / 2 [*] (a + c [+] rt)) with (1 / 2 * (a + c + rt)).
    set (rt1 := 1 / 2 * (a + c + rt)).
    assert (Hpos : 0 < rt1) by (unfold rt1; lra).
    change ((acmx [/] rt1) [*] acmn [-] (b [/] rt1) [*] b)
      with (acmx / rt1 * acmn - b / rt1 * b).
    assert (Hr2 : acmx / rt1 * acmn - b / rt1 * b = 1 / 2 * (a + c - rt)).
    { replace (acmx / rt1 * acmn - b / rt1 * b) with ((acmx * acmn - b * b) / rt1)
        by (field; lra).
      rewrite Hac. apply Rmult_eq_reg_r with rt1; [| lra].
      unfold Rdiv at 1. rewrite Rmult_assoc, Rinv_l by lra. unfold rt1. nra. }
    rewrite Hr2. split; [unfold rt1; lra |]. split; [unfold rt1; nra |].
    unfold rt1. rewrite (Rabs_right (1 / 2 * (a + c + rt))) by lra.
    apply Rabs_le. lra.
  - change (1 / 2 [*] (a + c [-] rt)) with (1 / 2 * (a + c - rt)).
    set (rt1 := 1 / 2 * (a + c - rt)).
    assert (Hneg : rt1 < 0) by (unfold rt1; lra).
    change ((acmx [/] rt1) [*] acmn [-] (b [/] rt1) [*] b)
      with (acmx / rt1 * acmn - b / rt1 * b).
    assert (Hr2 : acmx / rt1 * acmn - b / rt1 * b = 1 / 2 * (a + c + rt)).
    { replace (acmx / rt1 * acmn - b / rt1 * b) with ((acmx * acmn - b * b) / rt1)
        by (field; lra).
      rewrite Hac. apply Rmult_eq_reg_r with rt1; [| lra].
      unfold Rdiv at 1. rewrite Rmult_assoc, Rinv_l by lra. unfold rt1. nra. }
    rewrite Hr2. split; [unfold rt1; lra |]. split; [unfold rt1; nra |].
    unfold rt1. rewrite (Rabs_left (1 / 2 * (a + c - rt))) by lra.
    apply Rabs_le. lra.
  - change (1 / 2 [*] rt) with (1 / 2 * rt).
    change (neg (1 / 2) [*] rt) with (- (1 / 2) * rt).
    split; [lra |]. split; [nra |].
    rewrite (Rabs_right (1 / 2 * rt)) by lra. apply Rabs_le. lra.
Qed.

End Eig2Exact.

(** X13.  [Aux_Eig2] in exact arithmetic returns the two eigenvalues of the
    symmetric matrix [[a, b], [b, c]]: their sum is the trace [a + c], their
    product the determinant [a*c - b^2], and [rt1] is the one of larger
    absolute value. *)
Theorem Aux_Eig2_returns_the_eigenvalues (a b c : R) :
  let '(rt1, rt2) := Aux_Eig2 a b c in
  (rt1 + rt2 = a + c /\ rt1 * rt2 = a * c - b * b /\ Rabs rt2 <= Rabs rt1)%R.
Proof.
  apply Aux_Eig2_R.
Qed.

(** ** Aux_PlnRot2 in exact arithmetic *)

Section PlaneRotation.
Local Open Scope R_scope.

Lemma Max_R (a b : R) : Max a b = Rmax a b.
Proof.
  unfold Max. change (a [>] b) with (R_ltb b a).
  destruct (R_ltb b a) eqn:E.
  - apply R_ltb_true in E. rewrite Rmax_left by lra. reflexivity.
  - apply R_ltb_false in E. rewrite Rmax_right by lra. reflexivity.
Qed.

Lemma R_maxValue_gt_1 : 1 < R_maxValue.
Proof.
  unfold R_maxValue.
  assert (H52 : 0 < / 2 ^ 52 <= / 2).
  { split; [apply Rinv_0_lt_compat; apply pow_lt; lra |].
    apply Rinv_le_contravar; [lra |].
    replace 2 with (2 ^ 1) at 1 by ring. apply Rle_pow; [lra | lia]. }
  assert (H1023 : 1 <= 2 ^ 1023) by (apply pow_R1_Rle; lra).
  nra.
Qed.

Lemma hypot_rotation (f g : R) :
  f <> 0 \/ g <> 0 ->
  let r := R_hypot f g in
  0 < r /\ f / r * (f / r) + g / r * (g / r) = 1
  /\ f / r * f + g / r * g = r /\ - (g / r) * f + f / r * g = 0.
Proof.
  intros Hne r. unfold r, R_hypot.
  assert (Hq : 0 < f * f + g * g).
  { destruct Hne as [Hf | Hg].
    - assert (0 < f * f) by (apply Rsqr_pos_lt; exact Hf).
      assert (0 <= g * g) by apply Rle_0_sqr. lra.
    - assert (0 < g * g) by (apply Rsqr_pos_lt; exact Hg).
      assert (0 <= f * f) by apply Rle_0_sqr. lra. }
  pose proof (sqrt_lt_R0 _ Hq) as Hr.
  pose proof (sqrt_sqrt (f * f + g * g) ltac:(lra)) as Hs.
  set (h := sqrt (f * f + g * g)) in *.
  split; [exact Hr |]. split; [| split].
  - replace (f / h * (f / h) + g / h * (g / h)) with ((f * f + g * g) / (h * h))
      by (field; lra).
    rewrite Hs. field. lra.
  - replace (f / h * f + g / h * g) with ((f * f + g * g) / h) by (field; lra).
    rewrite <- Hs. field. lra.
  - field. lra.
Qed.

(** Once the scale has dropped to [safmax] or below, the first rescaling loop
    (whose exit test is [safmax >= scale]) goes on for ever. *)
Lemma PlnRot2_rescale_down_never_ends : forall fuel count (f1 g1 : R),
  Rmax (Rabs f1) (Rabs g1) * R_minValue <= R_maxValue ->
  PlnRot2_rescale fuel R_minValue (fun scale => R_maxValue [>=] scale) count f1 g1
  = OutOfFuel.
Proof.
  pose proof R_minValue_pos as Hs0. pose proof R_minValue_lt_1 as Hs1.
  induction fuel as [| fuel IH]; intros count f1 g1 Hb; [reflexivity |].
  cbn [PlnRot2_rescale]. cbv zeta.
  change (f1 [*] R_minValue) with (f1 * R_minValue).
  change (g1 [*] R_minValue) with (g1 * R_minValue).
  rewrite Max_R.
  change (Abs (f1 * R_minValue)) with (Rabs (f1 * R_minValue)).
  change (Abs (g1 * R_minValue)) with (Rabs (g1 * R_minValue)).
  assert (Hscale : Rmax (Rabs (f1 * R_minValue)) (Rabs (g1 * R_minValue))
                   = Rmax (Rabs f1) (Rabs g1) * R_minValue).
  { rewrite !Rabs_mult. rewrite (Rabs_right R_minValue) by lra.
    rewrite (Rmult_comm (Rabs f1)), (Rmult_comm (Rabs g1)).
    rewrite RmaxRmult by lra. ring. }
  rewrite Hscale.
  change (R_maxValue [>=] Rmax (Rabs f1) (Rabs g1) * R_minValue)
    with (R_leb (Rmax (Rabs f1) (Rabs g1) * R_minValue) R_maxValue).
  rewrite (proj2 (R_leb_true _ _) Hb).
  apply IH. rewrite Hscale.
  assert (0 <= Rmax (Rabs f1) (Rabs g1)).
  { pose proof (Rabs_pos f1). pose proof (Rmax_l (Rabs f1) (Rabs g1)). lra. }
  set (X := Rmax (Rabs f1) (Rabs g1)) in *.
  assert (0 <= X * R_minValue) by (apply Rmult_le_pos; lra).
  apply Rle_trans with (X * R_minValue); [| exact Hb].
  rewrite <- (Rmult_1_r (X * R_minValue)) at 2.
  apply Rmult_le_compat_l; lra.
Qed.

End PlaneRotation.

(** X14.  [Aux_PlnRot2] in exact arithmetic.  When [g = 0], or [f = 0], or
    the larger of [|f|], [|g|] lies strictly between [minValue] and
    [maxValue], the routine returns, whatever the fuel, a rotation: [cs^2 +
    sn^2 = 1], [cs*f + sn*g = r] and [-sn*f + cs*g = 0]; and [cs] is
    positive when [|f| > |g|]. *)
Theorem Aux_PlnRot2_generates_the_rotation (fuel : nat) (f g : R) :
  g = 0%R \/ f = 0%R
  \/ (R_minValue < Rmax (Rabs f) (Rabs g) < R_maxValue)%R ->
  exists cs sn r,
    Aux_PlnRot2 fuel f g = Ok (cs, sn, r)
    /\ (cs * cs + sn * sn = 1)%R
    /\ (cs * f + sn * g = r)%R
    /\ (- sn * f + cs * g = 0)%R
    /\ (Rabs g < Rabs f -> 0 < cs)%R.
Proof.
  intros Hcase. unfold Aux_PlnRot2.
  destruct (IsZero g) eqn:Eg.
  { apply IsZero_R_true in Eg. subst g. exists 1%R, 0%R, f.
    split; [reflexivity |]. repeat split; try lra. }
  apply IsZero_R_false in Eg.
  destruct (IsZero f) eqn:Ef.
  { apply IsZero_R_true in Ef. subst f. exists 0%R, 1%R, g.
    split; [reflexivity |]. repeat split; try lra.
    rewrite Rabs_R0. intros Hlt. pose proof (Rabs_pos g). lra. }
  apply IsZero_R_false in Ef.
  destruct Hcase as [E | [E | Hrange]]; [contradiction | contradiction |].
  cbv zeta. rewrite Max_R.
  change (Abs f) with (Rabs f). change (Abs g) with (Rabs g).
  change (Rmax (Rabs f) (Rabs g) [>=] maxValue)
    with (R_leb R_maxValue (Rmax (Rabs f) (Rabs g))).
  rewrite (proj2 (R_leb_false _ _)) by lra.
  change (Rmax (Rabs f) (Rabs g) [<=] minValue)
    with (R_leb (Rmax (Rabs f) (Rabs g)) R_minValue).
  rewrite (proj2 (R_leb_false _ _)) by lra.
  cbn [bind]. change (Hypot f g) with (R_hypot f g).
  destruct (hypot_rotation f g (or_introl Ef)) as [Hr [Hunit [Hrot Hzero]]].
  set (r := R_hypot f g) in *.
  change (f [/] r) with (f / r)%R. change (g [/] r) with (g / r)%R.
  change (Rabs g [<] Rabs f) with (R_ltb (Rabs g) (Rabs f)).
  assert (Hcs : (f / r <> 0)%R).
  { unfold Rdiv. intros E. apply Rmult_integral in E. destruct E as [E | E];
      [contradiction |]. pose proof (Rinv_0_lt_compat r Hr). lra. }
  destruct (R_ltb (Rabs g) (Rabs f)) eqn:Elt.
  - destruct (IntSignOrZero_R (f / r)%R) as [[-> Hs] | [[-> Hs] | [-> Hs]]].
    + change (1 <? 0) with false. cbn [andb].
      exists (f / r)%R, (g / r)%R, r. split; [reflexivity |].
      repeat split; try assumption. intros _. exact Hs.
    + change (-1 <? 0) with true. cbn [andb].
      change (neg (f / r)%R) with (- (f / r))%R.
      change (neg (g / r)%R) with (- (g / r))%R.
      change (neg r) with (- r)%R.
      exists (- (f / r))%R, (- (g / r))%R, (- r)%R. split; [reflexivity |].
      repeat split; try lra.
    + contradiction.
  - cbn [andb]. apply R_ltb_false in Elt.
    exists (f / r)%R, (g / r)%R, r. split; [reflexivity |].
    repeat split; try assumption. intros Hlt. lra.
Qed.

Lemma Aux_PlnRot2_generates_the_rotation_witness :
  exists cs sn r,
    Aux_PlnRot2 0 1%R 1%R = Ok (cs, sn, r)
    /\ (cs * cs + sn * sn = 1)%R
    /\ (cs * 1 + sn * 1 = r)%R
    /\ (- sn * 1 + cs * 1 = 0)%R
    /\ (Rabs 1 < Rabs 1 -> 0 < cs)%R.
Proof.
  apply (Aux_PlnRot2_generates_the_rotation 0 1%R 1%R).
  right. right.
  rewrite (Rabs_right 1) by lra. rewrite Rmax_left by lra.
  pose proof R_minValue_lt_1. pose proof R_maxValue_gt_1. lra.
Defined.

(** X15.  [Aux_PlnRot2] in exact arithmetic does not return when [f] and [g]
    are not zero and the larger of [|f|], [|g|] is [maxValue] or more (up to
    [maxValue / minValue]): the loop that scales [f] and [g] down by
    [minValue] is repeated [while( safmax >= scale )], which holds from the
    first pass on, so every amount of fuel is used up. *)
Theorem Aux_PlnRot2_does_not_return_on_large_input (fuel : nat) (f g : R) :
  f <> 0%R -> g <> 0%R ->
  (R_maxValue <= Rmax (Rabs f) (Rabs g))%R ->
  (Rmax (Rabs f) (Rabs g) * R_minValue <= R_maxValue)%R ->
  Aux_PlnRot2 fuel f g = OutOfFuel.
Proof.
  intros Hf Hg Hbig Hcap. unfold Aux_PlnRot2.
  rewrite (proj2 (IsZero_R_false g) Hg). rewrite (proj2 (IsZero_R_false f) Hf).
  cbv zeta. rewrite Max_R.
  change (Abs f) with (Rabs f). change (Abs g) with (Rabs g).
  change (Rmax (Rabs f) (Rabs g) [>=] maxValue)
    with (R_leb R_maxValue (Rmax (Rabs f) (Rabs g))).
  rewrite (proj2 (R_leb_true _ _) Hbig).
  change (@minValue R R_Scalar) with R_minValue.
  change (@maxValue R R_Scalar) with R_maxValue.
  rewrite PlnRot2_rescale_down_never_ends by exact Hcap.
  reflexivity.
Qed.

Lemma Aux_PlnRot2_does_not_return_on_large_input_witness :
  Aux_PlnRot2 1000 R_maxValue R_maxValue = OutOfFuel.
Proof.
  pose proof R_maxValue_gt_1 as Hm. pose proof R_minValue_lt_1 as Hs1.
  pose proof R_minValue_pos as Hs0.
  apply (Aux_PlnRot2_does_not_return_on_large_input 1000 R_maxValue R_maxValue).
  - lra.
  - lra.
  - rewrite Rmax_left by lra. rewrite Rabs_right by lra. lra.
  - rewrite Rmax_left by lra. rewrite Rabs_right by lra. nra.
Defined.

(** ** Vec_Rescl in exact arithmetic: the factor *)

Section ResclValue.
Local Open Scope R_scope.

(** The factors of the passes multiply up to [cto/cfrom]. *)
Lemma Vec_Rescl_pass_factor (cf ct : R) :
  cf <> 0 ->
  let '(alpha, done, cf', ct') := Vec_Rescl_pass cf ct in
  cf' <> 0
  /\ (done = true -> alpha = ct / cf)
  /\ (done = false -> alpha * (ct' / cf') = ct / cf).
Proof.
  intros Hcf. pose proof R_minValue_pos as Hs. pose proof R_minValue_lt_1 as Hs1.
  unfold Vec_Rescl_pass. cbv zeta.
  change (@minValue R R_Scalar) with R_minValue.
  change (Inv R_minValue) with (1 / R_minValue).
  change (cf [*] R_minValue) with (cf * R_minValue).
  change (ct [/] (1 / R_minValue)) with (ct / (1 / R_minValue)).
  change (cf * R_minValue [==] cf) with (R_eqb (cf * R_minValue) cf).
  destruct (R_eqb (cf * R_minValue) cf) eqn:E1.
  { apply R_eqb_true in E1. exfalso. 
    assert (cf * (R_minValue - 1) = 0) by lra.
    apply Rmult_integral in H. destruct H; lra. }
  change (ct / (1 / R_minValue) [==] ct) with (R_eqb (ct / (1 / R_minValue)) ct).
  destruct (R_eqb (ct / (1 / R_minValue)) ct) eqn:E2.
  { apply R_eqb_true in E2.
    assert (Hct : ct = 0).
    { assert (Hd : ct / (1 / R_minValue) = ct * R_minValue) by (field; lra).
      rewrite Hd in E2. assert (ct * (R_minValue - 1) = 0) by lra.
      apply Rmult_integral in H. destruct H; lra. }
    split; [change (@unit R R_Scalar) with 1; lra |].
    split; [| discriminate]. intros _. subst ct. unfold Rdiv. ring. }
  destruct ((Abs (cf * R_minValue) [>] Abs ct) && negb (IsZero ct)).
  { split; [nra |]. split; [discriminate |]. intros _. field. lra. }
  destruct (Abs (ct / (1 / R_minValue)) [>] Abs cf).
  { split; [exact Hcf |]. split; [discriminate |]. intros _.
    change (Inv R_minValue) with (1 / R_minValue). field. lra. }
  split; [exact Hcf |]. split; [| discriminate]. intros _. reflexivity.
Qed.

Lemma Vec_Rescl_loop_value (n : Z) (x_s : Z) :
  x_s <> 0%Z ->
  forall fuel cf ct (x x' : Arr R),
  cf <> 0 ->
  Vec_Rescl_loop fuel cf ct n x x_s = Ok x' ->
  (forall i, (0 <= i < n)%Z -> x' (i * x_s)%Z = x (i * x_s)%Z * (ct / cf))
  /\ (forall p, (forall i, (0 <= i < n)%Z -> p <> (i * x_s)%Z) -> x' p = x p).
Proof.
  intros Hs. induction fuel as [| fuel IH]; intros cf ct x x' Hcf Hrun;
    [discriminate |].
  cbn [Vec_Rescl_loop] in Hrun.
  pose proof (Vec_Rescl_pass_factor cf ct Hcf) as Hp.
  destruct (Vec_Rescl_pass cf ct) as [[[alpha done] cf'] ct'].
  destruct Hp as [Hcf' [Hdone Hmore]].
  assert (Hin : forall i, (0 <= i < n)%Z -> ((0 <=? i) && (i <? n))%Z = true).
  { intros i Hi. apply andb_true_iff. split; [apply Z.leb_le | apply Z.ltb_lt]; lia. }
  destruct done.
  - injection Hrun as <-. split.
    + intros i Hi. rewrite Vec_Scale_strided by exact Hs. rewrite Hin by exact Hi.
      rewrite Hdone by reflexivity. reflexivity.
    + intros p Hp. apply Vec_Scale_elsewhere. exact Hp.
  - destruct (IH cf' ct' _ x' Hcf' Hrun) as [Hval Hels]. split.
    + intros i Hi. rewrite Hval by exact Hi.
      rewrite Vec_Scale_strided by exact Hs. rewrite Hin by exact Hi.
      rewrite <- Hmore by reflexivity. ring.
    + intros p Hp. rewrite Hels by exact Hp. apply Vec_Scale_elsewhere. exact Hp.
Qed.

End ResclValue.

(** X16.  [Vec_Rescl] in exact arithmetic, for [cfrom <> 0] and a stride that
    is not zero: given enough fuel the call returns, each of the [n]
    components [x[i*x_s]] has been multiplied by [cto/cfrom], and no other
    position of [x] has changed. *)
Theorem Vec_Rescl_multiplies_by_the_ratio (cfrom cto : R) (n : Z) (x : Arr R) (x_s : Z) :
  cfrom <> 0%R -> x_s <> 0 ->
  exists fuel0, forall fuel, (fuel0 <= fuel)%nat ->
    exists x',
      Vec_Rescl fuel cfrom cto n x x_s = Ok x'
      /\ (forall i, 0 <= i < n -> x' (i * x_s) = (x (i * x_s)%Z * (cto / cfrom))%R)
      /\ (forall p, (forall i, 0 <= i < n -> p <> i * x_s) -> x' p = x p).
Proof.
  intros Hcf Hs.
  destruct (Vec_Rescl_R_returns cfrom cto n x x_s Hcf) as [fuel0 Hret].
  exists fuel0. intros fuel Hfuel.
  destruct (Hret fuel Hfuel) as [x' Hrun]. exists x'. split; [exact Hrun |].
  unfold Vec_Rescl in Hrun.
  rewrite (proj2 (IsZero_R_false cfrom) Hcf) in Hrun. cbn [orb] in Hrun.
  change (@IsUndefined R R_Scalar cfrom) with false in Hrun.
  change (@IsUndefined R R_Scalar cto) with false in Hrun. cbv iota in Hrun.
  destruct (n =? 0) eqn:En.
  { injection Hrun as <-. zbool. subst n. split; [intros; lia | reflexivity]. }
  change (cfrom [==] cto) with (R_eqb cfrom cto) in Hrun.
  destruct (R_eqb cfrom cto) eqn:Eq.
  { injection Hrun as <-. apply R_eqb_true in Eq. subst cto.
    split; [| reflexivity]. intros i Hi. field. exact Hcf. }
  apply (Vec_Rescl_loop_value n x_s Hs fuel cfrom cto x x' Hcf Hrun).
Qed.

Lemma Vec_Rescl_multiplies_by_the_ratio_witness :
  exists fuel0, forall fuel, (fuel0 <= fuel)%nat ->
    exists x',
      Vec_Rescl fuel 2%R 6%R 2 (fun _ => 1%R) 1 = Ok x'
      /\ (forall i, 0 <= i < 2 -> x' (i * 1) = (1 * (6 / 2))%R)
      /\ (forall p, (forall i, 0 <= i < 2 -> p <> i * 1) -> x' p = 1%R).
Proof.
  apply (Vec_Rescl_multiplies_by_the_ratio 2%R 6%R 2 (fun _ => 1%R) 1).
  - lra.
  - lia.
Defined.

(** ** Sym_Rank2Upd in exact arithmetic *)

Section Rank2.
Local Open Scope R_scope.

(** The same as [for_up_mupd_pointwise], from a bound on the rows. *)
Lemma column_update_R (f : Z -> R -> R) (j lo : Z) count (A : Mat R) i' j' :
  for_up count lo (fun i A => mupd A i j (f i (A i j))) A i' j'
  = if ((j' =? j) && (lo <=? i') && (i' <? lo + Z.of_nat count))%Z
    then f i' (A i' j') else A i' j'.
Proof. apply for_up_mupd_pointwise. Qed.

Lemma Sym_Rank2Upd_R (half : Half) (n : Z) (alpha : R) (x : Arr R) (x_s : Z)
  (y : Arr R) (y_s : Z) (A : Mat R) :
  half <> Half_Both ->
  (0 <= n < 2 ^ (Size_bits - 1))%Z ->
  exists A',
    Sym_Rank2Upd half n alpha x x_s y y_s A = Ok A'
    /\ forall i j,
         A' i j = if in_triangle half n i j
                  then A i j + alpha * (x (i * x_s)%Z * y (j * y_s)%Z
                                        + y (i * y_s)%Z * x (j * x_s)%Z)
                  else A i j.
Proof.
  intros Hhalf Hn. unfold Sym_Rank2Upd.
  destruct half; [| | contradiction]; cbn [Half_eqb].
  - destruct (IsZero alpha) eqn:Ea.
    { apply IsZero_R_true in Ea. subst alpha. exists A. split; [reflexivity |].
      intros i j. destruct (in_triangle Half_Upper n i j); ring. }
    eexists. split; [reflexivity |].
    rewrite to_Index_small by lia.
    pose proof (for_up_ind
      (fun k (A' : Mat R) =>
         forall i j,
           A' i j = if (in_triangle Half_Upper n i j && (j <? k))%Z
                    then A i j + alpha * (x (i * x_s)%Z * y (j * y_s)%Z
                                          + y (i * y_s)%Z * x (j * x_s)%Z)
                    else A i j)
      (fun j A =>
         let u := y (j * y_s)%Z in
         let v := x (j * x_s)%Z in
         if negb (IsZero u) || negb (IsZero v)
         then
           let u := u [*] alpha in
           let v := v [*] alpha in
           for_up (Z.to_nat (j + 1)) 0%Z
             (fun i A =>
                mupd A i j (A i j [+] (x (i * x_s)%Z [*] u [+] y (i * y_s)%Z [*] v))) A
         else A)
      (Z.to_nat n) 0%Z A) as Hind.
    cbv beta in Hind. rewrite Z.add_0_l, Z2Nat.id in Hind by lia.
    intros i j. rewrite Hind.
    + unfold in_triangle.
      destruct (0 <=? i)%Z; destruct (i <=? j)%Z; destruct (j <? n)%Z; reflexivity.
    + intros i' j'. unfold in_triangle.
      destruct (j' <? 0)%Z eqn:E; [| rewrite andb_false_r; reflexivity].
      destruct (0 <=? i')%Z eqn:E1; destruct (i' <=? j')%Z eqn:E2; cbn [andb];
        try reflexivity. zbool. lia.
    + intros k A' Hk HA' i' j'. cbv zeta.
      assert (Hgoal : forall B : Mat R,
                (forall i j, B i j
                   = if ((j =? k) && (0 <=? i) && (i <? 0 + Z.of_nat (Z.to_nat (k + 1))))%Z
                     then A' i j + alpha * (x (i * x_s)%Z * y (k * y_s)%Z
                                            + y (i * y_s)%Z * x (k * x_s)%Z)
                     else A' i j) ->
                B i' j'
                = if (in_triangle Half_Upper n i' j' && (j' <? k + 1))%Z
                  then A i' j' + alpha * (x (i' * x_s)%Z * y (j' * y_s)%Z
                                          + y (i' * y_s)%Z * x (j' * x_s)%Z)
                  else A i' j').
      { intros B HB. rewrite HB, HA'. unfold in_triangle.
        destruct (j' =? k)%Z eqn:Ej; destruct (0 <=? i')%Z eqn:E1;
          destruct (i' <? 0 + Z.of_nat (Z.to_nat (k + 1)))%Z eqn:E2;
          destruct (i' <=? j')%Z eqn:E3; destruct (j' <? n)%Z eqn:E4;
          destruct (j' <? k)%Z eqn:E5; destruct (j' <? k + 1)%Z eqn:E6;
          cbn [andb]; try reflexivity; zbool; try lia; subst; try ring. }
      destruct (negb (IsZero (y (k * y_s)%Z)) || negb (IsZero (x (k * x_s)%Z))) eqn:Euv.
      * apply Hgoal. intros i0 j0.
        rewrite (column_update_R
                   (fun i a => a + (x (i * x_s)%Z * (y (k * y_s)%Z * alpha)
                                    + y (i * y_s)%Z * (x (k * x_s)%Z * alpha))) k 0).
        destruct ((j0 =? k) && (0 <=? i0) && (i0 <? 0 + Z.of_nat (Z.to_nat (k + 1))))%Z;
          [ring | reflexivity].
      * apply orb_false_iff in Euv. destruct Euv as [Eu Ev].
        apply negb_false_iff in Eu, Ev. apply IsZero_R_true in Eu, Ev.
        apply Hgoal. intros i0 j0. rewrite Eu, Ev.
        destruct ((j0 =? k) && (0 <=? i0) && (i0 <? 0 + Z.of_nat (Z.to_nat (k + 1))))%Z;
          [ring | reflexivity].
  - destruct (IsZero alpha) eqn:Ea.
    { apply IsZero_R_true in Ea. subst alpha. exists A. split; [reflexivity |].
      intros i j. destruct (in_triangle Half_Lower n i j); ring. }
    eexists. split; [reflexivity |].
    rewrite !to_Index_small by lia.
    pose proof (for_up_ind
      (fun k (A' : Mat R) =>
         forall i j,
           A' i j = if (in_triangle Half_Lower n i j && (j <? k))%Z
                    then A i j + alpha * (x (i * x_s)%Z * y (j * y_s)%Z
                                          + y (i * y_s)%Z * x (j * x_s)%Z)
                    else A i j)
      (fun j A =>
         let u := y (j * y_s)%Z in
         let v := x (j * x_s)%Z in
         if negb (IsZero u) || negb (IsZero v)
         then
           let u := u [*] alpha in
           let v := v [*] alpha in
           for_up (Z.to_nat (n - j)) j
             (fun i A =>
                mupd A i j (A i j [+] (x (i * x_s)%Z [*] u [+] y (i * y_s)%Z [*] v))) A
         else A)
      (Z.to_nat n) 0%Z A) as Hind.
    cbv beta in Hind. rewrite Z.add_0_l, Z2Nat.id in Hind by lia.
    intros i j. rewrite Hind.
    + unfold in_triangle.
      destruct (0 <=? j)%Z eqn:E1; destruct (j <=? i)%Z eqn:E2;
        destruct (i <? n)%Z eqn:E3; destruct (j <? n)%Z eqn:E4; cbn [andb];
        try reflexivity. zbool. lia.
    + intros i' j'. unfold in_triangle.
      destruct (j' <? 0)%Z eqn:E; [| rewrite andb_false_r; reflexivity].
      destruct (0 <=? j')%Z eqn:E1; cbn [andb]; try reflexivity. zbool. lia.
    + intros k A' Hk HA' i' j'. cbv zeta.
      assert (Hgoal : forall B : Mat R,
                (forall i j, B i j
                   = if ((j =? k) && (k <=? i) && (i <? k + Z.of_nat (Z.to_nat (n - k))))%Z
                     then A' i j + alpha * (x (i * x_s)%Z * y (k * y_s)%Z
                                            + y (i * y_s)%Z * x (k * x_s)%Z)
                     else A' i j) ->
                B i' j'
                = if (in_triangle Half_Lower n i' j' && (j' <? k + 1))%Z
                  then A i' j' + alpha * (x (i' * x_s)%Z * y (j' * y_s)%Z
                                          + y (i' * y_s)%Z * x (j' * x_s)%Z)
                  else A i' j').
      { intros B HB. rewrite HB, HA'. unfold in_triangle.
        destruct (j' =? k)%Z eqn:Ej; destruct (0 <=? j')%Z eqn:E1;
          destruct (i' <? k + Z.of_nat (Z.to_nat (n - k)))%Z eqn:E2;
          destruct (j' <=? i')%Z eqn:E3; destruct (i' <? n)%Z eqn:E4;
          destruct (j' <? k)%Z eqn:E5; destruct (j' <? k + 1)%Z eqn:E6;
          destruct (k <=? i')%Z eqn:E7;
          cbn [andb]; try reflexivity; zbool; try lia; subst; try ring. }
      destruct (negb (IsZero (y (k * y_s)%Z)) || negb (IsZero (x (k * x_s)%Z))) eqn:Euv.
      * apply Hgoal. intros i0 j0.
        rewrite (column_update_R
                   (fun i a => a + (x (i * x_s)%Z * (y (k * y_s)%Z * alpha)
                                    + y (i * y_s)%Z * (x (k * x_s)%Z * alpha))) k k).
        destruct ((j0 =? k) && (k <=? i0) && (i0 <? k + Z.of_nat (Z.to_nat (n - k))))%Z;
          [ring | reflexivity].
      * apply orb_false_iff in Euv. destruct Euv as [Eu Ev].
        apply negb_false_iff in Eu, Ev. apply IsZero_R_true in Eu, Ev.
        apply Hgoal. intros i0 j0. rewrite Eu, Ev.
        destruct ((j0 =? k) && (k <=? i0) && (i0 <? k + Z.of_nat (Z.to_nat (n - k))))%Z;
          [ring | reflexivity].
Qed.

End Rank2.

(** X17.  [Sym_Rank2Upd] in exact arithmetic, for [half] one of
    [Half::Upper], [Half::Lower] and [n] in the range of [Index]: it returns,
    every element [A(i,j)] of the named triangle of the [n] by [n] block has
    become [A(i,j) + alpha*(x[i]*y[j] + y[i]*x[j])], and every other element
    is as it was. *)
Theorem Sym_Rank2Upd_updates_the_triangle (half : Half) (n : Z) (alpha : R)
  (x : Arr R) (x_s : Z) (y : Arr R) (y_s : Z) (A : Mat R) :
  half <> Half_Both ->
  0 <= n < 2 ^ (Size_bits - 1) ->
  exists A',
    Sym_Rank2Upd half n alpha x x_s y y_s A = Ok A'
    /\ forall i j,
         A' i j = if in_triangle half n i j
                  then (A i j + alpha * (x (i * x_s)%Z * y (j * y_s)%Z
                                         + y (i * y_s)%Z * x (j * x_s)%Z))%R
                  else A i j.
Proof.
  apply Sym_Rank2Upd_R.
Qed.

Lemma Sym_Rank2Upd_updates_the_triangle_witness :
  exists A',
    Sym_Rank2Upd Half_Upper 2 1%R (fun _ => 2%R) 1 (fun _ => 3%R) 1 (fun _ _ => 0%R)
    = Ok A'
    /\ forall i j,
         A' i j = if in_triangle Half_Upper 2 i j
                  then (0 + 1 * (2 * 3 + 3 * 2))%R
                  else 0%R.
Proof.
  apply (Sym_Rank2Upd_updates_the_triangle Half_Upper 2 1%R (fun _ => 2%R) 1
           (fun _ => 3%R) 1 (fun _ _ => 0%R)).
  - discriminate.
  - unfold Size_bits. lia.
Defined.

(** ** Rfl_VecGen in exact arithmetic: the reflector it generates *)

Section ReflectorGenerated.
Import Rank1Spec.
Local Open Scope R_scope.

Lemma R_hypot_scaled (c a b : R) :
  0 < c -> R_hypot (a * c) (b * c) = R_hypot a b * c.
Proof.
  intros Hc. unfold R_hypot.
  replace (a * c * (a * c) + b * c * (b * c)) with (c * c * (a * a + b * b)) by ring.
  rewrite <- sqrt_scaled; [ring | lra |].
  assert (0 <= a * a) by apply Rle_0_sqr. assert (0 <= b * b) by apply Rle_0_sqr. lra.
Qed.

Lemma R_copysign_scaled (c h a : R) :
  0 < c -> R_copysign (h * c) (a * c) = R_copysign h a * c.
Proof.
  intros Hc. unfold R_copysign. rewrite Rabs_mult, (Rabs_right c) by lra.
  destruct (Rlt_dec (a * c) 0) as [E1 | E1]; destruct (Rlt_dec a 0) as [E2 | E2];
    try ring; exfalso; nra.
Qed.

Lemma Vec_Norm2_scaled (n : Z) (x x1 : Arr R) (x_s : Z) (c : R) :
  0 < c ->
  (forall i, (0 <= i < n)%Z -> x1 (i * x_s)%Z = x (i * x_s)%Z * c) ->
  Vec_Norm2 n x1 x_s = Vec_Norm2 n x x_s * c.
Proof.
  intros Hc Hx1. rewrite !Vec_Norm2_R_euclid.
  rewrite (Rsum_ext (fun i => x1 (i * x_s)%Z * x1 (i * x_s)%Z)
             (fun i => c * c * (x (i * x_s)%Z * x (i * x_s)%Z))).
  - rewrite Rsum_scal. rewrite <- sqrt_scaled; [ring | lra |].
    apply Rsum_nonneg. intros k. apply Rle_0_sqr.
  - intros k Hk. rewrite Hx1 by lia. ring.
Qed.

(** What the rescaling loop leaves after [j] passes. *)
Lemma VecGen_rescale_closed (n : Z) (r safmin : R) (x_s : Z) :
  x_s <> 0%Z ->
  forall left knt alpha (x : Arr R) beta,
  let '(knt', a', x', b') := VecGen_rescale left n r safmin knt alpha x x_s beta in
  exists j : nat,
    (1 <= j)%nat /\ knt' = (knt + Z.of_nat j)%Z
    /\ a' = alpha * r ^ j /\ b' = beta * r ^ j
    /\ (forall i, (0 <= i < n - 1)%Z -> x' (i * x_s)%Z = x (i * x_s)%Z * r ^ j)
    /\ (forall p, (forall i, (0 <= i < n - 1)%Z -> p <> (i * x_s)%Z) -> x' p = x p).
Proof.
  intros Hs.
  assert (Hin : forall i, (0 <= i < n - 1)%Z -> ((0 <=? i) && (i <? n - 1))%Z = true).
  { intros i Hi. apply andb_true_iff. split; [apply Z.leb_le | apply Z.ltb_lt]; lia. }
  assert (Hone : forall knt alpha (x : Arr R) beta,
            exists j : nat,
              (1 <= j)%nat /\ (knt + 1)%Z = (knt + Z.of_nat j)%Z
              /\ alpha * r = alpha * r ^ j /\ beta * r = beta * r ^ j
              /\ (forall i, (0 <= i < n - 1)%Z ->
                    Vec_Scale (n - 1) r x x_s (i * x_s)%Z = x (i * x_s)%Z * r ^ j)
              /\ (forall p, (forall i, (0 <= i < n - 1)%Z -> p <> (i * x_s)%Z) ->
                    Vec_Scale (n - 1) r x x_s p = x p)).
  { intros knt alpha x beta. exists 1%nat. repeat split; try lia; try (simpl; ring).
    - intros i Hi. rewrite Vec_Scale_strided by exact Hs. rewrite Hin by exact Hi.
      simpl. ring.
    - intros p Hp. apply Vec_Scale_elsewhere. exact Hp. }
  induction left as [| left IH]; intros knt alpha x beta; cbn [VecGen_rescale]; cbv zeta.
  - apply Hone.
  - destruct ((Abs (beta [*] r) [<] safmin) && (knt + 1 <? 20)%Z); [| apply Hone].
    specialize (IH (knt + 1)%Z (alpha [*] r) (Vec_Scale (n - 1) r x x_s) (beta [*] r)).
    destruct (VecGen_rescale left n r safmin (knt + 1) (alpha [*] r)
                (Vec_Scale (n - 1) r x x_s) x_s (beta [*] r))
      as [[[knt' a'] x'] b'].
    destruct IH as [j [Hj [Hk [Ha [Hb [Hx Hels]]]]]].
    exists (S j). split; [lia |]. split; [lia |].
    change (alpha [*] r) with (alpha * r) in Ha.
    change (beta [*] r) with (beta * r) in Hb.
    split; [rewrite Ha; simpl; ring |]. split; [rewrite Hb; simpl; ring |]. split.
    + intros i Hi. rewrite Hx by exact Hi.
      rewrite Vec_Scale_strided by exact Hs. rewrite Hin by exact Hi. simpl. ring.
    + intros p Hp. rewrite Hels by exact Hp. apply Vec_Scale_elsewhere. exact Hp.
Qed.

(** The values with which [Rfl_VecGen] reaches [tau = ( beta - alpha )/beta]:
    those of the unscaled problem, times a common factor [c] that the final
    loop over [knt] takes out of [beta] again. *)
Lemma Rfl_VecGen_beta_closed (n : Z) (alpha : R) (x : Arr R) (x_s : Z) :
  x_s <> 0%Z ->
  let xnorm := Vec_Norm2 (n - 1) x x_s in
  let beta0 := - R_copysign (R_hypot alpha xnorm) alpha in
  let '(knt, a1, x1, b1) := Rfl_VecGen_beta n alpha x x_s xnorm in
  exists c,
    0 < c /\ (0 <= knt)%Z /\ c * R_minValue ^ Z.to_nat knt = 1
    /\ a1 = alpha * c /\ b1 = beta0 * c
    /\ (forall i, (0 <= i < n - 1)%Z -> x1 (i * x_s)%Z = x (i * x_s)%Z * c)
    /\ (forall p, (forall i, (0 <= i < n - 1)%Z -> p <> (i * x_s)%Z) -> x1 p = x p).
Proof.
  intros Hs xnorm beta0. unfold Rfl_VecGen_beta. cbv zeta.
  pose proof R_minValue_pos as Hm.
  change (neg (CopySign (Hypot alpha xnorm) alpha)) with beta0.
  destruct (Abs beta0 [<] minValue).
  - pose proof (VecGen_rescale_closed n (Inv minValue) minValue x_s Hs
                  19 0%Z alpha x beta0) as Hc.
    destruct (VecGen_rescale 19 n (Inv minValue) minValue 0 alpha x x_s beta0)
      as [[[knt a1] x1] b1].
    destruct Hc as [j [Hj [Hk [Ha [_ [Hx Hels]]]]]].
    change (Inv (@minValue R R_Scalar)) with (1 / R_minValue) in *.
    set (c := (1 / R_minValue) ^ j) in *.
    assert (Hc : 0 < c).
    { unfold c. apply pow_lt. unfold Rdiv. rewrite Rmult_1_l.
      apply Rinv_0_lt_compat. exact Hm. }
    exists c. split; [exact Hc |]. split; [lia |]. split.
    { unfold c. rewrite Hk. rewrite Z.add_0_l, Nat2Z.id.
      rewrite <- Rpow_mult_distr.
      replace (1 / R_minValue * R_minValue) with 1 by (field; lra).
      apply pow1. }
    split; [exact Ha |]. split; [| split; [exact Hx | exact Hels]].
    change (neg (CopySign (Hypot a1 (Vec_Norm2 (n - 1) x1 x_s)) a1))
      with (- R_copysign (R_hypot a1 (Vec_Norm2 (n - 1) x1 x_s)) a1).
    rewrite (Vec_Norm2_scaled (n - 1) x x1 x_s c Hc Hx). fold xnorm. rewrite Ha.
    rewrite R_hypot_scaled by exact Hc. rewrite R_copysign_scaled by exact Hc.
    unfold beta0. ring.
  - exists 1. split; [lra |]. split; [lia |]. split; [simpl; ring |].
    split; [ring |]. split; [ring |]. split; [intros; ring | reflexivity].
Qed.

Lemma safmin_loop (knt : nat) (beta : R) :
  for_up knt 0%Z (fun _ beta => beta [*] (@minValue R R_Scalar)) beta
  = beta * R_minValue ^ knt.
Proof.
  revert beta. generalize 0%Z.
  induction knt as [| k IH]; intros z beta; simpl; [ring |].
  rewrite IH. ring.
Qed.

Lemma Rfl_VecGen_R (n : Z) (alpha : R) (x : Arr R) (x_s : Z) (tau : R) :
  (2 <= n)%Z -> x_s <> 0%Z ->
  (exists i, (0 <= i < n - 1)%Z /\ x (i * x_s)%Z <> 0) ->
  let '(beta, x', tau') := Rfl_VecGen n alpha x x_s tau in
  let sq := Rsum (Z.to_nat (n - 1)) 0 (fun i => x (i * x_s)%Z * x (i * x_s)%Z) in
  beta * beta = alpha * alpha + sq
  /\ (0 <= alpha -> beta < 0) /\ (alpha < 0 -> 0 < beta)
  /\ tau' = (beta - alpha) / beta
  /\ (forall i, (0 <= i < n - 1)%Z -> x' (i * x_s)%Z = x (i * x_s)%Z / (alpha - beta))
  /\ (forall p, (forall i, (0 <= i < n - 1)%Z -> p <> (i * x_s)%Z) -> x' p = x p).
Proof.
  intros Hn Hs Hnz. unfold Rfl_VecGen.
  destruct (n =? 0)%Z eqn:E0; [zbool; lia |].
  destruct (n =? 1)%Z eqn:E1; [zbool; lia |].
  assert (Hnorm : Vec_Norm2 (n - 1) x x_s <> 0).
  { intros E. destruct Hnz as [i [Hi Hxi]]. apply Hxi.
    apply (proj1 (Vec_Norm2_R_zero_iff (n - 1) x x_s) E). exact Hi. }
  rewrite (proj2 (IsZero_R_false _) Hnorm).
  pose proof (Rfl_VecGen_beta_closed n alpha x x_s Hs) as Hc. cbv zeta in Hc.
  destruct (Rfl_VecGen_beta n alpha x x_s (Vec_Norm2 (n - 1) x x_s))
    as [[[knt a1] x1] b1].
  destruct Hc as [c [Hc [Hknt [Hpow [Ha [Hb [Hx Hels]]]]]]].
  cbv zeta.
  (* the unscaled values *)
  set (xnorm := Vec_Norm2 (n - 1) x x_s) in *.
  set (h := R_hypot alpha xnorm) in *.
  assert (Hsq : xnorm * xnorm
                = Rsum (Z.to_nat (n - 1)) 0 (fun i => x (i * x_s)%Z * x (i * x_s)%Z)).
  { unfold xnorm. rewrite Vec_Norm2_R_euclid. apply sqrt_sqrt.
    apply Rsum_nonneg. intros k. apply Rle_0_sqr. }
  assert (Hh : 0 < h /\ h * h = alpha * alpha + xnorm * xnorm).
  { unfold h, R_hypot.
    assert (0 < alpha * alpha + xnorm * xnorm).
    { assert (0 <= alpha * alpha) by apply Rle_0_sqr.
      assert (0 < xnorm * xnorm) by (apply Rsqr_pos_lt; exact Hnorm). lra. }
    split; [apply sqrt_lt_R0; assumption | apply sqrt_sqrt; lra]. }
  destruct Hh as [Hh0 Hh2].
  set (beta0 := - R_copysign h alpha) in *.
  assert (Hbeta : (0 <= alpha -> beta0 = - h) /\ (alpha < 0 -> beta0 = h)).
  { unfold beta0, R_copysign. rewrite (Rabs_right h) by lra.
    destruct (Rlt_dec alpha 0); split; intros; try lra. }
  assert (Hb2 : beta0 * beta0 = h * h).
  { destruct (Rlt_dec alpha 0) as [E | E].
    - rewrite (proj2 Hbeta E). reflexivity.
    - rewrite (proj1 Hbeta) by lra. ring. }
  assert (Hdiff : alpha - beta0 <> 0).
  { destruct (Rlt_dec alpha 0) as [E | E].
    - rewrite (proj2 Hbeta E). lra.
    - rewrite (proj1 Hbeta) by lra. lra. }
  assert (Hb0 : beta0 <> 0).
  { destruct (Rlt_dec alpha 0) as [E | E].
    - rewrite (proj2 Hbeta E). lra.
    - rewrite (proj1 Hbeta) by lra. lra. }
  assert (Hin : forall i, (0 <= i < n - 1)%Z -> ((0 <=? i) && (i <? n - 1))%Z = true).
  { intros i Hi. apply andb_true_iff. split; [apply Z.leb_le | apply Z.ltb_lt]; lia. }
  rewrite safmin_loop.
  assert (Hout : b1 * R_minValue ^ Z.to_nat knt = beta0).
  { rewrite Hb. rewrite Rmult_assoc, Hpow. ring. }
  rewrite Hout.
  split; [rewrite Hb2, Hh2, Hsq; reflexivity |].
  split; [intros Hp; rewrite (proj1 Hbeta Hp); lra |].
  split; [intros Hp; rewrite (proj2 Hbeta Hp); lra |].
  split.
  { change ((b1 [-] a1) [/] b1) with ((b1 - a1) / b1). rewrite Ha, Hb.
    field. split; lra. }
  split.
  - intros i Hi. rewrite Vec_Scale_strided by exact Hs. rewrite Hin by exact Hi.
    rewrite Hx by exact Hi.
    change (Inv (a1 [-] b1)) with (1 / (a1 - b1)). rewrite Ha, Hb.
    field. split; [lra |].
    replace (alpha * c - beta0 * c) with ((alpha - beta0) * c) by ring.
    apply Rmult_integral_contrapositive_currified; lra.
  - intros p Hp. rewrite Vec_Scale_elsewhere by exact Hp. apply Hels. exact Hp.
Qed.

End ReflectorGenerated.

(** X18.  [Rfl_VecGen] in exact arithmetic, for [n >= 2], a stride that is not
    zero and a vector [x] that is not zero.  With [v = (1, x')] for the
    vector [x'] that the call leaves in [x], and [beta] the value it leaves in
    [alpha], the reflector [H = I - tau*v*(~v)] maps [(alpha, x)] to
    [(beta, 0)]: with [w = ~v*(alpha, x)], [alpha - tau*w = beta] and
    [x[i] - tau*w*x'[i] = 0] for every [i].  [beta^2] is [alpha^2] plus the
    sum of the squares of [x], and the sign of [beta] is opposite to that of
    [alpha]. *)
Theorem Rfl_VecGen_reflects_onto_the_first_axis (n : Z) (alpha : R) (x : Arr R)
  (x_s : Z) (tau : R) :
  2 <= n -> x_s <> 0 ->
  (exists i, 0 <= i < n - 1 /\ x (i * x_s) <> 0%R) ->
  let '(beta, x', tau') := Rfl_VecGen n alpha x x_s tau in
  let w :=
    (alpha + Rank1Spec.Rsum (Z.to_nat (n - 1)) 0
               (fun i => x' (i * x_s)%Z * x (i * x_s)%Z))%R in
  (beta * beta
   = alpha * alpha
     + Rank1Spec.Rsum (Z.to_nat (n - 1)) 0 (fun i => x (i * x_s)%Z * x (i * x_s)%Z))%R
  /\ (0 <= alpha -> beta < 0)%R /\ (alpha < 0 -> 0 < beta)%R
  /\ (alpha - tau' * w = beta)%R
  /\ (forall i, 0 <= i < n - 1 -> (x (i * x_s)%Z - tau' * w * x' (i * x_s)%Z = 0)%R).
Proof.
  intros Hn Hs Hnz.
  pose proof (Rfl_VecGen_R n alpha x x_s tau Hn Hs Hnz) as Hg.
  destruct (Rfl_VecGen n alpha x x_s tau) as [[beta x'] tau'].
  cbv zeta in Hg |- *.
  destruct Hg as [Hsq [Hpos [Hneg [Htau [Hx _]]]]].
  set (sq := Rank1Spec.Rsum (Z.to_nat (n - 1)) 0
               (fun i => (x (i * x_s)%Z * x (i * x_s)%Z)%R)) in *.
  assert (Hb : beta <> 0%R /\ (alpha - beta)%R <> 0%R).
  { destruct (Rlt_dec alpha 0) as [E | E].
    - specialize (Hneg E). split; lra.
    - specialize (Hpos ltac:(lra)). split; lra. }
  destruct Hb as [Hb Hd].
  assert (Hdot : Rank1Spec.Rsum (Z.to_nat (n - 1)) 0
                   (fun i => (x' (i * x_s)%Z * x (i * x_s)%Z)%R)
                 = (sq / (alpha - beta))%R).
  { rewrite (Rsum_ext _ (fun i => (/ (alpha - beta) * (x (i * x_s)%Z * x (i * x_s)%Z))%R)).
    - rewrite Rsum_scal. fold sq. field. exact Hd.
    - intros k Hk. rewrite Hx by lia. field. exact Hd. }
  rewrite Hdot.
  assert (Hw : (tau' * (alpha + sq / (alpha - beta)) = alpha - beta)%R).
  { rewrite Htau. replace sq with (beta * beta - alpha * alpha)%R by lra.
    field. split; assumption. }
  split; [exact Hsq |]. split; [exact Hpos |]. split; [exact Hneg |].
  split; [rewrite Hw; ring |].
  intros i Hi. rewrite Hw. rewrite Hx by exact Hi. field. exact Hd.
Qed.

Lemma Rfl_VecGen_reflects_onto_the_first_axis_witness :
  let '(beta, x', tau') := Rfl_VecGen 2 3%R (fun _ => 4%R) 1 0%R in
  (beta * beta
   = 3 * 3 + Rank1Spec.Rsum (Z.to_nat (2 - 1)) 0 (fun i => 4 * 4))%R.
Proof.
  pose proof (Rfl_VecGen_reflects_onto_the_first_axis 2 3%R (fun _ => 4%R) 1 0%R
                ltac:(lia) ltac:(lia)) as Hg.
  destruct (Rfl_VecGen 2 3%R (fun _ => 4%R) 1 0%R) as [[beta x'] tau'].
  cbv zeta in Hg. apply Hg. exists 0. split; [lia | lra].
Defined.

(** ** Aux_EigVec2 in exact arithmetic: the eigenvector *)

Section EigVec2Exact.
Local Open Scope R_scope.

Lemma inv_hypot_1 (t : R) :
  let s := Inv (Hypot unit t) in
  0 < s /\ s * s * (1 + t * t) = 1.
Proof.
  change (Inv (Hypot unit t)) with (1 / R_hypot 1 t). unfold R_hypot.
  assert (Hq : 0 < 1 * 1 + t * t) by (assert (0 <= t * t) by apply Rle_0_sqr; lra).
  pose proof (sqrt_lt_R0 _ Hq) as Hh.
  pose proof (sqrt_sqrt (1 * 1 + t * t) ltac:(lra)) as Hs.
  set (h := sqrt (1 * 1 + t * t)) in *. cbv zeta.
  split.
  - apply Rdiv_lt_0_compat; lra.
  - replace (1 + t * t) with (h * h) by lra. field. lra.
Qed.

(** The direction that the routine computes from [cs] and [tb] before the
    final exchange is a unit vector orthogonal to [(cs, tb)]. *)
Lemma EigVec2_direction (cs tb : R) :
  let '(p, q) :=
    if Abs cs [>] Abs tb
    then let ct := neg tb [/] cs in
         let sn1 := Inv (Hypot unit ct) in
         (ct [*] sn1, sn1)
    else if IsZero (Abs tb)
    then (unit, zero)
    else let tn := neg cs [/] tb in
         let cs1 := Inv (Hypot unit tn) in
         (cs1, tn [*] cs1) in
  p * p + q * q = 1 /\ p * cs + q * tb = 0.
Proof.
  change (Abs cs [>] Abs tb) with (R_ltb (Rabs tb) (Rabs cs)).
  destruct (R_ltb (Rabs tb) (Rabs cs)) eqn:E1.
  - apply R_ltb_true in E1.
    assert (Hcs : cs <> 0).
    { intros E. subst cs. rewrite Rabs_R0 in E1. pose proof (Rabs_pos tb). lra. }
    cbv zeta. change (neg tb [/] cs) with (- tb / cs).
    destruct (inv_hypot_1 (- tb / cs)) as [Hs0 Hs1].
    set (s := Inv (Hypot unit (- tb / cs))) in *.
    change (- tb / cs [*] s) with (- tb / cs * s).
    split; [| field; exact Hcs].
    rewrite <- Hs1. ring.
  - apply R_ltb_false in E1.
    destruct (IsZero (Abs tb)) eqn:E2.
    + apply IsZero_R_true in E2. change (Abs tb) with (Rabs tb) in E2.
      assert (Htb : tb = 0).
      { destruct (Req_dec_T tb 0) as [E | E]; [exact E |].
        apply Rabs_pos_lt in E. lra. }
      assert (Hcs : cs = 0).
      { destruct (Req_dec_T cs 0) as [E | E]; [exact E |].
        apply Rabs_pos_lt in E. rewrite E2 in E1. lra. }
      subst. change (@unit R R_Scalar) with 1. change (@zero R R_Scalar) with 0.
      split; ring.
    + apply IsZero_R_false in E2. change (Abs tb) with (Rabs tb) in E2.
      assert (Htb : tb <> 0).
      { intros E. apply E2. subst tb. apply Rabs_R0. }
      cbv zeta. change (neg cs [/] tb) with (- cs / tb).
      destruct (inv_hypot_1 (- cs / tb)) as [Hs0 Hs1].
      set (s := Inv (Hypot unit (- cs / tb))) in *.
      change (- cs / tb [*] s) with (- cs / tb * s).
      split; [| field; exact Htb].
      rewrite <- Hs1. ring.
Qed.

Lemma Aux_EigVec2_R (a b c : R) :
  let '(rt1, rt2, cs1, sn1) := Aux_EigVec2 a b c in
  cs1 * cs1 + sn1 * sn1 = 1
  /\ a * cs1 + b * sn1 = rt1 * cs1
  /\ b * cs1 + c * sn1 = rt1 * sn1.
Proof.
  unfold Aux_EigVec2. cbv zeta.
  destruct (if Abs a [>] Abs c then (a, c) else (c, a)) as [acmx acmn].
  change (Abs (a [-] c)) with (Rabs (a - c)).
  change (Abs (b [+] b)) with (Rabs (b + b)).
  destruct (Eig2_rt_R (Rabs (a - c)) (Rabs (b + b)) (Rabs_pos _) (Rabs_pos _))
    as [Hrt0 Hrt2].
  rewrite !Rabs_sq in Hrt2.
  set (rt := Eig2_rt (Rabs (a - c)) (Rabs (b + b))) in *.
  change (a [+] c) with (a + c). change (a [-] c) with (a - c).
  change (b [+] b) with (b + b).
  change (@_oneHalf R R_Scalar) with (1 / 2).
  assert (Heig : forall cs p q lam2,
            (cs = a - c + rt /\ 0 <= a - c) \/ (cs = a - c - rt /\ a - c < 0) ->
            p * cs + q * (b + b) = 0 ->
            a - lam2 = cs / 2 ->
            (c - lam2) * cs = (b + b) * (b + b) / 2 ->
            a * p + b * q = lam2 * p /\ b * p + c * q = lam2 * q).
  { intros cs p q lam2 Hcs Horth H1 H2.
    split; [assert (Hp : (a - lam2) * p = cs / 2 * p) by (rewrite H1; reflexivity); lra |].
    destruct (Req_dec_T cs 0) as [E | E].
    - assert (Hz : a - c = 0 /\ rt = 0) by (destruct Hcs as [[Hc Hd] | [Hc Hd]]; split; lra).
      destruct Hz as [Hz1 Hz2]. rewrite Hz1, Hz2 in Hrt2.
      assert (Hb : b = 0) by nra.
      subst b. rewrite E in H1. nra.
    - apply Rmult_eq_reg_r with cs; [| exact E].
      assert (H3 : b * (p * cs + q * (b + b)) = 0) by (rewrite Horth; ring).
      assert (H4 : q * ((c - lam2) * cs) = q * ((b + b) * (b + b) / 2))
        by (rewrite H2; reflexivity).
      lra. }
  destruct (IntSignOrZero_R (a + c)) as [[-> Hs] | [[-> Hs] | [-> Hs]]];
  destruct (IntSignOrZero_R (a - c)) as [[-> Hd] | [[-> Hd] | [-> Hd]]];
  cbn [Z.leb Z.compare Z.eqb Pos.eqb]; cbv iota beta;
  match goal with
  | |- context [Abs ?cs] =>
      pose proof (EigVec2_direction cs (b + b)) as Hdir; cbv zeta in Hdir;
      change (Abs (b + b)) with (Rabs (b + b)) in Hdir;
      match type of Hdir with
      | match ?e with pair _ _ => _ end =>
          destruct e as [p q]; destruct Hdir as [Hunit Horth]
      end;
      pose proof (Heig cs p q) as Heig'; clear Heig
  end;
  change (neg q) with (- q);
  change (@_oneHalf R R_Scalar) with (1 / 2) in *;
  repeat match goal with
         | |- context [?x [+] ?y] => change (x [+] y) with (x + y) in *
         | |- context [?x [-] ?y] => change (x [-] y) with (x - y) in *
         | |- context [?x [*] ?y] => change (x [*] y) with (x * y) in *
         | H : context [?x [+] ?y] |- _ => change (x [+] y) with (x + y) in *
         | H : context [?x [-] ?y] |- _ => change (x [-] y) with (x - y) in *
         end;
  first
    [ destruct (Heig' ((a + c - rt) / 2)) as [He1 He2];
      [left; split; [reflexivity | lra] | exact Horth | lra | nra |]
    | destruct (Heig' ((a + c + rt) / 2)) as [He1 He2];
      [right; split; [reflexivity | lra] | exact Horth | lra | nra |] ];
  (split; [| split]); first [lra | nra].
Qed.

End EigVec2Exact.

(** X19.  [Aux_EigVec2] in exact arithmetic returns, with the eigenvalue
    [rt1] of the symmetric matrix [[a, b], [b, c]], a unit eigenvector
    [(cs1, sn1)] for it: [cs1^2 + sn1^2 = 1], [a*cs1 + b*sn1 = rt1*cs1] and
    [b*cs1 + c*sn1 = rt1*sn1]. *)
Theorem Aux_EigVec2_returns_a_unit_eigenvector (a b c : R) :
  let '(rt1, rt2, cs1, sn1) := Aux_EigVec2 a b c in
  (cs1 * cs1 + sn1 * sn1 = 1
   /\ a * cs1 + b * sn1 = rt1 * cs1
   /\ b * cs1 + c * sn1 = rt1 * sn1)%R.
Proof.
  apply Aux_EigVec2_R.
Qed.

(** ** Rfl_MatMul applies the reflector *)

(** X20.  [Rfl_MatMul] in exact arithmetic, for [m] and [n] in the range of
    [Index] and a stride of [v] that is not negative: the matrix it leaves is
    [H*C] (from the left) or [C*H] (from the right) for the reflector
    [H = I - tau*v*(~v)], that is [C(i,j) - tau*v[i]*sum_k v[k]*C(k,j)] or
    [C(i,j) - tau*(sum_k C(i,k)*v[k])*v[j]] inside the [m] by [n] block, and
    [C(i,j)] outside it. *)
Theorem Rfl_MatMul_applies_the_reflector (side : Side) (m n : Z)
  (v : Arr R) (V_cs : Z) (tau : R) (C : Mat R) (work : Arr R) (i j : Z) :
  0 <= m < 2 ^ (Size_bits - 1) ->
  0 <= n < 2 ^ (Size_bits - 1) ->
  0 <= V_cs ->
  fst (Rfl_MatMul side m n v V_cs tau C work) i j
  = match side with
    | Side_Left => Rank1Spec.rank1_left m n tau (fun k => v (k * V_cs)) C i j
    | Side_Right => Rank1Spec.rank1_right m n tau (fun k => v (k * V_cs)) C i j
    end.
Proof.
  intros Hm Hn Hs. destruct side.
  - apply Rfl_MatMul_Left_R; assumption.
  - apply Rfl_MatMul_Right_R; assumption.
Qed.

Lemma Rfl_MatMul_applies_the_reflector_witness :
  fst (Rfl_MatMul Side_Right 2 3 (fun k => if k =? 2 then 1%R else 0%R) 2 2%R
         (fun i j => if (i =? 1) && (j =? 1) then 1%R else 0%R) (fun _ => 0%R)) 1 1
  = Rank1Spec.rank1_right 2 3 2%R (fun k => if k * 2 =? 2 then 1%R else 0%R)
      (fun i j => if (i =? 1) && (j =? 1) then 1%R else 0%R) 1 1.
Proof.
  apply (Rfl_MatMul_applies_the_reflector Side_Right 2 3
           (fun k => if k =? 2 then 1%R else 0%R) 2 2%R
           (fun i j => if (i =? 1) && (j =? 1) then 1%R else 0%R) (fun _ => 0%R) 1 1).
  - vm_compute. split; [discriminate | reflexivity].
  - vm_compute. split; [discriminate | reflexivity].
  - lia.
Defined.

(** ** Tri_Solv_Vec in exact arithmetic *)

Lemma for_down_ind {St : Type} (P : Z -> St -> Prop) (body : Z -> St -> St) :
  forall count i s,
  P i s ->
  (forall k st, i - Z.of_nat count < k <= i -> P k st -> P (k - 1) (body k st)) ->
  P (i - Z.of_nat count) (for_down count i body s).
Proof.
  induction count as [| c IH]; intros i s H0 Hstep; simpl for_down.
  - replace (i - Z.of_nat 0) with i by lia. exact H0.
  - replace (i - Z.of_nat (S c)) with (i - 1 - Z.of_nat c) by lia.
    apply IH.
    + apply Hstep; [lia | exact H0].
    + intros k st Hk. apply Hstep. lia.
Qed.

Section StridedLoopsDown.
Context {T : Type}.

Lemma for_down_upd_strided (f : Z -> T -> T) (s : Z) count :
  s <> 0 ->
  forall i0 (y : Arr T) j,
  for_down count i0 (fun i y => upd y (i * s) (f i (y (i * s)))) y (j * s)
  = if (i0 - Z.of_nat count <? j) && (j <=? i0) then f j (y (j * s)) else y (j * s).
Proof.
  intros Hs. induction count as [| c IH]; intros i0 y j; simpl for_down.
  - destruct (i0 - Z.of_nat 0 <? j) eqn:E1; destruct (j <=? i0) eqn:E2; simpl;
      try reflexivity. zbool. lia.
  - rewrite IH. unfold upd.
    assert (Hinj : (j * s =? i0 * s) = (j =? i0)).
    { destruct (j =? i0) eqn:Ej; zbool.
      - subst j. apply Z.eqb_refl.
      - apply Z.eqb_neq. intros Heq. apply Ej.
        apply (Z.mul_cancel_r j i0 s Hs). exact Heq. }
    rewrite Hinj.
    destruct (j =? i0) eqn:Ej;
      destruct (i0 - 1 - Z.of_nat c <? j) eqn:E1; destruct (j <=? i0 - 1) eqn:E2;
      destruct (i0 - Z.of_nat (S c) <? j) eqn:E3; destruct (j <=? i0) eqn:E4;
      simpl; try reflexivity; zbool; try lia.
    all: subst j; rewrite ?Z.eqb_refl; reflexivity.
Qed.

Lemma for_down_upd_elsewhere (g : Z -> Arr T -> T) (s : Z) count :
  forall i0 (y : Arr T) p,
  (forall i, i0 - Z.of_nat count < i <= i0 -> p <> i * s) ->
  for_down count i0 (fun i y => upd y (i * s) (g i y)) y p = y p.
Proof.
  induction count as [| c IH]; intros i0 y p Hp; simpl for_down; [reflexivity |].
  rewrite IH by (intros i Hi; apply Hp; lia).
  unfold upd. destruct (p =? i0 * s) eqn:E; [| reflexivity].
  zbool. exfalso. apply (Hp i0); [lia | exact E].
Qed.

End StridedLoopsDown.

Section TriangularSolve.
Import Rank1Spec.

Lemma Rsum_app f a : forall b i,
  Rsum (a + b) i f = (Rsum a i f + Rsum b (i + Z.of_nat a) f)%R.
Proof.
  induction a as [| a IH]; intros b i.
  - simpl. replace (i + 0) with i by lia. ring.
  - change (S a + b)%nat with (S (a + b)). cbn [Rsum]. rewrite IH.
    replace (i + 1 + Z.of_nat a) with (i + Z.of_nat (S a)) by lia. ring.
Qed.

Lemma fold_minus_up (g : Z -> R) count : forall i0 (a : R),
  for_up count i0 (fun i acc => acc [-] g i) a = (a - Rsum count i0 g)%R.
Proof.
  induction count as [| c IH]; intros i0 a; cbn [for_up Rsum].
  - ring.
  - rewrite IH. change (a [-] g i0) with (a - g i0)%R. ring.
Qed.

Lemma fold_minus_down (g : Z -> R) count : forall i0 (a : R),
  for_down count i0 (fun i acc => acc [-] g i) a
  = (a - Rsum count (i0 - Z.of_nat count + 1) g)%R.
Proof.
  induction count as [| c IH]; intros i0 a.
  - simpl. ring.
  - cbn [for_down]. rewrite IH. change (a [-] g i0) with (a - g i0)%R.
    rewrite (Rsum_snoc g c).
    replace (i0 - 1 - Z.of_nat c + 1) with (i0 - Z.of_nat (S c) + 1) by lia.
    replace (i0 - Z.of_nat (S c) + 1 + Z.of_nat c) with i0 by lia. ring.
Qed.

Variables (A : Mat R) (diag : Diag) (n s : Z).
Hypothesis Hn : 0 <= n.
Hypothesis Hs : s <> 0.
Hypothesis Hdiag : diag = Diag_NotUnit -> forall i, 0 <= i < n -> A i i <> 0%R.

Lemma stride_inj i j : i * s = j * s -> i = j.
Proof. intros E. apply (Z.mul_cancel_r i j s Hs). exact E. Qed.

(** Dividing by the diagonal element, or not for a unit diagonal. *)
Lemma divide_by_diag half (j : Z) (v : R) :
  0 <= j < n ->
  (tri_entry half diag A j j
   * match diag with Diag_NotUnit => v [/] A j j | Diag_IsUnit => v end = v)%R.
Proof.
  intros Hj. unfold tri_entry. rewrite Z.eqb_refl. destruct diag.
  - ring.
  - change (v [/] A j j) with (v / A j j)%R. field. apply Hdiag; [reflexivity | exact Hj].
Qed.

(** One step of the column-oriented substitution: [x(k)] is divided by the
    diagonal element and [x(k)*A(r,k)] is taken from the rows [r] of the
    range [lo <= r < hi] that the inner loop [inner] visits. *)
Lemma column_step half (k lo hi : Z) (x x' : Arr R)
  (inner : R -> Arr R -> Arr R) :
  0 <= k < n ->
  0 <= lo -> hi <= n -> ~ (lo <= k < hi) ->
  (forall xj y c, inner xj y (c * s)%Z
                  = if (lo <=? c) && (c <? hi) then (y (c * s)%Z - xj * A c k)%R
                    else y (c * s)%Z) ->
  (forall xj y p, (forall i, lo <= i < hi -> p <> i * s) -> inner xj y p = y p) ->
  x' = (if IsZero (x (k * s)%Z) then x
        else
          let x1 := match diag with
                    | Diag_NotUnit => upd x (k * s)%Z (x (k * s)%Z [/] A k k)
                    | Diag_IsUnit => x
                    end in
          let xj := x1 (k * s)%Z in
          inner xj x1) ->
  (tri_entry half diag A k k * x' (k * s)%Z = x (k * s)%Z)%R
  /\ (forall r, lo <= r < hi -> (x' (r * s)%Z + A r k * x' (k * s)%Z = x (r * s)%Z)%R)
  /\ (forall c, ~ (lo <= c < hi) -> c <> k -> x' (c * s)%Z = x (c * s)%Z)
  /\ (forall p, (forall i, 0 <= i < n -> p <> i * s) -> x' p = x p).
Proof.
  intros Hk Hlo Hhi Hout Hin Hfr ->.
  destruct (IsZero (x (k * s)%Z)) eqn:Ez.
  - apply IsZero_R_true in Ez. rewrite Ez.
    split; [ring |]. split; [intros r Hr; ring |]. split; intros; reflexivity.
  - cbv zeta.
    set (x1 := match diag with
               | Diag_NotUnit => upd x (k * s)%Z (x (k * s)%Z [/] A k k)
               | Diag_IsUnit => x
               end).
    assert (H1k : (tri_entry half diag A k k * x1 (k * s)%Z = x (k * s)%Z)%R).
    { pose proof (divide_by_diag half k (x (k * s)%Z) Hk) as Hdv.
      unfold x1. destruct diag; [exact Hdv |]. unfold upd. rewrite Z.eqb_refl.
      exact Hdv. }
    assert (H1o : forall p, p <> k * s -> x1 p = x p).
    { intros p Hp. unfold x1. destruct diag; [reflexivity |]. unfold upd.
      destruct (p =? k * s) eqn:E; [zbool; contradiction | reflexivity]. }
    assert (Hkk : (lo <=? k) && (k <? hi) = false).
    { destruct (lo <=? k) eqn:E1; destruct (k <? hi) eqn:E2; try reflexivity.
      zbool. lia. }
    split; [rewrite Hin, Hkk; exact H1k |].
    split; [| split].
    + intros r Hr. rewrite !Hin, Hkk.
      assert (Hrr : (lo <=? r) && (r <? hi) = true).
      { apply andb_true_intro. split; [apply Z.leb_le | apply Z.ltb_lt]; lia. }
      rewrite Hrr. rewrite (H1o (r * s)%Z).
      * ring.
      * intros E. apply stride_inj in E. lia.
    + intros c Hc Hck. rewrite Hin.
      assert (Hcc : (lo <=? c) && (c <? hi) = false).
      { destruct (lo <=? c) eqn:E1; destruct (c <? hi) eqn:E2; try reflexivity.
        zbool. lia. }
      rewrite Hcc. apply H1o. intros E. apply stride_inj in E. contradiction.
    + intros p Hp. rewrite Hfr by (intros i Hi; apply Hp; lia).
      apply H1o. apply Hp. exact Hk.
Qed.

(** [x := Inv(A)*x] for an upper triangular [A]. *)
Lemma Tri_Solv_Vec_No_Upper (b : Arr R) :
  let x' :=
    for_down (Z.to_nat (n - 1 + 1)) (n - 1)
      (fun j x =>
         if IsZero (x (j * s)%Z) then x
         else
           let x := match diag with
                    | Diag_NotUnit => upd x (j * s)%Z (x (j * s)%Z [/] A j j)
                    | Diag_IsUnit => x
                    end in
           let xj := x (j * s)%Z in
           for_down (Z.to_nat (j - 1 + 1)) (j - 1)
             (fun i x => upd x (i * s)%Z (x (i * s)%Z [-] xj [*] A i j)) x) b in
  (forall r, 0 <= r < n ->
     Rsum (Z.to_nat n) 0 (fun c => (tri_entry Half_Upper diag A r c * x' (c * s)%Z)%R)
     = b (r * s)%Z)
  /\ (forall p, (forall i, 0 <= i < n -> p <> i * s) -> x' p = b p).
Proof.
  cbv zeta. replace (n - 1 + 1) with n by lia.
  match goal with
  | |- context [for_down ?cnt ?start ?bd b] =>
      set (body := bd);
      pose proof (for_down_ind
        (fun k (x : Arr R) =>
           (forall r, 0 <= r < n ->
              ((if r <=? k then x (r * s)%Z else 0)
               + Rsum (Z.to_nat (n - 1 - k)) (k + 1)
                   (fun c => tri_entry Half_Upper diag A r c * x (c * s)%Z))%R
              = b (r * s)%Z)
           /\ (forall p, (forall i, 0 <= i < n -> p <> i * s) -> x p = b p))
        body cnt start b) as Hind
  end.
  rewrite Z2Nat.id in Hind by exact Hn.
  replace (n - 1 - n) with (-1) in Hind by lia.
  cbv beta in Hind.
  destruct Hind as [Hsum Hfr].
  - split; [| intros; reflexivity].
    intros r Hr. replace (n - 1 - (n - 1)) with 0 by lia. simpl Rsum.
    destruct (r <=? n - 1) eqn:E; [ring | zbool; lia].
  - intros k x Hk [Hsum Hfr].
    assert (Hin : forall xj y c,
              for_down (Z.to_nat (k - 1 + 1)) (k - 1)
                (fun i x => upd x (i * s) (x (i * s)%Z [-] xj [*] A i k)) y (c * s)
              = if (0 <=? c) && (c <? k) then (y (c * s)%Z - xj * A c k)%R
                else y (c * s)).
    { intros xj y c.
      rewrite (for_down_upd_strided (fun i v => v [-] xj [*] A i k) s _ Hs).
      replace (k - 1 - Z.of_nat (Z.to_nat (k - 1 + 1))) with (-1) by lia.
      destruct (c <=? k - 1) eqn:E1; destruct (-1 <? c) eqn:E2;
        destruct (0 <=? c) eqn:E3; destruct (c <? k) eqn:E4; simpl;
        try reflexivity; zbool; lia. }
    assert (Hel : forall xj y p, (forall i, 0 <= i < k -> p <> i * s) ->
              for_down (Z.to_nat (k - 1 + 1)) (k - 1)
                (fun i x => upd x (i * s) (x (i * s)%Z [-] xj [*] A i k)) y p = y p).
    { intros xj y p Hp. apply for_down_upd_elsewhere.
      intros i Hi. apply Hp. lia. }
    destruct (column_step Half_Upper k 0 k x (body k x)
                (fun xj y =>
                   for_down (Z.to_nat (k - 1 + 1)) (k - 1)
                     (fun i x => upd x (i * s) (x (i * s)%Z [-] xj [*] A i k)) y)
                ltac:(lia) ltac:(lia) ltac:(lia) ltac:(lia) Hin Hel eq_refl)
      as [Hd [Hrow [Hsame Hout]]].
    clearbody body.
    split.
    + intros r Hr.
        replace (Z.to_nat (n - 1 - (k - 1))) with (S (Z.to_nat (n - 1 - k))) by lia.
        cbn [Rsum]. replace (k - 1 + 1) with k by lia.
        rewrite <- (Hsum r Hr).
        rewrite (Rsum_ext
                   (fun c => (tri_entry Half_Upper diag A r c * _ (c * s)%Z)%R)
                   (fun c => (tri_entry Half_Upper diag A r c * x (c * s)%Z)%R)).
        2:{ intros c Hc. rewrite Hsame by lia. reflexivity. }
        destruct (Z.lt_trichotomy r k) as [Hlt | [Heq | Hgt]].
        * destruct (r <=? k - 1) eqn:E1; [| zbool; lia].
           destruct (r <=? k) eqn:E2; [| zbool; lia].
           rewrite <- (Hrow r ltac:(lia)).
           unfold tri_entry at 1.
           destruct (r =? k) eqn:E3; [zbool; lia |].
           destruct (r <? k) eqn:E4; [| zbool; lia]. ring.
        * subst r.
           destruct (k <=? k - 1) eqn:E1; [zbool; lia |].
           destruct (k <=? k) eqn:E2; [| zbool; lia].
           rewrite Hd. ring.
        * destruct (r <=? k - 1) eqn:E1; [zbool; lia |].
           destruct (r <=? k) eqn:E2; [zbool; lia |].
           unfold tri_entry at 1.
           destruct (r =? k) eqn:E3; [zbool; lia |].
           destruct (r <? k) eqn:E4; [zbool; lia |]. ring.
    + intros p Hp. rewrite Hout by exact Hp. apply Hfr. exact Hp.
  - split.
    + intros r Hr. specialize (Hsum r Hr).
      destruct (r <=? -1) eqn:E; [zbool; lia |].
      replace (n - 1 - -1) with n in Hsum by lia.
      replace (-1 + 1) with 0 in Hsum by lia.
      rewrite Rplus_0_l in Hsum. exact Hsum.
    + exact Hfr.
Qed.

(** [x := Inv(A)*x] for a lower triangular [A]. *)
Lemma Tri_Solv_Vec_No_Lower (b : Arr R) :
  let x' :=
    for_up (Z.to_nat n) 0
      (fun j x =>
         if IsZero (x (j * s)%Z) then x
         else
           let x := match diag with
                    | Diag_NotUnit => upd x (j * s)%Z (x (j * s)%Z [/] A j j)
                    | Diag_IsUnit => x
                    end in
           let xj := x (j * s)%Z in
           for_up (Z.to_nat (n - (j + 1))) (j + 1)
             (fun i x => upd x (i * s)%Z (x (i * s)%Z [-] xj [*] A i j)) x) b in
  (forall r, 0 <= r < n ->
     Rsum (Z.to_nat n) 0 (fun c => (tri_entry Half_Lower diag A r c * x' (c * s)%Z)%R)
     = b (r * s)%Z)
  /\ (forall p, (forall i, 0 <= i < n -> p <> i * s) -> x' p = b p).
Proof.
  cbv zeta.
  match goal with
  | |- context [for_up ?cnt ?start ?bd b] =>
      set (body := bd);
      pose proof (for_up_ind
        (fun k (x : Arr R) =>
           (forall r, 0 <= r < n ->
              ((if k <=? r then x (r * s)%Z else 0)
               + Rsum (Z.to_nat k) 0
                   (fun c => tri_entry Half_Lower diag A r c * x (c * s)%Z))%R
              = b (r * s)%Z)
           /\ (forall p, (forall i, 0 <= i < n -> p <> i * s) -> x p = b p))
        body cnt start b) as Hind
  end.
  rewrite Z2Nat.id in Hind by exact Hn.
  replace (0 + n) with n in Hind by lia.
  cbv beta in Hind.
  destruct Hind as [Hsum Hfr].
  - split; [| intros; reflexivity].
    intros r Hr. simpl Rsum.
    destruct (0 <=? r) eqn:E; [ring | zbool; lia].
  - intros k x Hk [Hsum Hfr].
    assert (Hin : forall xj y c,
              for_up (Z.to_nat (n - (k + 1))) (k + 1)
                (fun i x => upd x (i * s) (x (i * s)%Z [-] xj [*] A i k)) y (c * s)
              = if (k + 1 <=? c) && (c <? n) then (y (c * s)%Z - xj * A c k)%R
                else y (c * s)).
    { intros xj y c.
      rewrite (for_up_upd_strided (fun i v => v [-] xj [*] A i k) s _ Hs).
      replace (k + 1 + Z.of_nat (Z.to_nat (n - (k + 1)))) with n by lia.
      reflexivity. }
    assert (Hel : forall xj y p, (forall i, k + 1 <= i < n -> p <> i * s) ->
              for_up (Z.to_nat (n - (k + 1))) (k + 1)
                (fun i x => upd x (i * s) (x (i * s)%Z [-] xj [*] A i k)) y p = y p).
    { intros xj y p Hp. apply for_up_upd_elsewhere.
      intros i Hi. apply Hp. lia. }
    destruct (column_step Half_Lower k (k + 1) n x (body k x)
                (fun xj y =>
                   for_up (Z.to_nat (n - (k + 1))) (k + 1)
                     (fun i x => upd x (i * s) (x (i * s)%Z [-] xj [*] A i k)) y)
                ltac:(lia) ltac:(lia) ltac:(lia) ltac:(lia) Hin Hel eq_refl)
      as [Hd [Hrow [Hsame Hout]]].
    clearbody body.
    split.
    + intros r Hr.
      replace (Z.to_nat (k + 1)) with (S (Z.to_nat k)) by lia.
      rewrite Rsum_snoc. rewrite Z2Nat.id by lia. replace (0 + k) with k by lia.
      rewrite <- (Hsum r Hr).
      rewrite (Rsum_ext
                 (fun c => (tri_entry Half_Lower diag A r c * body k x (c * s)%Z)%R)
                 (fun c => (tri_entry Half_Lower diag A r c * x (c * s)%Z)%R)).
      2:{ intros c Hc. rewrite Hsame by lia. reflexivity. }
      destruct (Z.lt_trichotomy r k) as [Hlt | [Heq | Hgt]].
      * destruct (k + 1 <=? r) eqn:E1; [zbool; lia |].
        destruct (k <=? r) eqn:E2; [zbool; lia |].
        unfold tri_entry at 2.
        destruct (r =? k) eqn:E3; [zbool; lia |].
        destruct (k <? r) eqn:E4; [zbool; lia |]. ring.
      * subst r.
        destruct (k + 1 <=? k) eqn:E1; [zbool; lia |].
        destruct (k <=? k) eqn:E2; [| zbool; lia].
        rewrite Hd. ring.
      * destruct (k + 1 <=? r) eqn:E1; [| zbool; lia].
        destruct (k <=? r) eqn:E2; [| zbool; lia].
        rewrite <- (Hrow r ltac:(lia)).
        unfold tri_entry at 2.
        destruct (r =? k) eqn:E3; [zbool; lia |].
        destruct (k <? r) eqn:E4; [| zbool; lia]. ring.
    + intros p Hp. rewrite Hout by exact Hp. apply Hfr. exact Hp.
  - split.
    + intros r Hr. specialize (Hsum r Hr).
      destruct (n <=? r) eqn:E; [zbool; lia |].
      rewrite Rplus_0_l in Hsum. exact Hsum.
    + exact Hfr.
Qed.

(** The entries of a vector of which one component has been set. *)
Lemma upd_strided (x : Arr R) (k : Z) (v : R) (c : Z) :
  upd x (k * s) v (c * s) = if c =? k then v else x (c * s).
Proof.
  unfold upd. destruct (c =? k) eqn:E; zbool.
  - subst c. rewrite Z.eqb_refl. reflexivity.
  - destruct (c * s =? k * s) eqn:E2; [| reflexivity].
    zbool. apply stride_inj in E2. contradiction.
Qed.

(** [x := Inv(~A)*x] for an upper triangular [A]. *)
Lemma Tri_Solv_Vec_Yes_Upper (b : Arr R) :
  let x' :=
    for_up (Z.to_nat n) 0
      (fun j x =>
         let xj := for_up (Z.to_nat j) 0
                     (fun i xj => xj [-] A i j [*] x (i * s)%Z) (x (j * s)%Z) in
         let xj := match diag with
                   | Diag_NotUnit => xj [/] A j j
                   | Diag_IsUnit => xj
                   end in
         upd x (j * s) xj) b in
  (forall r, 0 <= r < n ->
     Rsum (Z.to_nat n) 0 (fun c => (tri_entry Half_Upper diag A c r * x' (c * s)%Z)%R)
     = b (r * s)%Z)
  /\ (forall p, (forall i, 0 <= i < n -> p <> i * s) -> x' p = b p).
Proof.
  cbv zeta.
  match goal with
  | |- context [for_up ?cnt ?start ?bd b] =>
      set (body := bd);
      pose proof (for_up_ind
        (fun k (x : Arr R) =>
           (forall r, 0 <= r < n ->
              if r <? k
              then Rsum (Z.to_nat n) 0
                     (fun c => (tri_entry Half_Upper diag A c r * x (c * s)%Z)%R)
                   = b (r * s)%Z
              else x (r * s)%Z = b (r * s)%Z)
           /\ (forall p, (forall i, 0 <= i < n -> p <> i * s) -> x p = b p))
        body cnt start b) as Hind
  end.
  rewrite Z2Nat.id in Hind by exact Hn.
  replace (0 + n) with n in Hind by lia.
  cbv beta in Hind.
  destruct Hind as [Hsum Hfr].
  - split; [| intros; reflexivity].
    intros r Hr. destruct (r <? 0) eqn:E; [zbool; lia | reflexivity].
  - intros k x Hk [Hsum Hfr].
    unfold body. rewrite fold_minus_up.
    set (v := match diag with
              | Diag_NotUnit => _ [/] A k k
              | Diag_IsUnit => _
              end).
    assert (Hv : (tri_entry Half_Upper diag A k k * v
                  = x (k * s)%Z
                    - Rsum (Z.to_nat k) 0 (fun i => A i k [*] x (i * s)%Z))%R).
    { apply (divide_by_diag Half_Upper k). lia. }
    clearbody v. fold body.
    split.
    + intros r Hr.
      destruct (Z.lt_trichotomy r k) as [Hlt | [Heq | Hgt]].
      * destruct (r <? k + 1) eqn:E1; [| zbool; lia].
        specialize (Hsum r Hr). destruct (r <? k) eqn:E2; [| zbool; lia].
        rewrite <- Hsum. apply Rsum_ext. intros c Hc. rewrite upd_strided.
        destruct (c =? k) eqn:E3; [| reflexivity]. zbool. subst c.
        unfold tri_entry. destruct (k =? r) eqn:E4; [zbool; lia |].
        destruct (k <? r) eqn:E5; [zbool; lia |]. ring.
      * subst r. destruct (k <? k + 1) eqn:E1; [| zbool; lia].
        specialize (Hsum k Hr). destruct (k <? k) eqn:E2; [zbool; lia |].
        rewrite <- Hsum.
        rewrite (Rsum_trim _ (S (Z.to_nat k)) (Z.to_nat n) 0).
        -- rewrite Rsum_snoc. rewrite Z2Nat.id by lia. replace (0 + k) with k by lia.
           rewrite upd_strided, Z.eqb_refl. rewrite Hv.
           rewrite (Rsum_ext
                      (fun c => (tri_entry Half_Upper diag A c k
                                 * upd x (k * s) v (c * s)%Z)%R)
                      (fun i => A i k [*] x (i * s)%Z)).
           ++ ring.
           ++ intros c Hc. rewrite upd_strided.
              destruct (c =? k) eqn:E3; [zbool; lia |].
              unfold tri_entry. rewrite E3.
              destruct (c <? k) eqn:E4; [reflexivity | zbool; lia].
        -- lia.
        -- intros c Hc. unfold tri_entry.
           destruct (c =? k) eqn:E3; [zbool; lia |].
           destruct (c <? k) eqn:E4; [zbool; lia |]. ring.
      * destruct (r <? k + 1) eqn:E1; [zbool; lia |].
        specialize (Hsum r Hr). destruct (r <? k) eqn:E2; [zbool; lia |].
        rewrite upd_strided. destruct (r =? k) eqn:E3; [zbool; lia | exact Hsum].
    + intros p Hp. unfold upd. destruct (p =? k * s) eqn:E.
      * zbool. exfalso. apply (Hp k); [lia | exact E].
      * apply Hfr. exact Hp.
  - split.
    + intros r Hr. specialize (Hsum r Hr).
      destruct (r <? n) eqn:E; [exact Hsum | zbool; lia].
    + exact Hfr.
Qed.

(** [x := Inv(~A)*x] for a lower triangular [A]. *)
Lemma Tri_Solv_Vec_Yes_Lower (b : Arr R) :
  let x' :=
    for_down (Z.to_nat (n - 1 + 1)) (n - 1)
      (fun j x =>
         let xj := for_down (Z.to_nat (n - 1 - j)) (n - 1)
                     (fun i xj => xj [-] A i j [*] x (i * s)%Z) (x (j * s)%Z) in
         let xj := match diag with
                   | Diag_NotUnit => xj [/] A j j
                   | Diag_IsUnit => xj
                   end in
         upd x (j * s) xj) b in
  (forall r, 0 <= r < n ->
     Rsum (Z.to_nat n) 0 (fun c => (tri_entry Half_Lower diag A c r * x' (c * s)%Z)%R)
     = b (r * s)%Z)
  /\ (forall p, (forall i, 0 <= i < n -> p <> i * s) -> x' p = b p).
Proof.
  cbv zeta. replace (n - 1 + 1) with n by lia.
  match goal with
  | |- context [for_down ?cnt ?start ?bd b] =>
      set (body := bd);
      pose proof (for_down_ind
        (fun k (x : Arr R) =>
           (forall r, 0 <= r < n ->
              if k <? r
              then Rsum (Z.to_nat n) 0
                     (fun c => (tri_entry Half_Lower diag A c r * x (c * s)%Z)%R)
                   = b (r * s)%Z
              else x (r * s)%Z = b (r * s)%Z)
           /\ (forall p, (forall i, 0 <= i < n -> p <> i * s) -> x p = b p))
        body cnt start b) as Hind
  end.
  rewrite Z2Nat.id in Hind by exact Hn.
  replace (n - 1 - n) with (-1) in Hind by lia.
  cbv beta in Hind.
  destruct Hind as [Hsum Hfr].
  - split; [| intros; reflexivity].
    intros r Hr. destruct (n - 1 <? r) eqn:E; [zbool; lia | reflexivity].
  - intros k x Hk [Hsum Hfr].
    unfold body. rewrite fold_minus_down.
    rewrite Z2Nat.id by lia. replace (n - 1 - (n - 1 - k) + 1) with (k + 1) by lia.
    set (v := match diag with
              | Diag_NotUnit => _ [/] A k k
              | Diag_IsUnit => _
              end).
    assert (Hv : (tri_entry Half_Lower diag A k k * v
                  = x (k * s)%Z
                    - Rsum (Z.to_nat (n - 1 - k)) (k + 1)
                        (fun i => A i k [*] x (i * s)%Z))%R).
    { apply (divide_by_diag Half_Lower k). lia. }
    clearbody v. fold body.
    split.
    + intros r Hr.
      destruct (Z.lt_trichotomy r k) as [Hlt | [Heq | Hgt]].
      * destruct (k - 1 <? r) eqn:E1; [zbool; lia |].
        specialize (Hsum r Hr). destruct (k <? r) eqn:E2; [zbool; lia |].
        rewrite upd_strided. destruct (r =? k) eqn:E3; [zbool; lia | exact Hsum].
      * subst r. destruct (k - 1 <? k) eqn:E1; [| zbool; lia].
        specialize (Hsum k Hr). destruct (k <? k) eqn:E2; [zbool; lia |].
        rewrite <- Hsum.
        replace (Z.to_nat n) with (Z.to_nat k + S (Z.to_nat (n - 1 - k)))%nat by lia.
        rewrite Rsum_app. rewrite Z2Nat.id by lia. replace (0 + k) with k by lia.
        rewrite Rsum_zero.
        -- cbn [Rsum]. rewrite upd_strided, Z.eqb_refl. rewrite Hv.
           rewrite (Rsum_ext
                      (fun c => (tri_entry Half_Lower diag A c k
                                 * upd x (k * s) v (c * s)%Z)%R)
                      (fun i => A i k [*] x (i * s)%Z)).
           ++ ring.
           ++ intros c Hc. rewrite upd_strided.
              destruct (c =? k) eqn:E3; [zbool; lia |].
              unfold tri_entry. rewrite E3.
              destruct (k <? c) eqn:E4; [reflexivity | zbool; lia].
        -- intros c Hc. unfold tri_entry.
           destruct (c =? k) eqn:E3; [zbool; lia |].
           destruct (k <? c) eqn:E4; [zbool; lia |]. ring.
      * destruct (k - 1 <? r) eqn:E1; [| zbool; lia].
        specialize (Hsum r Hr). destruct (k <? r) eqn:E2; [| zbool; lia].
        rewrite <- Hsum. apply Rsum_ext. intros c Hc. rewrite upd_strided.
        destruct (c =? k) eqn:E3; [| reflexivity]. zbool. subst c.
        unfold tri_entry. destruct (k =? r) eqn:E4; [zbool; lia |].
        destruct (r <? k) eqn:E5; [zbool; lia |]. ring.
    + intros p Hp. unfold upd. destruct (p =? k * s) eqn:E.
      * zbool. exfalso. apply (Hp k); [lia | exact E].
      * apply Hfr. exact Hp.
  - split.
    + intros r Hr. specialize (Hsum r Hr).
      destruct (-1 <? r) eqn:E; [exact Hsum | zbool; lia].
    + exact Hfr.
Qed.


End TriangularSolve.

(** X21.  [Tri_Solv_Vec] in exact arithmetic, for [half] one of
    [Half::Upper], [Half::Lower], [n] in the range of [Index],
    [A_ld >= Max(1,n)], a stride of [x] that is not zero and, for
    [Diag::NotUnit], a diagonal without zeros: the call returns and the
    vector [x'] it leaves solves the system [op(A)*x' = x], where [op(A)] is
    the named triangle of [A] (with ones on the diagonal for
    [Diag::IsUnit]), transposed for [Trnsp::Yes] and [Trnsp::Conj]; no
    position of [x] other than its [n] components is changed. *)
Theorem Tri_Solv_Vec_solves_the_system (half : Half) (A_trnsp : Trnsp) (diag : Diag)
  (n : Z) (A : Mat R) (A_ld : Z) (x : Arr R) (x_s : Z) :
  half <> Half_Both ->
  0 <= n < 2 ^ (Size_bits - 1) ->
  Z.max 1 n <= A_ld ->
  x_s <> 0 ->
  (diag = Diag_NotUnit -> forall i, 0 <= i < n -> A i i <> 0%R) ->
  exists x',
    Tri_Solv_Vec half A_trnsp diag n A A_ld x x_s = Ok x'
    /\ (forall r, 0 <= r < n ->
          Rank1Spec.Rsum (Z.to_nat n) 0
            (fun c => (tri_op_entry half A_trnsp diag A r c * x' (c * x_s)%Z)%R)
          = x (r * x_s))
    /\ (forall p, (forall i, 0 <= i < n -> p <> i * x_s) -> x' p = x p).
Proof.
  intros Hhalf Hn Hld Hs Hdiag.
  assert (Hn0 : 0 <= n) by lia.
  assert (Hpow : 2 ^ (Size_bits - 1) = 9223372036854775808) by reflexivity.
  unfold Tri_Solv_Vec.
  rewrite (to_Index_small (Z.max 1 n)) by lia.
  rewrite (to_Index_small (n - 1)) by lia.
  rewrite (to_Index_small n) by lia.
  destruct (A_ld <? Z.max 1 n) eqn:Eld; [zbool; lia |].
  destruct half; [| | contradiction]; cbn [Half_eqb]; cbv zeta;
    destruct A_trnsp; eexists; (split; [reflexivity |]); unfold tri_op_entry.
  - exact (Tri_Solv_Vec_No_Upper A diag n x_s Hn0 Hs Hdiag x).
  - exact (Tri_Solv_Vec_Yes_Upper A diag n x_s Hn0 Hs Hdiag x).
  - exact (Tri_Solv_Vec_Yes_Upper A diag n x_s Hn0 Hs Hdiag x).
  - exact (Tri_Solv_Vec_No_Lower A diag n x_s Hn0 Hs Hdiag x).
  - exact (Tri_Solv_Vec_Yes_Lower A diag n x_s Hn0 Hs Hdiag x).
  - exact (Tri_Solv_Vec_Yes_Lower A diag n x_s Hn0 Hs Hdiag x).
Qed.

Lemma Tri_Solv_Vec_solves_the_system_witness :
  exists x',
    Tri_Solv_Vec Half_Upper Trnsp_No Diag_NotUnit 2 (fun _ _ => 2%R) 2
      (fun _ => 1%R) 1 = Ok x'
    /\ (forall r, 0 <= r < 2 ->
          Rank1Spec.Rsum (Z.to_nat 2) 0
            (fun c => (tri_op_entry Half_Upper Trnsp_No Diag_NotUnit (fun _ _ => 2%R) r c
                       * x' (c * 1)%Z)%R)
          = 1%R)
    /\ (forall p, (forall i, 0 <= i < 2 -> p <> i * 1) -> x' p = 1%R).
Proof.
  apply (Tri_Solv_Vec_solves_the_system Half_Upper Trnsp_No Diag_NotUnit 2
           (fun _ _ => 2%R) 2 (fun _ => 1%R) 1).
  - discriminate.
  - vm_compute. split; [discriminate | reflexivity].
  - vm_compute. discriminate.
  - lia.
  - intros _ i _. lra.
Defined.

(** ** Ort_From_QR and Ort_From_QL without reflectors *)

Section UnitColumns.
Context {T : Type} `{Scalar T}.

(** The loop that sets columns to columns of the unit matrix: column [j]
    gets zeros in its first [m] rows and then a one in row [g j]. *)
Lemma unit_columns (g : Z -> Z) (m : Z) count : forall j0 (A : Mat T) i j,
  for_up count j0
    (fun j A =>
       let A := for_up (Z.to_nat m) 0 (fun h A => mupd A h j zero) A in
       mupd A (g j) j unit) A i j
  = if (j0 <=? j) && (j <? j0 + Z.of_nat count)
    then if i =? g j then unit
         else if (0 <=? i) && (i <? m) then zero else A i j
    else A i j.
Proof.
  induction count as [| c IH]; intros j0 A i j; cbn [for_up].
  - destruct (j0 <=? j) eqn:E1; destruct (j <? j0 + Z.of_nat 0) eqn:E2; simpl;
      try reflexivity. zbool. lia.
  - rewrite IH. cbv zeta.
    assert (Hcol : forall i' j',
              mupd (for_up (Z.to_nat m) 0 (fun h A => mupd A h j0 zero) A)
                (g j0) j0 unit i' j'
              = if j' =? j0
                then if i' =? g j0 then unit
                     else if (0 <=? i') && (i' <? m) then zero else A i' j'
                else A i' j').
    { intros i' j'. unfold mupd at 1.
      rewrite (for_up_mupd_pointwise (fun _ _ => zero) j0).
      destruct (j' =? j0) eqn:Ej; destruct (i' =? g j0) eqn:Ei; cbn [andb];
        try reflexivity.
      destruct (0 <=? i') eqn:E1; destruct (i' <? m) eqn:E2;
        destruct (i' <? 0 + Z.of_nat (Z.to_nat m)) eqn:E3; cbn [andb];
        try reflexivity; zbool; lia. }
    rewrite Hcol.
    destruct (j =? j0) eqn:Ej;
      destruct (j0 + 1 <=? j) eqn:E1; destruct (j <? j0 + 1 + Z.of_nat c) eqn:E2;
      destruct (j0 <=? j) eqn:E3; destruct (j <? j0 + Z.of_nat (S c)) eqn:E4;
      simpl; try reflexivity; zbool; try lia.
    all: subst j; reflexivity.
Qed.

End UnitColumns.

(** X22.  [Ort_From_QR] called without reflectors ([k = 0]), for
    [n <= m] in the range of [Index] and every scalar type: it returns, the
    [m] by [n] block of [A] holds the first [n] columns of the unit matrix
    ([A(i,j) = 1] for [i = j], zero otherwise), and neither the rest of [A]
    nor [work] is changed. *)
Theorem Ort_From_QR_without_reflectors {T : Type} `{Scalar T}
  (m n : Z) (A : Mat T) (tau work : Arr T) :
  0 <= n <= m -> m < 2 ^ (Size_bits - 1) ->
  exists A',
    Ort_From_QR m n 0 A tau work = Ok (A', work)
    /\ forall i j,
         A' i j = if Rank1Spec.in_block m n i j
                  then if i =? j then unit else zero
                  else A i j.
Proof.
  intros Hn Hm.
  assert (Hpow : 2 ^ (Size_bits - 1) = 9223372036854775808) by reflexivity.
  unfold Ort_From_QR.
  destruct (n >? m) eqn:E1; [zbool; lia |].
  destruct (0 >? n) eqn:E2; [zbool; lia |].
  destruct (n =? 0) eqn:E3.
  - zbool. subst n. exists A. split; [reflexivity |].
    intros i j. unfold Rank1Spec.in_block.
    destruct (0 <=? j) eqn:E4; destruct (j <? 0) eqn:E5;
      rewrite ?andb_false_r; simpl; try reflexivity.
    zbool. lia.
  - zbool. cbv zeta.
    change (to_Index (0 - 1)) with (-1). change (to_Index 0) with 0.
    rewrite (to_Index_small n), (to_Index_small m) by lia.
    change (Z.to_nat (-1 + 1)) with 0%nat. cbn [for_down].
    eexists. split; [reflexivity |].
    intros i j. rewrite (unit_columns (fun j => j) m).
    unfold Rank1Spec.in_block.
    replace (0 + Z.of_nat (Z.to_nat (n - 0))) with n by lia.
    destruct (0 <=? j) eqn:E4; destruct (j <? n) eqn:E5;
      destruct (0 <=? i) eqn:E6; destruct (i <? m) eqn:E7;
      destruct (i =? j) eqn:E8; simpl; try reflexivity; zbool; lia.
Qed.

Lemma Ort_From_QR_without_reflectors_witness :
  exists A',
    Ort_From_QR 3 2 0 (fun i j => b64 (i + j)) (b64_arr []) (b64_arr []) = Ok (A', b64_arr [])
    /\ forall i j,
         A' i j = if Rank1Spec.in_block 3 2 i j
                  then if i =? j then unit else zero
                  else b64 (i + j).
Proof.
  apply (Ort_From_QR_without_reflectors 3 2 (fun i j => b64 (i + j))
           (b64_arr []) (b64_arr [])).
  - lia.
  - vm_compute. reflexivity.
Defined.

(** X23.  [Ort_From_QL] called without reflectors ([k = 0]), for
    [n <= m] in the range of [Index] and every scalar type: it returns, the
    [m] by [n] block of [A] holds the last [n] columns of the unit matrix of
    order [m] ([A(i,j) = 1] for [i = m - n + j], zero otherwise), and neither
    the rest of [A] nor [work] is changed. *)
Theorem Ort_From_QL_without_reflectors {T : Type} `{Scalar T}
  (m n : Z) (A : Mat T) (tau work : Arr T) :
  0 <= n <= m -> m < 2 ^ (Size_bits - 1) ->
  exists A',
    Ort_From_QL m n 0 A tau work = Ok (A', work)
    /\ forall i j,
         A' i j = if Rank1Spec.in_block m n i j
                  then if i =? m - n + j then unit else zero
                  else A i j.
Proof.
  intros Hn Hm.
  assert (Hpow : 2 ^ (Size_bits - 1) = 9223372036854775808) by reflexivity.
  unfold Ort_From_QL.
  destruct (n >? m) eqn:E1; [zbool; lia |].
  destruct (0 >? n) eqn:E2; [zbool; lia |].
  destruct (n =? 0) eqn:E3.
  - zbool. subst n. exists A. split; [reflexivity |].
    intros i j. unfold Rank1Spec.in_block.
    destruct (0 <=? j) eqn:E4; destruct (j <? 0) eqn:E5;
      rewrite ?andb_false_r; simpl; try reflexivity.
    zbool. lia.
  - zbool. cbv zeta.
    change (to_Index 0) with 0.
    rewrite (to_Index_small (n - 0)), (to_Index_small m) by lia.
    change (Z.to_nat 0) with 0%nat. cbn [for_up].
    eexists. split; [reflexivity |].
    intros i j. rewrite (unit_columns (fun j => m - n + j) m).
    unfold Rank1Spec.in_block.
    replace (0 + Z.of_nat (Z.to_nat (n - 0))) with n by lia.
    destruct (0 <=? j) eqn:E4; destruct (j <? n) eqn:E5;
      destruct (0 <=? i) eqn:E6; destruct (i <? m) eqn:E7;
      destruct (i =? m - n + j) eqn:E8; simpl; try reflexivity; zbool; lia.
Qed.

Lemma Ort_From_QL_without_reflectors_witness :
  exists A',
    Ort_From_QL 3 2 0 (fun i j => b64 (i + j)) (b64_arr []) (b64_arr []) = Ok (A', b64_arr [])
    /\ forall i j,
         A' i j = if Rank1Spec.in_block 3 2 i j
                  then if i =? 3 - 2 + j then unit else zero
                  else b64 (i + j).
Proof.
  apply (Ort_From_QL_without_reflectors 3 2 (fun i j => b64 (i + j))
           (b64_arr []) (b64_arr [])).
  - lia.
  - vm_compute. reflexivity.
Defined.

(** ** A generated reflector, applied *)

Section ReflectorComposed.
Import Rank1Spec.
Local Open Scope R_scope.

Lemma Rsum_shift (g : Z -> R) count : forall i0,
  Rsum count (i0 + 1) (fun k => g (k - 1)%Z) = Rsum count i0 g.
Proof.
  induction count as [| c IH]; intros i0; cbn [Rsum]; [reflexivity |].
  rewrite IH. replace (i0 + 1 - 1)%Z with i0 by lia. reflexivity.
Qed.

Lemma Rfl_VecGen_annihilates (n : Z) (alpha : R) (x : Arr R) (x_s : Z) (tau : R)
  (work : Arr R) :
  (2 <= n < 2 ^ (Size_bits - 1))%Z -> x_s <> 0%Z ->
  (exists i, (0 <= i < n - 1)%Z /\ x (i * x_s)%Z <> 0) ->
  let '(beta, x', tau') := Rfl_VecGen n alpha x x_s tau in
  let v := fun k => if (k =? 0)%Z then 1 else x' ((k - 1) * x_s)%Z in
  let C := fun i (_ : Z) => if (i =? 0)%Z then alpha else x ((i - 1) * x_s)%Z in
  forall i, (0 <= i < n)%Z ->
    fst (Rfl_MatMul Side_Left n 1 v 1 tau' C work) i 0%Z
    = if (i =? 0)%Z then beta else 0.
Proof.
  intros Hn Hs Hnz.
  pose proof (Rfl_VecGen_R n alpha x x_s tau ltac:(lia) Hs Hnz) as Hgen.
  destruct (Rfl_VecGen n alpha x x_s tau) as [[beta x'] tau'].
  cbv zeta in Hgen. destruct Hgen as [Hsq [Hneg [Hpos [Htau [Hx' _]]]]].
  cbv zeta. intros i Hi.
  rewrite Rfl_MatMul_Left_R; [| lia | vm_compute; split; [discriminate | reflexivity] | lia].
  unfold rank1_left, in_block.
  assert (Hin : ((0 <=? i) && (i <? n) && (0 <=? 0) && (0 <? 1))%Z = true).
  { destruct (0 <=? i)%Z eqn:E1; destruct (i <? n)%Z eqn:E2; try reflexivity;
      zbool; lia. }
  rewrite Hin.
  assert (Hab : alpha - beta <> 0).
  { destruct (Rle_lt_dec 0 alpha) as [Ha | Ha].
    - specialize (Hneg Ha). lra.
    - specialize (Hpos Ha). lra. }
  assert (Hb : beta <> 0).
  { destruct (Rle_lt_dec 0 alpha) as [Ha | Ha].
    - specialize (Hneg Ha). lra.
    - specialize (Hpos Ha). lra. }
  set (sq := Rsum (Z.to_nat (n - 1)) 0 (fun i => x (i * x_s)%Z * x (i * x_s)%Z)) in *.
  assert (Hw : Rsum (Z.to_nat n) 0
                 (fun k => (if (k * 1 =? 0)%Z then 1 else x' ((k * 1 - 1) * x_s)%Z)
                           * (if (k =? 0)%Z then alpha else x ((k - 1) * x_s)%Z))
               = alpha + sq / (alpha - beta)).
  { replace (Z.to_nat n) with (S (Z.to_nat (n - 1))) by lia.
    cbn [Rsum]. change (0 * 1 =? 0)%Z with true. change (0 =? 0)%Z with true.
    cbv iota.
    rewrite (Rsum_ext _ (fun k => (fun j => / (alpha - beta)
                                            * (x (j * x_s)%Z * x (j * x_s)%Z))
                                    (k - 1)%Z)).
    - rewrite (Rsum_shift
                 (fun j => / (alpha - beta) * (x (j * x_s)%Z * x (j * x_s)%Z))).
      rewrite Rsum_scal. fold sq. field. exact Hab.
    - intros k Hk. cbv beta.
      destruct (k * 1 =? 0)%Z eqn:E1; [zbool; lia |].
      destruct (k =? 0)%Z eqn:E2; [zbool; lia |].
      replace (k * 1 - 1)%Z with (k - 1)%Z by lia.
      rewrite Hx' by lia. field. exact Hab. }
  rewrite Hw.
  assert (Hwv : alpha + sq / (alpha - beta) = - beta).
  { apply Rmult_eq_reg_r with (alpha - beta); [| exact Hab].
    replace ((alpha + sq / (alpha - beta)) * (alpha - beta))
      with (alpha * alpha - alpha * beta + sq) by (field; exact Hab).
    nra. }
  rewrite Hwv, Htau.
  destruct (i =? 0)%Z eqn:E0.
  - zbool. subst i. change (0 * 1 =? 0)%Z with true. cbv iota. field. exact Hb.
  - destruct (i * 1 =? 0)%Z eqn:E1; [zbool; lia |].
    replace (i * 1 - 1)%Z with (i - 1)%Z by lia.
    rewrite Hx' by (zbool; lia). field. split; assumption.
Qed.

End ReflectorComposed.

(** X24.  [Rfl_VecGen] followed by [Rfl_MatMul], in exact arithmetic, for
    [2 <= n] in the range of [Index], a stride that is not zero and a vector
    [x] that is not zero.  Let [beta], [x'] and [tau'] be what [Rfl_VecGen]
    leaves for [(alpha, x)], and [v = (1, x')].  Applying the reflector from
    the left with [Rfl_MatMul] to the column [(alpha, x)] gives the column
    [(beta, 0, ..., 0)]. *)
Theorem Rfl_VecGen_then_Rfl_MatMul (n : Z) (alpha : R) (x : Arr R) (x_s : Z)
  (tau : R) (work : Arr R) :
  2 <= n < 2 ^ (Size_bits - 1) -> x_s <> 0 ->
  (exists i, 0 <= i < n - 1 /\ x (i * x_s) <> 0%R) ->
  let '(beta, x', tau') := Rfl_VecGen n alpha x x_s tau in
  let v := fun k => if k =? 0 then 1%R else x' ((k - 1) * x_s) in
  let C := fun i (_ : Z) => if i =? 0 then alpha else x ((i - 1) * x_s) in
  forall i, 0 <= i < n ->
    fst (Rfl_MatMul Side_Left n 1 v 1 tau' C work) i 0
    = if i =? 0 then beta else 0%R.
Proof.
  apply Rfl_VecGen_annihilates.
Qed.

Lemma Rfl_VecGen_then_Rfl_MatMul_witness :
  let '(beta, x', tau') := Rfl_VecGen 2 3%R (fun _ => 4%R) 1 0%R in
  fst (Rfl_MatMul Side_Left 2 1 (fun k => if k =? 0 then 1%R else x' ((k - 1) * 1))
         1 tau' (fun i (_ : Z) => if i =? 0 then 3%R else 4%R) (fun _ => 0%R)) 1 0
  = 0%R.
Proof.
  pose proof (Rfl_VecGen_then_Rfl_MatMul 2 3%R (fun _ => 4%R) 1 0%R (fun _ => 0%R)) as W.
  destruct (Rfl_VecGen 2 3%R (fun _ => 4%R) 1 0%R) as [[beta x'] tau'].
  apply (W ltac:(vm_compute; split; [discriminate | reflexivity]) ltac:(lia)
           ltac:(exists 0; split; [lia | lra]) 1).
  lia.
Defined.

(** ** Sym_Norm in exact arithmetic *)

Section SymmetricNorm.
Import Rank1Spec.
Local Open Scope R_scope.

Lemma norm_max_R (value u : R) : norm_max value u = Rmax value u.
Proof. unfold norm_max. apply norm_update_R. Qed.

(** A loop that keeps the largest of the values [g i]. *)
Lemma max_fold (g : Z -> R) count : forall i0 (v0 : R),
  let r := for_up count i0 (fun i v => norm_max v (g i)) v0 in
  v0 <= r
  /\ (forall i, (i0 <= i < i0 + Z.of_nat count)%Z -> g i <= r)
  /\ (r = v0 \/ exists i, (i0 <= i < i0 + Z.of_nat count)%Z /\ r = g i).
Proof.
  induction count as [| c IH]; intros i0 v0; cbn [for_up].
  - cbv zeta. split; [lra |]. split; [intros i Hi; lia | left; reflexivity].
  - specialize (IH (i0 + 1)%Z (norm_max v0 (g i0))). cbv zeta in IH |- *.
    rewrite norm_max_R in IH |- *.
    set (r := for_up c (i0 + 1)%Z (fun i v => norm_max v (g i)) (Rmax v0 (g i0))) in *.
    destruct IH as [H0 [Hall Hwho]].
    pose proof (Rmax_l v0 (g i0)). pose proof (Rmax_r v0 (g i0)).
    split; [lra |]. split.
    + intros i Hi. destruct (Z.eq_dec i i0) as [-> | Hne]; [lra |].
      apply Hall. lia.
    + destruct Hwho as [E | [i [Hi E]]].
      * unfold Rmax in E. destruct (Rle_dec v0 (g i0)).
        -- right. exists i0. split; [lia | exact E].
        -- left. exact E.
      * right. exists i. split; [lia | exact E].
Qed.

(** The loop of the one norm: [sum] collects the values [a i], and each is
    added to [work[i]] too. *)
Lemma sum_and_spread (a : Z -> R) count : forall i0 (s0 : R) (w0 : Arr R),
  let st :=
    for_up count i0
      (fun i '(sum, work) =>
         let aij := a i in
         (sum [+] aij, upd work i (work i [+] aij))) (s0, w0) in
  fst st = s0 + Rsum count i0 a
  /\ forall t, snd st t
               = if ((i0 <=? t) && (t <? i0 + Z.of_nat count))%Z
                 then w0 t + a t else w0 t.
Proof.
  induction count as [| c IH]; intros i0 s0 w0; cbn [for_up Rsum].
  - cbv zeta. cbn [fst snd]. split; [ring |].
    intros t. destruct (i0 <=? t)%Z eqn:E1; destruct (t <? i0 + Z.of_nat 0)%Z eqn:E2;
      cbn [andb]; try reflexivity. zbool. lia.
  - cbv zeta in IH |- *.
    specialize (IH (i0 + 1)%Z (s0 [+] a i0) (upd w0 i0 (w0 i0 [+] a i0))).
    destruct IH as [Hs Hw]. split.
    + rewrite Hs. change (s0 [+] a i0) with (s0 + a i0). ring.
    + intros t. rewrite Hw. unfold upd.
      change (w0 i0 [+] a i0) with (w0 i0 + a i0).
      destruct (t =? i0)%Z eqn:Et;
        destruct (i0 + 1 <=? t)%Z eqn:E1; destruct (t <? i0 + 1 + Z.of_nat c)%Z eqn:E2;
        destruct (i0 <=? t)%Z eqn:E3; destruct (t <? i0 + Z.of_nat (S c))%Z eqn:E4;
        cbn [andb]; try reflexivity; zbool; try lia.
      all: subst t; reflexivity.
Qed.

Variables (A : Mat R) (n : Z).
Hypothesis Hn : (1 <= n)%Z.

Lemma Sym_Norm_Max_Upper_R :
  let r :=
    for_up (Z.to_nat n) 0
      (fun j value =>
         for_up (Z.to_nat (j + 1)) 0
           (fun i value => norm_max value (Abs (A i j))) value) zero in
  (forall i j, (0 <= i <= j)%Z -> (j < n)%Z -> Rabs (A i j) <= r)
  /\ (exists i j, (0 <= i <= j)%Z /\ (j < n)%Z /\ r = Rabs (A i j)).
Proof.
  cbv zeta.
  match goal with
  | |- context [for_up ?cnt ?start ?bd zero] =>
      set (body := bd);
      pose proof (for_up_ind
        (fun k (v : R) =>
           0 <= v
           /\ (forall i j, (0 <= i <= j)%Z -> (j < k)%Z -> Rabs (A i j) <= v)
           /\ (v = 0 \/ exists i j, (0 <= i <= j)%Z /\ (j < k)%Z /\ v = Rabs (A i j)))
        body cnt start zero) as Hind
  end.
  rewrite Z2Nat.id in Hind by lia. replace (0 + n)%Z with n in Hind by lia.
  cbv beta in Hind.
  destruct Hind as [H0 [Hall Hwho]].
  - change (@zero R R_Scalar) with 0. split; [lra |].
    split; [intros i j Hi Hj; lia | left; reflexivity].
  - intros k v Hk [H0 [Hall Hwho]]. unfold body.
    pose proof (max_fold (fun i => Abs (A i k)) (Z.to_nat (k + 1)) 0%Z v) as Hm.
    cbv zeta beta in Hm.
    set (r := for_up (Z.to_nat (k + 1)) 0%Z
                (fun i value => norm_max value (Abs (A i k))) v) in *.
    destruct Hm as [Hv [Hcol Hsel]].
    split; [lra |]. split.
    + intros i j Hi Hj. destruct (Z.eq_dec j k) as [-> | Hne].
      * apply (Hcol i). lia.
      * specialize (Hall i j Hi ltac:(lia)). lra.
    + destruct Hsel as [E | [i [Hi E]]].
      * destruct Hwho as [Ez | [i [j [Hi [Hj E2]]]]].
        -- left. lra.
        -- right. exists i, j. split; [exact Hi |]. split; [lia | lra].
      * right. exists i, k. split; [lia |]. split; [lia | exact E].
  - split; [exact Hall |].
    destruct Hwho as [Ez | Hex]; [| exact Hex].
    exists 0%Z, 0%Z. split; [lia |]. split; [lia |].
    pose proof (Hall 0%Z 0%Z ltac:(lia) ltac:(lia)) as Hle.
    pose proof (Rabs_pos (A 0%Z 0%Z)). lra.
Qed.

Lemma Sym_Norm_Max_Lower_R :
  let r :=
    for_up (Z.to_nat n) 0
      (fun j value =>
         for_up (Z.to_nat (n - j)) j
           (fun i value => norm_max value (Abs (A i j))) value) zero in
  (forall i j, (0 <= j <= i)%Z -> (i < n)%Z -> Rabs (A i j) <= r)
  /\ (exists i j, (0 <= j <= i)%Z /\ (i < n)%Z /\ r = Rabs (A i j)).
Proof.
  cbv zeta.
  match goal with
  | |- context [for_up ?cnt ?start ?bd zero] =>
      set (body := bd);
      pose proof (for_up_ind
        (fun k (v : R) =>
           0 <= v
           /\ (forall i j, (0 <= j <= i)%Z -> (i < n)%Z -> (j < k)%Z ->
                 Rabs (A i j) <= v)
           /\ (v = 0 \/ exists i j, (0 <= j <= i)%Z /\ (i < n)%Z /\ (j < k)%Z
                                     /\ v = Rabs (A i j)))
        body cnt start zero) as Hind
  end.
  rewrite Z2Nat.id in Hind by lia. replace (0 + n)%Z with n in Hind by lia.
  cbv beta in Hind.
  destruct Hind as [H0 [Hall Hwho]].
  - change (@zero R R_Scalar) with 0. split; [lra |].
    split; [intros i j Hi Hin Hj; lia | left; reflexivity].
  - intros k v Hk [H0 [Hall Hwho]]. unfold body.
    pose proof (max_fold (fun i => Abs (A i k)) (Z.to_nat (n - k)) k v) as Hm.
    cbv zeta beta in Hm.
    set (r := for_up (Z.to_nat (n - k)) k
                (fun i value => norm_max value (Abs (A i k))) v) in *.
    destruct Hm as [Hv [Hcol Hsel]].
    split; [lra |]. split.
    + intros i j Hi Hin Hj. destruct (Z.eq_dec j k) as [-> | Hne].
      * apply (Hcol i). lia.
      * specialize (Hall i j Hi Hin ltac:(lia)). lra.
    + destruct Hsel as [E | [i [Hi E]]].
      * destruct Hwho as [Ez | [i [j [Hi [Hin [Hj E2]]]]]].
        -- left. lra.
        -- right. exists i, j. split; [exact Hi |]. split; [exact Hin |].
           split; [lia | lra].
      * right. exists i, k. split; [lia |]. split; [lia |]. split; [lia | exact E].
  - split; [intros i j Hi Hin; apply Hall; [exact Hi | exact Hin | lia] |].
    destruct Hwho as [Ez | [i [j [Hi [Hin [_ E]]]]]].
    + exists 0%Z, 0%Z. split; [lia |]. split; [lia |].
      pose proof (Hall 0%Z 0%Z ltac:(lia) ltac:(lia) ltac:(lia)) as Hle.
      pose proof (Rabs_pos (A 0%Z 0%Z)). lra.
    + exists i, j. split; [exact Hi |]. split; [exact Hin | exact E].
Qed.

Lemma Sym_rowsum_nonneg half i : 0 <= Sym_rowsum half n A i.
Proof. apply Rsum_nonneg. intros k. apply Rabs_pos. Qed.

(** The largest of the row sums, once they are known. *)
Lemma largest_row_sum half (r : R) :
  0 <= r ->
  (forall i, (0 <= i < n)%Z -> Sym_rowsum half n A i <= r) ->
  (r = 0 \/ exists i, (0 <= i < n)%Z /\ r = Sym_rowsum half n A i) ->
  exists i, (0 <= i < n)%Z /\ r = Sym_rowsum half n A i.
Proof.
  intros H0 Hall [Ez | Hex]; [| exact Hex].
  exists 0%Z. split; [lia |].
  pose proof (Hall 0%Z ltac:(lia)). pose proof (Sym_rowsum_nonneg half 0%Z). lra.
Qed.

Lemma Sym_Norm_One_Upper_R (work : Arr R) :
  let work1 :=
    for_up (Z.to_nat n) 0
      (fun j work =>
         let '(sum, work) :=
           for_up (Z.to_nat (j - 1 + 1)) 0
             (fun i '(sum, work) =>
                let aij := Abs (A i j) in
                (sum [+] aij, upd work i (work i [+] aij)))
             (zero, work) in
         upd work j (sum [+] Abs (A j j))) work in
  let r := for_up (Z.to_nat n) 0 (fun i value => norm_max value (work1 i)) zero in
  (forall i, (0 <= i < n)%Z -> Sym_rowsum Half_Upper n A i <= r)
  /\ (exists i, (0 <= i < n)%Z /\ r = Sym_rowsum Half_Upper n A i).
Proof.
  cbv zeta.
  match goal with
  | |- context [for_up ?cnt ?start ?bd work] =>
      set (body := bd);
      pose proof (for_up_ind
        (fun k (w : Arr R) =>
           forall i, (0 <= i < k)%Z ->
             w i = Rsum (Z.to_nat k) 0 (fun c => Rabs (sym_entry Half_Upper A i c)))
        body cnt start work) as Hind
  end.
  rewrite Z2Nat.id in Hind by lia. replace (0 + n)%Z with n in Hind by lia.
  cbv beta in Hind.
  assert (Hrows : forall i, (0 <= i < n)%Z ->
            for_up (Z.to_nat n) 0%Z body work i = Sym_rowsum Half_Upper n A i).
  { apply Hind.
    - intros i Hi. lia.
    - intros k w Hk Hw i Hi. unfold body.
      pose proof (sum_and_spread (fun i => Abs (A i k)) (Z.to_nat (k - 1 + 1)) 0%Z
                    zero w) as Hsp.
      cbv zeta beta in Hsp.
      destruct (for_up (Z.to_nat (k - 1 + 1)) 0%Z
                  (fun i '(sum, work) =>
                     let aij := Abs (A i k) in
                     (sum [+] aij, upd work i (work i [+] aij))) (zero, w))
        as [sum w2].
      cbn [fst snd] in Hsp. destruct Hsp as [Hsum Hw2].
      replace (Z.to_nat (k + 1)) with (S (Z.to_nat k)) by lia.
      rewrite Rsum_snoc. rewrite Z2Nat.id by lia. replace (0 + k)%Z with k by lia.
      unfold upd. destruct (i =? k)%Z eqn:Eik.
      + zbool. subst i. rewrite Hsum.
        change (@zero R R_Scalar) with 0.
        change ((0 + Rsum (Z.to_nat (k - 1 + 1)) 0 (fun i => Abs (A i k)))
                [+] Abs (A k k))
          with (0 + Rsum (Z.to_nat (k - 1 + 1)) 0 (fun i => Abs (A i k))
                + Rabs (A k k)).
        replace (k - 1 + 1)%Z with k by lia.
        rewrite (Rsum_ext (fun c => Rabs (sym_entry Half_Upper A k c))
                   (fun i => Abs (A i k))).
        * assert (Hse : sym_entry Half_Upper A k k = A k k).
          { unfold sym_entry. rewrite Z.leb_refl. reflexivity. }
          rewrite Hse. change (Abs (A k k)) with (Rabs (A k k)). ring.
        * intros c Hc. unfold sym_entry.
          destruct (k <=? c)%Z eqn:E; [zbool; lia | reflexivity].
      + zbool. rewrite Hw2.
        assert (Hr : ((0 <=? i) && (i <? 0 + Z.of_nat (Z.to_nat (k - 1 + 1))))%Z = true).
        { apply andb_true_intro. split; [apply Z.leb_le | apply Z.ltb_lt]; lia. }
        rewrite Hr. rewrite Hw by lia.
        assert (Hse : sym_entry Half_Upper A i k = A i k).
        { unfold sym_entry. destruct (i <=? k)%Z eqn:E; [reflexivity | zbool; lia]. }
        rewrite Hse. reflexivity. }
  clearbody body. clear Hind.
  pose proof (max_fold (fun i => for_up (Z.to_nat n) 0%Z body work i)
                (Z.to_nat n) 0%Z zero) as Hm.
  cbv zeta beta in Hm. rewrite Z2Nat.id in Hm by lia.
  replace (0 + n)%Z with n in Hm by lia.
  set (r := for_up (Z.to_nat n) 0%Z
              (fun i value => norm_max value (for_up (Z.to_nat n) 0%Z body work i))
              zero) in *.
  change (@zero R R_Scalar) with 0 in Hm.
  destruct Hm as [H0 [Hall Hwho]].
  assert (Hall' : forall i, (0 <= i < n)%Z -> Sym_rowsum Half_Upper n A i <= r).
  { intros i Hi. rewrite <- (Hrows i Hi). apply Hall. exact Hi. }
  split; [exact Hall' |].
  apply largest_row_sum; [exact H0 | exact Hall' |].
  destruct Hwho as [E | [i [Hi E]]]; [left; exact E |].
  right. exists i. split; [exact Hi |]. rewrite <- (Hrows i Hi). exact E.
Qed.

Lemma Sym_Norm_One_Lower_R (work : Arr R) :
  let work0 := for_up (Z.to_nat n) 0 (fun i work => upd work i zero) work in
  let st :=
    for_up (Z.to_nat n) 0
      (fun j '(value, work) =>
         let sum := work j [+] Abs (A j j) in
         let '(sum, work) :=
           for_up (Z.to_nat (n - (j + 1))) (j + 1)
             (fun i '(sum, work) =>
                let aij := Abs (A i j) in
                (sum [+] aij, upd work i (work i [+] aij)))
             (sum, work) in
         (norm_max value sum, work))
      (zero, work0) in
  let r := fst st in
  (forall i, (0 <= i < n)%Z -> Sym_rowsum Half_Lower n A i <= r)
  /\ (exists i, (0 <= i < n)%Z /\ r = Sym_rowsum Half_Lower n A i).
Proof.
  cbv zeta.
  assert (Hw0 : forall t, (0 <= t < n)%Z ->
            for_up (Z.to_nat n) 0%Z (fun i work => upd work i zero) work t = 0).
  { intros t Ht.
    rewrite (for_up_upd_pointwise (fun _ _ => zero)).
    destruct (0 <=? t)%Z eqn:E1; destruct (t <? 0 + Z.of_nat (Z.to_nat n))%Z eqn:E2;
      cbn [andb]; try reflexivity; zbool; lia. }
  set (work0 := for_up (Z.to_nat n) 0%Z (fun i work => upd work i zero) work) in *.
  match goal with
  | |- context [for_up ?cnt ?start ?bd (zero, work0)] =>
      set (body := bd);
      pose proof (for_up_ind
        (fun k (st : R * Arr R) =>
           (forall i, (k <= i < n)%Z ->
              snd st i = Rsum (Z.to_nat k) 0 (fun c => Rabs (sym_entry Half_Lower A i c)))
           /\ 0 <= fst st
           /\ (forall i, (0 <= i < k)%Z -> Sym_rowsum Half_Lower n A i <= fst st)
           /\ (fst st = 0
               \/ exists i, (0 <= i < k)%Z /\ fst st = Sym_rowsum Half_Lower n A i))
        body cnt start (zero, work0)) as Hind
  end.
  rewrite Z2Nat.id in Hind by lia. replace (0 + n)%Z with n in Hind by lia.
  cbv beta in Hind.
  destruct Hind as [_ [H0 [Hall Hwho]]].
  - cbn [fst snd]. change (@zero R R_Scalar) with 0.
    split; [intros i Hi; rewrite Hw0 by lia; reflexivity |].
    split; [lra |]. split; [intros i Hi; lia | left; reflexivity].
  - intros k [v w] Hk [Hw [H0 [Hall Hwho]]]. cbn [fst snd] in Hw, H0, Hall, Hwho.
    pose proof (sum_and_spread (fun i => Abs (A i k)) (Z.to_nat (n - (k + 1)))
                  (k + 1)%Z (w k [+] Abs (A k k)) w) as Hsp.
    cbv zeta beta in Hsp.
    match type of Hsp with
    | context [fst ?t] => set (e := t) in *
    end.
    assert (Hbody : body k (v, w) = (norm_max v (fst e), snd e)).
    { transitivity (let '(sum, work) := e in (norm_max v sum, work));
        [reflexivity | destruct e; reflexivity]. }
    rewrite Hbody. clearbody e. destruct e as [sum w2].
    cbn [fst snd] in Hsp |- *. destruct Hsp as [Hsum Hw2].
    rewrite norm_max_R.
    assert (Hrow : sum = Sym_rowsum Half_Lower n A k).
    { rewrite Hsum. unfold Sym_rowsum.
      replace (Z.to_nat n) with (Z.to_nat k + S (Z.to_nat (n - (k + 1))))%nat by lia.
      rewrite Rsum_app. cbn [Rsum].
      rewrite Z2Nat.id by lia. replace (0 + k)%Z with k by lia.
      rewrite (Hw k) by lia.
      change (Rsum (Z.to_nat k) 0 (fun c => Rabs (sym_entry Half_Lower A k c))
              [+] Abs (A k k))
        with (Rsum (Z.to_nat k) 0 (fun c => Rabs (sym_entry Half_Lower A k c))
              + Rabs (A k k)).
      rewrite (Rsum_ext (fun j => Rabs (sym_entry Half_Lower A k j))
                 (fun i => Abs (A i k)) (Z.to_nat (n - (k + 1))) (k + 1)%Z).
      - assert (Hse : sym_entry Half_Lower A k k = A k k).
        { unfold sym_entry. rewrite Z.leb_refl. reflexivity. }
        rewrite Hse. change (Abs (A k k)) with (Rabs (A k k)). ring.
      - intros c Hc. unfold sym_entry.
        destruct (c <=? k)%Z eqn:E; [zbool; lia | reflexivity]. }
    pose proof (Rmax_l v sum). pose proof (Rmax_r v sum).
    split; [| split; [lra | split]].
    + intros i Hi. rewrite Hw2.
      assert (Hr : ((k + 1 <=? i) && (i <? k + 1 + Z.of_nat (Z.to_nat (n - (k + 1)))))%Z
                   = true).
      { apply andb_true_intro. split; [apply Z.leb_le | apply Z.ltb_lt]; lia. }
      rewrite Hr. rewrite Hw by lia.
      replace (Z.to_nat (k + 1)) with (S (Z.to_nat k)) by lia.
      rewrite Rsum_snoc. rewrite Z2Nat.id by lia. replace (0 + k)%Z with k by lia.
      assert (Hse : sym_entry Half_Lower A i k = A i k).
      { unfold sym_entry. destruct (k <=? i)%Z eqn:E; [reflexivity | zbool; lia]. }
      rewrite Hse. reflexivity.
    + intros i Hi. destruct (Z.eq_dec i k) as [-> | Hne]; [lra |].
      specialize (Hall i ltac:(lia)). lra.
    + unfold Rmax. destruct (Rle_dec v sum).
      * right. exists k. split; [lia | exact Hrow].
      * destruct Hwho as [Ez | [i [Hi E]]]; [left; exact Ez |].
        right. exists i. split; [lia | exact E].
  - split; [exact Hall |].
    apply largest_row_sum; assumption.
Qed.

End SymmetricNorm.

(** X25.  [Sym_Norm] with [NormType::Max], in exact arithmetic, for [half]
    one of [Half::Upper], [Half::Lower] and [1 <= n] in the range of [Index]:
    the value returned is the largest [|A(i,j)|] over the named triangle of
    the [n] by [n] block, and [work] is left as it was. *)
Theorem Sym_Norm_Max_is_the_largest_element (half : Half) (n : Z) (A : Mat R)
  (work : Arr R) :
  half <> Half_Both ->
  1 <= n < 2 ^ (Size_bits - 1) ->
  let r := fst (Sym_Norm NormType_Max half n A work) in
  (forall i j, in_triangle half n i j = true -> (Rabs (A i j) <= r)%R)
  /\ (exists i j, in_triangle half n i j = true /\ r = Rabs (A i j))
  /\ snd (Sym_Norm NormType_Max half n A work) = work.
Proof.
  intros Hhalf Hn. cbv zeta. unfold Sym_Norm.
  destruct (n =? 0) eqn:E0; [zbool; lia |].
  rewrite (to_Index_small n) by lia.
  assert (Hn1 : 1 <= n) by lia.
  destruct half; [| | contradiction]; cbn [Half_eqb fst snd].
  - destruct (Sym_Norm_Max_Upper_R A n Hn1) as [Hall [i [j [Hi [Hj E]]]]].
    split; [| split; [| reflexivity]].
    + intros i0 j0 Ht. unfold in_triangle in Ht.
      destruct (0 <=? i0) eqn:E1; destruct (i0 <=? j0) eqn:E2;
        destruct (j0 <? n) eqn:E3; try discriminate. zbool.
      apply Hall; lia.
    + exists i, j. split; [| exact E]. unfold in_triangle.
      destruct (0 <=? i) eqn:E1; destruct (i <=? j) eqn:E2;
        destruct (j <? n) eqn:E3; try reflexivity; zbool; lia.
  - destruct (Sym_Norm_Max_Lower_R A n Hn1) as [Hall [i [j [Hi [Hj E]]]]].
    split; [| split; [| reflexivity]].
    + intros i0 j0 Ht. unfold in_triangle in Ht.
      destruct (0 <=? j0) eqn:E1; destruct (j0 <=? i0) eqn:E2;
        destruct (i0 <? n) eqn:E3; try discriminate. zbool.
      apply Hall; lia.
    + exists i, j. split; [| exact E]. unfold in_triangle.
      destruct (0 <=? j) eqn:E1; destruct (j <=? i) eqn:E2;
        destruct (i <? n) eqn:E3; try reflexivity; zbool; lia.
Qed.

Lemma Sym_Norm_Max_is_the_largest_element_witness :
  let r := fst (Sym_Norm NormType_Max Half_Upper 2
                  (fun i j => IZR (i - 3 * j)) (fun _ => 0%R)) in
  (forall i j, in_triangle Half_Upper 2 i j = true ->
     (Rabs (IZR (i - 3 * j)) <= r)%R)
  /\ (exists i j, in_triangle Half_Upper 2 i j = true /\ r = Rabs (IZR (i - 3 * j)))
  /\ snd (Sym_Norm NormType_Max Half_Upper 2
            (fun i j => IZR (i - 3 * j)) (fun _ => 0%R)) = (fun _ => 0%R).
Proof.
  apply (Sym_Norm_Max_is_the_largest_element Half_Upper 2
           (fun i j => IZR (i - 3 * j)) (fun _ => 0%R)).
  - discriminate.
  - vm_compute. split; [discriminate | reflexivity].
Defined.

(** X26.  [Sym_Norm] with [NormType::One] or [NormType::Inf], in exact
    arithmetic, for [half] one of [Half::Upper], [Half::Lower] and [1 <= n] in
    the range of [Index]: the value returned is the largest row sum
    [sum_j |S(i,j)|] of the symmetric matrix [S] of order [n] whose named
    triangle [A] holds. *)
Theorem Sym_Norm_One_is_the_largest_row_sum (normType : NormType) (half : Half)
  (n : Z) (A : Mat R) (work : Arr R) :
  normType = NormType_One \/ normType = NormType_Inf ->
  half <> Half_Both ->
  1 <= n < 2 ^ (Size_bits - 1) ->
  let r := fst (Sym_Norm normType half n A work) in
  (forall i, 0 <= i < n -> (Sym_rowsum half n A i <= r)%R)
  /\ (exists i, 0 <= i < n /\ r = Sym_rowsum half n A i).
Proof.
  intros Hnorm Hhalf Hn. cbv zeta. unfold Sym_Norm.
  destruct (n =? 0) eqn:E0; [zbool; lia |].
  rewrite (to_Index_small n) by lia.
  assert (Hn1 : 1 <= n) by lia.
  destruct half; [| | contradiction]; cbn [Half_eqb];
    destruct Hnorm as [-> | ->]; cbv zeta.
  - cbn [fst]. exact (Sym_Norm_One_Upper_R A n Hn1 work).
  - cbn [fst]. exact (Sym_Norm_One_Upper_R A n Hn1 work).
  - pose proof (Sym_Norm_One_Lower_R A n Hn1 work) as Hl. cbv zeta in Hl.
    destruct (for_up (Z.to_nat n) 0 _ _) as [value work1]. exact Hl.
  - pose proof (Sym_Norm_One_Lower_R A n Hn1 work) as Hl. cbv zeta in Hl.
    destruct (for_up (Z.to_nat n) 0 _ _) as [value work1]. exact Hl.
Qed.

Lemma Sym_Norm_One_is_the_largest_row_sum_witness :
  let r := fst (Sym_Norm NormType_One Half_Lower 2
                  (fun i j => IZR (i - 3 * j)) (fun _ => 0%R)) in
  (forall i, 0 <= i < 2 ->
     (Sym_rowsum Half_Lower 2 (fun i j => IZR (i - 3 * j)) i <= r)%R)
  /\ (exists i, 0 <= i < 2 /\ r = Sym_rowsum Half_Lower 2 (fun i j => IZR (i - 3 * j)) i).
Proof.
  apply (Sym_Norm_One_is_the_largest_row_sum NormType_One Half_Lower 2
           (fun i j => IZR (i - 3 * j)) (fun _ => 0%R)).
  - left. reflexivity.
  - discriminate.
  - vm_compute. split; [discriminate | reflexivity].
Defined.

(** ** What Ort_From_QL, Ort_From_QR and Ort_From_Syt write in [A] *)

Section OrtFromBlock.
Context {T : Type} `{Scalar T}.

Lemma Rfl_MatMul_Left_block_frame m n (v : Arr T) V_cs tau (C : Mat T) work i j :
  0 <= m < 2 ^ (Size_bits - 1) ->
  0 <= n < 2 ^ (Size_bits - 1) ->
  ~ within m n (i, j) ->
  fst (Rfl_MatMul Side_Left m n v V_cs tau C work) i j = C i j.
Proof.
  intros Hm Hn Hout. unfold Rfl_MatMul.
  destruct (IsZero tau); [reflexivity |].
  cbv zeta. rewrite (to_Index_small m) by lia.
  match goal with |- context [Rfl_lastv ?c m ?i0 v V_cs] =>
    pose proof (Rfl_lastv_range v V_cs c m i0 ltac:(lia)) as Hlv;
    set (lv := Rfl_lastv c m i0 v V_cs) in *
  end.
  pose proof (Idx_LastCol_range C lv n Hn) as Hlc.
  destruct (lv >? 0); [| reflexivity].
  cbn [fst]. apply Mat_Rank1Upd_frame; try lia.
  unfold within in *. simpl in *. lia.
Qed.

Lemma Vec_Zero_inside n (x : Arr T) t :
  0 <= t < n -> Vec_Zero n x 1 t = zero.
Proof.
  intros Ht. unfold Vec_Zero. replace t with (t * 1) by lia.
  rewrite (for_up_upd_strided (fun _ _ => zero) 1 _ ltac:(lia)).
  destruct (0 <=? t) eqn:E1; destruct (t <? 0 + Z.of_nat (Z.to_nat n)) eqn:E2;
    cbn [andb]; try reflexivity; zbool; lia.
Qed.

Lemma Ort_From_QL_step_block_frame m n k tau i (st : Mat T * Arr T) r c :
  0 <= i < k -> 0 <= k <= n -> n <= m < 2 ^ (Size_bits - 1) ->
  ~ within m n (r, c) ->
  fst (Ort_From_QL_step m n k tau i st) r c = fst st r c.
Proof.
  intros Hi Hk Hm Hout. unfold Ort_From_QL_step. destruct st as [A work]. cbv zeta.
  unfold within in Hout. cbn [fst snd] in Hout.
  set (ii := n - k + i) in *.
  assert (Hii : 0 <= ii < n) by (unfold ii; lia).
  set (A1 := mupd A (m - n + ii) ii unit).
  assert (H1 : A1 r c = A r c).
  { unfold A1, mupd. destruct ((r =? m - n + ii) && (c =? ii)) eqn:E; [| reflexivity].
    apply andb_true_iff in E. destruct E as [E1 E2]. zbool. lia. }
  match goal with |- context [Rfl_MatMul ?s ?a ?b ?v ?cs ?tu ?C ?w] =>
    pose proof (Rfl_MatMul_Left_block_frame a b v cs tu C w r c ltac:(lia) ltac:(lia)
                  ltac:(unfold within; cbn [fst snd]; lia)) as H2;
    destruct (Rfl_MatMul s a b v cs tu C w) as [A2 work2]
  end.
  cbn [fst] in H2 |- *.
  set (A3 := set_Col A2 0 ii (Vec_Scale i (neg (tau i)) (Col_from A2 0 ii) 1)).
  assert (H3 : A3 r c = A2 r c).
  { unfold A3, set_Col. destruct (c =? ii) eqn:E; [| reflexivity]. zbool. subst c.
    rewrite Vec_Scale_frame by lia. unfold Col_from. f_equal. lia. }
  set (A4 := mupd A3 i ii (unit [-] tau i)).
  assert (H4 : A4 r c = A3 r c).
  { unfold A4, mupd. destruct ((r =? i) && (c =? ii)) eqn:E; [| reflexivity].
    apply andb_true_iff in E. destruct E as [E1 E2]. zbool. lia. }
  assert (H5 : (if i <? to_Index (m - 1)
                then set_Col A4 (i + 1) ii
                       (Vec_Zero (m - (i + 1)) (Col_from A4 (i + 1) ii) 1)
                else A4) r c = A4 r c).
  { destruct (i <? to_Index (m - 1)); [| reflexivity].
    unfold set_Col. destruct (c =? ii) eqn:E; [| reflexivity]. zbool. subst c.
    rewrite Vec_Zero_frame by lia. unfold Col_from. f_equal. lia. }
  rewrite H5, H4, H3, H2. exact H1.
Qed.

Lemma Ort_From_QR_step_block_frame m n tau i (st : Mat T * Arr T) r c :
  0 <= i < n -> n <= m < 2 ^ (Size_bits - 1) ->
  ~ within m n (r, c) ->
  fst (Ort_From_QR_step m n tau i st) r c = fst st r c.
Proof.
  intros Hi Hm Hout. unfold Ort_From_QR_step. destruct st as [A work].
  unfold within in Hout. cbn [fst snd] in Hout.
  assert (H1 : forall A1 work1,
            (if i <? to_Index (n - 1)
             then
               let A := mupd A i i unit in
               let '(C, work) :=
                 Rfl_MatMul Side_Left (m - i) (n - (i + 1)) (Col_from A i i) 1 (tau i)
                   (Blk A i (i + 1)) work in
               (unBlk C i (i + 1), work)
             else (A, work)) = (A1, work1) ->
            A1 r c = A r c).
  { intros A1 work1. destruct (i <? to_Index (n - 1)).
    - cbv zeta.
      match goal with |- context [Rfl_MatMul ?s ?a ?b ?v ?cs ?tu ?C ?w] =>
        pose proof (Rfl_MatMul_Left_block_frame a b v cs tu C w (r - i) (c - (i + 1))
                      ltac:(lia) ltac:(lia)
                      ltac:(unfold within; cbn [fst snd]; lia)) as H2;
        destruct (Rfl_MatMul s a b v cs tu C w) as [C2 work2]
      end.
      cbn [fst] in H2. intros E. inversion E. subst A1 work1.
      unfold unBlk. rewrite H2. unfold Blk, mupd.
      replace (r - i + i) with r by lia. replace (c - (i + 1) + (i + 1)) with c by lia.
      destruct ((r =? i) && (c =? i)) eqn:E2; [| reflexivity].
      apply andb_true_iff in E2. destruct E2 as [E3 E4]. zbool. lia.
    - intros E. inversion E. reflexivity. }
  destruct (if i <? to_Index (n - 1)
            then
              let A := mupd A i i unit in
              let '(C, work) :=
                Rfl_MatMul Side_Left (m - i) (n - (i + 1)) (Col_from A i i) 1 (tau i)
                  (Blk A i (i + 1)) work in
              (unBlk C i (i + 1), work)
            else (A, work)) as [A1 work1].
  specialize (H1 A1 work1 eq_refl). cbv zeta. cbn [fst].
  set (A2 := if i <? to_Index (m - 1)
             then set_Col A1 (i + 1) i
                    (Vec_Scale (m - (i + 1)) (neg (tau i)) (Col_from A1 (i + 1) i) 1)
             else A1).
  assert (H2 : A2 r c = A1 r c).
  { unfold A2. destruct (i <? to_Index (m - 1)); [| reflexivity].
    unfold set_Col. destruct (c =? i) eqn:E; [| reflexivity]. zbool. subst c.
    rewrite Vec_Scale_frame by lia. unfold Col_from. f_equal. lia. }
  set (A3 := mupd A2 i i (unit [-] tau i)).
  assert (H3 : A3 r c = A2 r c).
  { unfold A3, mupd. destruct ((r =? i) && (c =? i)) eqn:E; [| reflexivity].
    apply andb_true_iff in E. destruct E as [E1 E2]. zbool. lia. }
  unfold set_Col. destruct (c =? i) eqn:E.
  - zbool. subst c. rewrite Vec_Zero_frame by lia. unfold Col_from.
    replace (0 + (r - 0)) with r by lia. rewrite H3, H2. exact H1.
  - rewrite H3, H2. exact H1.
Qed.

(** For [k <= n <= m] the two routines change nothing outside the [m] by
    [n] block of [A]. *)
Lemma Ort_From_QL_block_frame m n k (A : Mat T) tau work :
  0 <= k <= n -> n <= m < 2 ^ (Size_bits - 1) ->
  exists A' work',
    Ort_From_QL m n k A tau work = Ok (A', work')
    /\ forall r c, ~ within m n (r, c) -> A' r c = A r c.
Proof.
  intros Hk Hm. unfold Ort_From_QL.
  destruct (n >? m) eqn:E1; [zbool; lia |].
  destruct (k >? n) eqn:E2; [zbool; lia |].
  destruct (n =? 0); [exists A, work; split; [reflexivity | reflexivity] |].
  cbv zeta.
  match goal with |- context [Ok ?res] =>
    exists (fst res), (snd res); split; [destruct res; reflexivity |]
  end.
  intros r c Hout. revert r c Hout.
  rewrite (to_Index_small k), (to_Index_small m), (to_Index_small (n - k)) by lia.
  apply (for_up_keeps
           (fun st : Mat T * Arr T =>
              forall r c, ~ within m n (r, c) -> fst st r c = A r c)).
  - intros r c Hout. cbn [fst].
    rewrite (unit_columns (fun j => m - n + j) m).
    replace (0 + Z.of_nat (Z.to_nat (n - k))) with (n - k) by lia.
    unfold within in Hout. cbn [fst snd] in Hout.
    destruct (0 <=? c) eqn:E3; destruct (c <? n - k) eqn:E4; cbn [andb];
      try reflexivity.
    zbool. destruct (r =? m - n + c) eqn:E5; [zbool; lia |].
    destruct (0 <=? r) eqn:E6; destruct (r <? m) eqn:E7; cbn [andb];
      try reflexivity. zbool. lia.
  - intros i st Hi Hst r c Hout.
    rewrite Ort_From_QL_step_block_frame by (try assumption; lia).
    apply Hst. exact Hout.
Qed.

Lemma Ort_From_QR_block_frame m n k (A : Mat T) tau work :
  0 <= k <= n -> n <= m < 2 ^ (Size_bits - 1) ->
  exists A' work',
    Ort_From_QR m n k A tau work = Ok (A', work')
    /\ forall r c, ~ within m n (r, c) -> A' r c = A r c.
Proof.
  intros Hk Hm. unfold Ort_From_QR.
  destruct (n >? m) eqn:E1; [zbool; lia |].
  destruct (k >? n) eqn:E2; [zbool; lia |].
  destruct (n =? 0); [exists A, work; split; [reflexivity | reflexivity] |].
  cbv zeta.
  match goal with |- context [Ok ?res] =>
    exists (fst res), (snd res); split; [destruct res; reflexivity |]
  end.
  intros r c Hout. revert r c Hout.
  rewrite (to_Index_small k), (to_Index_small m), (to_Index_small n),
    (to_Index_small (k - 1)) by lia.
  apply (for_down_keeps
           (fun st : Mat T * Arr T =>
              forall r c, ~ within m n (r, c) -> fst st r c = A r c)).
  - intros r c Hout. cbn [fst].
    rewrite (unit_columns (fun j => j) m).
    replace (k + Z.of_nat (Z.to_nat (n - k))) with n by lia.
    unfold within in Hout. cbn [fst snd] in Hout.
    destruct (k <=? c) eqn:E3; destruct (c <? n) eqn:E4; cbn [andb];
      try reflexivity.
    zbool. destruct (r =? c) eqn:E5; [zbool; lia |].
    destruct (0 <=? r) eqn:E6; destruct (r <? m) eqn:E7; cbn [andb];
      try reflexivity. zbool. lia.
  - intros i st Hi Hst r c Hout.
    rewrite Ort_From_QR_step_block_frame by (try assumption; lia).
    apply Hst. exact Hout.
Qed.

End OrtFromBlock.

Section OrtFromSytBorder.
Context {T : Type} `{Scalar T}.

Lemma Vec_Copy_frame n (x : Arr T) x_s (y : Arr T) t :
  ~ (0 <= t < n) -> Vec_Copy n x x_s y 1 t = y t.
Proof.
  intros Ht. unfold Vec_Copy.
  apply (for_up_keeps (fun y' : Arr T => y' t = y t)); [reflexivity |].
  intros k st Hk Hst. unfold upd.
  destruct (t =? k * 1) eqn:E; [zbool; lia | exact Hst].
Qed.

(** The shift of the reflectors one column to the left writes above the
    diagonal of the leading block of order [n - 1]. *)
Lemma shift_left_frame (n : Z) (A : Mat T) r c :
  ~ (0 <= c < n - 1 /\ 0 <= r < c) ->
  for_up (Z.to_nat (n - 1)) 0
    (fun j A => set_Col A 0 j (Vec_Copy j (Col_from A 0 (j + 1)) 1 (Col_from A 0 j) 1))
    A r c = A r c.
Proof.
  intros Hout.
  apply (for_up_keeps (fun st : Mat T => st r c = A r c)); [reflexivity |].
  intros j st Hj Hst. unfold set_Col.
  destruct (c =? j) eqn:E; [| exact Hst]. zbool. subst c.
  rewrite Vec_Copy_frame by lia. unfold Col_from.
  replace (0 + (r - 0)) with r by lia. exact Hst.
Qed.

(** The shift of the reflectors one column to the right writes zeros in row
    [0] and, below the diagonal, inside the block of order [n]. *)
Lemma shift_right_row_0 (n : Z) (A : Mat T) j :
  1 <= j <= n - 1 ->
  for_down (Z.to_nat (n - 1)) (n - 1)
    (fun j A =>
       let A := mupd A 0 j zero in
       for_up (Z.to_nat (n - (j + 1))) (j + 1)
         (fun i A => mupd A i j (A i (j - 1))) A) A 0 j = zero.
Proof.
  intros Hj.
  match goal with
  | |- for_down ?cnt ?start ?bd A 0 j = zero =>
      pose proof (for_down_ind
        (fun k (st : Mat T) => forall j, k < j <= n - 1 -> st 0 j = zero)
        bd cnt start A) as Hind
  end.
  cbv beta in Hind. apply Hind; [intros j0 Hj0; lia | | lia].
  intros k st Hk Hst j0 Hj0. cbv zeta.
  apply (for_up_keeps (fun st' : Mat T => st' 0 j0 = zero)).
  - unfold mupd. destruct ((0 =? 0) && (j0 =? k)) eqn:E; [reflexivity |].
    apply Hst. cbn [andb Z.eqb] in E. zbool. lia.
  - intros i st' Hi Hst'. unfold mupd.
    destruct ((0 =? i) && (j0 =? k)) eqn:E; [| exact Hst'].
    apply andb_true_iff in E. destruct E as [E1 E2]. zbool. lia.
Qed.

Lemma shift_right_frame (n : Z) (A : Mat T) r c :
  ~ within n n (r, c) ->
  for_down (Z.to_nat (n - 1)) (n - 1)
    (fun j A =>
       let A := mupd A 0 j zero in
       for_up (Z.to_nat (n - (j + 1))) (j + 1)
         (fun i A => mupd A i j (A i (j - 1))) A) A r c = A r c.
Proof.
  intros Hout. unfold within in Hout. cbn [fst snd] in Hout.
  apply (for_down_keeps (fun st : Mat T => st r c = A r c)); [reflexivity |].
  intros k st Hk Hst. cbv zeta.
  apply (for_up_keeps (fun st' : Mat T => st' r c = A r c)).
  - unfold mupd. destruct ((r =? 0) && (c =? k)) eqn:E; [| exact Hst].
    apply andb_true_iff in E. destruct E as [E1 E2]. zbool. lia.
  - intros i st' Hi Hst'. unfold mupd.
    destruct ((r =? i) && (c =? k)) eqn:E; [| exact Hst'].
    apply andb_true_iff in E. destruct E as [E1 E2]. zbool. lia.
Qed.

Lemma Ort_From_Syt_Upper_border (n : Z) (A : Mat T) (tau work : Arr T) :
  1 <= n < 2 ^ (Size_bits - 1) ->
  exists A' work',
    Ort_From_Syt Half_Upper n A tau work = Ok (A', work')
    /\ A' (n - 1) (n - 1) = unit
    /\ (forall i, 0 <= i < n - 1 -> A' i (n - 1) = zero /\ A' (n - 1) i = zero)
    /\ (forall r c, ~ within n n (r, c) -> A' r c = A r c).
Proof.
  intros Hn. unfold Ort_From_Syt.
  destruct (n =? 0) eqn:E0; [zbool; lia |].
  cbv zeta. rewrite (to_Index_small (n - 1)) by lia.
  set (P0 := for_up (Z.to_nat (n - 1)) 0
               (fun j A =>
                  set_Col A 0 j (Vec_Copy j (Col_from A 0 (j + 1)) 1 (Col_from A 0 j) 1))
               A).
  assert (H0 : forall r c, ~ (0 <= c < n - 1 /\ 0 <= r < c) -> P0 r c = A r c).
  { intros r c Hrc. apply shift_left_frame. exact Hrc. }
  clearbody P0.
  set (P1 := set_Row P0 (n - 1) 0 (Vec_Zero (n - 1) (Row_from P0 (n - 1) 0) 1)).
  set (P2 := set_Col P1 0 (n - 1) (Vec_Zero (n - 1) (Col_from P1 0 (n - 1)) 1)).
  set (P3 := mupd P2 (n - 1) (n - 1) unit).
  destruct (Ort_From_QL_block_frame (n - 1) (n - 1) (n - 1) P3 tau work
              ltac:(lia) ltac:(lia)) as [A' [work' [Hrun Hfr]]].
  exists A', work'. split; [exact Hrun |].
  assert (Hedge : forall r c, r = n - 1 \/ c = n - 1 \/ ~ within n n (r, c) ->
            A' r c = P3 r c).
  { intros r c Hrc. apply Hfr. unfold within. cbn [fst snd].
    destruct Hrc as [-> | [-> | Hrc]]; [lia | lia |].
    unfold within in Hrc. cbn [fst snd] in Hrc. lia. }
  split; [| split].
  - rewrite Hedge by (left; reflexivity). unfold P3, mupd.
    rewrite !Z.eqb_refl. reflexivity.
  - intros i Hi. split.
    + rewrite Hedge by (right; left; reflexivity). unfold P3, mupd.
      destruct (i =? n - 1) eqn:E; [zbool; lia |]. cbn [andb].
      unfold P2, set_Col. rewrite Z.eqb_refl.
      apply Vec_Zero_inside. lia.
    + rewrite Hedge by (left; reflexivity). unfold P3, mupd.
      destruct (i =? n - 1) eqn:E; [zbool; lia |]. rewrite andb_false_r.
      unfold P2, set_Col. rewrite E.
      unfold P1, set_Row. rewrite Z.eqb_refl.
      apply Vec_Zero_inside. lia.
  - intros r c Hout. rewrite Hedge by (right; right; exact Hout).
    unfold within in Hout. cbn [fst snd] in Hout.
    unfold P3, mupd.
    destruct ((r =? n - 1) && (c =? n - 1)) eqn:E.
    { apply andb_true_iff in E. destruct E as [E1 E2]. zbool. lia. }
    unfold P2, set_Col. destruct (c =? n - 1) eqn:Ec.
    + zbool. subst c. rewrite Vec_Zero_frame by lia. unfold Col_from.
      replace (0 + (r - 0)) with r by lia.
      unfold P1, set_Row. destruct (r =? n - 1) eqn:Er; [zbool; lia |].
      apply H0. lia.
    + zbool. unfold P1, set_Row. destruct (r =? n - 1) eqn:Er.
      * zbool. subst r. rewrite Vec_Zero_frame by lia. unfold Row_from.
        replace (0 + (c - 0)) with c by lia. apply H0. lia.
      * apply H0. zbool. lia.
Qed.

Lemma Ort_From_Syt_Lower_border (n : Z) (A : Mat T) (tau work : Arr T) :
  1 <= n < 2 ^ (Size_bits - 1) ->
  exists A' work',
    Ort_From_Syt Half_Lower n A tau work = Ok (A', work')
    /\ A' 0 0 = unit
    /\ (forall i, 1 <= i < n -> A' i 0 = zero /\ A' 0 i = zero)
    /\ (forall r c, ~ within n n (r, c) -> A' r c = A r c).
Proof.
  intros Hn. unfold Ort_From_Syt.
  destruct (n =? 0) eqn:E0; [zbool; lia |].
  cbv zeta. rewrite (to_Index_small (n - 1)), (to_Index_small n) by lia.
  set (P0 := for_down (Z.to_nat (n - 1)) (n - 1)
               (fun j A =>
                  let A := mupd A 0 j zero in
                  for_up (Z.to_nat (n - (j + 1))) (j + 1)
                    (fun i A => mupd A i j (A i (j - 1))) A) A).
  assert (H0 : forall j, 1 <= j <= n - 1 -> P0 0 j = zero).
  { intros j Hj. apply shift_right_row_0. exact Hj. }
  assert (H0f : forall r c, ~ within n n (r, c) -> P0 r c = A r c).
  { intros r c Hrc. apply shift_right_frame. exact Hrc. }
  clearbody P0.
  set (P1 := mupd P0 0 0 unit).
  set (P2 := set_Col P1 1 0 (Vec_Zero (n - 1) (Col_from P1 1 0) 1)).
  destruct (Ort_From_QR_block_frame (n - 1) (n - 1) (n - 1) (Blk P2 1 1) tau work
              ltac:(lia) ltac:(lia)) as [B [work' [Hrun Hfr]]].
  rewrite Hrun. cbn [bind].
  exists (unBlk B 1 1), work'. split; [reflexivity |].
  assert (Hedge : forall r c, r = 0 \/ c = 0 \/ ~ within n n (r, c) ->
            unBlk B 1 1 r c = P2 r c).
  { intros r c Hrc. unfold unBlk. rewrite Hfr.
    - unfold Blk. f_equal; lia.
    - unfold within. cbn [fst snd].
      destruct Hrc as [-> | [-> | Hrc]]; [lia | lia |].
      unfold within in Hrc. cbn [fst snd] in Hrc. lia. }
  assert (H2col : forall r, P2 r 0 = Vec_Zero (n - 1) (Col_from P1 1 0) 1 (r - 1)).
  { intros r. unfold P2, set_Col. rewrite Z.eqb_refl. reflexivity. }
  assert (H2other : forall r c, c <> 0 -> P2 r c = P0 r c).
  { intros r c Hc. unfold P2, set_Col. destruct (c =? 0) eqn:E; [zbool; lia |].
    unfold P1, mupd. rewrite E, andb_false_r. reflexivity. }
  split; [| split].
  - rewrite Hedge by (left; reflexivity). rewrite H2col.
    rewrite Vec_Zero_frame by lia. unfold Col_from, P1, mupd. reflexivity.
  - intros i Hi. split.
    + rewrite Hedge by (right; left; reflexivity). rewrite H2col.
      apply Vec_Zero_inside. lia.
    + rewrite Hedge by (left; reflexivity). rewrite H2other by lia.
      apply H0. lia.
  - intros r c Hout. rewrite Hedge by (right; right; exact Hout).
    destruct (Z.eq_dec c 0) as [-> | Hc].
    + rewrite H2col. unfold within in Hout. cbn [fst snd] in Hout.
      rewrite Vec_Zero_frame by lia. unfold Col_from.
      replace (1 + (r - 1)) with r by lia.
      unfold P1, mupd. destruct (r =? 0) eqn:Er; [zbool; lia |]. cbn [andb].
      apply H0f. unfold within. cbn [fst snd]. lia.
    + rewrite H2other by exact Hc. apply H0f. exact Hout.
Qed.

End OrtFromSytBorder.

(** X27.  For every scalar type and [0 <= k <= n <= m] in the range of
    [Index], [Ort_From_QL] and [Ort_From_QR] return and change no element of
    [A] outside the [m] by [n] block. *)
Theorem Ort_From_QL_and_QR_write_the_block_only {T : Type} `{Scalar T}
  (m n k : Z) (A : Mat T) (tau work : Arr T) :
  0 <= k <= n -> n <= m < 2 ^ (Size_bits - 1) ->
  (exists A' work',
     Ort_From_QL m n k A tau work = Ok (A', work')
     /\ forall r c, ~ within m n (r, c) -> A' r c = A r c)
  /\ (exists A' work',
        Ort_From_QR m n k A tau work = Ok (A', work')
        /\ forall r c, ~ within m n (r, c) -> A' r c = A r c).
Proof.
  intros Hk Hm. split.
  - apply Ort_From_QL_block_frame; assumption.
  - apply Ort_From_QR_block_frame; assumption.
Qed.

Lemma Ort_From_QL_and_QR_write_the_block_only_witness :
  (exists A' work',
     Ort_From_QL 3 2 2 (fun i j => b64 (i + j)) (b64_arr [1; 1]) (b64_arr [7; 7])
     = Ok (A', work')
     /\ forall r c, ~ within 3 2 (r, c) -> A' r c = b64 (r + c))
  /\ (exists A' work',
        Ort_From_QR 3 2 2 (fun i j => b64 (i + j)) (b64_arr [1; 1]) (b64_arr [7; 7])
        = Ok (A', work')
        /\ forall r c, ~ within 3 2 (r, c) -> A' r c = b64 (r + c)).
Proof.
  apply (Ort_From_QL_and_QR_write_the_block_only 3 2 2 (fun i j => b64 (i + j))
           (b64_arr [1; 1]) (b64_arr [7; 7])).
  - lia.
  - unfold Size_bits. lia.
Defined.

(** X28.  For every scalar type, [half] one of [Half::Upper], [Half::Lower]
    and [1 <= n] in the range of [Index], [Ort_From_Syt] returns a matrix
    whose last (for [Half::Upper]) or first (for [Half::Lower]) row and
    column are those of the unit matrix of order [n]; outside the [n] by [n]
    block [A] is not changed. *)
Theorem Ort_From_Syt_sets_the_border {T : Type} `{Scalar T}
  (half : Half) (n : Z) (A : Mat T) (tau work : Arr T) :
  half <> Half_Both ->
  1 <= n < 2 ^ (Size_bits - 1) ->
  exists A' work',
    Ort_From_Syt half n A tau work = Ok (A', work')
    /\ (let b := match half with Half_Upper => n - 1 | _ => 0 end in
        A' b b = unit
        /\ forall i, 0 <= i < n -> i <> b -> A' i b = zero /\ A' b i = zero)
    /\ (forall r c, ~ within n n (r, c) -> A' r c = A r c).
Proof.
  intros Hhalf Hn. destruct half; [| | contradiction].
  - destruct (Ort_From_Syt_Upper_border n A tau work Hn)
      as [A' [work' [Hrun [Hc [Hb Hfr]]]]].
    exists A', work'. split; [exact Hrun |]. split; [| exact Hfr].
    cbv zeta. split; [exact Hc |]. intros i Hi Hne. apply Hb. lia.
  - destruct (Ort_From_Syt_Lower_border n A tau work Hn)
      as [A' [work' [Hrun [Hc [Hb Hfr]]]]].
    exists A', work'. split; [exact Hrun |]. split; [| exact Hfr].
    cbv zeta. split; [exact Hc |]. intros i Hi Hne. apply Hb. lia.
Qed.

Lemma Ort_From_Syt_sets_the_border_witness :
  exists A' work',
    Ort_From_Syt Half_Lower 3 (fun i j => b64 (i + j)) (b64_arr [1; 1]) (b64_arr [7; 7])
    = Ok (A', work')
    /\ (let b := 0 in
        A' b b = unit
        /\ forall i, 0 <= i < 3 -> i <> b -> A' i b = zero /\ A' b i = zero)
    /\ (forall r c, ~ within 3 3 (r, c) -> A' r c = b64 (r + c)).
Proof.
  apply (Ort_From_Syt_sets_the_border Half_Lower 3 (fun i j => b64 (i + j))
           (b64_arr [1; 1]) (b64_arr [7; 7])).
  - discriminate.
  - unfold Size_bits. lia.
Defined.

(** ** Aux_PlnRot2 on small input *)

Section PlaneRotationSmall.
Local Open Scope R_scope.

Lemma minValue_times_maxValue : R_minValue * R_maxValue = 4 - / 2 ^ 51.
Proof.
  unfold R_minValue, R_maxValue.
  change 1023%nat with (S 1022). change 52%nat with (S 51).
  rewrite <- !tech_pow_Rmult.
  assert (H1 : 2 ^ 1022 <> 0) by (apply pow_nonzero; lra).
  assert (H2 : 2 ^ 51 <> 0) by (apply pow_nonzero; lra).
  field; try (split; assumption).
Qed.

Lemma minValue_times_maxValue_gt_1 : 1 < R_minValue * R_maxValue.
Proof.
  rewrite minValue_times_maxValue.
  assert (H : 0 < / 2 ^ 51 <= 1).
  { split; [apply Rinv_0_lt_compat; apply pow_lt; lra |].
    rewrite <- Rinv_1. apply Rinv_le_contravar; [lra |]. apply pow_R1_Rle. lra. }
  lra.
Qed.

Lemma Aux_PlnRot2_small_R (fuel : nat) (f g : R) :
  f <> 0 -> g <> 0 ->
  Rmax (Rabs f) (Rabs g) <= R_minValue ->
  R_minValue < Rmax (Rabs f) (Rabs g) * R_maxValue ->
  exists cs sn r,
    Aux_PlnRot2 (S fuel) f g = Ok (cs, sn, r)
    /\ cs * cs + sn * sn = 1
    /\ - sn * f + cs * g = 0
    /\ r = (4 - / 2 ^ 51) * (cs * f + sn * g)
    /\ cs * f + sn * g <> r.
Proof.
  intros Hf Hg Hsmall Hone.
  pose proof R_minValue_pos as Hs0. pose proof R_minValue_lt_1 as Hs1.
  pose proof R_maxValue_gt_1 as Hm1.
  pose proof minValue_times_maxValue as Hprod.
  pose proof minValue_times_maxValue_gt_1 as Hprod1.
  unfold Aux_PlnRot2.
  rewrite (proj2 (IsZero_R_false g) Hg). rewrite (proj2 (IsZero_R_false f) Hf).
  cbv zeta. rewrite Max_R.
  change (Abs f) with (Rabs f). change (Abs g) with (Rabs g).
  change (@minValue R R_Scalar) with R_minValue.
  change (@maxValue R R_Scalar) with R_maxValue.
  change (Rmax (Rabs f) (Rabs g) [>=] R_maxValue)
    with (R_leb R_maxValue (Rmax (Rabs f) (Rabs g))).
  rewrite (proj2 (R_leb_false _ _)) by lra.
  change (Rmax (Rabs f) (Rabs g) [<=] R_minValue)
    with (R_leb (Rmax (Rabs f) (Rabs g)) R_minValue).
  rewrite (proj2 (R_leb_true _ _) Hsmall).
  cbn [PlnRot2_rescale]. cbv zeta.
  change (f [*] R_maxValue) with (f * R_maxValue).
  change (g [*] R_maxValue) with (g * R_maxValue).
  rewrite Max_R.
  change (Abs (f * R_maxValue)) with (Rabs (f * R_maxValue)).
  change (Abs (g * R_maxValue)) with (Rabs (g * R_maxValue)).
  assert (Hscale : Rmax (Rabs (f * R_maxValue)) (Rabs (g * R_maxValue))
                   = Rmax (Rabs f) (Rabs g) * R_maxValue).
  { rewrite !Rabs_mult. rewrite (Rabs_right R_maxValue) by lra.
    rewrite (Rmult_comm (Rabs f)), (Rmult_comm (Rabs g)).
    rewrite RmaxRmult by lra. ring. }
  rewrite Hscale.
  change (Rmax (Rabs f) (Rabs g) * R_maxValue [<=] R_minValue)
    with (R_leb (Rmax (Rabs f) (Rabs g) * R_maxValue) R_minValue).
  rewrite (proj2 (R_leb_false _ _)) by lra.
  cbn [bind PlnRot2_unscale].
  change (Hypot (f * R_maxValue) (g * R_maxValue))
    with (R_hypot (f * R_maxValue) (g * R_maxValue)).
  assert (Hf1 : f * R_maxValue <> 0) by (apply Rmult_integral_contrapositive; lra).
  destruct (hypot_rotation (f * R_maxValue) (g * R_maxValue) (or_introl Hf1))
    as [Hr [Hunit [Hrot Hzero]]].
  set (r := R_hypot (f * R_maxValue) (g * R_maxValue)) in *.
  change (f * R_maxValue [/] r) with (f * R_maxValue / r).
  change (g * R_maxValue [/] r) with (g * R_maxValue / r).
  change (r [*] R_minValue) with (r * R_minValue).
  change (Rabs g [<] Rabs f) with (R_ltb (Rabs g) (Rabs f)).
  set (cs := f * R_maxValue / r) in *. set (sn := g * R_maxValue / r) in *.
  assert (Hcs : cs <> 0).
  { unfold cs, Rdiv. intros E. apply Rmult_integral in E. destruct E as [E | E];
      [contradiction |]. pose proof (Rinv_0_lt_compat r Hr). lra. }
  assert (Hlen : (cs * f + sn * g) * R_maxValue = r) by (rewrite <- Hrot; ring).
  assert (Hzero' : - sn * f + cs * g = 0).
  { apply Rmult_eq_reg_r with R_maxValue; [| lra]. rewrite Rmult_0_l.
    rewrite <- Hzero. ring. }
  assert (Hr' : r * R_minValue = (4 - / 2 ^ 51) * (cs * f + sn * g)).
  { rewrite <- Hprod, <- Hlen. ring. }
  assert (Hpos : 0 < cs * f + sn * g).
  { apply Rmult_lt_reg_r with R_maxValue; [lra |]. rewrite Hlen. lra. }
  assert (Hne : cs * f + sn * g <> r * R_minValue).
  { rewrite Hr', <- Hprod. nra. }
  destruct (R_ltb (Rabs g) (Rabs f)) eqn:Elt.
  - destruct (IntSignOrZero_R cs) as [[-> Hs] | [[-> Hs] | [-> Hs]]].
    + change (1 <? 0)%Z with false. cbn [andb].
      exists cs, sn, (r * R_minValue). split; [reflexivity |].
      repeat split; assumption.
    + change (-1 <? 0)%Z with true. cbn [andb].
      change (neg cs) with (- cs). change (neg sn) with (- sn).
      change (neg (r * R_minValue)) with (- (r * R_minValue)).
      exists (- cs), (- sn), (- (r * R_minValue)). split; [reflexivity |].
      split; [lra |]. split; [lra |]. split; [lra |]. lra.
    + contradiction.
  - cbn [andb].
    exists cs, sn, (r * R_minValue). split; [reflexivity |].
    repeat split; assumption.
Qed.

End PlaneRotationSmall.

(** X29.  [Aux_PlnRot2] in exact arithmetic, on [f] and [g] that are not
    zero, with the larger of [|f|], [|g|] at most [minValue] (and more than
    [minValue/maxValue], so that one pass of the scaling loop is enough):
    the call returns [cs] and [sn] of a rotation that takes [(f, g)] to
    [(cs*f + sn*g, 0)], but the [r] it returns is [4 - 2^-51] times
    [cs*f + sn*g]: [f] and [g] are scaled up by [maxValue] and [r] is scaled
    back by [minValue], and [minValue*maxValue] is not one. *)
Theorem Aux_PlnRot2_scales_r_on_small_input (fuel : nat) (f g : R) :
  f <> 0%R -> g <> 0%R ->
  (Rmax (Rabs f) (Rabs g) <= R_minValue)%R ->
  (R_minValue < Rmax (Rabs f) (Rabs g) * R_maxValue)%R ->
  exists cs sn r,
    Aux_PlnRot2 (S fuel) f g = Ok (cs, sn, r)
    /\ (cs * cs + sn * sn = 1)%R
    /\ (- sn * f + cs * g = 0)%R
    /\ (r = (4 - / 2 ^ 51) * (cs * f + sn * g))%R
    /\ (cs * f + sn * g <> r)%R.
Proof.
  apply Aux_PlnRot2_small_R.
Qed.

Lemma Aux_PlnRot2_scales_r_on_small_input_witness :
  exists cs sn r,
    Aux_PlnRot2 1 R_minValue R_minValue = Ok (cs, sn, r)
    /\ (cs * cs + sn * sn = 1)%R
    /\ (- sn * R_minValue + cs * R_minValue = 0)%R
    /\ (r = (4 - / 2 ^ 51) * (cs * R_minValue + sn * R_minValue))%R
    /\ (cs * R_minValue + sn * R_minValue <> r)%R.
Proof.
  pose proof R_minValue_pos as Hs0. pose proof R_maxValue_gt_1 as Hm1.
  apply (Aux_PlnRot2_scales_r_on_small_input 0 R_minValue R_minValue).
  - lra.
  - lra.
  - rewrite Rmax_left by lra. rewrite Rabs_right by lra. lra.
  - rewrite Rmax_left by lra. rewrite Rabs_right by lra. nra.
Defined.
